(** * Topside: session orchestrator, provider registries, local
      transcription pipeline and button parsing

    A shallow embedding of the parts of the Topside voice assistant whose
    behaviour the specification describes:

    - [JS]: JavaScript strings as lists of UTF-16 code units, with the
      string methods and the regular-expression matcher the sources rely on;
    - [AI] and [AIService]: [parseButtons] and the AI provider registry of
      [ai-service.js];
    - [TranscribeService]: the provider registry of [transcribe-service.js];
    - [Whisper]: the energy gate, the hallucination filter and the inference
      pass of [transcribe-providers/whisper-local.js];
    - [Session]: the [SessionOrchestrator] of [session-orchestrator.js], as
      an event-driven machine whose [await]s are explicit suspension points.
*)

From Stdlib Require Import String Ascii NArith ZArith Bool Arith Lia List.
From Stdlib Require Floats Uint63.
Import ListNotations.

(* ===================================================================== *)
(** * JavaScript strings and regular expressions *)
(* ===================================================================== *)

Module JS.

(** A JavaScript string is a sequence of UTF-16 code units. *)
Definition jsstring := list N.

Definition ch (a : ascii) : N := N_of_ascii a.
Arguments ch a%_char.

Definition js (s : string) : jsstring := map N_of_ascii (list_ascii_of_string s).
Arguments js s%_string.

Definition NL : N := 10.
Definition QUOTE : N := 34.
Definition APOS : N := 39.
Definition BULLET : N := 8226.
Definition ARROW : N := 8594.

Fixpoint jseq (a b : jsstring) : bool :=
  match a, b with
  | [], [] => true
  | x :: a', y :: b' => (x =? y)%N && jseq a' b'
  | _, _ => false
  end.

Definition isEmpty (s : jsstring) : bool :=
  match s with [] => true | _ => false end.

(** ECMAScript WhiteSpace and LineTerminator code units: the set stripped by
    [trim] and matched by [\s]. *)
Definition isWhiteSpace (c : N) : bool :=
  ((c =? 9) || (c =? 10) || (c =? 11) || (c =? 12) || (c =? 13) || (c =? 32)
   || (c =? 160) || (c =? 5760) || ((8192 <=? c) && (c <=? 8202))
   || (c =? 8232) || (c =? 8233) || (c =? 8239) || (c =? 8287)
   || (c =? 12288) || (c =? 65279))%N.

Fixpoint dropWhile (p : N -> bool) (s : jsstring) : jsstring :=
  match s with
  | [] => []
  | c :: t => if p c then dropWhile p t else s
  end.

Definition trimStart (s : jsstring) : jsstring := dropWhile isWhiteSpace s.
Definition trimEnd (s : jsstring) : jsstring := rev (dropWhile isWhiteSpace (rev s)).
Definition trim (s : jsstring) : jsstring := trimStart (trimEnd s).

(** [s.substring(a, b)] for [a <= b]. *)
Definition substring (s : jsstring) (a b : nat) : jsstring := firstn (b - a) (skipn a s).

(** [s.split(c)] for a one-character separator. *)
Fixpoint splitOn (c : N) (s : jsstring) : list jsstring :=
  match s with
  | [] => [[]]
  | x :: t =>
      if (x =? c)%N then [] :: splitOn c t
      else match splitOn c t with
           | h :: r => (x :: h) :: r
           | [] => [[x]]
           end
  end.

(** [l.join(sep)]. *)
Fixpoint join (sep : jsstring) (l : list jsstring) : jsstring :=
  match l with
  | [] => []
  | [a] => a
  | a :: t => a ++ sep ++ join sep t
  end.

(** [l.filter(Boolean)] on strings: the empty string is the only falsy one. *)
Definition filterBoolean (l : list jsstring) : list jsstring :=
  filter (fun s => negb (isEmpty s)) l.

(** [l.slice(-n)] for [n > 0], and [l.slice(0, -n)]. *)
Definition sliceLast {A} (n : nat) (l : list A) : list A := skipn (length l - n) l.
Definition sliceButLast {A} (n : nat) (l : list A) : list A := firstn (length l - n) l.

(** ** Regular expressions

    The patterns of the sources are written as terms of [regex] and run by a
    backtracking matcher that follows the ECMAScript matching rules:
    alternatives are tried left to right, quantifiers are greedy or lazy, an
    iteration of a quantifier that consumes nothing is rejected, [^] and [$]
    (no [m] flag) match at the two ends of the input only. *)

Inductive regex : Type :=
| Eps : regex
| Set_ : (N -> bool) -> regex
| Bol : regex
| Eol : regex
| Cat : regex -> regex -> regex
| Alt : regex -> regex -> regex
| Rep : nat -> option nat -> bool -> regex -> regex
| Grp : nat -> regex -> regex.

Record mstate := MState {
  pos : nat;
  rest : jsstring;
  caps : list (nat * (nat * nat))
}.

Definition setCap (n a b : nat) (x : mstate) : mstate :=
  MState (pos x) (rest x) ((n, (a, b)) :: caps x).

(** The loop of a quantifier: [min] and [max] count the iterations still
    required and still allowed, [d] is the continuation of one iteration; it
    rejects an iteration that consumed nothing once [min] is reached.  The
    fuel bounds the number of iterations, each of which lowers [min] or
    consumes input. *)
Fixpoint repeatMatcher (m : mstate -> (mstate -> option mstate) -> option mstate)
  (greedy : bool) (k : mstate -> option mstate)
  (fuel min : nat) (max : option nat) (x : mstate) {struct fuel}
  : option mstate :=
  match fuel with
  | O => None
  | S fuel' =>
      match max with
      | Some O => k x
      | _ =>
          let d := fun y =>
            if (min =? 0)%nat && (pos y =? pos x)%nat then None
            else repeatMatcher m greedy k fuel' (Nat.pred min)
                   (option_map Nat.pred max) y in
          if negb (min =? 0)%nat then m x d
          else if greedy then
            match m x d with
            | Some z => Some z
            | None => k x
            end
          else
            match k x with
            | Some z => Some z
            | None => m x d
            end
      end
  end.

Fixpoint rmatch (r : regex) (x : mstate) (k : mstate -> option mstate)
  {struct r} : option mstate :=
  match r with
  | Eps => k x
  | Set_ p =>
      match rest x with
      | c :: t => if p c then k (MState (S (pos x)) t (caps x)) else None
      | [] => None
      end
  | Bol => if (pos x =? 0)%nat then k x else None
  | Eol => match rest x with [] => k x | _ :: _ => None end
  | Cat a b => rmatch a x (fun y => rmatch b y k)
  | Alt a b =>
      match rmatch a x k with
      | Some z => Some z
      | None => rmatch b x k
      end
  | Grp n a => rmatch a x (fun y => k (setCap n (pos x) (pos y) y))
  | Rep min0 max0 greedy a =>
      repeatMatcher (rmatch a) greedy k (S (min0 + length (rest x))) min0 max0 x
  end.

(** Pattern-building helpers. *)
Definition upper (c : N) : N :=
  if ((97 <=? c) && (c <=? 122))%N then (c - 32)%N else c.

Definition chr (c : N) : regex := Set_ (N.eqb c).
Definition chri (c : N) : regex := Set_ (fun x => (upper x =? upper c)%N).
Definition oneOf (l : list N) : regex := Set_ (fun x => existsb (N.eqb x) l).
Definition noneOf (l : list N) : regex := Set_ (fun x => negb (existsb (N.eqb x) l)).
Definition ws : regex := Set_ isWhiteSpace.
Definition anyChar : regex := Set_ (fun _ => true).
Definition isLineTerminator (c : N) : bool :=
  ((c =? 10) || (c =? 13) || (c =? 8232) || (c =? 8233))%N.
Definition dot : regex := Set_ (fun x => negb (isLineTerminator x)).

Fixpoint seq (l : list regex) : regex :=
  match l with
  | [] => Eps
  | r :: t => Cat r (seq t)
  end.

Fixpoint alts (l : list regex) : regex :=
  match l with
  | [] => Eps
  | [r] => r
  | r :: t => Alt r (alts t)
  end.

Definition lit (s : jsstring) : regex := seq (map chr s).
Definition liti (s : jsstring) : regex := seq (map chri s).
Definition star (r : regex) : regex := Rep 0 None true r.
Definition plus (r : regex) : regex := Rep 1 None true r.
Definition opt (r : regex) : regex := Rep 0 (Some 1) true r.
Definition lazyStar (r : regex) : regex := Rep 0 None false r.
Definition lazyPlus (r : regex) : regex := Rep 1 None false r.
Definition atLeast (n : nat) (r : regex) : regex := Rep n None true r.

(** [needs c r]: every match of [r] consumes the code unit [c]. *)
Fixpoint needs (c : N) (r : regex) : Prop :=
  match r with
  | Set_ p => forall d, p d = true -> d = c
  | Cat a b => needs c a \/ needs c b
  | Alt a b => needs c a /\ needs c b
  | Rep min max _ a => (1 <= min)%nat /\ max <> Some O /\ needs c a
  | Grp _ a => needs c a
  | Eps | Bol | Eol => False
  end.

(** The result of [RegExp.prototype.exec]: the index of the match, the
    position after it, the text after it and the captures. *)
Record MatchResult := MkMatch { index : nat; final : mstate }.

Definition matchAt (r : regex) (i : nat) (suffix : jsstring) : option mstate :=
  rmatch r (MState i suffix []) (fun y => Some y).

(** Leftmost match: start positions are tried from left to right. *)
Fixpoint execFrom (r : regex) (i : nat) (suffix : jsstring) : option MatchResult :=
  match matchAt r i suffix with
  | Some y => Some (MkMatch i y)
  | None =>
      match suffix with
      | [] => None
      | _ :: t => execFrom r (S i) t
      end
  end.

Definition exec (r : regex) (s : jsstring) : option MatchResult := execFrom r 0 s.

Definition test (r : regex) (s : jsstring) : bool :=
  match exec r s with Some _ => true | None => false end.

(** The matched text and the text of capture [n] of a match in [s]. *)
Definition matched (s : jsstring) (m : MatchResult) : jsstring :=
  substring s (index m) (pos (final m)).

Fixpoint lookupCap (n : nat) (l : list (nat * (nat * nat))) : option (nat * nat) :=
  match l with
  | [] => None
  | (m, ab) :: t => if (m =? n)%nat then Some ab else lookupCap n t
  end.

Definition group (s : jsstring) (n : nat) (m : MatchResult) : jsstring :=
  match lookupCap n (caps (final m)) with
  | Some (a, b) => substring s a b
  | None => []
  end.

(** [s.replace(r, repl)] for a pattern without the [g] flag. *)
Definition replace (r : regex) (repl : jsstring) (s : jsstring) : jsstring :=
  match exec r s with
  | Some m => firstn (index m) s ++ repl ++ rest (final m)
  | None => s
  end.

(** The successive matches of a pattern with the [g] flag: after an empty
    match the search resumes one code unit further. *)
Fixpoint scan (fuel : nat) (r : regex) (i : nat) (suffix : jsstring)
  : list MatchResult :=
  match fuel with
  | O => []
  | S fuel' =>
      match matchAt r i suffix with
      | Some y =>
          MkMatch i y ::
          (if (pos y =? i)%nat then
             match suffix with
             | [] => []
             | _ :: t => scan fuel' r (S i) t
             end
           else scan fuel' r (pos y) (rest y))
      | None =>
          match suffix with
          | [] => []
          | _ :: t => scan fuel' r (S i) t
          end
      end
  end.

Definition matchAll (r : regex) (s : jsstring) : list MatchResult :=
  scan (S (length s)) r 0 s.

Fixpoint replaceMatches (s : jsstring) (cursor : nat) (repl : jsstring)
  (ms : list MatchResult) : jsstring :=
  match ms with
  | [] => skipn cursor s
  | m :: t =>
      substring s cursor (index m) ++ repl ++ replaceMatches s (pos (final m)) repl t
  end.

(** [s.replace(r, repl)] for a pattern with the [g] flag. *)
Definition replaceAll (r : regex) (repl : jsstring) (s : jsstring) : jsstring :=
  replaceMatches s 0 repl (matchAll r s).

(** [s.split(r)] for a pattern without captures: the separator is matched
    at each position [q]; a match that ends at the start [p] of the current
    piece is skipped. *)
Fixpoint splitLoop (fuel : nat) (r : regex) (s : jsstring) (p q : nat)
  : list jsstring :=
  match fuel with
  | O => [skipn p s]
  | S fuel' =>
      if (length s <=? q)%nat then [skipn p s]
      else
        match matchAt r q (skipn q s) with
        | None => splitLoop fuel' r s p (S q)
        | Some y =>
            if (pos y =? p)%nat then splitLoop fuel' r s p (S q)
            else substring s p q :: splitLoop fuel' r s (pos y) (pos y)
        end
  end.

Definition splitRe (r : regex) (s : jsstring) : list jsstring :=
  match s with
  | [] => match matchAt r 0 [] with Some _ => [] | None => [[]] end
  | _ => splitLoop (2 * length s + 2) r s 0 0
  end.

(** [a] and [b] are equal up to the case of ASCII letters, which is how a
    pattern with the [i] flag (and no [u] flag) compares a letter of the
    pattern with a code unit of the input. *)
Definition equalsIgnoreCase (a b : jsstring) : bool :=
  jseq (map upper a) (map upper b).

(** [s.toLowerCase().includes(w)] for ASCII letters: [w] occurs in [s] up
    to the case of ASCII letters. *)
Fixpoint startsWithIgnoreCase (w s : jsstring) : bool :=
  match w, s with
  | [], _ => true
  | a :: w', b :: s' => (upper b =? upper a)%N && startsWithIgnoreCase w' s'
  | _ :: _, [] => false
  end.

Fixpoint includesIgnoreCase (w s : jsstring) : bool :=
  startsWithIgnoreCase w s
  || match s with
     | [] => false
     | _ :: t => includesIgnoreCase w t
     end.

End JS.

(* ===================================================================== *)
(** * ai-service.js: button parsing *)
(* ===================================================================== *)

Module AI.
Import JS.

Record Parsed := MkParsed { content : jsstring; buttons : list jsstring }.

(** [/\[BUTTONS:\s*([\s\S]+?)\]\s*$/i] *)
Definition reButtonsTag : regex :=
  seq [liti (js "[BUTTONS:"); star ws; Grp 1 (lazyPlus anyChar);
       chri (ch "]"); star ws; Eol].

(** [/(\n\s*\[[^\]\n]+\]){2,}\s*$/] *)
Definition reTrailingLines : regex :=
  seq [atLeast 2 (Grp 1 (seq [chr NL; star ws; chr (ch "[");
                              plus (noneOf [ch "]"; NL]); chr (ch "]")]));
       star ws; Eol].

(** [/\n?\s*(\[[^\]\n]+\]\s* ){2,}\s*$/] (quoted with a blank before the
    closing parenthesis of the group) *)
Definition reTrailingInline : regex :=
  seq [opt (chr NL); star ws;
       atLeast 2 (Grp 1 (seq [chr (ch "["); plus (noneOf [ch "]"; NL]);
                              chr (ch "]"); star ws]));
       star ws; Eol].

(** [/\[([^\]\n]+)\]/g] *)
Definition reLabel : regex :=
  seq [chr (ch "["); Grp 1 (plus (noneOf [ch "]"; NL])); chr (ch "]")].

(** The pattern with the [g] flag that matches a double or single quote
    at the start of the input, or one at its end. *)
Definition reQuotes : regex :=
  Alt (Cat Bol (oneOf [QUOTE; APOS])) (Cat (oneOf [QUOTE; APOS]) Eol).

(** [/^[-•*]\s*/] *)
Definition reListMarker : regex :=
  seq [Bol; oneOf [ch "-"; BULLET; ch "*"]; star ws].

(** [/\s+/] *)
Definition reSpaces : regex := plus ws.

(** [/[.!?:;]$/] *)
Definition reTerminal : regex :=
  seq [oneOf [ch "."; ch "!"; ch "?"; ch ":"; ch ";"]; Eol].

(** [/\[BUTTONS:[\s\S]*$/i] *)
Definition reIncompleteTag : regex :=
  seq [liti (js "[BUTTONS:"); star anyChar; Eol].

(** [l.trim().replace(/^[-•*]\s*/, '')] *)
Definition stripMarker (l : jsstring) : jsstring := replace reListMarker [] (trim l).

(** The backwards scan over the lines:
    [for (i = lines.length - 1; i >= 0 && bareCount < 4; i--)]. *)
Fixpoint bareLoop (revLines : list jsstring) (bareCount : nat) : nat :=
  match revLines with
  | [] => bareCount
  | l :: before =>
      if (bareCount <? 4)%nat then
        let line := stripMarker l in
        if isEmpty line then bareCount
        else
          let words := length (splitRe reSpaces line) in
          if (words <=? 5)%nat && negb (test reTerminal line)
          then bareLoop before (S bareCount)
          else bareCount
      else bareCount
  end.

(** The test of the scan on one line: not empty once trimmed and stripped
    of a list marker, at most five words, no closing punctuation. *)
Definition isBareLine (l : jsstring) : bool :=
  negb (isEmpty (stripMarker l))
  && ((length (splitRe reSpaces (stripMarker l)) <=? 5)%nat
      && negb (test reTerminal (stripMarker l))).

Definition parseButtons (text : jsstring) : Parsed :=
  if isEmpty text then MkParsed [] []
  else
    match exec reButtonsTag text with
    | Some m =>
        let labels :=
          filterBoolean
            (map (fun s => replaceAll reQuotes [] (trim s))
                 (splitOn (ch ",") (group text 1 m))) in
        MkParsed (trim (firstn (index m) text)) labels
    | None =>
        let trailing :=
          match exec reTrailingLines text with
          | Some m => Some m
          | None => exec reTrailingInline text
          end in
        let viaTrailing :=
          match trailing with
          | Some t =>
              let t0 := matched text t in
              let labels :=
                filterBoolean (map (fun m => trim (group t0 1 m)) (matchAll reLabel t0)) in
              if (2 <=? length labels)%nat then
                Some (MkParsed (trim (firstn (length text - length t0) text)) labels)
              else None
          | None => None
          end in
        match viaTrailing with
        | Some p => p
        | None =>
            let lines := splitOn NL (trimEnd text) in
            let bareCount := bareLoop (rev lines) 0 in
            let viaBare :=
              if (2 <=? bareCount)%nat then
                let bareLabels := filterBoolean (map stripMarker (sliceLast bareCount lines)) in
                let remaining := trim (join [NL] (sliceButLast bareCount lines)) in
                if (0 <? length remaining)%nat then Some (MkParsed remaining bareLabels)
                else None
              else None in
            match viaBare with
            | Some p => p
            | None =>
                let cleaned := trim (replace reIncompleteTag [] text) in
                if negb (jseq cleaned (trim text)) then MkParsed cleaned []
                else MkParsed text []
            end
        end
    end.

(** A label that [parseButtons] takes from a tag as it stands: not empty,
    trimmed, without a comma or a closing bracket, and without a quote at
    either end. *)
Definition plainLabel (l : jsstring) : bool :=
  negb (isEmpty l) && jseq (trim l) l
  && forallb (fun c => negb (existsb (N.eqb c) [ch ","; ch "]"])) l
  && negb (existsb (N.eqb (hd 0%N l)) [QUOTE; APOS])
  && negb (existsb (N.eqb (last l 0%N)) [QUOTE; APOS]).

(** A label that [parseButtons] takes from a bracketed line as it stands:
    not empty, trimmed, without a bracket, a line feed or a colon; and the
    line that carries it. *)
Definition lineLabel (l : jsstring) : bool :=
  negb (isEmpty l) && jseq (trim l) l
  && forallb (fun c => negb (existsb (N.eqb c) [ch "["; ch "]"; NL; ch ":"])) l.

Definition bracketLine (l : jsstring) : jsstring := NL :: ch "[" :: l ++ [ch "]"].

(** The class [[^\]\n]] and the group of [reTrailingLines]. *)
Definition inLabel (x : N) : bool := negb (existsb (N.eqb x) [ch "]"; NL]).

Definition bracketGroup : regex :=
  Grp 1 (Cat (chr NL)
           (Cat (star (Set_ isWhiteSpace))
              (Cat (chr (ch "["))
                 (Cat (plus (Set_ inLabel)) (Cat (chr (ch "]")) Eps))))).

End AI.

(* ===================================================================== *)
(** * ai-service.js: the AI provider registry *)
(* ===================================================================== *)

Module AIService.

(** A provider object: the class it was constructed from, and a serial
    number that tells two objects of one class apart. *)
Record Instance := MkInstance { className : string; serial : nat }.

Inductive Effect :=
| Construct (i : Instance)
| InvalidateClient (i : Instance).

(** [PROVIDERS]: the provider id, and the export of the provider's module
    whose name ends in [Provider]. *)
Definition PROVIDERS : list (string * string) :=
  [ ("bedrock", "BedrockProvider"); ("anthropic", "AnthropicProvider");
    ("openai", "OpenAIProvider"); ("openrouter", "OpenRouterProvider");
    ("google", "GoogleProvider"); ("azure", "AzureProvider");
    ("local", "LocalProvider") ]%string.

Fixpoint lookup (k : string) (l : list (string * string)) : option string :=
  match l with
  | [] => None
  | (k', v) :: t => if String.eqb k' k then Some v else lookup k t
  end.

Record Service := MkService {
  provider : option Instance;
  providerType : option string;
  constructed : nat
}.

Definition initial : Service := MkService None None 0.

(** [this.configService.get('ai.provider') || 'bedrock'] *)
Definition activeType (cfg : option string) : string :=
  match cfg with
  | Some t => if String.eqb t EmptyString then "bedrock"%string else t
  | None => "bedrock"%string
  end.

Definition sameType (a : option string) (t : string) : bool :=
  match a with Some x => String.eqb x t | None => false end.

Inductive Outcome (A : Type) :=
| Returned (a : A)
| Threw (msg : string).
Arguments Returned {A} a.
Arguments Threw {A} msg.

(** [getProvider()]: the result, the service afterwards and the calls made
    on provider objects. *)
Definition getProvider (cfg : option string) (s : Service)
  : Outcome (option Instance) * Service * list Effect :=
  let type := activeType cfg in
  if negb (sameType (providerType s) type) then
    match lookup type PROVIDERS with
    | None => (Threw "Unknown AI provider", s, [])
    | Some cls =>
        let p := MkInstance cls (constructed s) in
        (Returned (Some p), MkService (Some p) (Some type) (S (constructed s)),
         [Construct p])
    end
  else (Returned (provider s), s, []).

(** [invalidateClient()] *)
Definition invalidateClient (s : Service) : Service * list Effect :=
  (MkService None None (constructed s),
   match provider s with Some p => [InvalidateClient p] | None => [] end).

(** The calls made on the service, and runs of them. *)
Inductive Op :=
| CallGetProvider (cfg : option string)
| CallInvalidateClient.

Definition apply (op : Op) (s : Service) : Service * list Effect :=
  match op with
  | CallGetProvider cfg => let '(_, s', e) := getProvider cfg s in (s', e)
  | CallInvalidateClient => invalidateClient s
  end.

Fixpoint applyAll (ops : list Op) (s : Service) : Service * list Effect :=
  match ops with
  | [] => (s, [])
  | op :: rest =>
      let (s1, e1) := apply op s in
      let (s2, e2) := applyAll rest s1 in
      (s2, e1 ++ e2)
  end.

(** The cached provider is of the class registered for the cached id, and
    the two are set together. *)
Definition Coherent (s : Service) : Prop :=
  match providerType s, provider s with
  | Some t, Some p =>
      lookup t PROVIDERS = Some (className p) /\ (serial p < constructed s)%nat
  | None, None => True
  | _, _ => False
  end.

End AIService.

(* ===================================================================== *)
(** * transcribe-service.js: the transcription provider registry *)
(* ===================================================================== *)

Module TranscribeService.

Record Instance := MkInstance { className : string; serial : nat }.

Inductive Effect :=
| Construct (i : Instance)
| RemoveAllListeners (i : Instance).

Definition PROVIDERS : list (string * string) :=
  [ ("aws", "AwsTranscribeProvider"); ("deepgram", "DeepgramProvider");
    ("whisper", "WhisperLocalProvider") ]%string.

Record Service := MkService {
  provider : option Instance;
  providerType : option string;
  constructed : nat
}.

Definition initial : Service := MkService None None 0.

(** [this.configService.get('transcribe.provider') || 'aws'] *)
Definition activeType (cfg : option string) : string :=
  match cfg with
  | Some t => if String.eqb t EmptyString then "aws"%string else t
  | None => "aws"%string
  end.

(** [getProvider()]: the listeners of the old provider are removed before
    the registry is consulted, so they are removed also when the lookup then
    throws. *)
Definition getProvider (cfg : option string) (s : Service)
  : AIService.Outcome (option Instance) * Service * list Effect :=
  let type := activeType cfg in
  if negb (AIService.sameType (providerType s) type) then
    let cleanup :=
      match provider s with Some old => [RemoveAllListeners old] | None => [] end in
    match AIService.lookup type PROVIDERS with
    | None => (AIService.Threw "PROVIDERS[type] is not a function", s, cleanup)
    | Some cls =>
        let p := MkInstance cls (constructed s) in
        (AIService.Returned (Some p),
         MkService (Some p) (Some type) (S (constructed s)),
         cleanup ++ [Construct p])
    end
  else (AIService.Returned (provider s), s, []).

End TranscribeService.

(* ===================================================================== *)
(** * transcribe-providers/whisper-local.js *)
(* ===================================================================== *)

Module Whisper.
Import JS.

Definition INFERENCE_INTERVAL_MS : N := 1500.
Definition SAMPLE_RATE : N := 16000.
(** [MIN_DURATION_SEC = 1.5]: [pendingSamples / SAMPLE_RATE < 1.5] holds
    exactly when fewer than 24000 samples are pending. *)
Definition MIN_SAMPLES : N := 24000.
Definition SPEECH_TAIL_CHUNKS : nat := 10.

(** [HALLUCINATION_PATTERNS] *)
Definition reDots : regex :=
  seq [Bol; star ws; plus (chr (ch ".")); star ws; Eol].
Definition rePronoun : regex :=
  seq [Bol;
       Grp 1 (alts [liti (js "you"); liti (js "the"); liti (js "a"); liti (js "I");
                    liti (js "we"); liti (js "he"); liti (js "she"); liti (js "it")]);
       opt (chri (ch ".")); Eol].
Definition reThanks : regex :=
  seq [liti (js "thank");
       Grp 1 (Alt (liti (js "s")) (liti (js " you")));
       opt (Grp 2 (seq [liti (js " for ");
                        Grp 3 (Alt (liti (js "watching")) (liti (js "listening")))]))].
Definition rePlease : regex :=
  seq [liti (js "please "); Grp 1 (Alt (liti (js "like")) (liti (js "subscribe")))].
Definition reNoise : regex :=
  seq [chri (ch "["); Grp 1 (Alt (liti (js "music")) (liti (js "applause")));
       chri (ch "]")].

Definition HALLUCINATION_PATTERNS : list regex :=
  [reDots; rePronoun; reThanks; rePlease; reNoise].

(** [isHallucination(text)] *)
Definition isHallucination (text : jsstring) : bool :=
  if isEmpty text || (length (trim text) <=? 1)%nat then true
  else existsb (fun p => test p (trim text)) HALLUCINATION_PATTERNS.

(** A chunk of audio: the 16-bit samples of [pcmData].  The [Float32Array]
    the provider buffers holds [sample / 32768] for each of them, which is
    exact, so the samples stand for it. *)
Definition Chunk := list Z.

Record Provider := MkProvider {
  running : bool;
  pendingAudio : list Chunk;
  pendingSamples : N;
  lastSegmentText : jsstring;
  processing : bool;
  inferenceTimer : bool;
  speechCountdown : nat;
  hasSpeechContent : bool
}.

(** The provider as the constructor leaves it. *)
Definition initial : Provider := MkProvider false [] 0 [] false false 0 false.

Inductive Emitted :=
| EmitFinal (text : jsstring).

(** [start()], once the addon and the model file were found. *)
Definition start (p : Provider) : Provider :=
  if running p then p
  else MkProvider true [] 0 [] false true 0 false.

Section EnergyGate.

(** The floating-point comparison [rms >= SILENCE_RMS_THRESHOLD] of
    [sendAudioChunk], where [rms = Math.sqrt(sumSq / float32.length)] and the
    threshold is [0.005]: its outcome on a chunk. *)
Variable rmsAtLeastThreshold : Chunk -> bool.

(** [sendAudioChunk(pcmData)] *)
Definition sendAudioChunk (p : Provider) (pcm : Chunk) : Provider :=
  if negb (running p) then p
  else
    let push (countdown : nat) (speech : bool) :=
      MkProvider (running p) (pendingAudio p ++ [pcm])
                 (pendingSamples p + N.of_nat (length pcm))%N (lastSegmentText p)
                 (processing p) (inferenceTimer p) countdown speech in
    if rmsAtLeastThreshold pcm then push SPEECH_TAIL_CHUNKS true
    else if (0 <? speechCountdown p)%nat then
      push (speechCountdown p - 1) (hasSpeechContent p)
    else p.

Definition sendAll (p : Provider) (chunks : list Chunk) : Provider :=
  fold_left sendAudioChunk chunks p.

End EnergyGate.

(** The comparison in exact arithmetic: with [n] samples whose squares sum
    to [s], [sqrt (s / 2^30 / n) >= 5/1000] is [40000 * s >= 2^30 * n]; an
    empty chunk has [rms = NaN], which compares false. *)
Definition sumSq (c : Chunk) : Z := fold_left (fun acc x => (acc + x * x)%Z) c 0%Z.
Definition rmsExact (c : Chunk) : bool :=
  negb (length c =? 0)%nat && (2 ^ 30 * Z.of_nat (length c) <=? 40000 * sumSq c)%Z.

(** [runInference(isFinal)] up to [await this.whisperAddon.transcribe(...)]:
    the provider afterwards, and whether the addon was called. *)
Definition clearPending (p : Provider) (speech : bool) (proc : bool) : Provider :=
  MkProvider (running p) [] 0 (lastSegmentText p) proc (inferenceTimer p)
             (speechCountdown p) speech.

Definition runInferenceBegin (isFinal : bool) (p : Provider) : Provider * bool :=
  if processing p || (length (pendingAudio p) =? 0)%nat then (p, false)
  else if negb isFinal && negb (hasSpeechContent p) then
    (clearPending p (hasSpeechContent p) (processing p), false)
  else if negb isFinal && (pendingSamples p <? MIN_SAMPLES)%N then (p, false)
  else
    (MkProvider (running p) (pendingAudio p) (pendingSamples p) (lastSegmentText p)
                true (inferenceTimer p) (speechCountdown p) (hasSpeechContent p),
     true).

(** The rest of [runInference] once the addon call settled: [Some segs] is
    the third component of each entry of [result.transcription], [None] a
    rejected call. *)
Definition runInferenceEnd (result : option (list jsstring)) (p : Provider)
  : Provider * list Emitted :=
  match result with
  | Some segs =>
      let text := trim (concat segs) in
      let p' := clearPending p false false in
      if negb (isEmpty text) && negb (isHallucination text) then
        (MkProvider (running p') (pendingAudio p') (pendingSamples p') text
                    (processing p') (inferenceTimer p') (speechCountdown p')
                    (hasSpeechContent p'),
         [EmitFinal text])
      else (p', [])
  | None =>
      (MkProvider (running p) (pendingAudio p) (pendingSamples p) (lastSegmentText p)
                  false (inferenceTimer p) (speechCountdown p) (hasSpeechContent p),
       [])
  end.

(** ** The provider over time

    The calls of the addon are asynchronous: a call in flight is remembered
    with whether [stop()] awaits it ([runInference(true)]), and settles by
    an event of its own.  A [stop()] that finds an inference in progress
    sits in its wait loop until the loop ends, because the inference is
    over or because five seconds have passed. *)

Inductive Out :=
| CallAddon (size : N) (audio : Chunk)
| Emits (e : Emitted).

Record Machine := MkMachine {
  provider : Provider;
  stopsWaiting : nat;
  inFlight : list bool
}.

(** The provider as its constructor leaves it, nothing in flight. *)
Definition boot : Machine := MkMachine initial 0 [].

(** [runInference(isFinal)] up to the call of the addon: the merged audio is
    a [Float32Array] of [pendingSamples] elements that receives the chunks
    one after the other. *)
Definition runInference (isFinal : bool) (m : Machine) : Machine * list Out :=
  let p := provider m in
  let (p', called) := runInferenceBegin isFinal p in
  if called then
    (MkMachine p' (stopsWaiting m) (inFlight m ++ [isFinal]),
     [CallAddon (pendingSamples p) (concat (pendingAudio p))])
  else (MkMachine p' (stopsWaiting m) (inFlight m), []).

(** The last two assignments of [stop()]. *)
Definition stopEnd (p : Provider) : Provider :=
  clearPending p (hasSpeechContent p) (processing p).

(** [stop()] after its wait loop. *)
Definition stopAfterWait (m : Machine) : Machine * list Out :=
  let p := provider m in
  if negb (length (pendingAudio p) =? 0)%nat && negb (processing p)
  then runInference true m
  else (MkMachine (stopEnd p) (stopsWaiting m) (inFlight m), []).

(** [stop()] up to its first [await]. *)
Definition stop (m : Machine) : Machine * list Out :=
  let p := provider m in
  if negb (running p) then (m, [])
  else
    let p1 := MkProvider false (pendingAudio p) (pendingSamples p) (lastSegmentText p)
                         (processing p) false (speechCountdown p)
                         (hasSpeechContent p) in
    if processing p1 then (MkMachine p1 (S (stopsWaiting m)) (inFlight m), [])
    else stopAfterWait (MkMachine p1 (stopsWaiting m) (inFlight m)).

Fixpoint dropNth {A} (i : nat) (l : list A) : list A :=
  match l, i with
  | [], _ => []
  | _ :: t, O => t
  | x :: t, S j => x :: dropNth j t
  end.

Inductive Event :=
| Start
| Stop
| Audio (c : Chunk)
| Interval
| WaitOver
| Settled (i : nat) (result : option (list jsstring)).

Section Machine.

Variable rmsAtLeastThreshold : Chunk -> bool.

Definition step (e : Event) (m : Machine) : Machine * list Out :=
  let p := provider m in
  match e with
  | Start => (MkMachine (start p) (stopsWaiting m) (inFlight m), [])
  | Stop => stop m
  | Audio c =>
      (MkMachine (sendAudioChunk rmsAtLeastThreshold p c) (stopsWaiting m) (inFlight m),
       [])
  | Interval => if inferenceTimer p then runInference false m else (m, [])
  | WaitOver =>
      match stopsWaiting m with
      | O => (m, [])
      | S n => stopAfterWait (MkMachine p n (inFlight m))
      end
  | Settled i result =>
      match nth_error (inFlight m) i with
      | None => (m, [])
      | Some awaitedByStop =>
          let (p', emitted) := runInferenceEnd result p in
          (MkMachine (if awaitedByStop then stopEnd p' else p') (stopsWaiting m)
                     (dropNth i (inFlight m)),
           map Emits emitted)
      end
  end.

Fixpoint run (evs : list Event) (m : Machine) : Machine * list Out :=
  match evs with
  | [] => (m, [])
  | e :: rest =>
      let (m1, o1) := step e m in
      let (m2, o2) := run rest m1 in
      (m2, o1 ++ o2)
  end.

End Machine.

(** The number of samples of the pending chunks. *)
Definition samplesOf (chunks : list Chunk) : N := N.of_nat (length (concat chunks)).

Definition isAudio (e : Event) : option Chunk :=
  match e with Audio c => Some c | _ => None end.

(** The count of pending samples is the number of samples of the pending
    chunks, and the trailing countdown is at most ten. *)
Definition Accounted (p : Provider) : Prop :=
  pendingSamples p = samplesOf (pendingAudio p)
  /\ (speechCountdown p <= SPEECH_TAIL_CHUNKS)%nat.

(** A call of the addon whose array has the size of the audio in it. *)
Definition CallSized (o : Out) : Prop :=
  match o with
  | CallAddon size audio => size = N.of_nat (length audio)
  | Emits _ => True
  end.

(** Nothing buffered, no trailing window open, nothing in flight. *)
Definition Silent (m : Machine) : Prop :=
  pendingAudio (provider m) = []
  /\ speechCountdown (provider m) = 0%nat
  /\ inFlight m = [].

(** ** The comparison of the energy gate

    The arithmetic of [sendAudioChunk] in binary64, operation by
    operation. *)

Import PrimFloat.

(** [SILENCE_RMS_THRESHOLD = 0.005]: the binary64 number nearest to it. *)
Definition SILENCE_RMS_THRESHOLD : float := 0x1.47ae147ae147bp-8%float.

(** [float32[i] = int16[i] / 32768.0]: the quotient of a 16-bit sample is
    exact in binary64 and fits the 24 bits of an element of a
    [Float32Array], so that storing it and reading it back changes
    nothing. *)
Definition sampleToFloat (x : Z) : float :=
  let magnitude := of_uint63 (Uint63.of_Z (Z.abs x)) in
  ((if (x <? 0)%Z then opp magnitude else magnitude) / 32768)%float.

(** [sumSq] after the loop over the samples. *)
Definition sumSqFloat (c : Chunk) : float :=
  fold_left (fun acc x => (acc + sampleToFloat x * sampleToFloat x)%float) c 0%float.

(** [rms = Math.sqrt(sumSq / float32.length)], the square root rounded to
    nearest as the binary64 instruction rounds it. *)
Definition rms (c : Chunk) : float :=
  sqrt (sumSqFloat c / of_uint63 (Uint63.of_Z (Z.of_nat (length c))))%float.

(** [rms >= SILENCE_RMS_THRESHOLD]; a comparison with NaN, the [rms] of an
    empty chunk, is false. *)
Definition reachesThreshold (c : Chunk) : bool := leb SILENCE_RMS_THRESHOLD (rms c).

End Whisper.

(* ===================================================================== *)
(** * session-orchestrator.js *)
(* ===================================================================== *)

Module Session.
Import JS.

Inductive State := IDLE | RECORDING | CONVERSING | CANCELLED.

Definition State_eqb (a b : State) : bool :=
  match a, b with
  | IDLE, IDLE | RECORDING, RECORDING | CONVERSING, CONVERSING
  | CANCELLED, CANCELLED => true
  | _, _ => false
  end.

Inductive Role := User | Assistant.

Definition isUser (r : Role) : bool := match r with User => true | Assistant => false end.

(** A message of [conversation.messages]; a user message has no buttons. *)
Record Message := MkMessage {
  role : Role;
  content : jsstring;
  buttons : list jsstring
}.

Record Segment := MkSegment { id : nat; text : jsstring; timestamp : N }.

Record Round := MkRound {
  segments : list Segment;
  segmentCounter : nat;
  currentPartial : jsstring
}.

Definition freshRound : Round := MkRound [] 0 [].

Record WindowInfo := MkWindowInfo { title : jsstring; owner : jsstring; bounds : bool }.
Record Screenshot := MkScreenshot { base64 : jsstring; mediaType : jsstring }.
Record Usage := MkUsage { inputTokens : N; outputTokens : N }.

(** [this.conversation].  [convId] tells the conversation objects apart:
    every [this.conversation = {...}] makes a new object. *)
Record Conversation := MkConversation {
  convId : nat;
  messages : list Message;
  screenshot : option Screenshot;
  windowInfo : option WindowInfo;
  tokenUsage : Usage
}.

Definition freshConversation (n : nat) : Conversation :=
  MkConversation n [] None None (MkUsage 0 0).

(** The collaborators handed to the constructor that the code tests for
    presence, the capture mode of the configuration, and whether the
    transcription provider has a [loadCredentials] method.  The input
    monitor, the configuration service and the AI service are always
    there: [respondToUser] calls [this.aiService.converse] without a test. *)
Record Deps := MkDeps {
  overlay : bool;
  windowService : bool;
  captureService : bool;
  transcribeService : bool;
  historyService : bool;
  breakoutService : bool;
  highlightService : bool;
  highlightFlash : bool;
  screenshotPreview : bool;
  captureModeWindow : bool;
  providerLoadCredentials : bool
}.

Record Orchestrator := MkOrchestrator {
  deps : Deps;
  state : State;
  conversation : Conversation;
  currentRound : Round;
  roundNumber : nat;
  sessionStartTime : N;
  contextReady : bool;
  aiInFlight : bool;
  finalizing : bool
}.

(** The record handed to [historyService.save]. *)
Record HistoryRecord := MkHistoryRecord {
  hId : N;
  hTimestamp : N;
  hTranscript : jsstring;
  hAiText : jsstring;
  hWindowTitle : jsstring;
  hDurationMs : N;
  hRounds : nat;
  hMessages : list (Role * jsstring);
  hScreenshot : option jsstring;
  hTokenUsage : option Usage
}.

Inductive Payload :=
| PNone
| PText (s : jsstring)
| PRound (content : jsstring) (buttons : list jsstring)
| PError (title detail : jsstring) (actions : list jsstring).

(** The calls the orchestrator makes on its collaborators. *)
Inductive Effect :=
| HideSettings
| OverlaySend (channel : string) (p : Payload)
| SetSessionActive (b : bool)
| ShowOverlay
| HideOverlay
| HighlightShow (windowBounds : bool)
| HighlightHide
| HighlightFlash
| PreviewHide
| GetActiveWindow
| Capture (w : option WindowInfo)
| TranscribeOn
| TranscribeStart
| TranscribeStop
| TranscribeRemoveListeners
| LoadCredentials
| AIConverse (msgs : list Message) (shot : option Screenshot) (w : option WindowInfo)
| AIInvalidateClient
| AIReset
| ClipboardWrite (s : jsstring)
| HistorySave (r : HistoryRecord)
| SetTimeout (ms : N)
| EmitOpenSettings
| Breakout.

(** What the caller of [stopTranscription] does once it returns. *)
Inductive AfterStop :=
| ASFinalize (myRound : nat)
| ASCancel
| ASSave.

(** A suspended call: the rest of an [async] method after the [await] it
    stopped at, or a timer callback. *)
Inductive Cont :=
| KStartTranscription
| KCaptureWindow
| KCaptureShot (conv : nat)
| KCaptureFlash
| KFinalizeContext (myRound : nat)
| KStop (k : AfterStop)
| KStopped (k : AfterStop)
| KRespond (userMessage : jsstring) (fromFinalize : bool)
| KCancelTimer (due : N)
| KBreakout
| KBreakoutDelay (due : N).

(** How an awaited promise settles. *)
Inductive Result :=
| Resolved
| Rejected (message : jsstring)
| ResolvedText (aiText : jsstring) (usage : option Usage)
| ResolvedWindow (w : option WindowInfo)
| ResolvedShot (s : option Screenshot)
| ResolvedBreakout (clipboardMessage : option jsstring).

(** The orchestrator together with what surrounds it: the number of
    handler triples registered on the transcription service, the suspended
    calls, and the clock. *)
Record World := MkWorld {
  orch : Orchestrator;
  listeners : nat;
  pool : list Cont;
  now : N
}.

(** A piece of synchronous code: the world afterwards, and the calls it
    made on the collaborators, in order. *)
Definition Proc := World -> World * list Effect.

Definition andThen (f g : Proc) : Proc :=
  fun w =>
    let (w1, e1) := f w in
    let (w2, e2) := g w1 in
    (w2, e1 ++ e2).
Notation "f ;; g" := (andThen f g) (at level 61, right associativity).

Definition skip : Proc := fun w => (w, []).

Definition when (b : World -> bool) (f : Proc) : Proc :=
  fun w => if b w then f w else (w, []).

Definition ifElse (b : World -> bool) (f g : Proc) : Proc :=
  fun w => if b w then f w else g w.

Definition modify (f : Orchestrator -> Orchestrator) : Proc :=
  fun w => (MkWorld (f (orch w)) (listeners w) (pool w) (now w), []).

Definition call (e : Effect) : Proc :=
  fun w => (w, [e]).

Definition suspend (k : Cont) : Proc :=
  fun w => (MkWorld (orch w) (listeners w) (pool w ++ [k]) (now w), []).

Definition setListeners (n : nat) : Proc :=
  fun w => (MkWorld (orch w) n (pool w) (now w), []).

Definition has (d : Deps -> bool) : World -> bool := fun w => d (deps (orch w)).
Definition inState (s : State) : World -> bool := fun w => State_eqb (state (orch w)) s.

Definition setState (s : State) : Proc :=
  modify (fun o => MkOrchestrator (deps o) s (conversation o) (currentRound o)
    (roundNumber o) (sessionStartTime o) (contextReady o) (aiInFlight o) (finalizing o)).
Definition setConversation (c : Conversation) : Proc :=
  modify (fun o => MkOrchestrator (deps o) (state o) c (currentRound o)
    (roundNumber o) (sessionStartTime o) (contextReady o) (aiInFlight o) (finalizing o)).
Definition setCurrentRound (r : Round) : Proc :=
  modify (fun o => MkOrchestrator (deps o) (state o) (conversation o) r
    (roundNumber o) (sessionStartTime o) (contextReady o) (aiInFlight o) (finalizing o)).
Definition setRoundNumber (n : nat) : Proc :=
  modify (fun o => MkOrchestrator (deps o) (state o) (conversation o) (currentRound o)
    n (sessionStartTime o) (contextReady o) (aiInFlight o) (finalizing o)).
Definition setSessionStartTime (t : N) : Proc :=
  modify (fun o => MkOrchestrator (deps o) (state o) (conversation o) (currentRound o)
    (roundNumber o) t (contextReady o) (aiInFlight o) (finalizing o)).
Definition setContextReady (b : bool) : Proc :=
  modify (fun o => MkOrchestrator (deps o) (state o) (conversation o) (currentRound o)
    (roundNumber o) (sessionStartTime o) b (aiInFlight o) (finalizing o)).
Definition setAiInFlight (b : bool) : Proc :=
  modify (fun o => MkOrchestrator (deps o) (state o) (conversation o) (currentRound o)
    (roundNumber o) (sessionStartTime o) (contextReady o) b (finalizing o)).
Definition setFinalizing (b : bool) : Proc :=
  modify (fun o => MkOrchestrator (deps o) (state o) (conversation o) (currentRound o)
    (roundNumber o) (sessionStartTime o) (contextReady o) (aiInFlight o) b).

(** [if (overlay) overlay.webContents.send(channel, payload)] *)
Definition send (channel : string) (p : Payload) : Proc :=
  when (has overlay) (call (OverlaySend channel p)).

Definition pushMessage (m : Message) : Proc :=
  fun w =>
    let c := conversation (orch w) in
    setConversation (MkConversation (convId c) (messages c ++ [m]) (screenshot c)
                                    (windowInfo c) (tokenUsage c)) w.

(** [this.conversation = { messages: [], ... }] *)
Definition newConversation : Proc :=
  fun w => setConversation (freshConversation (S (convId (conversation (orch w))))) w.

(** ** Patterns used by the orchestrator *)

(** [/signature.*does not match|signing method/i] *)
Definition reSignature : regex :=
  Alt (seq [liti (js "signature"); star dot; liti (js "does not match")])
      (liti (js "signing method")).

(** [/not configured|api key|credentials|invalid/i] *)
Definition reCredential : regex :=
  alts [liti (js "not configured"); liti (js "api key"); liti (js "credentials");
        liti (js "invalid")].

(** [/<\|(?:endoftext|im_end|end|eot_id)\|>/gi] *)
Definition reEos : regex :=
  seq [liti (js "<|");
       alts [liti (js "endoftext"); liti (js "im_end"); liti (js "end"); liti (js "eot_id")];
       liti (js "|>")].

(** [/```[\s\S]*?\n([\s\S]*?)```/g] and [/```[\s\S]*?```/g] *)
Definition reCodeBlock : regex :=
  seq [lit (js "```"); lazyStar anyChar; chr NL; Grp 1 (lazyStar anyChar); lit (js "```")].
Definition reFence : regex :=
  seq [lit (js "```"); lazyStar anyChar; lit (js "```")].

(** [err.message || String(err)] for an [Error] with the given message. *)
Definition errorText (message : jsstring) : jsstring :=
  if isEmpty message then js "Error" else message.

(** [friendlyError(err)] *)
Definition friendlyError (message : jsstring) : jsstring :=
  let msg := errorText message in
  if test reSignature msg then
    js "AWS credentials expired " ++ [8212%N] ++ js " refresh your credentials and try again."
  else
    let firstLine := trim (hd [] (splitOn NL msg)) in
    if (200 <? length firstLine)%nat then firstn 200 firstLine ++ js "..." else firstLine.

(** ** Transcription *)

(** [sendTranscriptToOverlay()] *)
Definition transcriptOf (r : Round) : jsstring := join (js " ") (map text (segments r)).

Definition sendTranscriptToOverlay : Proc :=
  fun w =>
    let r := currentRound (orch w) in
    let display := transcriptOf r in
    let partial := currentPartial r in
    let full :=
      if isEmpty display then partial
      else if isEmpty partial then display else display ++ js " " ++ partial in
    send "overlay:update-transcription" (PText full) w.

Definition recordingOrConversing : World -> bool :=
  fun w => inState RECORDING w || inState CONVERSING w.

(** The handler registered for ['partial']. *)
Definition onPartial (t : jsstring) : Proc :=
  when recordingOrConversing
    ((fun w =>
        let r := currentRound (orch w) in
        setCurrentRound (MkRound (segments r) (segmentCounter r) t) w) ;;
     sendTranscriptToOverlay).

(** The handler registered for ['final']. *)
Definition onFinal (t : jsstring) : Proc :=
  when recordingOrConversing
    ((fun w =>
        let r := currentRound (orch w) in
        let n := S (segmentCounter r) in
        setCurrentRound (MkRound (segments r ++ [MkSegment n (trim t) (now w)]) n []) w) ;;
     sendTranscriptToOverlay).

(** [_refreshAwsCredentials()] *)
Definition refreshAwsCredentials : Proc :=
  when (fun w => has transcribeService w && has providerLoadCredentials w)
       (call LoadCredentials) ;;
  call AIInvalidateClient.

(** [onServiceError(title, err)] *)
Definition onServiceError (title message : jsstring) : Proc :=
  setState CONVERSING ;;
  when (fun _ => test reSignature message) refreshAwsCredentials ;;
  send "overlay:error"
       (PError title (friendlyError message) [js "Settings"; js "Dismiss"]).

(** [startTranscription()] up to [await this.transcribeService.start()]. *)
Definition startTranscription : Proc :=
  when (has transcribeService)
    (call TranscribeOn ;;
     (fun w => setListeners (S (listeners w)) w) ;;
     call TranscribeStart ;;
     suspend KStartTranscription).

(** [stopTranscription()] up to [await this.transcribeService.stop()]; the
    caller, which awaits it, goes on with [k] afterwards. *)
Definition stopTranscription (k : AfterStop) : Proc :=
  ifElse (has transcribeService)
    (call TranscribeStop ;; suspend (KStop k))
    (suspend (KStopped k)).

(** ** Context capture *)

Definition setWindowInfo (info : option WindowInfo) : Proc :=
  fun w =>
    let c := conversation (orch w) in
    setConversation (MkConversation (convId c) (messages c) (screenshot c) info
                                    (tokenUsage c)) w.

Definition setScreenshot (s : option Screenshot) : Proc :=
  fun w =>
    let c := conversation (orch w) in
    setConversation (MkConversation (convId c) (messages c) s (windowInfo c)
                                    (tokenUsage c)) w.

Definition windowBounds (w : World) : bool :=
  match windowInfo (conversation (orch w)) with
  | Some i => bounds i
  | None => false
  end.

(** The end of [captureContext]: the fallback [showOverlay()] and
    [this.contextReady = null]. *)
Definition captureFinish : Proc := call ShowOverlay ;; setContextReady false.

(** [captureContext] from the highlight to [await captureService.capture]. *)
Definition captureShot : Proc :=
  when (has highlightService)
       (fun w => call (HighlightShow (has captureModeWindow w && windowBounds w)) w) ;;
  ifElse (has captureService)
    (fun w =>
       (call (Capture (windowInfo (conversation (orch w)))) ;;
        suspend (KCaptureShot (convId (conversation (orch w))))) w)
    captureFinish.

(** [captureContext()] up to its first [await]. *)
Definition captureContext : Proc :=
  ifElse (has windowService)
    (call GetActiveWindow ;; suspend KCaptureWindow)
    captureShot.

(** ** Session lifecycle *)

(** [reset()] *)
Definition reset : Proc :=
  when (has highlightService) (call HighlightHide) ;;
  when (has screenshotPreview) (call PreviewHide) ;;
  setState IDLE ;;
  setAiInFlight false ;;
  setFinalizing false ;;
  newConversation ;;
  setCurrentRound freshRound ;;
  setRoundNumber 0 ;;
  setContextReady false ;;
  call (SetSessionActive false) ;;
  call AIReset.

(** [hideAndReset()] *)
Definition hideAndReset : Proc :=
  call HideOverlay ;; send "overlay:hide" PNone ;; reset.

Definition lastAssistant (msgs : list Message) : option Message :=
  find (fun m => negb (isUser (role m))) (rev msgs).

(** The object literal of [saveAndReset], built at time [t]. *)
Definition historyRecord (o : Orchestrator) (t : N) : HistoryRecord :=
  let c := conversation o in
  MkHistoryRecord
    t t
    (join (js " " ++ [ARROW] ++ js " ")
          (map content (filter (fun m => isUser (role m)) (messages c))))
    (match lastAssistant (messages c) with Some m => content m | None => [] end)
    (match windowInfo c with
     | Some i => if isEmpty (title i) then js "unknown" else title i
     | None => js "unknown"
     end)
    (t - sessionStartTime o)%N
    (Nat.div2 (S (length (messages c))))
    (map (fun m => (role m, content m)) (messages c))
    (match screenshot c with
     | Some sh => if isEmpty (base64 sh) then None else Some (base64 sh)
     | None => None
     end)
    (if (0 <? inputTokens (tokenUsage c))%N then Some (tokenUsage c) else None).

(** [saveAndReset()] up to its [await this.stopTranscription()]. *)
Definition saveAndReset : Proc := stopTranscription ASSave.

(** [saveAndReset()] after that [await]. *)
Definition saveAndResetEnd : Proc :=
  when (has screenshotPreview) (call PreviewHide) ;;
  when (fun w => has historyService w
                 && (0 <? length (messages (conversation (orch w))))%nat)
       (fun w => call (HistorySave (historyRecord (orch w) (now w))) w) ;;
  hideAndReset.

(** ** AI response *)

Definition codeBlocks (content : jsstring) : list jsstring :=
  filterBoolean (map (fun m => trim (group content 1 m)) (matchAll reCodeBlock content)).

(** [autoCopyIfClean(content)] *)
Definition autoCopyIfClean (content : jsstring) : Proc :=
  if isEmpty content then skip
  else
    match codeBlocks content with
    | [b] =>
        if (120 <? length (trim (replaceAll reFence [] content)))%nat then skip
        else call (ClipboardWrite b) ;; send "overlay:auto-copied" PNone
    | _ => skip
    end.

(** [respondToUser(userMessage)] up to [await this.aiService.converse(...)]. *)
Definition respondToUser (userMessage : jsstring) (fromFinalize : bool) : Proc :=
  pushMessage (MkMessage User userMessage []) ;;
  send "overlay:button-thinking" (PText userMessage) ;;
  setAiInFlight true ;;
  (fun w =>
     let c := conversation (orch w) in
     call (AIConverse (messages c) (screenshot c) (windowInfo c)) w) ;;
  suspend (KRespond userMessage fromFinalize).

Definition addUsage (u : option Usage) : Proc :=
  match u with
  | None => skip
  | Some u =>
      fun w =>
        let c := conversation (orch w) in
        setConversation
          (MkConversation (convId c) (messages c) (screenshot c) (windowInfo c)
             (MkUsage (inputTokens (tokenUsage c) + inputTokens u)
                      (outputTokens (tokenUsage c) + outputTokens u))) w
  end.

(** [respondToUser] once [converse] resolved with [aiText]. *)
Definition respondResolved (aiText : jsstring) (usage : option Usage) : Proc :=
  ifElse (fun w => negb (inState CONVERSING w)) skip
    (addUsage usage ;;
     let p := AI.parseButtons aiText in
     pushMessage (MkMessage Assistant (AI.content p) (AI.buttons p)) ;;
     send "overlay:round-complete" (PRound (AI.content p) (AI.buttons p)) ;;
     autoCopyIfClean (AI.content p)).

(** [respondToUser] once [converse] rejected. *)
Definition respondRejected (message : jsstring) : Proc :=
  ifElse (fun w => negb (inState CONVERSING w)) skip
    (let content := js "**Error:** " ++ friendlyError message in
     let buttons :=
       if test reCredential message then [js "Settings"; js "Try again"]
       else [js "Try again"] in
     pushMessage (MkMessage Assistant content buttons) ;;
     send "overlay:round-complete" (PRound content buttons)).

(** The rest of [respondToUser], then the [finally] of [finalizeRound] when
    the call came from there. *)
Definition respondEnd (fromFinalize : bool) (r : Result) : Proc :=
  match r with
  | ResolvedText aiText usage => respondResolved aiText usage
  | Rejected message => respondRejected message
  | _ => respondResolved [] None
  end ;;
  setAiInFlight false ;;
  when (fun _ => fromFinalize) (setFinalizing false).

(** [round.segments.map(s => s.text).join(' ')], replaced by the trimmed
    partial when it is blank and the partial is not. *)
Definition buildTranscript (r : Round) : jsstring :=
  let transcript := join (js " ") (map text (segments r)) in
  if isEmpty (trim transcript) && negb (isEmpty (trim (currentPartial r)))
  then trim (currentPartial r)
  else transcript.

(** [finalizeRound] after [await this.stopTranscription()]. *)
Definition finalizeAfterStop (myRound : nat) : Proc :=
  fun w =>
    if negb (roundNumber (orch w) =? myRound)%nat then setFinalizing false w
    else
      let transcript := buildTranscript (currentRound (orch w)) in
      if isEmpty (trim transcript) then (saveAndReset ;; setFinalizing false) w
      else respondToUser transcript true w.

(** [finalizeRound] after [if (this.contextReady) await this.contextReady]. *)
Definition finalizeAfterContext (myRound : nat) : Proc :=
  fun w =>
    if negb (roundNumber (orch w) =? myRound)%nat then setFinalizing false w
    else
      (when (has highlightService) (call HighlightHide) ;;
       stopTranscription (ASFinalize myRound)) w.

(** [finalizeRound()] up to its first [await]. *)
Definition finalizeRound : Proc :=
  setState CONVERSING ;;
  setFinalizing true ;;
  fun w =>
    let myRound := roundNumber (orch w) in
    (send "overlay:finalizing" PNone ;;
     ifElse (fun w => contextReady (orch w))
       (suspend (KFinalizeContext myRound))
       (finalizeAfterContext myRound)) w.

(** [onCancel] after [await this.stopTranscription()]. *)
Definition cancelAfterStop : Proc :=
  send "overlay:cancel" PNone ;;
  call (SetTimeout 300) ;;
  fun w => suspend (KCancelTimer (now w + 300)) w.

Definition afterStop (k : AfterStop) : Proc :=
  match k with
  | ASFinalize myRound => finalizeAfterStop myRound
  | ASCancel => cancelAfterStop
  | ASSave => saveAndResetEnd
  end.

(** ** Handlers of the input events *)

(** [onTriggerDown()]; [settingsOpen] is what [isSettingsOpen()] returns. *)
Definition onTriggerDown (settingsOpen : bool) : Proc :=
  when (fun _ => settingsOpen) (call HideSettings) ;;
  fun w =>
    match state (orch w) with
    | RECORDING => finalizeRound w
    | CONVERSING =>
        if aiInFlight (orch w) || finalizing (orch w) then (w, [])
        else
          (setRoundNumber (S (roundNumber (orch w))) ;;
           setCurrentRound freshRound ;;
           setState RECORDING ;;
           send "overlay:new-round" PNone ;;
           startTranscription) w
    | CANCELLED => (w, [])
    | IDLE =>
        (setState RECORDING ;;
         setRoundNumber 0 ;;
         newConversation ;;
         setCurrentRound freshRound ;;
         setSessionStartTime (now w) ;;
         call (SetSessionActive true) ;;
         send "overlay:show" PNone ;;
         startTranscription ;;
         captureContext ;;
         setContextReady true) w
    end.

(** [onClose()] *)
Definition onClose : Proc :=
  fun w => if inState IDLE w then (w, []) else saveAndReset w.

(** [onCancel()] up to [await this.stopTranscription()]. *)
Definition onCancel : Proc :=
  fun w =>
    if inState IDLE w then (w, [])
    else
      (setState CANCELLED ;;
       when (has screenshotPreview) (call PreviewHide) ;;
       stopTranscription ASCancel) w.

(** [onButtonClick(label)] *)
Definition onButtonClick (label : jsstring) : Proc :=
  if jseq label (js "Settings") then call EmitOpenSettings
  else if jseq label (js "Dismiss") then onClose
  else fun w =>
         if negb (inState CONVERSING w) then (w, []) else respondToUser label false w.

(** [extractPasteable(text)] and [onCopyAction()] *)
Definition extractPasteable (t : jsstring) : jsstring :=
  if isEmpty t then []
  else match codeBlocks t with
       | [] => t
       | blocks => join [NL] blocks
       end.

Definition onCopyAction : Proc :=
  fun w =>
    match lastAssistant (messages (conversation (orch w))) with
    | Some m =>
        if isEmpty (content m) then (w, [])
        else call (ClipboardWrite (extractPasteable (content m))) w
    | None => (w, [])
    end.

(** [onBreakoutAction()] up to [await this.breakoutService.breakout(...)]. *)
Definition onBreakoutAction : Proc :=
  ifElse (has breakoutService) (call Breakout ;; suspend KBreakout) skip.

(** ** Resuming a suspended call *)

Definition resume (k : Cont) (r : Result) : Proc :=
  match k with
  | KStartTranscription =>
      match r with
      | Rejected message => onServiceError (js "Transcription failed") message
      | _ => skip
      end
  | KCaptureWindow =>
      match r with
      | ResolvedWindow info => setWindowInfo info
      | _ => skip
      end ;;
      captureShot
  | KCaptureShot conv =>
      match r with
      | Rejected _ => captureFinish
      | _ =>
          (fun w =>
             if (convId (conversation (orch w)) =? conv)%nat then
               setScreenshot (match r with ResolvedShot s => s | _ => None end) w
             else (w, [])) ;;
          fun w =>
            match screenshot (conversation (orch w)) with
            | Some sh =>
                (send "overlay:screenshot" (PText (base64 sh)) ;;
                 call ShowOverlay ;;
                 ifElse (fun w => has highlightService w && has highlightFlash w)
                   (call HighlightFlash ;; suspend KCaptureFlash)
                   captureFinish) w
            | None => captureFinish w
            end
      end
  | KCaptureFlash => call HighlightHide ;; captureFinish
  | KFinalizeContext myRound => finalizeAfterContext myRound
  | KStop k =>
      call TranscribeRemoveListeners ;; setListeners 0 ;; afterStop k
  | KStopped k => afterStop k
  | KRespond _ fromFinalize => respondEnd fromFinalize r
  | KCancelTimer _ => hideAndReset
  | KBreakout =>
      match r with
      | ResolvedBreakout (Some message) =>
          fun w =>
            if negb (isEmpty message) && has overlay w then
              (send "overlay:breakout-clipboard" (PText message) ;;
               suspend (KBreakoutDelay (now w + 3000))) w
            else onClose w
      | _ => onClose
      end
  | KBreakoutDelay _ => onClose
  end.

(** A timer callback runs once its delay has passed; an awaited promise may
    settle at any time, the promise of the context capture included: the
    machine has every run of the program, and runs in which an awaited call
    settles earlier than the program would let it. *)
Definition ready (k : Cont) (w : World) : bool :=
  match k with
  | KCancelTimer due | KBreakoutDelay due => (due <=? now w)%N
  | _ => true
  end.

Fixpoint removeAt {A} (i : nat) (l : list A) : list A :=
  match l, i with
  | [], _ => []
  | _ :: t, O => t
  | x :: t, S j => x :: removeAt j t
  end.

Definition isRespond (k : Cont) : bool :=
  match k with KRespond _ _ => true | _ => false end.

(** An emitted event runs every registered handler. *)
Fixpoint times (n : nat) (f : Proc) : Proc :=
  match n with
  | O => skip
  | S m => f ;; times m f
  end.

(** ** The machine *)

Inductive Event :=
| TriggerDown (settingsOpen : bool)
| CancelSignal
| CloseAction
| ButtonClick (label : jsstring)
| BreakoutAction
| CopyAction
| TranscribePartial (t : jsstring)
| TranscribeFinal (t : jsstring)
| TranscribeError (message : jsstring)
| StreamChunk (chunk : jsstring)
| Settle (i : nat) (r : Result)
| Tick (ms : N).

(** The transcription providers emit [partial] and [final] only for a text
    that is not blank: aws-transcribe.js and deepgram.js skip a result when
    [!transcript || transcript.trim().length === 0], whisper-local.js emits
    its trimmed text under [if (text && ...)] and emits no partial. *)
Definition emitted (t : jsstring) : bool := negb (isEmpty (trim t)).

Definition step (e : Event) : Proc :=
  match e with
  | TriggerDown settingsOpen => onTriggerDown settingsOpen
  | CancelSignal => onCancel
  | CloseAction => onClose
  | ButtonClick label => onButtonClick label
  | BreakoutAction => onBreakoutAction
  | CopyAction => onCopyAction
  | TranscribePartial t =>
      when (fun _ => emitted t) (fun w => times (listeners w) (onPartial t) w)
  | TranscribeFinal t =>
      when (fun _ => emitted t) (fun w => times (listeners w) (onFinal t) w)
  | TranscribeError message =>
      fun w =>
        times (listeners w) (onServiceError (js "Transcription error") message) w
  | StreamChunk chunk =>
      when (fun w => existsb isRespond (pool w) && inState CONVERSING w)
           (send "overlay:stream-chunk" (PText (replaceAll reEos [] chunk)))
  | Settle i r =>
      fun w =>
        match nth_error (pool w) i with
        | Some k =>
            if ready k w then
              resume k r (MkWorld (orch w) (listeners w) (removeAt i (pool w)) (now w))
            else (w, [])
        | None => (w, [])
        end
  | Tick ms => fun w => (MkWorld (orch w) (listeners w) (pool w) (now w + ms), [])
  end.

(** The events are handled one after the other; the calls add up. *)
Fixpoint run (evs : list Event) : Proc :=
  match evs with
  | [] => skip
  | e :: rest => step e ;; run rest
  end.

(** The orchestrator as its constructor leaves it. *)
Definition initialOrchestrator (d : Deps) : Orchestrator :=
  MkOrchestrator d IDLE (freshConversation 0) freshRound 0 0 false false false.

Definition initialWorld (d : Deps) : World :=
  MkWorld (initialOrchestrator d) 0 [] 0.

Definition allDeps : Deps :=
  MkDeps true true true true true true true true true true true.

(** ** Observations on a run *)

Definition isConverse (e : Effect) : bool :=
  match e with AIConverse _ _ _ => true | _ => false end.

(** The number of calls of [aiService.converse] in a trace. *)
Definition countConverse (t : list Effect) : nat := length (filter isConverse t).

Definition isHistorySave (e : Effect) : bool :=
  match e with HistorySave _ => true | _ => false end.

(** The records handed to [historyService.save] in a trace. *)
Definition saved (t : list Effect) : list HistoryRecord :=
  flat_map (fun e => match e with HistorySave r => [r] | _ => [] end) t.

(** A burst of trigger signals; each carries what [isSettingsOpen()]
    returned when it arrived. *)
Definition triggers (ts : list bool) : list Event := map TriggerDown ts.

(** What a burst of ignored triggers leaves in the trace. *)
Definition settingsHidden (ts : list bool) : list Effect :=
  map (fun _ => HideSettings) (filter (fun b => b) ts).

(** The orchestrator with its [finalizing] flag cleared. *)
Definition notFinalizing (o : Orchestrator) : Orchestrator :=
  MkOrchestrator (deps o) (state o) (conversation o) (currentRound o)
    (roundNumber o) (sessionStartTime o) (contextReady o) (aiInFlight o) false.

(** The suspended [stopTranscription] with the code that follows it. *)
Definition stopCont (d : Deps) (k : AfterStop) : Cont :=
  if transcribeService d then KStop k else KStopped k.

(** The orchestrator as [finalizeRound] leaves it at its first [await]. *)
Definition finalizingOrch (o : Orchestrator) : Orchestrator :=
  MkOrchestrator (deps o) CONVERSING (conversation o) (currentRound o)
    (roundNumber o) (sessionStartTime o) (contextReady o) (aiInFlight o) true.

(** The orchestrator as [respondToUser] leaves it at its [await]. *)
Definition respondingOrch (o : Orchestrator) (userMessage : jsstring) : Orchestrator :=
  let c := conversation o in
  MkOrchestrator (deps o) (state o)
    (MkConversation (convId c) (messages c ++ [MkMessage User userMessage []])
                    (screenshot c) (windowInfo c) (tokenUsage c))
    (currentRound o) (roundNumber o) (sessionStartTime o) (contextReady o) true
    (finalizing o).

(** What is observed of a run: the world it ends in and the number of calls
    of the AI it made. *)
Definition outcome (r : World * list Effect) : World * nat :=
  (fst r, countConverse (snd r)).

(** The orchestrator in another state. *)
Definition withState (o : Orchestrator) (s : State) : Orchestrator :=
  MkOrchestrator (deps o) s (conversation o) (currentRound o)
    (roundNumber o) (sessionStartTime o) (contextReady o) (aiInFlight o) (finalizing o).

(** A piece of code that hands only sessions with a message to
    [historyService.save]. *)
Definition SaveOk (f : Proc) : Prop :=
  forall w, Forall (fun r => hMessages r <> []) (saved (snd (f w))).

(** No segment of the current round is blank, and a piece of code that
    keeps it so. *)
Definition SegmentsOk (w : World) : Prop :=
  Forall (fun s => trim (text s) <> []) (segments (currentRound (orch w))).

Definition KeepsSegments (f : Proc) : Prop :=
  forall w, SegmentsOk w -> SegmentsOk (fst (f w)).

(** A finalize from the trigger that starts it to the end of the AI call,
    with a burst of further triggers at each point where it is suspended;
    [i] is the index at which its suspended call sits in the pool. *)
Definition rapidFinalize (i : nat) (awaitsContext : bool) (first : bool)
  (ts1 ts2 ts3 : list bool) (rc rs ra : Result) : list Event :=
  TriggerDown first
  :: (if awaitsContext then triggers ts1 ++ [Settle i rc] else [])
  ++ triggers ts2 ++ Settle i rs :: triggers ts3 ++ [Settle i ra].

(** ** Further observations on runs *)

(** The suspended calls that belong to a [finalizeRound], and their number
    in the pool. *)
Definition isFinalizeCont (k : Cont) : bool :=
  match k with
  | KFinalizeContext _ | KStop (ASFinalize _) | KStopped (ASFinalize _) => true
  | _ => false
  end.

Definition pendingFinalizes (w : World) : nat := length (filter isFinalizeCont (pool w)).

(** The events by which the user asks for an answer: a trigger, a click on
    a button. *)
Definition isRequest (e : Event) : bool :=
  match e with TriggerDown _ | ButtonClick _ => true | _ => false end.

Definition requests (evs : list Event) : nat := length (filter isRequest evs).

(** A piece of code that calls the AI, or leaves finalizes suspended that
    will, at most [n] times more than were suspended before. *)
Definition Spends (n : nat) (f : Proc) : Prop :=
  forall w,
    countConverse (snd (f w)) + pendingFinalizes (fst (f w)) <= pendingFinalizes w + n.

(** A piece of code all of whose calls satisfy [Q]. *)
Definition Emits (Q : Effect -> Prop) (f : Proc) : Prop :=
  forall w, Forall Q (snd (f w)).

(** A piece of code that keeps a property of the current round. *)
Definition KeepsRound (P : Round -> Prop) (f : Proc) : Prop :=
  forall w, P (currentRound (orch w)) -> P (currentRound (orch (fst (f w)))).

(** The segments of a round are numbered from 1 in the order they came. *)
Definition Numbered (r : Round) : Prop :=
  segmentCounter r = length (segments r)
  /\ map id (segments r) = List.seq 1 (length (segments r)).

(** A call of the AI whose last message is the user's. *)
Definition AsksUser (e : Effect) : Prop :=
  match e with
  | AIConverse msgs _ _ => exists before m, msgs = before ++ [m] /\ role m = User
  | _ => True
  end.

(** A write to the clipboard of a text that is not empty. *)
Definition CopiesText (e : Effect) : Prop :=
  match e with
  | ClipboardWrite s => s <> []
  | _ => True
  end.

Definition isClipboardWrite (e : Effect) : bool :=
  match e with ClipboardWrite _ => true | _ => false end.

(** The fence of a code block, and the backtick. *)
Definition FENCE : jsstring := js "```".
Definition TICK : N := ch "`".

End Session.

(* ===================================================================== *)
(** * history-service.js *)
(* ===================================================================== *)

Module History.
Import JS.

(** The pattern of [save] for the prefix of a data URL:
    [^data:image/\w+;base64,]. *)
Definition isWordChar (c : N) : bool :=
  (((48 <=? c) && (c <=? 57)) || ((65 <=? c) && (c <=? 90)) || (c =? 95)
   || ((97 <=? c) && (c <=? 122)))%N.

Definition reDataUrl : regex :=
  seq [Bol; lit (js "data:image/"); plus (Set_ isWordChar); lit (js ";base64,")].

(** An element of [history.json]: the session object as [save] leaves it,
    with the [hasScreenshot] it may have added. *)
Record Entry := MkEntry {
  session : Session.HistoryRecord;
  hasScreenshot : bool
}.

Definition entryId (e : Entry) : N := Session.hId (session e).

(** What [history.json] holds: no file; a file that cannot be read or
    parsed; a file whose JSON is not an array; an array of entries. *)
Inductive FileState :=
| Missing
| Unreadable
| NotAnArray
| Stored (entries : list Entry).

(** The service: the history file, the files [<id>.jpg] of the screenshots
    directory with the base64 text decoded into each, the cache, and whether
    the three callbacks are set. *)
Record Service := MkService {
  file : FileState;
  screenshots : list (N * jsstring);
  cache : option (list Entry);
  onSave : bool;
  onDelete : bool;
  onClear : bool
}.

(** Which calls of the file system succeed during one operation:
    [writeFileSync] on the history file and on a screenshot, [unlinkSync],
    [rmSync]. *)
Record Io := MkIo {
  writesHistory : bool;
  writesScreenshot : bool;
  unlinks : bool;
  removesDir : bool
}.

Inductive Notice :=
| Saved (e : Entry)
| Deleted (id : N)
| Cleared.

Definition withCache (s : Service) (c : option (list Entry)) : Service :=
  MkService (file s) (screenshots s) c (onSave s) (onDelete s) (onClear s).
Definition withFile (s : Service) (f : FileState) : Service :=
  MkService f (screenshots s) (cache s) (onSave s) (onDelete s) (onClear s).
Definition withScreenshots (s : Service) (l : list (N * jsstring)) : Service :=
  MkService (file s) l (cache s) (onSave s) (onDelete s) (onClear s).

(** [_loadFromDisk()]: [None] stands for a parsed value that is not an
    array, on which [push], [find] and [slice] throw. *)
Definition loadFromDisk (s : Service) : option (list Entry) :=
  match file s with
  | Stored l => Some l
  | NotAnArray => None
  | Missing | Unreadable => Some []
  end.

(** [load()] *)
Definition load (s : Service) : option (list Entry) * Service :=
  match cache s with
  | Some l => (Some l, s)
  | None => (loadFromDisk s, withCache s (loadFromDisk s))
  end.

Definition removeFile (id : N) (l : list (N * jsstring)) : list (N * jsstring) :=
  filter (fun f => negb (fst f =? id)%N) l.

Definition writeFile (id : N) (data : jsstring) (l : list (N * jsstring))
  : list (N * jsstring) :=
  (id, data) :: removeFile id l.

Definition stripScreenshot (r : Session.HistoryRecord) : Session.HistoryRecord :=
  Session.MkHistoryRecord (Session.hId r) (Session.hTimestamp r) (Session.hTranscript r)
    (Session.hAiText r) (Session.hWindowTitle r) (Session.hDurationMs r)
    (Session.hRounds r) (Session.hMessages r) None (Session.hTokenUsage r).

(** The part of [save] under [if (session.screenshot)]: the entry it leaves
    and the screenshot files afterwards. *)
Definition saveScreenshot (io : Io) (r : Session.HistoryRecord) (s : Service)
  : Entry * Service :=
  match Session.hScreenshot r with
  | Some img =>
      if isEmpty img then (MkEntry r false, s)
      else if writesScreenshot io then
        (MkEntry (stripScreenshot r) true,
         withScreenshots s (writeFile (Session.hId r) (replace reDataUrl [] img)
                                      (screenshots s)))
      else (MkEntry (stripScreenshot r) false, s)
  | None => (MkEntry r false, s)
  end.

(** [save(session)] *)
Definition save (io : Io) (r : Session.HistoryRecord) (s : Service)
  : Service * list Notice :=
  let (entry, s1) := saveScreenshot io r s in
  match load s1 with
  | (None, s2) => (s2, [])
  | (Some entries, s2) =>
      let s3 := withCache s2 (Some (entries ++ [entry])) in
      if writesHistory io then
        (withFile s3 (Stored (entries ++ [entry])),
         if onSave s then [Saved entry] else [])
      else (s3, [])
  end.

(** [delete(id)] *)
Definition delete (io : Io) (id : N) (s : Service) : Service * list Notice :=
  match load s with
  | (None, s1) => (s1, [])
  | (Some entries, s1) =>
      let s2 :=
        match find (fun e => (entryId e =? id)%N) entries with
        | Some e =>
            if hasScreenshot e && unlinks io
            then withScreenshots s1 (removeFile id (screenshots s1))
            else s1
        | None => s1
        end in
      let filtered := filter (fun e => negb (entryId e =? id)%N) entries in
      let s3 := withCache s2 (Some filtered) in
      if writesHistory io then
        (withFile s3 (Stored filtered), if onDelete s then [Deleted id] else [])
      else (s3, [])
  end.

(** [clear()] *)
Definition clear (io : Io) (s : Service) : Service * list Notice :=
  let s1 := withCache s (Some []) in
  if writesHistory io then
    let s2 := withFile s1 (Stored []) in
    if removesDir io then
      (withScreenshots s2 [], if onClear s then [Cleared] else [])
    else (s2, [])
  else (s1, []).

(** [getAll()]: newest first; [None] when [slice] throws. *)
Definition getAll (s : Service) : option (list Entry) * Service :=
  let (l, s1) := load s in (option_map (@rev Entry) l, s1).

(** [HistoryService.composeSearchText(entry)] *)
Definition composeSearchText (e : Entry) : jsstring :=
  join [NL; NL]
    (filterBoolean [Session.hTranscript (session e); Session.hAiText (session e)]).

(** A new service object on the same directory: the application restarted. *)
Definition restart (s : Service) : Service := withCache s None.

(** The operations, one after the other. *)
Inductive Op :=
| Save (io : Io) (r : Session.HistoryRecord)
| Delete (io : Io) (id : N)
| Clear (io : Io)
| GetAll.

Definition apply (o : Op) (s : Service) : Service * list Notice :=
  match o with
  | Save io r => save io r s
  | Delete io id => delete io id s
  | Clear io => clear io s
  | GetAll => (snd (getAll s), [])
  end.

Fixpoint applyAll (ops : list Op) (s : Service) : Service * list Notice :=
  match ops with
  | [] => (s, [])
  | o :: rest =>
      let (s1, n1) := apply o s in
      let (s2, n2) := applyAll rest s1 in
      (s2, n1 ++ n2)
  end.

Definition writesOf (o : Op) : bool :=
  match o with
  | Save io _ | Delete io _ | Clear io => writesHistory io
  | GetAll => true
  end.

(** The cache, once filled, is what a new load of the history file gives. *)
Definition Synced (s : Service) : Prop :=
  match cache s with
  | Some l => loadFromDisk s = Some l
  | None => True
  end.

(** The entry [save] makes of a session. *)
Definition entryOf (io : Io) (r : Session.HistoryRecord) : Entry :=
  match Session.hScreenshot r with
  | Some img =>
      if isEmpty img then MkEntry r false
      else MkEntry (stripScreenshot r) (writesScreenshot io)
  | None => MkEntry r false
  end.

(** Every session the orchestrator handed over in a trace, saved in that
    order. *)
Definition saveAll (io : Io) (rs : list Session.HistoryRecord) (s : Service) : Service :=
  fold_left (fun acc r => fst (save io r acc)) rs s.

End History.

(* ===================================================================== *)
(** * input-monitor.js *)
(* ===================================================================== *)

Module InputMonitor.

(** How [globalShortcut.register] ends: it returns [true], it returns
    [false], or it throws. *)
Inductive Registration := Registered | Refused | Thrown.

(** What the callback registered for an accelerator does. *)
Inductive Handler := EmitTrigger | EmitCancel.

Inductive Emitted :=
| TriggerDown
| Cancel
| HotkeyFailed (accelerator : string).

(** The monitor, and the global shortcuts the application holds. *)
Record Monitor := MkMonitor {
  sessionActive : bool;
  started : bool;
  registeredAccelerator : option string;
  escapeRegistered : bool;
  hotkeyFailed : bool;
  shortcuts : list (string * Handler)
}.

(** The monitor as its constructor leaves it. *)
Definition initial : Monitor := MkMonitor false false None false false [].

(** [getHotkey().accelerator], tested with [if (!accelerator)]: the
    configured accelerator, if there is one and it is not empty. *)
Definition accelerator (hotkey : option string) : option string :=
  match hotkey with
  | Some a => if String.eqb a EmptyString then None else Some a
  | None => None
  end.

Definition unregister (a : string) (l : list (string * Handler))
  : list (string * Handler) :=
  filter (fun p => negb (String.eqb (fst p) a)) l.

(** [registerHotkey()] *)
Definition registerHotkey (hotkey : option string) (os : string -> Registration)
  (m : Monitor) : Monitor * list Emitted :=
  match accelerator hotkey with
  | None => (m, [])
  | Some a =>
      match os a with
      | Registered =>
          (MkMonitor (sessionActive m) (started m) (Some a) (escapeRegistered m) false
                     ((a, EmitTrigger) :: shortcuts m),
           [])
      | Refused | Thrown =>
          (MkMonitor (sessionActive m) (started m) (registeredAccelerator m)
                     (escapeRegistered m) true (shortcuts m),
           [HotkeyFailed a])
      end
  end.

(** [hotkey.accelerator === 'Escape'] *)
Definition isEscape (hotkey : option string) : bool :=
  match hotkey with
  | Some a => String.eqb a "Escape"
  | None => false
  end.

(** [registerEscape()] *)
Definition registerEscape (hotkey : option string) (os : string -> Registration)
  (m : Monitor) : Monitor :=
  if escapeRegistered m then m
  else if isEscape hotkey then m
  else
    match os "Escape"%string with
    | Registered =>
        MkMonitor (sessionActive m) (started m) (registeredAccelerator m) true
                  (hotkeyFailed m) (("Escape"%string, EmitCancel) :: shortcuts m)
    | Refused | Thrown => m
    end.

(** [unregisterEscape()] *)
Definition unregisterEscape (m : Monitor) : Monitor :=
  if escapeRegistered m then
    MkMonitor (sessionActive m) (started m) (registeredAccelerator m) false
              (hotkeyFailed m) (unregister "Escape" (shortcuts m))
  else m.

(** [unregisterAll()] *)
Definition unregisterAll (m : Monitor) : Monitor :=
  unregisterEscape
    match registeredAccelerator m with
    | Some a =>
        MkMonitor (sessionActive m) (started m) None (escapeRegistered m)
                  (hotkeyFailed m) (unregister a (shortcuts m))
    | None => m
    end.

Definition setStarted (b : bool) (m : Monitor) : Monitor :=
  MkMonitor (sessionActive m) b (registeredAccelerator m) (escapeRegistered m)
            (hotkeyFailed m) (shortcuts m).

(** [start()] *)
Definition start (hotkey : option string) (os : string -> Registration) (m : Monitor)
  : Monitor * list Emitted :=
  if started m then (m, []) else registerHotkey hotkey os (setStarted true m).

(** [stop()] *)
Definition stop (m : Monitor) : Monitor := setStarted false (unregisterAll m).

(** [updateHotkey()] *)
Definition updateHotkey (hotkey : option string) (os : string -> Registration)
  (m : Monitor) : Monitor * list Emitted :=
  if started m then registerHotkey hotkey os (unregisterAll m) else (m, []).

(** [setSessionActive(active)] *)
Definition setSessionActive (active : bool) (hotkey : option string)
  (os : string -> Registration) (m : Monitor) : Monitor :=
  let m1 := MkMonitor active (started m) (registeredAccelerator m) (escapeRegistered m)
                      (hotkeyFailed m) (shortcuts m) in
  if active then registerEscape hotkey os m1 else unregisterEscape m1.

(** The user presses a key combination: the callback registered for it
    runs, if there is one. *)
Definition press (a : string) (m : Monitor) : list Emitted :=
  match find (fun p => String.eqb (fst p) a) (shortcuts m) with
  | Some (_, EmitTrigger) => [TriggerDown]
  | Some (_, EmitCancel) => if sessionActive m then [Cancel] else []
  | None => []
  end.

(** The calls made on the monitor; each comes with the hotkey the
    configuration holds then and with what the system answers to a
    registration. *)
Inductive Op :=
| Start (hotkey : option string) (os : string -> Registration)
| Stop
| UpdateHotkey (hotkey : option string) (os : string -> Registration)
| SetSessionActive (active : bool) (hotkey : option string) (os : string -> Registration).

Definition apply (o : Op) (m : Monitor) : Monitor :=
  match o with
  | Start hotkey os => fst (start hotkey os m)
  | Stop => stop m
  | UpdateHotkey hotkey os => fst (updateHotkey hotkey os m)
  | SetSessionActive active hotkey os => setSessionActive active hotkey os m
  end.

Definition applyAll (ops : list Op) (m : Monitor) : Monitor :=
  fold_left (fun acc o => apply o acc) ops m.

(** Every shortcut the application holds is one the monitor remembers:
    the trigger under [registeredAccelerator], the cancel under
    [escapeRegistered]; the trigger is remembered only while the monitor is
    started, the cancel only while a session is active. *)
Definition Remembered (m : Monitor) : Prop :=
  Forall (fun p =>
            match snd p with
            | EmitTrigger => registeredAccelerator m = Some (fst p)
            | EmitCancel => fst p = "Escape"%string /\ escapeRegistered m = true
            end) (shortcuts m)
  /\ (started m = false -> registeredAccelerator m = None)
  /\ (escapeRegistered m = true -> sessionActive m = true).

End InputMonitor.

(* ===================================================================== *)
(** * Inputs used in the statements below *)
(* ===================================================================== *)

Module Examples.
Import JS.

(** The responses of the button-parsing examples. *)
Definition responseWithTag : jsstring :=
  js "Here's the fix." ++ [NL] ++ js "[BUTTONS: " ++ [QUOTE] ++ js "More detail"
     ++ [QUOTE] ++ js ", " ++ [QUOTE] ++ js "Simpler" ++ [QUOTE] ++ js "]".

Definition responseWithTruncatedTag : jsstring :=
  js "Partial answer" ++ [NL] ++ js "[BUTTONS: " ++ [QUOTE] ++ js "One".

Definition bareExample : jsstring :=
  js "Explanation text" ++ [NL] ++ js "More detail" ++ [NL] ++ js "Simpler version".

Definition bareExamplePunctuated : jsstring :=
  js "Explanation text." ++ [NL] ++ js "More detail" ++ [NL] ++ js "Simpler version".

(** A provider that was started, and one with buffered speech. *)
Definition startedProvider : Whisper.Provider := Whisper.start Whisper.initial.

Definition loudChunk : Whisper.Chunk := [32767%Z; (-32768)%Z; 12000%Z].
Definition silentChunk : Whisper.Chunk := [0%Z; 0%Z; 0%Z; 0%Z].

(** The AI registry holding the on-device provider, and the transcription
    registry holding the AWS provider. *)
Definition localProvider : AIService.Instance :=
  AIService.MkInstance "LocalProvider" 0.
Definition aiWithLocal : AIService.Service :=
  AIService.MkService (Some localProvider) (Some "local"%string) 1.

Definition awsProvider : TranscribeService.Instance :=
  TranscribeService.MkInstance "AwsTranscribeProvider" 0.
Definition transcribeWithAws : TranscribeService.Service :=
  TranscribeService.MkService (Some awsProvider) (Some "aws"%string) 1.

(** The phrases of the three unanchored hallucination patterns. *)
Definition fillerPhrases : list jsstring :=
  [js "thank you"; js "thanks"; js "please like"; js "please subscribe";
   js "[music]"; js "[applause]"].

Definition politeRequest : jsstring :=
  js "Draft a reply and say thank you to Maria for sending the quarterly report early".

(** The segments of the transcript example. *)
Definition exampleSegments : list Session.Segment :=
  [ Session.MkSegment 1 (js "find") 0; Session.MkSegment 2 (js "files") 0;
    Session.MkSegment 3 (js "bigger") 0; Session.MkSegment 4 (js "than") 0;
    Session.MkSegment 5 (js "a") 0; Session.MkSegment 6 (js "gig") 0 ].

(** A session that is recording its first round, with the context captured
    and one segment heard. *)
Definition recordingSession : list Session.Event :=
  [ Session.TriggerDown false; Session.Settle 0 Session.Resolved;
    Session.Settle 0 (Session.ResolvedWindow None);
    Session.Settle 0 (Session.ResolvedShot None);
    Session.TranscribeFinal (js "find files") ].

Definition recordingWorld : Session.World :=
  fst (Session.run recordingSession (Session.initialWorld Session.allDeps)).

(** A finished first round, a second round begun, its finalize begun, and
    the cancel signal before [transcribeService.stop()] resolved. *)
Definition cancelDuringFinalize : list Session.Event :=
  recordingSession
  ++ [ Session.TriggerDown false; Session.Settle 0 Session.Resolved;
       Session.Settle 0 (Session.ResolvedText (js "ok") None);
       Session.TriggerDown false; Session.Settle 0 Session.Resolved;
       Session.TriggerDown false; Session.CancelSignal ].

(** The stop awaited by [onCancel] resolves, then the one the finalize
    awaits, then the one [saveAndReset] awaits; 300ms later the timer of
    [onCancel] fires. *)
Definition afterCancel : list Session.Event :=
  [ Session.Settle 1 Session.Resolved; Session.Settle 0 Session.Resolved;
    Session.Settle 1 Session.Resolved; Session.Tick 300;
    Session.Settle 0 Session.Resolved ].

(** An orchestrator with the capture service only; a session that is
    cancelled while its screenshot is awaited, and the next one begun. *)
Definition captureOnly : Session.Deps :=
  Session.MkDeps false false true false false false false false false false false.

Definition staleCapture : list Session.Event :=
  [ Session.TriggerDown false; Session.CancelSignal; Session.Settle 1 Session.Resolved;
    Session.Tick 300; Session.Settle 1 Session.Resolved; Session.TriggerDown false ].

(** End of the inputs. *)
End Examples.

(* ===================================================================== *)
(** * Properties *)
(* ===================================================================== *)

Import JS.
Import Examples.

(** ** Strings *)

Lemma jseq_refl (a : jsstring) : jseq a a = true.
Proof.
  induction a as [|x a IH]; simpl; [reflexivity|].
  rewrite N.eqb_refl, IH. reflexivity.
Qed.

Lemma jseq_eq (a b : jsstring) : jseq a b = true <-> a = b.
Proof.
  split.
  - revert b. induction a as [|x a IH]; intros [|y b] H; simpl in H;
      try discriminate; [reflexivity|].
    apply andb_true_iff in H. destruct H as [H1 H2].
    apply N.eqb_eq in H1. apply IH in H2. congruence.
  - intros ->. apply jseq_refl.
Qed.

Lemma isEmpty_true (s : jsstring) : isEmpty s = true <-> s = [].
Proof. destruct s; simpl; split; congruence. Qed.

Lemma isEmpty_false (s : jsstring) : isEmpty s = false <-> s <> [].
Proof. destruct s; simpl; split; congruence. Qed.

Lemma dropWhile_nil_iff (p : N -> bool) (s : jsstring) :
  dropWhile p s = [] <-> forallb p s = true.
Proof.
  induction s as [|c s IH]; simpl; [tauto|].
  destruct (p c); simpl; [exact IH|]. split; discriminate.
Qed.

Lemma trimEnd_snoc (s : jsstring) (c : N) :
  trimEnd (s ++ [c]) = if isWhiteSpace c then trimEnd s else s ++ [c].
Proof.
  unfold trimEnd. rewrite rev_app_distr. simpl.
  destruct (isWhiteSpace c); [reflexivity|].
  simpl. rewrite rev_involutive. reflexivity.
Qed.

(** A string trims to the empty string exactly when it is blank. *)
Lemma trim_nil_iff (s : jsstring) : trim s = [] <-> forallb isWhiteSpace s = true.
Proof.
  unfold trim, trimStart. rewrite dropWhile_nil_iff.
  induction s as [|c s IH] using rev_ind; [simpl; tauto|].
  rewrite trimEnd_snoc, forallb_app. simpl.
  destruct (isWhiteSpace c) eqn:E.
  - rewrite IH. rewrite !andb_true_r. tauto.
  - rewrite forallb_app. simpl. rewrite E. rewrite !andb_false_r. tauto.
Qed.

Lemma trimStart_cons (c : N) (s : jsstring) :
  trimStart (c :: s) = if isWhiteSpace c then trimStart s else c :: s.
Proof. reflexivity. Qed.

Lemma upper_whitespace (c : N) : isWhiteSpace c = true -> upper c = c.
Proof.
  unfold isWhiteSpace, upper. intros H.
  destruct ((97 <=? c)%N && (c <=? 122)%N) eqn:E; [|reflexivity].
  exfalso. apply andb_true_iff in E. destruct E as [E1 E2].
  apply N.leb_le in E1. apply N.leb_le in E2.
  repeat (apply orb_true_iff in H; destruct H as [H|H]);
    try (apply N.eqb_eq in H; lia).
  apply andb_true_iff in H. destruct H as [H1 H2].
  apply N.leb_le in H1. lia.
Qed.

Lemma not_whitespace_upper (c u : N) :
  upper c = u -> isWhiteSpace u = false -> isWhiteSpace c = false.
Proof.
  intros Hu Hw. destruct (isWhiteSpace c) eqn:E; [|reflexivity].
  rewrite (upper_whitespace c E) in Hu. congruence.
Qed.

(** A piece of text that starts and ends with a character that is not white
    space survives [trim]. *)
Lemma trimEnd_keeps (pre mid post : jsstring) (m : N) :
  isWhiteSpace m = false ->
  exists post', trimEnd (pre ++ (mid ++ [m]) ++ post) = pre ++ (mid ++ [m]) ++ post'.
Proof.
  intros Hm. induction post as [|c post IH] using rev_ind.
  - exists []. rewrite !app_nil_r, app_assoc, trimEnd_snoc, Hm. reflexivity.
  - replace (pre ++ (mid ++ [m]) ++ post ++ [c])
      with ((pre ++ (mid ++ [m]) ++ post) ++ [c])
      by (rewrite <- !app_assoc; reflexivity).
    rewrite trimEnd_snoc. destruct (isWhiteSpace c).
    + exact IH.
    + exists (post ++ [c]). rewrite <- !app_assoc. reflexivity.
Qed.

Lemma trimStart_keeps (pre mid post : jsstring) (m : N) :
  isWhiteSpace m = false ->
  exists pre', trimStart (pre ++ (m :: mid) ++ post) = pre' ++ (m :: mid) ++ post.
Proof.
  intros Hm. induction pre as [|c pre IH].
  - exists []. simpl. rewrite trimStart_cons, Hm. reflexivity.
  - simpl. rewrite trimStart_cons. destruct (isWhiteSpace c).
    + exact IH.
    + exists (c :: pre). reflexivity.
Qed.

Lemma trim_keeps (pre mid post : jsstring) :
  mid <> [] ->
  isWhiteSpace (hd 0%N mid) = false ->
  isWhiteSpace (last mid 0%N) = false ->
  exists pre' post', trim (pre ++ mid ++ post) = pre' ++ mid ++ post'.
Proof.
  intros Hne Hhd Hlast.
  destruct (exists_last Hne) as [body [m Hm]].
  rewrite Hm in Hlast. rewrite last_last in Hlast.
  destruct (trimEnd_keeps pre body post m Hlast) as [post' Hpost].
  unfold trim. rewrite Hm, Hpost, <- Hm.
  destruct mid as [|h mid]; [congruence|]. simpl in Hhd.
  destruct (trimStart_keeps pre mid post' h Hhd) as [pre' Hpre].
  exists pre', post'. exact Hpre.
Qed.

(** ** The matcher *)

Lemma rmatch_liti (w : jsstring) :
  forall (mid post : jsstring) (i : nat) (c : list (nat * (nat * nat)))
         (k : mstate -> option mstate),
    map upper mid = map upper w ->
    rmatch (liti w) (MState i (mid ++ post) c) k
      = k (MState (i + length mid) post c).
Proof.
  induction w as [|a w IH]; intros mid post i c k H.
  - destruct mid; [|discriminate]. simpl. rewrite Nat.add_0_r. reflexivity.
  - destruct mid as [|m mid]; [discriminate|]. simpl in H.
    injection H as Hm Hmid.
    change (liti (a :: w)) with (Cat (chri a) (liti w)).
    cbn [rmatch chri rest pos caps app].
    rewrite Hm, N.eqb_refl, (IH mid post (S i) c k Hmid).
    simpl length. rewrite Nat.add_succ_r. reflexivity.
Qed.

Lemma rmatch_alt_left (a b : regex) (x : mstate) (k : mstate -> option mstate) :
  rmatch a x k <> None -> rmatch (Alt a b) x k <> None.
Proof. simpl. destruct (rmatch a x k); congruence. Qed.

Lemma rmatch_alt_right (a b : regex) (x : mstate) (k : mstate -> option mstate) :
  rmatch b x k <> None -> rmatch (Alt a b) x k <> None.
Proof. simpl. destruct (rmatch a x k); congruence. Qed.

Lemma rmatch_opt (a : regex) (x : mstate) (k : mstate -> option mstate) :
  k x <> None -> rmatch (opt a) x k <> None.
Proof.
  intros H. unfold opt. simpl.
  match goal with |- context [rmatch a x ?d] => destruct (rmatch a x d) end;
    congruence.
Qed.

(** A pattern that matches at the start of [mid ++ post], wherever that
    is, is found in every text that contains [mid]. *)
Lemma execFrom_found (r : regex) (mid post : jsstring) :
  (forall i, matchAt r i (mid ++ post) <> None) ->
  forall (pre : jsstring) (i : nat), execFrom r i (pre ++ mid ++ post) <> None.
Proof.
  intros H pre. induction pre as [|c pre IH]; intros i.
  - simpl app. specialize (H i).
    destruct (mid ++ post); simpl;
      destruct (matchAt r i _); congruence.
  - simpl. destruct (matchAt r i (c :: pre ++ mid ++ post)); [discriminate|].
    apply IH.
Qed.

Lemma test_found (r : regex) (pre mid post : jsstring) :
  (forall i, matchAt r i (mid ++ post) <> None) ->
  test r (pre ++ mid ++ post) = true.
Proof.
  intros H. unfold test, exec.
  destruct (execFrom r 0 (pre ++ mid ++ post)) eqn:E; [reflexivity|].
  exfalso. revert E. apply execFrom_found. exact H.
Qed.

(** ** C6: the two tagged responses *)

(** C6. [parseButtons] on the response that ends in the complete tag
    returns the content before the tag and the two labels; on the response
    that ends in a tag without its closing bracket it strips the fragment
    and returns no buttons. *)
Theorem parseButtons_tag_examples :
  AI.parseButtons responseWithTag
    = AI.MkParsed (js "Here's the fix.") [js "More detail"; js "Simpler"]
  /\ AI.parseButtons responseWithTruncatedTag
    = AI.MkParsed (js "Partial answer") [].
Proof. split; vm_compute; reflexivity. Qed.

(** ** C7: bare trailing lines *)

(** C7, as stated, fails: on the three-line input every line is a bare
    short line, the scan takes all three, nothing is left for the content,
    and [parseButtons] returns the whole input with no buttons. *)
Lemma parseButtons_bare_example_counterexample :
  AI.parseButtons bareExample = AI.MkParsed bareExample []
  /\ AI.parseButtons bareExample
     <> AI.MkParsed (js "Explanation text") [js "More detail"; js "Simpler version"].
Proof. split; [vm_compute; reflexivity | vm_compute; discriminate]. Qed.

(** ** C5: the hallucination filter *)

(** Only text that passes the filter is ever emitted. *)
Lemma runInferenceEnd_emits (result : option (list jsstring)) (p : Whisper.Provider)
  (t : jsstring) :
  In (Whisper.EmitFinal t) (snd (Whisper.runInferenceEnd result p)) ->
  Whisper.isHallucination t = false /\ t <> [].
Proof.
  unfold Whisper.runInferenceEnd. destruct result as [segs|]; simpl; [|tauto].
  destruct (isEmpty (trim (concat segs))) eqn:E1; simpl; [tauto|].
  destruct (Whisper.isHallucination (trim (concat segs))) eqn:E2; simpl; [tauto|].
  intros [H|[]]. injection H as <-. split; [assumption|].
  apply isEmpty_false. assumption.
Qed.

Lemma runInferenceEnd_rejects (segs : list jsstring) (p : Whisper.Provider) :
  Whisper.isHallucination (trim (concat segs)) = true ->
  snd (Whisper.runInferenceEnd (Some segs) p) = [].
Proof.
  intros H. unfold Whisper.runInferenceEnd. rewrite H.
  rewrite andb_false_r. reflexivity.
Qed.

(** C5. The outputs [.], [you] and [Thank you for watching!] are
    hallucinations and an inference pass that produced one of them emits
    nothing; every output whose trimmed text has at most one character is a
    hallucination; [turn off the lights] is not one, and a successful
    inference pass that produced it emits it as the one [final] event. *)
Theorem hallucination_filter :
  (Whisper.isHallucination (js ".") = true
   /\ Whisper.isHallucination (js "you") = true
   /\ Whisper.isHallucination (js "Thank you for watching!") = true)
  /\ (forall (p : Whisper.Provider) (segs : list jsstring),
        trim (concat segs) = js "." \/ trim (concat segs) = js "you"
        \/ trim (concat segs) = js "Thank you for watching!" ->
        snd (Whisper.runInferenceEnd (Some segs) p) = [])
  /\ (forall text : jsstring,
        (length (trim text) <= 1)%nat -> Whisper.isHallucination text = true)
  /\ (forall (p : Whisper.Provider) (result : option (list jsstring)) (t : jsstring),
        In (Whisper.EmitFinal t) (snd (Whisper.runInferenceEnd result p)) ->
        Whisper.isHallucination t = false)
  /\ Whisper.isHallucination (js "turn off the lights") = false
  /\ (forall (p : Whisper.Provider) (segs : list jsstring),
        trim (concat segs) = js "turn off the lights" ->
        snd (Whisper.runInferenceEnd (Some segs) p)
          = [Whisper.EmitFinal (js "turn off the lights")]).
Proof.
  split; [repeat split; vm_compute; reflexivity|].
  split.
  { intros p segs H. apply runInferenceEnd_rejects.
    destruct H as [-> | [-> | ->]]; vm_compute; reflexivity. }
  split.
  { intros text H. unfold Whisper.isHallucination.
    apply Nat.leb_le in H. rewrite H, orb_true_r. reflexivity. }
  split.
  { intros p result t H. apply runInferenceEnd_emits in H. tauto. }
  split; [vm_compute; reflexivity|].
  intros p segs H. unfold Whisper.runInferenceEnd. rewrite H. reflexivity.
Qed.

Lemma hallucination_filter_witness :
  snd (Whisper.runInferenceEnd (Some [js " Thank you"; js " for watching! "])
         startedProvider) = []
  /\ Whisper.isHallucination (js " I ") = true
  /\ snd (Whisper.runInferenceEnd (Some [js " turn off"; js " the lights"])
            startedProvider) = [Whisper.EmitFinal (js "turn off the lights")].
Proof.
  destruct hallucination_filter as [_ [H1 [H2 [_ [_ H3]]]]].
  split; [apply H1; right; right; vm_compute; reflexivity|].
  split; [apply H2; vm_compute; lia|].
  apply H3. vm_compute. reflexivity.
Defined.

(** ** C9: switching the active provider *)

(** C9. Both registries construct a new object of the new provider's class
    when the configured id differs from the cached one, and hand out that
    object from then on.  The transcription registry removes the listeners
    of the previous object first.  The AI registry makes no call on the
    previous object: with the on-device provider cached and the configured
    id changed to [openai], the only effect of [getProvider] is the
    construction of the new object; [invalidateClient] of the previous one,
    which unloads its model, is not called. *)
Theorem provider_switch :
  (forall (s : AIService.Service) (cfg : option string) (cls : string),
      AIService.sameType (AIService.providerType s) (AIService.activeType cfg) = false ->
      AIService.lookup (AIService.activeType cfg) AIService.PROVIDERS = Some cls ->
      let fresh := AIService.MkInstance cls (AIService.constructed s) in
      AIService.getProvider cfg s
        = (AIService.Returned (Some fresh),
           AIService.MkService (Some fresh) (Some (AIService.activeType cfg))
                               (S (AIService.constructed s)),
           [AIService.Construct fresh])
      /\ fst (fst (AIService.getProvider cfg (snd (fst (AIService.getProvider cfg s)))))
          = AIService.Returned (Some fresh))
  /\ (forall (s : TranscribeService.Service) (cfg : option string) (cls : string),
      AIService.sameType (TranscribeService.providerType s)
                         (TranscribeService.activeType cfg) = false ->
      AIService.lookup (TranscribeService.activeType cfg) TranscribeService.PROVIDERS
        = Some cls ->
      let fresh := TranscribeService.MkInstance cls (TranscribeService.constructed s) in
      TranscribeService.getProvider cfg s
        = (AIService.Returned (Some fresh),
           TranscribeService.MkService (Some fresh)
             (Some (TranscribeService.activeType cfg))
             (S (TranscribeService.constructed s)),
           match TranscribeService.provider s with
           | Some old => [TranscribeService.RemoveAllListeners old]
           | None => []
           end ++ [TranscribeService.Construct fresh]))
  /\ snd (AIService.getProvider (Some "openai"%string) aiWithLocal)
      = [AIService.Construct (AIService.MkInstance "OpenAIProvider" 1)]
  /\ ~ In (AIService.InvalidateClient localProvider)
         (snd (AIService.getProvider (Some "openai"%string) aiWithLocal))
  /\ snd (TranscribeService.getProvider (Some "deepgram"%string) transcribeWithAws)
      = [TranscribeService.RemoveAllListeners awsProvider;
         TranscribeService.Construct (TranscribeService.MkInstance "DeepgramProvider" 1)].
Proof.
  split.
  { intros s cfg cls Hne Hcls fresh. unfold AIService.getProvider.
    rewrite Hne, Hcls. simpl. split; [reflexivity|].
    unfold AIService.sameType. rewrite String.eqb_refl. reflexivity. }
  split.
  { intros s cfg cls Hne Hcls fresh. unfold TranscribeService.getProvider.
    rewrite Hne, Hcls. reflexivity. }
  split; [reflexivity|].
  split; [|reflexivity].
  simpl. intros [H|[]]. discriminate H.
Qed.

(** ** C4: the energy gate *)

Lemma sumSq_zero (c : Whisper.Chunk) :
  Forall (fun x => x = 0%Z) c -> Whisper.sumSq c = 0%Z.
Proof.
  unfold Whisper.sumSq. induction 1 as [|x c Hx _ IH]; [reflexivity|].
  subst x. simpl. exact IH.
Qed.

(** In exact arithmetic a chunk of zero samples is below the threshold. *)
Lemma rmsExact_zero (c : Whisper.Chunk) :
  Forall (fun x => x = 0%Z) c -> Whisper.rmsExact c = false.
Proof.
  intros H. unfold Whisper.rmsExact. rewrite (sumSq_zero c H).
  destruct c as [|x c]; [reflexivity|].
  simpl negb. rewrite andb_true_l. apply Z.leb_gt.
  change (length (x :: c)) with (S (length c)). lia.
Qed.

(** C4, as stated, fails: a provider that is not running drops every chunk,
    also one far above the threshold. *)
Lemma energy_gate_stopped_counterexample :
  Whisper.running Whisper.initial = false
  /\ Whisper.rmsExact loudChunk = true
  /\ Whisper.reachesThreshold loudChunk = true
  /\ (forall loud : Whisper.Chunk -> bool,
        loud loudChunk = true ->
        Whisper.sendAudioChunk loud Whisper.initial loudChunk = Whisper.initial
        /\ Whisper.pendingAudio (Whisper.sendAudioChunk loud Whisper.initial loudChunk)
           <> Whisper.pendingAudio Whisper.initial ++ [loudChunk]).
Proof.
  split; [reflexivity|]. split; [vm_compute; reflexivity|].
  split; [vm_compute; reflexivity|].
  intros loud _. split; [reflexivity|]. simpl. discriminate.
Qed.

Section EnergyGateFacts.

Variable loud : Whisper.Chunk -> bool.

Let send := Whisper.sendAudioChunk loud.

Lemma send_running (p : Whisper.Provider) (c : Whisper.Chunk) :
  Whisper.running p = true -> Whisper.running (send p c) = true.
Proof.
  intros H. unfold send, Whisper.sendAudioChunk. rewrite H. simpl.
  destruct (loud c); [reflexivity|].
  destruct (0 <? Whisper.speechCountdown p)%nat; [reflexivity | exact H].
Qed.

Lemma send_appends_iff (p : Whisper.Provider) (c : Whisper.Chunk) :
  Whisper.running p = true ->
  (Whisper.pendingAudio (send p c) = Whisper.pendingAudio p ++ [c]
   <-> loud c = true \/ (0 < Whisper.speechCountdown p)%nat).
Proof.
  intros H. unfold send, Whisper.sendAudioChunk. rewrite H. simpl.
  destruct (loud c); simpl; [tauto|].
  destruct (0 <? Whisper.speechCountdown p)%nat eqn:E; simpl.
  - apply Nat.ltb_lt in E. tauto.
  - apply Nat.ltb_ge in E. split.
    + intros Habs. exfalso.
      apply (f_equal (@length _)) in Habs. rewrite length_app in Habs.
      simpl in Habs. lia.
    + intros [Habs|Habs]; [discriminate | lia].
Qed.

Lemma send_quiet_run (qs : list Whisper.Chunk) :
  forall p : Whisper.Provider,
    Whisper.running p = true ->
    Forall (fun c => loud c = false) qs ->
    Whisper.pendingAudio (Whisper.sendAll loud p qs)
      = Whisper.pendingAudio p ++ firstn (Whisper.speechCountdown p) qs
    /\ Whisper.speechCountdown (Whisper.sendAll loud p qs)
       = (Whisper.speechCountdown p - length qs)%nat.
Proof.
  induction qs as [|c qs IH]; intros p Hrun Hq.
  - simpl. rewrite firstn_nil, app_nil_r. split; [reflexivity | lia].
  - inversion Hq as [|? ? Hc Hqs]; subst.
    unfold Whisper.sendAll. simpl fold_left.
    fold (Whisper.sendAll loud (Whisper.sendAudioChunk loud p c) qs).
    destruct (IH (Whisper.sendAudioChunk loud p c) (send_running p c Hrun) Hqs)
      as [IH1 IH2].
    rewrite IH1, IH2. unfold Whisper.sendAudioChunk. rewrite Hrun, Hc. simpl.
    destruct (Whisper.speechCountdown p) as [|n] eqn:E; simpl.
    + rewrite E. simpl. rewrite app_nil_r. split; reflexivity.
    + rewrite Nat.sub_0_r, <- app_assoc. split; reflexivity.
Qed.

End EnergyGateFacts.

(** *** The comparison on a chunk of zero samples *)

Lemma sumSqFloat_zero (c : Whisper.Chunk) :
  Forall (fun x => x = 0%Z) c -> Whisper.sumSqFloat c = PrimFloat.zero.
Proof.
  unfold Whisper.sumSqFloat. induction 1 as [|x c Hx _ IH]; [reflexivity|].
  subst x. cbn [fold_left]. exact IH.
Qed.

(** Zero divided by anything is a zero or NaN, and so is its square root:
    below the threshold. *)
Lemma zero_quotient_quiet (y : PrimFloat.float) :
  PrimFloat.leb Whisper.SILENCE_RMS_THRESHOLD
    (PrimFloat.sqrt (PrimFloat.div PrimFloat.zero y)) = false.
Proof.
  rewrite FloatAxioms.leb_spec, FloatAxioms.sqrt_spec, FloatAxioms.div_spec.
  destruct (FloatOps.Prim2SF y) as [s|s| |s m e]; try destruct s; reflexivity.
Qed.

Lemma reachesThreshold_zero (c : Whisper.Chunk) :
  Forall (fun x => x = 0%Z) c -> Whisper.reachesThreshold c = false.
Proof.
  intros H. unfold Whisper.reachesThreshold, Whisper.rms.
  rewrite (sumSqFloat_zero c H). apply zero_quotient_quiet.
Qed.

(** *** A provider that is not running *)

Lemma send_stopped (loud : Whisper.Chunk -> bool) (p : Whisper.Provider)
  (c : Whisper.Chunk) :
  Whisper.running p = false -> Whisper.sendAudioChunk loud p c = p.
Proof. intros H. unfold Whisper.sendAudioChunk. rewrite H. reflexivity. Qed.

Lemma sendAll_stopped (loud : Whisper.Chunk -> bool) (cs : list Whisper.Chunk) :
  forall p, Whisper.running p = false -> Whisper.sendAll loud p cs = p.
Proof.
  induction cs as [|c cs IH]; intros p H; [reflexivity|].
  unfold Whisper.sendAll. cbn [fold_left]. rewrite (send_stopped loud p c H).
  apply IH. exact H.
Qed.

(** C4, amended.  The comparison is the one of the code,
    [Math.sqrt(sumSq / length) >= 0.005] in binary64 arithmetic.  While the
    provider is running, a chunk is appended to the pending buffer exactly
    when its RMS reaches the threshold or the trailing countdown is
    positive; a chunk that reaches the threshold sets the countdown to 10
    and the speech flag, a kept chunk below it lowers the countdown by one;
    of a run of chunks below the threshold only the first [speechCountdown]
    are kept, so at most 10 after a chunk that reaches it; a chunk of zero
    samples, of any length, that arrives with the countdown at zero leaves
    the provider as it was.  A provider that is not running is left as it
    was by every chunk and by every sequence of chunks. *)
Theorem energy_gate :
  let send := Whisper.sendAudioChunk Whisper.reachesThreshold in
  let sendAll := Whisper.sendAll Whisper.reachesThreshold in
  (forall (p : Whisper.Provider) (c : Whisper.Chunk),
      Whisper.running p = true ->
      (Whisper.pendingAudio (send p c) = Whisper.pendingAudio p ++ [c]
       <-> Whisper.reachesThreshold c = true \/ (0 < Whisper.speechCountdown p)%nat)
      /\ (Whisper.reachesThreshold c = false -> Whisper.speechCountdown p = 0%nat ->
          send p c = p)
      /\ (Whisper.reachesThreshold c = true ->
          Whisper.speechCountdown (send p c) = Whisper.SPEECH_TAIL_CHUNKS
          /\ Whisper.hasSpeechContent (send p c) = true)
      /\ (Whisper.reachesThreshold c = false ->
          Whisper.speechCountdown (send p c) = (Whisper.speechCountdown p - 1)%nat))
  /\ Whisper.SPEECH_TAIL_CHUNKS = 10%nat
  /\ (forall (p : Whisper.Provider) (c : Whisper.Chunk) (qs : list Whisper.Chunk),
      Whisper.running p = true -> Whisper.reachesThreshold c = true ->
      Forall (fun q => Whisper.reachesThreshold q = false) qs ->
      Whisper.pendingAudio (sendAll p (c :: qs))
        = Whisper.pendingAudio p ++ c :: firstn 10 qs)
  /\ (forall (p : Whisper.Provider) (c : Whisper.Chunk),
      Whisper.running p = true ->
      Forall (fun x => x = 0%Z) c ->
      Whisper.speechCountdown p = 0%nat ->
      send p c = p)
  /\ (forall (p : Whisper.Provider) (c : Whisper.Chunk),
      Whisper.running p = false -> send p c = p)
  /\ (forall (p : Whisper.Provider) (cs : list Whisper.Chunk),
      Whisper.running p = false -> sendAll p cs = p).
Proof.
  intros send sendAll. subst send sendAll.
  set (loud := Whisper.reachesThreshold).
  split.
  { intros p c Hrun. split; [apply send_appends_iff; exact Hrun|].
    unfold Whisper.sendAudioChunk. rewrite Hrun. simpl.
    split; [intros -> ->; reflexivity|].
    split; [intros ->; simpl; split; reflexivity|].
    intros ->. destruct (Whisper.speechCountdown p) eqn:E; simpl;
      [exact E | reflexivity]. }
  split; [reflexivity|].
  split.
  { intros p c qs Hrun Hc Hqs. unfold Whisper.sendAll. simpl fold_left.
    fold (Whisper.sendAll loud (Whisper.sendAudioChunk loud p c) qs).
    destruct (send_quiet_run loud qs (Whisper.sendAudioChunk loud p c)
                (send_running loud p c Hrun) Hqs) as [H _].
    rewrite H. unfold Whisper.sendAudioChunk. rewrite Hrun, Hc. simpl.
    rewrite <- app_assoc. reflexivity. }
  split.
  { intros p c Hrun Hz Hcount. unfold Whisper.sendAudioChunk.
    rewrite Hrun. unfold loud. rewrite (reachesThreshold_zero c Hz), Hcount.
    reflexivity. }
  split; [intros p c H; apply send_stopped; exact H|].
  intros p cs H. apply sendAll_stopped. exact H.
Qed.

Lemma energy_gate_witness :
  Whisper.pendingAudio
    (Whisper.sendAll Whisper.reachesThreshold startedProvider
       (loudChunk :: repeat silentChunk 12))
  = loudChunk :: repeat silentChunk 10
  /\ Whisper.sendAudioChunk Whisper.reachesThreshold startedProvider silentChunk
     = startedProvider
  /\ Whisper.sendAudioChunk Whisper.reachesThreshold Whisper.initial loudChunk
     = Whisper.initial.
Proof.
  destruct energy_gate as (_ & _ & H1 & H2 & H3 & _).
  split; [|split].
  - apply (H1 startedProvider loudChunk (repeat silentChunk 12)).
    + reflexivity.
    + vm_compute. reflexivity.
    + repeat constructor.
  - apply H2.
    + reflexivity.
    + repeat constructor.
    + reflexivity.
  - apply H3. reflexivity.
Defined.

(** ** C10: unanchored filler patterns *)

Lemma split_folded (mid a b : jsstring) :
  map upper mid = map upper (a ++ b) ->
  exists m1 m2, mid = m1 ++ m2 /\ map upper m1 = map upper a
                /\ map upper m2 = map upper b.
Proof. rewrite map_app. apply map_eq_app. Qed.

Lemma reThanks_matches (mid post : jsstring) (i : nat) :
  map upper mid = map upper (js "thanks")
  \/ map upper mid = map upper (js "thank you") ->
  matchAt Whisper.reThanks i (mid ++ post) <> None.
Proof.
  intros H.
  assert (exists m1 m2, mid = m1 ++ m2 /\ map upper m1 = map upper (js "thank")
            /\ (map upper m2 = map upper (js "s")
                \/ map upper m2 = map upper (js " you")))
    as (m1 & m2 & -> & H1 & H2).
  { destruct H as [H|H].
    - destruct (split_folded mid (js "thank") (js "s") H) as (m1 & m2 & ? & ? & ?).
      exists m1, m2. tauto.
    - destruct (split_folded mid (js "thank") (js " you") H) as (m1 & m2 & ? & ? & ?).
      exists m1, m2. tauto. }
  unfold matchAt, Whisper.reThanks.
  cbn [seq rmatch]. rewrite <- app_assoc, (rmatch_liti _ _ _ _ _ _ H1).
  destruct H2 as [H2|H2].
  - apply rmatch_alt_left. rewrite (rmatch_liti _ _ _ _ _ _ H2).
    apply rmatch_opt. simpl. discriminate.
  - apply rmatch_alt_right. rewrite (rmatch_liti _ _ _ _ _ _ H2).
    apply rmatch_opt. simpl. discriminate.
Qed.

Lemma rePlease_matches (mid post : jsstring) (i : nat) :
  map upper mid = map upper (js "please like")
  \/ map upper mid = map upper (js "please subscribe") ->
  matchAt Whisper.rePlease i (mid ++ post) <> None.
Proof.
  intros H.
  assert (exists m1 m2, mid = m1 ++ m2 /\ map upper m1 = map upper (js "please ")
            /\ (map upper m2 = map upper (js "like")
                \/ map upper m2 = map upper (js "subscribe")))
    as (m1 & m2 & -> & H1 & H2).
  { destruct H as [H|H].
    - destruct (split_folded mid (js "please ") (js "like") H) as (m1 & m2 & ? & ? & ?).
      exists m1, m2. tauto.
    - destruct (split_folded mid (js "please ") (js "subscribe") H)
        as (m1 & m2 & ? & ? & ?).
      exists m1, m2. tauto. }
  unfold matchAt, Whisper.rePlease.
  cbn [seq rmatch]. rewrite <- app_assoc, (rmatch_liti _ _ _ _ _ _ H1).
  destruct H2 as [H2|H2].
  - apply rmatch_alt_left. rewrite (rmatch_liti _ _ _ _ _ _ H2). simpl. discriminate.
  - apply rmatch_alt_right. rewrite (rmatch_liti _ _ _ _ _ _ H2). simpl. discriminate.
Qed.

Lemma reNoise_matches (mid post : jsstring) (i : nat) :
  map upper mid = map upper (js "[music]")
  \/ map upper mid = map upper (js "[applause]") ->
  matchAt Whisper.reNoise i (mid ++ post) <> None.
Proof.
  intros H.
  assert (exists m1 m2 m3, mid = m1 ++ m2 ++ m3
            /\ map upper m1 = map upper (js "[")
            /\ (map upper m2 = map upper (js "music")
                \/ map upper m2 = map upper (js "applause"))
            /\ map upper m3 = map upper (js "]"))
    as (m1 & m2 & m3 & -> & H1 & H2 & H3).
  { destruct H as [H|H].
    - destruct (split_folded mid (js "[") (js "music]") H) as (m1 & m23 & ? & ? & H23).
      destruct (split_folded m23 (js "music") (js "]") H23) as (m2 & m3 & ? & ? & ?).
      exists m1, m2, m3. subst. tauto.
    - destruct (split_folded mid (js "[") (js "applause]") H) as (m1 & m23 & ? & ? & H23).
      destruct (split_folded m23 (js "applause") (js "]") H23) as (m2 & m3 & ? & ? & ?).
      exists m1, m2, m3. subst. tauto. }
  unfold matchAt, Whisper.reNoise.
  destruct m1 as [|c1 [|? ?]]; try discriminate. injection H1 as H1.
  destruct m3 as [|c3 [|? ?]]; try discriminate. injection H3 as H3.
  assert (E1 : (upper c1 =? upper (ch "["))%N = true)
    by (rewrite H1; reflexivity).
  assert (E3 : (upper c3 =? upper (ch "]"))%N = true)
    by (rewrite H3; reflexivity).
  cbn [seq rmatch chri rest pos caps app]. rewrite E1.
  rewrite <- app_assoc.
  destruct H2 as [H2|H2].
  - apply rmatch_alt_left. rewrite (rmatch_liti _ _ _ _ _ _ H2).
    cbn [rmatch rest pos caps setCap app]. rewrite E3. discriminate.
  - apply rmatch_alt_right. rewrite (rmatch_liti _ _ _ _ _ _ H2).
    cbn [rmatch rest pos caps setCap app]. rewrite E3. discriminate.
Qed.

Lemma startsWithIgnoreCase_split (w : jsstring) :
  forall s : jsstring,
    startsWithIgnoreCase w s = true ->
    exists mid post, s = mid ++ post /\ map upper mid = map upper w.
Proof.
  induction w as [|a w IH]; intros s H.
  - exists [], s. split; reflexivity.
  - destruct s as [|b s]; [discriminate|]. simpl in H.
    apply andb_true_iff in H. destruct H as [Hb Hs].
    apply N.eqb_eq in Hb. destruct (IH s Hs) as (mid & post & -> & Hmid).
    exists (b :: mid), post. simpl. rewrite Hb, Hmid. split; reflexivity.
Qed.

Lemma includesIgnoreCase_split (w : jsstring) :
  forall s : jsstring,
    includesIgnoreCase w s = true ->
    exists pre mid post, s = pre ++ mid ++ post /\ map upper mid = map upper w.
Proof.
  induction s as [|c s IH]; intros H.
  - simpl in H. rewrite orb_false_r in H.
    destruct (startsWithIgnoreCase_split w [] H) as (mid & post & E & Hmid).
    exists [], mid, post. split; assumption.
  - simpl in H. apply orb_true_iff in H. destruct H as [H|H].
    + destruct (startsWithIgnoreCase_split w (c :: s) H) as (mid & post & E & Hmid).
      exists [], mid, post. split; assumption.
    + destruct (IH H) as (pre & mid & post & -> & Hmid).
      exists (c :: pre), mid, post. split; [reflexivity | assumption].
Qed.

(** Text equal to [w] up to case has the ends of [w] up to case. *)
Lemma folded_ends (mid w : jsstring) :
  map upper mid = map upper w ->
  w <> [] ->
  isWhiteSpace (upper (hd 0%N w)) = false ->
  isWhiteSpace (upper (last w 0%N)) = false ->
  mid <> [] /\ isWhiteSpace (hd 0%N mid) = false
  /\ isWhiteSpace (last mid 0%N) = false.
Proof.
  intros H Hne Hhd Hlast.
  assert (Hmid : mid <> []) by (intros ->; destruct w; [congruence | discriminate]).
  split; [exact Hmid|]. split.
  - destruct mid as [|m mid]; [congruence|]. destruct w as [|a w]; [congruence|].
    simpl in *. injection H as Hm _.
    apply (not_whitespace_upper m _ Hm Hhd).
  - destruct (exists_last Hmid) as [mb [m ->]].
    destruct (exists_last Hne) as [wb [a ->]].
    rewrite last_last in *. rewrite !map_app in H. simpl in H.
    apply app_inj_tail in H. destruct H as [_ Hm].
    apply (not_whitespace_upper m _ Hm Hlast).
Qed.

Lemma isHallucination_containing (r : regex) (mid : jsstring) :
  In r Whisper.HALLUCINATION_PATTERNS ->
  mid <> [] ->
  isWhiteSpace (hd 0%N mid) = false ->
  isWhiteSpace (last mid 0%N) = false ->
  (forall i post, matchAt r i (mid ++ post) <> None) ->
  forall pre post, Whisper.isHallucination (pre ++ mid ++ post) = true.
Proof.
  intros Hr Hne Hhd Hlast Hm pre post. unfold Whisper.isHallucination.
  destruct (isEmpty _ || _); [reflexivity|].
  apply existsb_exists. exists r. split; [exact Hr|].
  destruct (trim_keeps pre mid post Hne Hhd Hlast) as (pre' & post' & ->).
  apply test_found. intros i. apply Hm.
Qed.

Lemma filler_matches (w : jsstring) :
  In w fillerPhrases ->
  w <> []
  /\ isWhiteSpace (upper (hd 0%N w)) = false
  /\ isWhiteSpace (upper (last w 0%N)) = false
  /\ exists r, In r Whisper.HALLUCINATION_PATTERNS
       /\ forall mid, map upper mid = map upper w ->
            forall i post, matchAt r i (mid ++ post) <> None.
Proof.
  intros Hw. simpl in Hw.
  destruct Hw as [<-|[<-|[<-|[<-|[<-|[<-|[]]]]]]];
    (split; [discriminate|]); (split; [reflexivity|]); (split; [reflexivity|]).
  - exists Whisper.reThanks. split; [simpl; tauto|].
    intros mid H i post. apply reThanks_matches. right. exact H.
  - exists Whisper.reThanks. split; [simpl; tauto|].
    intros mid H i post. apply reThanks_matches. left. exact H.
  - exists Whisper.rePlease. split; [simpl; tauto|].
    intros mid H i post. apply rePlease_matches. left. exact H.
  - exists Whisper.rePlease. split; [simpl; tauto|].
    intros mid H i post. apply rePlease_matches. right. exact H.
  - exists Whisper.reNoise. split; [simpl; tauto|].
    intros mid H i post. apply reNoise_matches. left. exact H.
  - exists Whisper.reNoise. split; [simpl; tauto|].
    intros mid H i post. apply reNoise_matches. right. exact H.
Qed.

(** C10. An inference output that contains, anywhere and in any case, one of
    [thank you], [thanks], [please like], [please subscribe], [[music]] or
    [[applause]] is classified as a hallucination whatever else it says and
    however long it is, and the inference pass that produced it emits no
    [final] event. *)
Theorem filler_patterns_unanchored (w text : jsstring) :
  In w fillerPhrases ->
  includesIgnoreCase w text = true ->
  Whisper.isHallucination text = true
  /\ forall (p : Whisper.Provider) (segs : list jsstring),
       concat segs = text ->
       snd (Whisper.runInferenceEnd (Some segs) p) = [].
Proof.
  intros Hw Hin.
  destruct (filler_matches w Hw) as (Hne & Hhd & Hlast & r & Hr & Hm).
  destruct (includesIgnoreCase_split w text Hin) as (pre & mid & post & -> & Hmid).
  destruct (folded_ends mid w Hmid Hne Hhd Hlast) as (Hmne & Hmhd & Hmlast).
  split.
  - apply (isHallucination_containing r mid Hr Hmne Hmhd Hmlast (Hm mid Hmid)).
  - intros p segs Hsegs. apply runInferenceEnd_rejects. rewrite Hsegs.
    destruct (trim_keeps pre mid post Hmne Hmhd Hmlast) as (pre' & post' & ->).
    apply (isHallucination_containing r mid Hr Hmne Hmhd Hmlast (Hm mid Hmid)).
Qed.

Lemma filler_patterns_unanchored_witness :
  (60 < length politeRequest)%nat
  /\ Whisper.isHallucination politeRequest = true
  /\ snd (Whisper.runInferenceEnd (Some [politeRequest]) startedProvider) = [].
Proof.
  split; [vm_compute; lia|].
  destruct (filler_patterns_unanchored (js "thank you") politeRequest) as [H1 H2].
  - simpl. tauto.
  - vm_compute. reflexivity.
  - split; [exact H1|]. apply H2. vm_compute. reflexivity.
Defined.

Import Session.

(** ** The orchestrator *)

#[local] Arguments countConverse : simpl never.
#[local] Arguments saved : simpl never.

(** Symbolic evaluation of a handler on a world whose flags are known. *)
Ltac crunch :=
  repeat (progress
    (lazy -[Nat.eqb app autoCopyIfClean buildTranscript trim isEmpty countConverse
            saved AI.parseButtons AI.content AI.buttons friendlyError test
            N.add N.sub N.leb N.ltb historyRecord length];
     rewrite ?Nat.eqb_refl)).

Lemma countConverse_app (a b : list Effect) :
  countConverse (a ++ b) = countConverse a + countConverse b.
Proof. unfold countConverse. rewrite filter_app, length_app. reflexivity. Qed.

Lemma countConverse_cons (e : Effect) (t : list Effect) :
  countConverse (e :: t) = (if isConverse e then 1 else 0) + countConverse t.
Proof. unfold countConverse. simpl. destruct (isConverse e); reflexivity. Qed.

Lemma countConverse_nil : countConverse [] = 0.
Proof. reflexivity. Qed.

Lemma saved_app (a b : list Effect) : saved (a ++ b) = saved a ++ saved b.
Proof. unfold saved. apply flat_map_app. Qed.

Lemma saved_cons (e : Effect) (t : list Effect) :
  saved (e :: t) = match e with HistorySave r => [r] | _ => [] end ++ saved t.
Proof. reflexivity. Qed.

Lemma saved_nil : saved [] = [].
Proof. reflexivity. Qed.

Lemma countConverse_settingsHidden (ts : list bool) :
  countConverse (settingsHidden ts) = 0.
Proof. unfold settingsHidden. induction ts as [|[] ts IH]; simpl; auto. Qed.

Lemma saved_settingsHidden (ts : list bool) : saved (settingsHidden ts) = [].
Proof. unfold settingsHidden. induction ts as [|[] ts IH]; simpl; auto. Qed.

Ltac count_effects :=
  repeat first [ rewrite countConverse_app | rewrite saved_app
               | rewrite countConverse_cons | rewrite saved_cons
               | rewrite countConverse_nil | rewrite saved_nil
               | rewrite countConverse_settingsHidden
               | rewrite saved_settingsHidden
               | rewrite length_app ];
  repeat match goal with
  | H : countConverse _ = _ |- _ => rewrite H
  | H : saved _ = _ |- _ => rewrite H
  end;
  cbn [isConverse length app Nat.add].

Lemma run_cons (e : Event) (evs : list Event) (w : World) :
  run (e :: evs) w
  = (fst (run evs (fst (step e w))), snd (step e w) ++ snd (run evs (fst (step e w)))).
Proof.
  cbn [run]. unfold andThen. destruct (step e w) as [w1 e1]. cbn [fst snd].
  destruct (run evs w1). reflexivity.
Qed.

Lemma run_app (evs1 evs2 : list Event) :
  forall w : World,
    run (evs1 ++ evs2) w
    = (fst (run evs2 (fst (run evs1 w))),
       snd (run evs1 w) ++ snd (run evs2 (fst (run evs1 w)))).
Proof.
  induction evs1 as [|e evs1 IH]; intros w.
  - cbn [app run skip fst snd]. destruct (run evs2 w). reflexivity.
  - rewrite <- app_comm_cons, !run_cons, IH. cbn [fst snd].
    rewrite app_assoc. reflexivity.
Qed.

(** A trigger that arrives while the orchestrator is conversing with one of
    the two flags set changes nothing. *)
Lemma trigger_ignored (w : World) (b : bool) :
  state (orch w) = CONVERSING ->
  aiInFlight (orch w) || finalizing (orch w) = true ->
  step (TriggerDown b) w = (w, if b then [HideSettings] else []).
Proof.
  intros Hs Hf. cbn [step]. unfold onTriggerDown, andThen, when, call.
  destruct b; rewrite Hs, Hf; reflexivity.
Qed.

Lemma triggers_ignored (ts : list bool) (w : World) :
  state (orch w) = CONVERSING ->
  aiInFlight (orch w) || finalizing (orch w) = true ->
  run (triggers ts) w = (w, settingsHidden ts).
Proof.
  intros Hs Hf. induction ts as [|b ts IH]; [reflexivity|].
  change (triggers (b :: ts)) with (TriggerDown b :: triggers ts).
  rewrite run_cons, (trigger_ignored w b Hs Hf). cbn [fst snd].
  rewrite IH. destruct b; reflexivity.
Qed.

Lemma nth_error_snoc {A} (p : list A) (k : A) : nth_error (p ++ [k]) (length p) = Some k.
Proof. rewrite nth_error_app2, Nat.sub_diag by lia. reflexivity. Qed.

Lemma removeAt_snoc {A} (p : list A) (k : A) : removeAt (length p) (p ++ [k]) = p.
Proof. induction p as [|x p IH]; simpl; [reflexivity | rewrite IH; reflexivity]. Qed.

(** Settling the call that was suspended last. *)
Lemma settle_last (o : Orchestrator) (l : nat) (p : list Cont) (n : N) (k : Cont)
  (r : Result) :
  ready k (MkWorld o l (p ++ [k]) n) = true ->
  step (Settle (length p) r) (MkWorld o l (p ++ [k]) n) = resume k r (MkWorld o l p n).
Proof.
  intros H. cbn [step pool orch listeners now].
  rewrite nth_error_snoc, H, removeAt_snoc. reflexivity.
Qed.

Lemma autoCopyIfClean_quiet (c : jsstring) (w : World) :
  fst (autoCopyIfClean c w) = w /\ countConverse (snd (autoCopyIfClean c w)) = 0
  /\ saved (snd (autoCopyIfClean c w)) = [].
Proof.
  unfold autoCopyIfClean. destruct (isEmpty c); [repeat split|].
  destruct (codeBlocks c) as [|b [|? ?]]; [repeat split | | repeat split].
  destruct (120 <? _)%nat; [repeat split|].
  unfold andThen, send, when, has, call.
  destruct (overlay (deps (orch w))); repeat split.
Qed.

Ltac quiet_copy :=
  repeat match goal with
  | |- context [autoCopyIfClean ?c ?w] =>
      let Ha := fresh in let Hb := fresh in let Hc := fresh in
      destruct (autoCopyIfClean_quiet c w) as (Ha & Hb & Hc);
      destruct (autoCopyIfClean c w) as [? ?]; cbn [fst snd] in Ha, Hb, Hc; subst
  end.

(** The end of an AI call while the session is still conversing: one
    assistant message, no further call of the AI, nothing saved. *)
Lemma respondEnd_conversing (ff : bool) (r : Result) (w : World) :
  state (orch w) = CONVERSING ->
  let w' := fst (respondEnd ff r w) in
  state (orch w') = CONVERSING
  /\ roundNumber (orch w') = roundNumber (orch w)
  /\ aiInFlight (orch w') = false
  /\ finalizing (orch w') = (if ff then false else finalizing (orch w))
  /\ pool w' = pool w /\ listeners w' = listeners w /\ now w' = now w
  /\ countConverse (snd (respondEnd ff r w)) = 0
  /\ saved (snd (respondEnd ff r w)) = []
  /\ length (messages (conversation (orch w')))
     = S (length (messages (conversation (orch w)))).
Proof.
  destruct w as [o l p n]. destruct o as [d st c rd rn s0 cr ai fin].
  destruct c as [ci ms sh wi tu]. destruct d as [ov wsv cs ts hs bs hl hf sp cm lc].
  cbn [orch state]. intros ->.
  assert (Hres : forall t u,
    let w' := fst (respondEnd ff (ResolvedText t u)
      (MkWorld (MkOrchestrator (MkDeps ov wsv cs ts hs bs hl hf sp cm lc) CONVERSING
               (MkConversation ci ms sh wi tu) rd rn s0 cr ai fin) l p n)) in
    state (orch w') = CONVERSING /\ roundNumber (orch w') = rn
    /\ aiInFlight (orch w') = false
    /\ finalizing (orch w') = (if ff then false else fin)
    /\ pool w' = p /\ listeners w' = l /\ now w' = n
    /\ countConverse (snd (respondEnd ff (ResolvedText t u)
      (MkWorld (MkOrchestrator (MkDeps ov wsv cs ts hs bs hl hf sp cm lc) CONVERSING
               (MkConversation ci ms sh wi tu) rd rn s0 cr ai fin) l p n))) = 0
    /\ saved (snd (respondEnd ff (ResolvedText t u)
      (MkWorld (MkOrchestrator (MkDeps ov wsv cs ts hs bs hl hf sp cm lc) CONVERSING
               (MkConversation ci ms sh wi tu) rd rn s0 cr ai fin) l p n))) = []
    /\ length (messages (conversation (orch w'))) = S (length ms)).
  { intros t u.
    destruct u as [u|], ov, ff; crunch; quiet_copy; crunch; count_effects;
      repeat split; try reflexivity; lia. }
  destruct r as [|m|t u|wi'|sh'|bm]; try apply (Hres [] None); try apply Hres.
  destruct ov, ff; crunch; count_effects; repeat split; try reflexivity; lia.
Qed.

Lemma trigger_starts_finalize (w : World) (b : bool) :
  state (orch w) = RECORDING ->
  fst (step (TriggerDown b) w)
  = MkWorld (finalizingOrch (orch w)) (listeners w)
      (pool w ++ [if contextReady (orch w)
                  then KFinalizeContext (roundNumber (orch w))
                  else stopCont (deps (orch w)) (ASFinalize (roundNumber (orch w)))])
      (now w)
  /\ countConverse (snd (step (TriggerDown b) w)) = 0
  /\ saved (snd (step (TriggerDown b) w)) = [].
Proof.
  destruct w as [o l p n]. destruct o as [d st c rd rn s0 cr ai fin].
  destruct d as [ov wsv cs ts hs bs hl hf sp cm lc].
  cbn [orch state]. intros ->.
  destruct b, ov, cr, hl, ts; crunch; repeat split.
Qed.

Lemma finalize_after_context (w : World) (r : Result) :
  let rn := roundNumber (orch w) in
  fst (resume (KFinalizeContext rn) r w)
  = MkWorld (orch w) (listeners w)
      (pool w ++ [stopCont (deps (orch w)) (ASFinalize rn)]) (now w)
  /\ countConverse (snd (resume (KFinalizeContext rn) r w)) = 0
  /\ saved (snd (resume (KFinalizeContext rn) r w)) = [].
Proof.
  destruct w as [o l p n]. destruct o as [d st c rd rn s0 cr ai fin].
  destruct d as [ov wsv cs ts hs bs hl hf sp cm lc].
  destruct hl, ts; crunch; repeat split.
Qed.

Lemma finalize_after_stop (w : World) (r : Result) :
  let rn := roundNumber (orch w) in
  let t := buildTranscript (currentRound (orch w)) in
  trim t <> [] ->
  fst (resume (stopCont (deps (orch w)) (ASFinalize rn)) r w)
  = MkWorld (respondingOrch (orch w) t)
      (if transcribeService (deps (orch w)) then 0 else listeners w)
      (pool w ++ [KRespond t true]) (now w)
  /\ countConverse (snd (resume (stopCont (deps (orch w)) (ASFinalize rn)) r w)) = 1
  /\ saved (snd (resume (stopCont (deps (orch w)) (ASFinalize rn)) r w)) = [].
Proof.
  destruct w as [o l p n]. destruct o as [d st c rd rn s0 cr ai fin].
  destruct d as [ov wsv cs ts hs bs hl hf sp cm lc].
  cbn [orch roundNumber currentRound deps transcribeService]. intros Ht.
  apply isEmpty_false in Ht.
  destruct ov, ts; crunch; rewrite Ht; crunch; count_effects; repeat split.
Qed.

Lemma outcome_cons (e : Event) (evs : list Event) (w : World) :
  outcome (run (e :: evs) w)
  = (fst (outcome (run evs (fst (step e w)))),
     countConverse (snd (step e w)) + snd (outcome (run evs (fst (step e w))))).
Proof.
  unfold outcome. rewrite run_cons. cbn [fst snd].
  rewrite countConverse_app. reflexivity.
Qed.

Lemma outcome_triggers (ts : list bool) (evs : list Event) (w : World) :
  state (orch w) = CONVERSING ->
  aiInFlight (orch w) || finalizing (orch w) = true ->
  outcome (run (triggers ts ++ evs) w) = outcome (run evs w).
Proof.
  intros Hs Hf. unfold outcome. rewrite run_app, (triggers_ignored ts w Hs Hf).
  cbn [fst snd]. rewrite countConverse_app, countConverse_settingsHidden. reflexivity.
Qed.

Lemma outcome_settle_last (o : Orchestrator) (l : nat) (p : list Cont) (n : N)
  (k : Cont) (r : Result) (evs : list Event) :
  ready k (MkWorld o l (p ++ [k]) n) = true ->
  outcome (run (Settle (length p) r :: evs) (MkWorld o l (p ++ [k]) n))
  = (fst (outcome (run evs (fst (resume k r (MkWorld o l p n))))),
     countConverse (snd (resume k r (MkWorld o l p n)))
     + snd (outcome (run evs (fst (resume k r (MkWorld o l p n)))))).
Proof. intros H. rewrite outcome_cons, (settle_last o l p n k r H). reflexivity. Qed.

(** The outcome of a finalize with bursts of triggers: that of its last
    step, taken from the world in which the AI call is awaited. *)
Lemma rapidFinalize_outcome (w : World) (first : bool) (ts1 ts2 ts3 : list bool)
  (rc rs ra : Result) :
  state (orch w) = RECORDING ->
  trim (buildTranscript (currentRound (orch w))) <> [] ->
  outcome (run (rapidFinalize (length (pool w)) (contextReady (orch w)) first
                  ts1 ts2 ts3 rc rs ra) w)
  = (fst (respondEnd true ra
            (MkWorld (respondingOrch (finalizingOrch (orch w))
                        (buildTranscript (currentRound (orch w))))
                     (if transcribeService (deps (orch w)) then 0 else listeners w)
                     (pool w) (now w))),
     1).
Proof.
  intros Hs Ht. unfold rapidFinalize.
  destruct (trigger_starts_finalize w first Hs) as (E1 & C1 & _).
  rewrite outcome_cons, E1, C1. clear E1 C1.
  assert (Hstop : forall o l,
    o = finalizingOrch (orch w) ->
    outcome (run (triggers ts2 ++ Settle (length (pool w)) rs
                   :: triggers ts3 ++ [Settle (length (pool w)) ra])
              (MkWorld o l
                 (pool w ++ [stopCont (deps (orch w)) (ASFinalize (roundNumber (orch w)))])
                 (now w)))
    = (fst (respondEnd true ra
              (MkWorld (respondingOrch o (buildTranscript (currentRound (orch w))))
                       (if transcribeService (deps (orch w)) then 0 else l)
                       (pool w) (now w))), 1)).
  { intros o l ->. rewrite outcome_triggers by first [reflexivity | apply orb_true_r].
    rewrite outcome_settle_last
      by (unfold stopCont; destruct (transcribeService (deps (orch w))); reflexivity).
    destruct (finalize_after_stop
                (MkWorld (finalizingOrch (orch w)) l (pool w) (now w)) rs Ht)
      as (E3 & C3 & _).
    cbn [orch finalizingOrch deps roundNumber] in E3, C3. rewrite E3, C3. clear E3 C3.
    rewrite outcome_triggers by first [reflexivity | apply orb_true_r].
    rewrite outcome_settle_last by reflexivity.
    cbn [run skip outcome fst snd resume].
    match goal with
    | |- context [respondEnd true ra ?W] =>
        destruct (respondEnd_conversing true ra W eq_refl)
          as (_ & _ & _ & _ & _ & _ & _ & C4 & _)
    end.
    rewrite C4. reflexivity. }
  destruct (contextReady (orch w)) eqn:Hcr.
  - rewrite <- app_assoc, outcome_triggers by first [reflexivity | apply orb_true_r].
    cbn [app]. rewrite outcome_settle_last by reflexivity.
    destruct (finalize_after_context
                (MkWorld (finalizingOrch (orch w)) (listeners w) (pool w) (now w)) rc)
      as (E2 & C2 & _).
    cbn [orch finalizingOrch deps roundNumber listeners pool now] in E2, C2.
    rewrite E2, C2. rewrite (Hstop _ _ eq_refl). reflexivity.
  - cbn [app]. rewrite (Hstop _ _ eq_refl). reflexivity.
Qed.

Lemma settle_at (w : World) (i : nat) (r : Result) (k : Cont) :
  nth_error (pool w) i = Some k ->
  ready k w = true ->
  step (Settle i r) w
  = resume k r (MkWorld (orch w) (listeners w) (removeAt i (pool w)) (now w)).
Proof. intros H1 H2. cbn [step]. rewrite H1, H2. reflexivity. Qed.

Lemma stale_context (w : World) (r : Result) (myRound : nat) :
  roundNumber (orch w) <> myRound ->
  resume (KFinalizeContext myRound) r w
  = (MkWorld (notFinalizing (orch w)) (listeners w) (pool w) (now w), []).
Proof.
  intros H. apply Nat.eqb_neq in H.
  destruct w as [o l p n]. destruct o as [d st c rd rn s0 cr ai fin].
  cbn [orch roundNumber] in H.
  unfold resume, finalizeAfterContext. cbn [orch roundNumber]. rewrite H. reflexivity.
Qed.

Lemma stale_stop (w : World) (r : Result) (myRound : nat) :
  roundNumber (orch w) <> myRound ->
  resume (KStop (ASFinalize myRound)) r w
  = (MkWorld (notFinalizing (orch w)) 0 (pool w) (now w), [TranscribeRemoveListeners])
  /\ resume (KStopped (ASFinalize myRound)) r w
     = (MkWorld (notFinalizing (orch w)) (listeners w) (pool w) (now w), []).
Proof.
  intros H. apply Nat.eqb_neq in H.
  destruct w as [o l p n]. destruct o as [d st c rd rn s0 cr ai fin].
  cbn [orch roundNumber] in H.
  unfold resume, afterStop, finalizeAfterStop, andThen, call, setListeners.
  cbn [orch roundNumber fst snd]. rewrite H. split; reflexivity.
Qed.


Lemma join_blank_head (sep a : jsstring) (l : list jsstring) :
  forallb isWhiteSpace (join sep (a :: l)) = true -> forallb isWhiteSpace a = true.
Proof.
  destruct l as [|b l]; simpl; [tauto|].
  rewrite forallb_app. intros H. apply andb_true_iff in H. tauto.
Qed.

(** The space-joined texts of segments that are not blank are not blank. *)
Lemma transcriptOf_not_blank (r : Round) :
  segments r <> [] ->
  Forall (fun s => trim (text s) <> []) (segments r) ->
  trim (transcriptOf r) <> [].
Proof.
  unfold transcriptOf. destruct (segments r) as [|s segs]; [congruence|].
  intros _ H. inversion H as [|? ? Hs _]; subst.
  rewrite trim_nil_iff. rewrite trim_nil_iff in Hs. intros Hall. apply Hs.
  apply (join_blank_head (js " ") (text s) (map text segs)). exact Hall.
Qed.

Lemma buildTranscript_segments (r : Round) :
  trim (transcriptOf r) <> [] -> buildTranscript r = transcriptOf r.
Proof.
  intros H. apply isEmpty_false in H. unfold buildTranscript.
  fold (transcriptOf r). rewrite H. reflexivity.
Qed.

Lemma buildTranscript_partial (r : Round) :
  segments r = [] -> buildTranscript r = trim (currentPartial r).
Proof.
  intros H. unfold buildTranscript. rewrite H. simpl.
  destruct (trim (currentPartial r)); reflexivity.
Qed.

(** The handler of [final] appends one segment with the trimmed text. *)
Lemma onFinal_segment (t : jsstring) (w : World) :
  recordingOrConversing w = true ->
  let w' := fst (onFinal t w) in
  map text (segments (currentRound (orch w')))
  = map text (segments (currentRound (orch w))) ++ [trim t]
  /\ state (orch w') = state (orch w) /\ listeners w' = listeners w
  /\ conversation (orch w') = conversation (orch w)
  /\ saved (snd (onFinal t w)) = [] /\ countConverse (snd (onFinal t w)) = 0.
Proof.
  intros H. unfold onFinal, when. rewrite H.
  destruct w as [o l p n]. destruct o as [d st c rd rn s0 cr ai fin].
  destruct d as [ov wsv cs ts hs bs hl hf sp cm lc].
  destruct ov; unfold andThen, sendTranscriptToOverlay, send, when, has, call,
    setCurrentRound, modify; cbn [fst snd orch currentRound segments state
    listeners conversation deps overlay];
    rewrite map_app; repeat split.
Qed.

Lemma finals_in_order (texts : list jsstring) :
  forall w : World,
    listeners w = 1 ->
    recordingOrConversing w = true ->
    map text (segments (currentRound (orch (fst (run (map TranscribeFinal texts) w)))))
    = map text (segments (currentRound (orch w))) ++ map trim (filter emitted texts).
Proof.
  induction texts as [|t texts IH]; intros w Hl Hs.
  - simpl. rewrite app_nil_r. reflexivity.
  - cbn [map filter]. rewrite run_cons. cbn [fst snd step]. unfold when.
    destruct (emitted t); [|apply IH; assumption].
    assert (Hstep : fst (times (listeners w) (onFinal t) w) = fst (onFinal t w)).
    { rewrite Hl. cbn [times]. unfold andThen, skip.
      destruct (onFinal t w). reflexivity. }
    rewrite Hstep.
    destruct (onFinal_segment t w Hs) as (Hseg & Hst & Hlis & _).
    rewrite IH.
    + rewrite Hseg, <- app_assoc. reflexivity.
    + rewrite Hlis. exact Hl.
    + unfold recordingOrConversing, inState in *. rewrite Hst. exact Hs.
Qed.

(** The finalize of a round whose transcript is not blank appends it as a
    user message and calls the AI with the messages so far. *)
Lemma finalize_calls_ai (w : World) (r : Result) :
  let rn := roundNumber (orch w) in
  let t := buildTranscript (currentRound (orch w)) in
  let c := conversation (orch w) in
  trim t <> [] ->
  In (AIConverse (messages c ++ [MkMessage User t []]) (screenshot c) (windowInfo c))
     (snd (resume (stopCont (deps (orch w)) (ASFinalize rn)) r w)).
Proof.
  destruct w as [o l p n]. destruct o as [d st c rd rn s0 cr ai fin].
  destruct d as [ov wsv cs ts hs bs hl hf sp cm lc].
  cbn [orch roundNumber currentRound deps transcribeService conversation]. intros Ht.
  apply isEmpty_false in Ht.
  destruct ov, ts; crunch; rewrite Ht; crunch; simpl; tauto.
Qed.

(** The finalize of a round whose transcript is blank goes to
    [saveAndReset]. *)
Lemma finalize_blank (w : World) (r : Result) :
  let rn := roundNumber (orch w) in
  trim (buildTranscript (currentRound (orch w))) = [] ->
  resume (stopCont (deps (orch w)) (ASFinalize rn)) r w
  = (MkWorld (notFinalizing (orch w))
       (if transcribeService (deps (orch w)) then 0 else listeners w)
       (pool w ++ [stopCont (deps (orch w)) ASSave]) (now w),
     if transcribeService (deps (orch w))
     then [TranscribeRemoveListeners; TranscribeStop] else []).
Proof.
  destruct w as [o l p n]. destruct o as [d st c rd rn s0 cr ai fin].
  destruct d as [ov wsv cs ts hs bs hl hf sp cm lc].
  cbn [orch roundNumber currentRound deps transcribeService]. intros Ht.
  apply isEmpty_true in Ht.
  destruct ts; crunch; rewrite Ht; crunch; reflexivity.
Qed.

(** The end of [saveAndReset]: the session is saved when it has a message
    and there is a history service, and the orchestrator is idle again. *)
Lemma saveAndReset_end (w : World) (r : Result) :
  let res := resume (stopCont (deps (orch w)) ASSave) r w in
  state (orch (fst res)) = IDLE
  /\ messages (conversation (orch (fst res))) = []
  /\ pool (fst res) = pool w
  /\ countConverse (snd res) = 0
  /\ saved (snd res)
     = if historyService (deps (orch w))
          && (0 <? length (messages (conversation (orch w))))%nat
       then [historyRecord (orch w) (now w)] else [].
Proof.
  destruct w as [o l p n]. destruct o as [d st c rd rn s0 cr ai fin].
  destruct d as [ov wsv cs ts hs bs hl hf sp cm lc].
  destruct c as [ci ms sh wi tu].
  destruct ov, ts, hs, sp, hl, ms; crunch; count_effects; repeat split.
Qed.

(** *** Every saved session has a message *)

Lemma SaveOk_andThen (f g : Proc) : SaveOk f -> SaveOk g -> SaveOk (f ;; g).
Proof.
  intros Hf Hg w. unfold andThen. specialize (Hf w).
  destruct (f w) as [w1 e1]. specialize (Hg w1). destruct (g w1) as [w2 e2].
  cbn [snd] in *. rewrite saved_app. apply Forall_app. split; assumption.
Qed.

Lemma SaveOk_when (b : World -> bool) (f : Proc) : SaveOk f -> SaveOk (when b f).
Proof. intros Hf w. unfold when. destruct (b w); [apply Hf | constructor]. Qed.

Lemma SaveOk_ifElse (b : World -> bool) (f g : Proc) :
  SaveOk f -> SaveOk g -> SaveOk (ifElse b f g).
Proof. intros Hf Hg w. unfold ifElse. destruct (b w); [apply Hf | apply Hg]. Qed.

Lemma SaveOk_skip : SaveOk skip.
Proof. intros w. constructor. Qed.

Lemma SaveOk_modify (f : Orchestrator -> Orchestrator) : SaveOk (modify f).
Proof. intros w. constructor. Qed.

Lemma SaveOk_suspend (k : Cont) : SaveOk (suspend k).
Proof. intros w. constructor. Qed.

Lemma SaveOk_setListeners (n : nat) : SaveOk (setListeners n).
Proof. intros w. constructor. Qed.

Lemma SaveOk_call (e : Effect) : isHistorySave e = false -> SaveOk (call e).
Proof. intros H w. destruct e; try discriminate; constructor. Qed.

Lemma SaveOk_times (n : nat) (f : Proc) : SaveOk f -> SaveOk (times n f).
Proof.
  intros Hf. induction n as [|n IH]; cbn [times];
    [apply SaveOk_skip | apply SaveOk_andThen; assumption].
Qed.

Lemma SaveOk_autoCopy (c : jsstring) : SaveOk (autoCopyIfClean c).
Proof.
  intros w. destruct (autoCopyIfClean_quiet c w) as (_ & _ & H).
  rewrite H. constructor.
Qed.

Create HintDb saves.
#[local] Hint Resolve SaveOk_andThen SaveOk_when SaveOk_ifElse SaveOk_skip
  SaveOk_modify SaveOk_suspend SaveOk_setListeners SaveOk_times SaveOk_autoCopy
  : saves.
#[local] Hint Extern 1 (SaveOk (call _)) => (apply SaveOk_call; reflexivity) : saves.

Ltac save_ok :=
  repeat first
    [ progress auto with saves
    | match goal with
      | |- SaveOk (_ ;; _) => apply SaveOk_andThen
      | |- SaveOk (when _ _) => apply SaveOk_when
      | |- SaveOk (ifElse _ _ _) => apply SaveOk_ifElse
      | |- SaveOk (if ?c then _ else _) => destruct c
      | |- SaveOk (fun _ => _) => intro
      | |- SaveOk (match ?x with _ => _ end) => destruct x
      | |- Forall _ (saved (snd (if ?c then _ else _))) => destruct c
      | |- Forall _ (saved (snd (match ?c with _ => _ end))) => destruct c
      | |- Forall _ (saved (snd (_, []))) => constructor
      | |- Forall _ (saved (snd (?f ?w))) => refine ((_ : SaveOk f) w)
      end ].

Ltac save_ok_of f := unfold f; save_ok.

Lemma SaveOk_send c p : SaveOk (send c p).
Proof. unfold send. save_ok. Qed.
#[local] Hint Resolve SaveOk_send : saves.

Lemma SaveOk_setters :
  (forall s, SaveOk (setState s)) /\ (forall c, SaveOk (setConversation c))
  /\ (forall r, SaveOk (setCurrentRound r)) /\ (forall n, SaveOk (setRoundNumber n))
  /\ (forall t, SaveOk (setSessionStartTime t)) /\ (forall b, SaveOk (setContextReady b))
  /\ (forall b, SaveOk (setAiInFlight b)) /\ (forall b, SaveOk (setFinalizing b)).
Proof. repeat split; intros; apply SaveOk_modify. Qed.

#[local] Hint Extern 1 (SaveOk (setState _)) => apply SaveOk_modify : saves.
#[local] Hint Extern 1 (SaveOk (setConversation _)) => apply SaveOk_modify : saves.
#[local] Hint Extern 1 (SaveOk (setCurrentRound _)) => apply SaveOk_modify : saves.
#[local] Hint Extern 1 (SaveOk (setRoundNumber _)) => apply SaveOk_modify : saves.
#[local] Hint Extern 1 (SaveOk (setSessionStartTime _)) => apply SaveOk_modify : saves.
#[local] Hint Extern 1 (SaveOk (setContextReady _)) => apply SaveOk_modify : saves.
#[local] Hint Extern 1 (SaveOk (setAiInFlight _)) => apply SaveOk_modify : saves.
#[local] Hint Extern 1 (SaveOk (setFinalizing _)) => apply SaveOk_modify : saves.

Lemma SaveOk_pushMessage m : SaveOk (pushMessage m).
Proof. unfold pushMessage. save_ok. Qed.
Lemma SaveOk_newConversation : SaveOk newConversation.
Proof. unfold newConversation. save_ok. Qed.
Lemma SaveOk_setWindowInfo i : SaveOk (setWindowInfo i).
Proof. unfold setWindowInfo. save_ok. Qed.
Lemma SaveOk_setScreenshot s : SaveOk (setScreenshot s).
Proof. unfold setScreenshot. save_ok. Qed.
Lemma SaveOk_addUsage u : SaveOk (addUsage u).
Proof. unfold addUsage. save_ok. Qed.
#[local] Hint Resolve SaveOk_pushMessage SaveOk_newConversation SaveOk_setWindowInfo
  SaveOk_setScreenshot SaveOk_addUsage : saves.

Lemma SaveOk_sendTranscript : SaveOk sendTranscriptToOverlay.
Proof. unfold sendTranscriptToOverlay. save_ok. Qed.
#[local] Hint Resolve SaveOk_sendTranscript : saves.
Lemma SaveOk_onPartial t : SaveOk (onPartial t).
Proof. unfold onPartial. save_ok. Qed.
Lemma SaveOk_onFinal t : SaveOk (onFinal t).
Proof. unfold onFinal. save_ok. Qed.
Lemma SaveOk_refresh : SaveOk refreshAwsCredentials.
Proof. unfold refreshAwsCredentials. save_ok. Qed.
#[local] Hint Resolve SaveOk_onPartial SaveOk_onFinal SaveOk_refresh : saves.
Lemma SaveOk_onServiceError t m : SaveOk (onServiceError t m).
Proof. unfold onServiceError. save_ok. Qed.
Lemma SaveOk_startTranscription : SaveOk startTranscription.
Proof. unfold startTranscription. save_ok. Qed.
Lemma SaveOk_stopTranscription k : SaveOk (stopTranscription k).
Proof. unfold stopTranscription. save_ok. Qed.
Lemma SaveOk_captureFinish : SaveOk captureFinish.
Proof. unfold captureFinish. save_ok. Qed.
#[local] Hint Resolve SaveOk_onServiceError SaveOk_startTranscription
  SaveOk_stopTranscription SaveOk_captureFinish : saves.
Lemma SaveOk_captureShot : SaveOk captureShot.
Proof. unfold captureShot. save_ok. Qed.
#[local] Hint Resolve SaveOk_captureShot : saves.
Lemma SaveOk_captureContext : SaveOk captureContext.
Proof. unfold captureContext. save_ok. Qed.
Lemma SaveOk_reset : SaveOk reset.
Proof. unfold reset. save_ok. Qed.
#[local] Hint Resolve SaveOk_captureContext SaveOk_reset : saves.
Lemma SaveOk_hideAndReset : SaveOk hideAndReset.
Proof. unfold hideAndReset. save_ok. Qed.
Lemma SaveOk_saveAndReset : SaveOk saveAndReset.
Proof. unfold saveAndReset. save_ok. Qed.
#[local] Hint Resolve SaveOk_hideAndReset SaveOk_saveAndReset : saves.

(** The one call of [historyService.save] is guarded by
    [messages.length > 0]. *)
Lemma SaveOk_saveAndResetEnd : SaveOk saveAndResetEnd.
Proof.
  unfold saveAndResetEnd. apply SaveOk_andThen; [save_ok|].
  apply SaveOk_andThen; [|save_ok].
  intros w. unfold when.
  destruct (has historyService w); cbn [andb]; [|constructor].
  destruct (messages (conversation (orch w))) as [|m ms] eqn:E;
    cbn [length Nat.ltb Nat.leb]; [constructor|].
  unfold call. cbn [snd]. rewrite saved_cons, saved_nil, app_nil_r.
  constructor; [|constructor].
  unfold historyRecord. cbn [hMessages]. rewrite E. discriminate.
Qed.
#[local] Hint Resolve SaveOk_saveAndResetEnd : saves.

Lemma SaveOk_respondToUser m ff : SaveOk (respondToUser m ff).
Proof. unfold respondToUser. save_ok. Qed.
Lemma SaveOk_respondResolved t u : SaveOk (respondResolved t u).
Proof. unfold respondResolved. save_ok. Qed.
Lemma SaveOk_respondRejected m : SaveOk (respondRejected m).
Proof. unfold respondRejected. save_ok. Qed.
#[local] Hint Resolve SaveOk_respondToUser SaveOk_respondResolved
  SaveOk_respondRejected : saves.
Lemma SaveOk_respondEnd ff r : SaveOk (respondEnd ff r).
Proof. unfold respondEnd. save_ok. Qed.
Lemma SaveOk_finalizeAfterStop n : SaveOk (finalizeAfterStop n).
Proof. unfold finalizeAfterStop. save_ok. Qed.
Lemma SaveOk_finalizeAfterContext n : SaveOk (finalizeAfterContext n).
Proof. unfold finalizeAfterContext. save_ok. Qed.
#[local] Hint Resolve SaveOk_respondEnd SaveOk_finalizeAfterStop
  SaveOk_finalizeAfterContext : saves.
Lemma SaveOk_finalizeRound : SaveOk finalizeRound.
Proof. unfold finalizeRound. save_ok. Qed.
Lemma SaveOk_cancelAfterStop : SaveOk cancelAfterStop.
Proof. unfold cancelAfterStop. save_ok. Qed.
#[local] Hint Resolve SaveOk_finalizeRound SaveOk_cancelAfterStop : saves.
Lemma SaveOk_afterStop k : SaveOk (afterStop k).
Proof. unfold afterStop. save_ok. Qed.
Lemma SaveOk_onTriggerDown b : SaveOk (onTriggerDown b).
Proof. unfold onTriggerDown. save_ok. Qed.
Lemma SaveOk_onClose : SaveOk onClose.
Proof. unfold onClose. save_ok. Qed.
Lemma SaveOk_onCancel : SaveOk onCancel.
Proof. unfold onCancel. save_ok. Qed.
#[local] Hint Resolve SaveOk_afterStop SaveOk_onTriggerDown SaveOk_onClose
  SaveOk_onCancel : saves.
Lemma SaveOk_onButtonClick l : SaveOk (onButtonClick l).
Proof. unfold onButtonClick. save_ok. Qed.
Lemma SaveOk_onCopyAction : SaveOk onCopyAction.
Proof. unfold onCopyAction. save_ok. Qed.
Lemma SaveOk_onBreakoutAction : SaveOk onBreakoutAction.
Proof. unfold onBreakoutAction. save_ok. Qed.
#[local] Hint Resolve SaveOk_onButtonClick SaveOk_onCopyAction
  SaveOk_onBreakoutAction : saves.
Lemma SaveOk_resume k r : SaveOk (resume k r).
Proof. unfold resume. save_ok. Qed.
#[local] Hint Resolve SaveOk_resume : saves.

Lemma SaveOk_step e : SaveOk (step e).
Proof. unfold step. save_ok. Qed.
#[local] Hint Resolve SaveOk_step : saves.

Lemma SaveOk_run evs : SaveOk (run evs).
Proof. induction evs; cbn [run]; save_ok. Qed.

(** *** No segment of a round is blank *)

Lemma Keeps_andThen (f g : Proc) :
  KeepsSegments f -> KeepsSegments g -> KeepsSegments (f ;; g).
Proof.
  intros Hf Hg w H. unfold andThen. specialize (Hf w H).
  destruct (f w) as [w1 e1]. specialize (Hg w1 Hf). destruct (g w1) as [w2 e2].
  exact Hg.
Qed.

Lemma Keeps_when (b : World -> bool) (f : Proc) :
  KeepsSegments f -> KeepsSegments (when b f).
Proof. intros Hf w H. unfold when. destruct (b w); [apply Hf; exact H | exact H]. Qed.

Lemma Keeps_ifElse (b : World -> bool) (f g : Proc) :
  KeepsSegments f -> KeepsSegments g -> KeepsSegments (ifElse b f g).
Proof. intros Hf Hg w H. unfold ifElse. destruct (b w); [apply Hf | apply Hg]; exact H. Qed.

Lemma Keeps_skip : KeepsSegments skip.
Proof. intros w H. exact H. Qed.

Lemma Keeps_modify (f : Orchestrator -> Orchestrator) :
  (forall o, currentRound (f o) = currentRound o) -> KeepsSegments (modify f).
Proof.
  intros Hf w H. unfold SegmentsOk, modify in *. cbn [fst orch]. rewrite Hf. exact H.
Qed.

Lemma Keeps_setCurrentRound (r : Round) :
  Forall (fun s => trim (text s) <> []) (segments r) ->
  KeepsSegments (setCurrentRound r).
Proof. intros Hr w _. exact Hr. Qed.

Lemma Keeps_suspend (k : Cont) : KeepsSegments (suspend k).
Proof. intros w H. exact H. Qed.

Lemma Keeps_setListeners (n : nat) : KeepsSegments (setListeners n).
Proof. intros w H. exact H. Qed.

Lemma Keeps_call (e : Effect) : KeepsSegments (call e).
Proof. intros w H. exact H. Qed.

Lemma Keeps_times (n : nat) (f : Proc) : KeepsSegments f -> KeepsSegments (times n f).
Proof.
  intros Hf. induction n as [|n IH]; cbn [times];
    [apply Keeps_skip | apply Keeps_andThen; assumption].
Qed.

Lemma Keeps_autoCopy (c : jsstring) : KeepsSegments (autoCopyIfClean c).
Proof.
  intros w H. destruct (autoCopyIfClean_quiet c w) as (E & _).
  rewrite E. exact H.
Qed.

Create HintDb segs.
#[local] Hint Resolve Keeps_andThen Keeps_when Keeps_ifElse Keeps_skip
  Keeps_suspend Keeps_setListeners Keeps_call Keeps_times Keeps_autoCopy : segs.
#[local] Hint Extern 1 (KeepsSegments (modify _)) =>
  (apply Keeps_modify; intros; reflexivity) : segs.
#[local] Hint Extern 1 (KeepsSegments (setCurrentRound freshRound)) =>
  (apply Keeps_setCurrentRound; constructor) : segs.

Ltac keeps :=
  repeat first
    [ progress auto with segs
    | match goal with
      | |- KeepsSegments (_ ;; _) => apply Keeps_andThen
      | |- KeepsSegments (when _ _) => apply Keeps_when
      | |- KeepsSegments (ifElse _ _ _) => apply Keeps_ifElse
      | |- KeepsSegments (if ?c then _ else _) => destruct c
      | |- KeepsSegments (fun _ => _) => let w := fresh "w" in let H := fresh "H" in intros w H
      | |- KeepsSegments (match ?x with _ => _ end) => destruct x
      | |- SegmentsOk (fst (if ?c then _ else _)) => destruct c
      | |- SegmentsOk (fst (match ?c with _ => _ end)) => destruct c
      | H : SegmentsOk ?w |- SegmentsOk (fst (?w, _)) => exact H
      | H : SegmentsOk ?w |- SegmentsOk (fst (?f ?w)) => refine ((_ : KeepsSegments f) w H)
      end ].

Lemma Keeps_send c p : KeepsSegments (send c p).
Proof. unfold send. keeps. Qed.
#[local] Hint Resolve Keeps_send : segs.

#[local] Hint Extern 1 (KeepsSegments (setState _)) =>
  (apply Keeps_modify; intros; reflexivity) : segs.
#[local] Hint Extern 1 (KeepsSegments (setConversation _)) =>
  (apply Keeps_modify; intros; reflexivity) : segs.
#[local] Hint Extern 1 (KeepsSegments (setRoundNumber _)) =>
  (apply Keeps_modify; intros; reflexivity) : segs.
#[local] Hint Extern 1 (KeepsSegments (setSessionStartTime _)) =>
  (apply Keeps_modify; intros; reflexivity) : segs.
#[local] Hint Extern 1 (KeepsSegments (setContextReady _)) =>
  (apply Keeps_modify; intros; reflexivity) : segs.
#[local] Hint Extern 1 (KeepsSegments (setAiInFlight _)) =>
  (apply Keeps_modify; intros; reflexivity) : segs.
#[local] Hint Extern 1 (KeepsSegments (setFinalizing _)) =>
  (apply Keeps_modify; intros; reflexivity) : segs.

(** Writes to the conversation leave the round alone. *)
Lemma Keeps_conversation (f : World -> Conversation) :
  KeepsSegments (fun w => setConversation (f w) w).
Proof. intros w H. exact H. Qed.

Lemma Keeps_pushMessage m : KeepsSegments (pushMessage m).
Proof. intros w H. exact H. Qed.
Lemma Keeps_newConversation : KeepsSegments newConversation.
Proof. intros w H. exact H. Qed.
Lemma Keeps_setWindowInfo i : KeepsSegments (setWindowInfo i).
Proof. intros w H. exact H. Qed.
Lemma Keeps_setScreenshot s : KeepsSegments (setScreenshot s).
Proof. intros w H. exact H. Qed.
Lemma Keeps_addUsage u : KeepsSegments (addUsage u).
Proof. intros w H. unfold addUsage. destruct u; exact H. Qed.
#[local] Hint Resolve Keeps_pushMessage Keeps_newConversation Keeps_setWindowInfo
  Keeps_setScreenshot Keeps_addUsage : segs.

Lemma Keeps_sendTranscript : KeepsSegments sendTranscriptToOverlay.
Proof. unfold sendTranscriptToOverlay. keeps. Qed.
#[local] Hint Resolve Keeps_sendTranscript : segs.

Lemma Keeps_onPartial t : KeepsSegments (onPartial t).
Proof.
  unfold onPartial. apply Keeps_when, Keeps_andThen; [|keeps].
  intros w H. exact H.
Qed.

Lemma dropWhile_all (p : N -> bool) (s : jsstring) :
  forallb p (dropWhile p s) = true -> dropWhile p s = [].
Proof.
  induction s as [|c s IH]; simpl; [reflexivity|].
  destruct (p c) eqn:E; [exact IH|]. simpl. rewrite E. discriminate.
Qed.

(** A trimmed text that is blank is empty. *)
Lemma trim_blank (s : jsstring) : trim (trim s) = [] -> trim s = [].
Proof.
  intros H. apply trim_nil_iff in H. unfold trim, trimStart in *.
  apply dropWhile_all. exact H.
Qed.

(** The handler of [final] stores the trimmed text: the segment it adds is
    not blank when the text is not. *)
Lemma Keeps_onFinal t : emitted t = true -> KeepsSegments (onFinal t).
Proof.
  intros Ht. unfold onFinal. apply Keeps_when, Keeps_andThen; [|keeps].
  intros w H. unfold SegmentsOk in *. cbn [fst setCurrentRound modify orch currentRound segments].
  apply Forall_app. split; [exact H|]. constructor; [|constructor].
  cbn [text]. unfold emitted in Ht. apply negb_true_iff, isEmpty_false in Ht.
  intros E. apply Ht, trim_blank, E.
Qed.
#[local] Hint Resolve Keeps_onPartial : segs.

Lemma Keeps_refresh : KeepsSegments refreshAwsCredentials.
Proof. unfold refreshAwsCredentials. keeps. Qed.
#[local] Hint Resolve Keeps_refresh : segs.
Lemma Keeps_onServiceError t m : KeepsSegments (onServiceError t m).
Proof. unfold onServiceError. keeps. Qed.
Lemma Keeps_startTranscription : KeepsSegments startTranscription.
Proof. unfold startTranscription. keeps. Qed.
Lemma Keeps_stopTranscription k : KeepsSegments (stopTranscription k).
Proof. unfold stopTranscription. keeps. Qed.
Lemma Keeps_captureFinish : KeepsSegments captureFinish.
Proof. unfold captureFinish. keeps. Qed.
#[local] Hint Resolve Keeps_onServiceError Keeps_startTranscription
  Keeps_stopTranscription Keeps_captureFinish : segs.
Lemma Keeps_captureShot : KeepsSegments captureShot.
Proof. unfold captureShot. keeps. Qed.
#[local] Hint Resolve Keeps_captureShot : segs.
Lemma Keeps_captureContext : KeepsSegments captureContext.
Proof. unfold captureContext. keeps. Qed.
Lemma Keeps_reset : KeepsSegments reset.
Proof. unfold reset. keeps. Qed.
#[local] Hint Resolve Keeps_captureContext Keeps_reset : segs.
Lemma Keeps_hideAndReset : KeepsSegments hideAndReset.
Proof. unfold hideAndReset. keeps. Qed.
Lemma Keeps_saveAndReset : KeepsSegments saveAndReset.
Proof. unfold saveAndReset. keeps. Qed.
#[local] Hint Resolve Keeps_hideAndReset Keeps_saveAndReset : segs.
Lemma Keeps_saveAndResetEnd : KeepsSegments saveAndResetEnd.
Proof. unfold saveAndResetEnd. keeps. Qed.
#[local] Hint Resolve Keeps_saveAndResetEnd : segs.
Lemma Keeps_respondToUser m ff : KeepsSegments (respondToUser m ff).
Proof. unfold respondToUser. keeps. Qed.
Lemma Keeps_respondResolved t u : KeepsSegments (respondResolved t u).
Proof. unfold respondResolved. keeps. Qed.
Lemma Keeps_respondRejected m : KeepsSegments (respondRejected m).
Proof. unfold respondRejected. keeps. Qed.
#[local] Hint Resolve Keeps_respondToUser Keeps_respondResolved
  Keeps_respondRejected : segs.
Lemma Keeps_respondEnd ff r : KeepsSegments (respondEnd ff r).
Proof. unfold respondEnd. keeps. Qed.
Lemma Keeps_finalizeAfterStop n : KeepsSegments (finalizeAfterStop n).
Proof. unfold finalizeAfterStop. keeps. Qed.
Lemma Keeps_finalizeAfterContext n : KeepsSegments (finalizeAfterContext n).
Proof. unfold finalizeAfterContext. keeps. Qed.
#[local] Hint Resolve Keeps_respondEnd Keeps_finalizeAfterStop
  Keeps_finalizeAfterContext : segs.
Lemma Keeps_finalizeRound : KeepsSegments finalizeRound.
Proof. unfold finalizeRound. keeps. Qed.
Lemma Keeps_cancelAfterStop : KeepsSegments cancelAfterStop.
Proof. unfold cancelAfterStop. keeps. Qed.
#[local] Hint Resolve Keeps_finalizeRound Keeps_cancelAfterStop : segs.
Lemma Keeps_afterStop k : KeepsSegments (afterStop k).
Proof. unfold afterStop. keeps. Qed.
Lemma Keeps_onTriggerDown b : KeepsSegments (onTriggerDown b).
Proof. unfold onTriggerDown. keeps. Qed.
Lemma Keeps_onClose : KeepsSegments onClose.
Proof. unfold onClose. keeps. Qed.
Lemma Keeps_onCancel : KeepsSegments onCancel.
Proof. unfold onCancel. keeps. Qed.
#[local] Hint Resolve Keeps_afterStop Keeps_onTriggerDown Keeps_onClose
  Keeps_onCancel : segs.
Lemma Keeps_onButtonClick l : KeepsSegments (onButtonClick l).
Proof. unfold onButtonClick. keeps. Qed.
Lemma Keeps_onCopyAction : KeepsSegments onCopyAction.
Proof. unfold onCopyAction. keeps. Qed.
Lemma Keeps_onBreakoutAction : KeepsSegments onBreakoutAction.
Proof. unfold onBreakoutAction. keeps. Qed.
#[local] Hint Resolve Keeps_onButtonClick Keeps_onCopyAction
  Keeps_onBreakoutAction : segs.
Lemma Keeps_resume k r : KeepsSegments (resume k r).
Proof. unfold resume. keeps. Qed.
#[local] Hint Resolve Keeps_resume : segs.


Lemma Keeps_step e : KeepsSegments (step e).
Proof.
  destruct e; cbn [step]; try solve [keeps].
  - intros w H. unfold when. destruct (emitted t) eqn:E; [|exact H].
    apply Keeps_times; [apply Keeps_onFinal; exact E | exact H].
  - intros w H. destruct (nth_error (pool w) i) as [k|]; [|exact H].
    destruct (ready k w); [|exact H]. apply (Keeps_resume k r). exact H.
Qed.

Lemma Keeps_run evs : KeepsSegments (run evs).
Proof.
  induction evs as [|e evs IH]; cbn [run];
    [apply Keeps_skip | apply Keeps_andThen; [apply Keeps_step | exact IH]].
Qed.

(** In every world the machine reaches, no segment of the round is blank. *)
Lemma segments_not_blank (d : Deps) (evs : list Event) :
  SegmentsOk (fst (run evs (initialWorld d))).
Proof. apply Keeps_run. constructor. Qed.

Lemma reachable_transcript (d : Deps) (evs : list Event) :
  let r := currentRound (orch (fst (run evs (initialWorld d)))) in
  (segments r <> [] ->
   buildTranscript r = join (js " ") (map text (segments r))
   /\ trim (buildTranscript r) <> [])
  /\ (segments r = [] -> buildTranscript r = trim (currentPartial r)).
Proof.
  intros r. split.
  - intros Hne.
    assert (H : buildTranscript r = join (js " ") (map text (segments r))).
    { apply buildTranscript_segments, transcriptOf_not_blank;
        [exact Hne | apply segments_not_blank]. }
    split; [exact H|]. rewrite H.
    apply (transcriptOf_not_blank r Hne). apply segments_not_blank.
  - apply buildTranscript_partial.
Qed.

Lemma cancel_signal (w : World) :
  state (orch w) <> IDLE ->
  step CancelSignal w
  = (MkWorld (withState (orch w) CANCELLED) (listeners w)
       (pool w ++ [stopCont (deps (orch w)) ASCancel]) (now w),
     (if screenshotPreview (deps (orch w)) then [PreviewHide] else [])
     ++ (if transcribeService (deps (orch w)) then [TranscribeStop] else [])).
Proof.
  destruct w as [o l p n]. destruct o as [d st c rd rn s0 cr ai fin].
  destruct d as [ov wsv cs ts hs bs hl hf sp cm lc].
  cbn [orch state]. intros Hs.
  destruct st; [congruence| | |]; destruct sp, ts; reflexivity.
Qed.

Lemma cancel_after_stop (w : World) (r : Result) :
  resume (stopCont (deps (orch w)) ASCancel) r w
  = (MkWorld (orch w) (if transcribeService (deps (orch w)) then 0 else listeners w)
       (pool w ++ [KCancelTimer (now w + 300)]) (now w),
     (if transcribeService (deps (orch w)) then [TranscribeRemoveListeners] else [])
     ++ (if overlay (deps (orch w)) then [OverlaySend "overlay:cancel" PNone] else [])
     ++ [SetTimeout 300]).
Proof.
  destruct w as [o l p n]. destruct o as [d st c rd rn s0 cr ai fin].
  destruct d as [ov wsv cs ts hs bs hl hf sp cm lc].
  destruct ov, ts; reflexivity.
Qed.

Lemma cancel_timer (w : World) (due : N) (r : Result) :
  let res := resume (KCancelTimer due) r w in
  state (orch (fst res)) = IDLE
  /\ messages (conversation (orch (fst res))) = []
  /\ aiInFlight (orch (fst res)) = false /\ finalizing (orch (fst res)) = false
  /\ roundNumber (orch (fst res)) = 0
  /\ saved (snd res) = [] /\ countConverse (snd res) = 0
  /\ In HideOverlay (snd res).
Proof.
  destruct w as [o l p n]. destruct o as [d st c rd rn s0 cr ai fin].
  destruct d as [ov wsv cs ts hs bs hl hf sp cm lc].
  destruct ov, hl, sp; crunch; count_effects; repeat split; simpl; tauto.
Qed.

Lemma idle_noop (w : World) :
  state (orch w) = IDLE ->
  step CancelSignal w = (w, []) /\ step CloseAction w = (w, []).
Proof.
  intros H. cbn [step]. unfold onCancel, onClose, inState. rewrite H.
  split; reflexivity.
Qed.


(** ** C1: triggers while a finalize or an AI call is in flight *)

(** C1. A trigger that arrives while the state is CONVERSING and the
    AI-in-flight flag or the finalizing flag is set leaves the orchestrator,
    the listeners, the suspended calls and the clock as they were (the round
    number is not incremented and no message is appended); all it can do is
    hide the settings window.  The trigger that ends a recording sets the
    state to CONVERSING and the finalizing flag before its first [await], so
    every trigger of a burst that follows it is ignored.  A finalize of a
    round with a transcript, with bursts of triggers while it awaits the
    context capture, the transcription stop and the AI, ends in the same
    world as without them and calls the AI exactly once. *)
Theorem trigger_backpressure :
  (forall (w : World) (settingsOpen : bool),
      state (orch w) = CONVERSING ->
      aiInFlight (orch w) || finalizing (orch w) = true ->
      step (TriggerDown settingsOpen) w
      = (w, if settingsOpen then [HideSettings] else []))
  /\ (forall (w : World) (first : bool) (ts : list bool),
      state (orch w) = RECORDING ->
      let w1 := fst (step (TriggerDown first) w) in
      state (orch w1) = CONVERSING
      /\ finalizing (orch w1) = true
      /\ countConverse (snd (step (TriggerDown first) w)) = 0
      /\ run (triggers ts) w1 = (w1, settingsHidden ts))
  /\ (forall (w : World) (first : bool) (ts1 ts2 ts3 : list bool) (rc rs ra : Result),
      state (orch w) = RECORDING ->
      trim (buildTranscript (currentRound (orch w))) <> [] ->
      let schedule := rapidFinalize (length (pool w)) (contextReady (orch w)) first in
      let hurried := run (schedule ts1 ts2 ts3 rc rs ra) w in
      let calm := run (schedule [] [] [] rc rs ra) w in
      outcome hurried = outcome calm
      /\ countConverse (snd hurried) = 1
      /\ state (orch (fst hurried)) = CONVERSING
      /\ aiInFlight (orch (fst hurried)) = false
      /\ finalizing (orch (fst hurried)) = false
      /\ roundNumber (orch (fst hurried)) = roundNumber (orch w)
      /\ pool (fst hurried) = pool w
      /\ length (messages (conversation (orch (fst hurried))))
         = 2 + length (messages (conversation (orch w)))).
Proof.
  split; [exact trigger_ignored|]. split.
  { intros w first ts Hs w1. subst w1.
    destruct (trigger_starts_finalize w first Hs) as (E & C & _).
    rewrite E. cbn [orch finalizingOrch state finalizing].
    repeat split; [exact C|].
    apply triggers_ignored; [reflexivity | apply orb_true_r]. }
  intros w first ts1 ts2 ts3 rc rs ra Hs Ht schedule hurried calm.
  subst schedule hurried calm.
  pose proof (rapidFinalize_outcome w first ts1 ts2 ts3 rc rs ra Hs Ht) as Hh.
  pose proof (rapidFinalize_outcome w first [] [] [] rc rs ra Hs Ht) as Hc.
  split; [rewrite Hh, Hc; reflexivity|].
  pose proof (f_equal fst Hh) as Hw. pose proof (f_equal snd Hh) as Hn.
  unfold outcome in Hw, Hn. cbn [fst snd] in Hw, Hn. rewrite Hw.
  split; [exact Hn|].
  match goal with
  | |- context [respondEnd true ra ?W] =>
      destruct (respondEnd_conversing true ra W eq_refl)
        as (R1 & R2 & R3 & R4 & R5 & _ & _ & _ & _ & R10)
  end.
  rewrite R1, R2, R3, R4, R5, R10. cbn. rewrite length_app. cbn.
  repeat split. lia.
Qed.

Lemma trigger_backpressure_witness :
  countConverse
    (snd (run (rapidFinalize 0 false true [] [true; false] [false; false; true]
                 Resolved Resolved (ResolvedText (js "find . -size +1G") None))
              recordingWorld)) = 1.
Proof.
  destruct trigger_backpressure as [_ [_ H]].
  apply (H recordingWorld true [] [true; false] [false; false; true]
           Resolved Resolved (ResolvedText (js "find . -size +1G") None)).
  - reflexivity.
  - vm_compute. discriminate.
Defined.

(** ** C2: the round number captured by a finalize *)

(** C2. [finalizeRound] suspends with the round number it read on entry:
    the call it leaves in the pool carries [roundNumber], at the context
    capture and again at the transcription stop.  When one of these awaited
    steps settles and the orchestrator's round number differs from the
    captured one, the finalize ends there: the orchestrator is as before
    except that the finalizing flag is cleared, no message is appended, the
    AI is not called, nothing is saved, and the only call made is the removal
    of the transcription listeners that belongs to [stopTranscription]. *)
Theorem finalize_round_guard :
  (forall (w : World) (b : bool),
      state (orch w) = RECORDING ->
      pool (fst (step (TriggerDown b) w))
      = pool w ++ [if contextReady (orch w)
                   then KFinalizeContext (roundNumber (orch w))
                   else stopCont (deps (orch w)) (ASFinalize (roundNumber (orch w)))])
  /\ (forall (w : World) (r : Result),
      fst (resume (KFinalizeContext (roundNumber (orch w))) r w)
      = MkWorld (orch w) (listeners w)
          (pool w ++ [stopCont (deps (orch w)) (ASFinalize (roundNumber (orch w)))])
          (now w))
  /\ (forall (w : World) (i : nat) (r : Result) (myRound : nat) (k : Cont),
      nth_error (pool w) i = Some k ->
      k = KFinalizeContext myRound \/ k = KStop (ASFinalize myRound)
      \/ k = KStopped (ASFinalize myRound) ->
      roundNumber (orch w) <> myRound ->
      let after := step (Settle i r) w in
      orch (fst after) = notFinalizing (orch w)
      /\ messages (conversation (orch (fst after))) = messages (conversation (orch w))
      /\ pool (fst after) = removeAt i (pool w)
      /\ countConverse (snd after) = 0
      /\ saved (snd after) = []
      /\ (forall e, In e (snd after) -> e = TranscribeRemoveListeners)).
Proof.
  split.
  { intros w b Hs. destruct (trigger_starts_finalize w b Hs) as (E & _).
    rewrite E. reflexivity. }
  split.
  { intros w r. apply (finalize_after_context w r). }
  intros w i r myRound k Hk Hkind Hstale after. subst after.
  assert (Hready : ready k w = true)
    by (destruct Hkind as [->|[->| ->]]; reflexivity).
  rewrite (settle_at w i r k Hk Hready).
  set (w0 := MkWorld (orch w) (listeners w) (removeAt i (pool w)) (now w)).
  assert (Hstale0 : roundNumber (orch w0) <> myRound) by exact Hstale.
  destruct (stale_stop w0 r myRound Hstale0) as [E2 E3].
  destruct Hkind as [->|[->| ->]];
    [rewrite (stale_context w0 r myRound Hstale0) | rewrite E2 | rewrite E3];
    cbn [fst snd orch pool w0];
    (repeat split; try reflexivity);
    intros e He; simpl in He; intuition congruence.
Qed.

Lemma finalize_round_guard_witness :
  let stale :=
    MkWorld (MkOrchestrator allDeps RECORDING (freshConversation 1) freshRound 1 0
                            false false true)
            1 [KStartTranscription; KStop (ASFinalize 0)] 0 in
  step (Settle 1 Resolved) stale
  = (MkWorld (MkOrchestrator allDeps RECORDING (freshConversation 1) freshRound 1 0
                             false false false)
             0 [KStartTranscription] 0,
     [TranscribeRemoveListeners])
  /\ countConverse (snd (step (Settle 1 Resolved) stale)) = 0.
Proof.
  intros stale. split; [reflexivity|].
  destruct finalize_round_guard as [_ [_ H]].
  apply (H stale 1 Resolved 0 (KStop (ASFinalize 0))).
  - reflexivity.
  - right. left. reflexivity.
  - cbn. discriminate.
Defined.

(** ** C3: the transcript of a round *)

(** C3. The transcript of a round is the texts of its segments, in order,
    joined by single spaces: the handler of [final] stores the trimmed texts
    in the order the events arrive, and in every world the orchestrator
    reaches from the state its constructor leaves, a round that has a
    segment has the join as its transcript, which is then not blank (no
    segment is blank, as the transcription providers emit no blank
    [final]); for the six segments of the example it is
    [find files bigger than a gig].  With no segment the transcript is the
    trimmed partial.  A finalize whose transcript is not
    blank appends it as a user message and calls the AI once with the
    messages so far.  With no segment and a blank partial the finalize calls
    no AI and appends nothing; it goes to [saveAndReset], which leaves the
    orchestrator idle and saves nothing when the session has no message.  In
    every run, every record handed to the history service has a message. *)
Theorem round_transcript :
  (forall (counter : nat) (partial : jsstring),
      buildTranscript (MkRound exampleSegments counter partial)
      = js "find files bigger than a gig")
  /\ (forall (w : World) (texts : list jsstring),
      listeners w = 1 ->
      recordingOrConversing w = true ->
      map text (segments (currentRound (orch (fst (run (map TranscribeFinal texts) w)))))
      = map text (segments (currentRound (orch w))) ++ map trim (filter emitted texts))
  /\ (forall (d : Deps) (evs : list Event),
      let r := currentRound (orch (fst (run evs (initialWorld d)))) in
      segments r <> [] ->
      buildTranscript r = join (js " ") (map text (segments r))
      /\ trim (buildTranscript r) <> [])
  /\ (forall r : Round,
      segments r = [] -> buildTranscript r = trim (currentPartial r))
  /\ buildTranscript (MkRound [] 0 (js "find files big")) = js "find files big"
  /\ (forall (w : World) (r : Result),
      let t := buildTranscript (currentRound (orch w)) in
      let c := conversation (orch w) in
      let res := resume (stopCont (deps (orch w)) (ASFinalize (roundNumber (orch w)))) r w in
      trim t <> [] ->
      messages (conversation (orch (fst res))) = messages c ++ [MkMessage User t []]
      /\ In (AIConverse (messages c ++ [MkMessage User t []]) (screenshot c)
                        (windowInfo c)) (snd res)
      /\ countConverse (snd res) = 1)
  /\ (forall (w : World) (r : Result),
      let res := resume (stopCont (deps (orch w)) (ASFinalize (roundNumber (orch w)))) r w in
      segments (currentRound (orch w)) = [] ->
      trim (currentPartial (currentRound (orch w))) = [] ->
      countConverse (snd res) = 0
      /\ saved (snd res) = []
      /\ messages (conversation (orch (fst res))) = messages (conversation (orch w))
      /\ pool (fst res) = pool w ++ [stopCont (deps (orch w)) ASSave])
  /\ (forall (w : World) (r : Result),
      let res := resume (stopCont (deps (orch w)) ASSave) r w in
      state (orch (fst res)) = IDLE
      /\ (messages (conversation (orch w)) = [] -> saved (snd res) = []))
  /\ (forall (evs : list Event) (w : World),
      Forall (fun rec => hMessages rec <> []) (saved (snd (run evs w)))).
Proof.
  split; [intros; vm_compute; reflexivity|].
  split; [intros w texts; apply finals_in_order|].
  split.
  { intros d evs r Hne. apply (reachable_transcript d evs). exact Hne. }
  split; [exact buildTranscript_partial|].
  split; [vm_compute; reflexivity|].
  split.
  { intros w r t c res Ht. subst res.
    destruct (finalize_after_stop w r Ht) as (E & C & _).
    rewrite E. cbn [fst orch respondingOrch conversation messages].
    split; [reflexivity|]. split; [apply (finalize_calls_ai w r Ht) | exact C]. }
  split.
  { intros w r res Hseg Hpart. subst res.
    assert (Hblank : trim (buildTranscript (currentRound (orch w))) = []).
    { rewrite (buildTranscript_partial _ Hseg), Hpart. reflexivity. }
    rewrite (finalize_blank w r Hblank). cbn [fst snd pool orch notFinalizing conversation].
    destruct (transcribeService (deps (orch w))); repeat split. }
  split.
  { intros w r res. subst res.
    destruct (saveAndReset_end w r) as (H1 & _ & _ & _ & H5).
    split; [exact H1|]. intros Hm. rewrite H5, Hm.
    rewrite andb_false_r. reflexivity. }
  intros evs w. apply SaveOk_run.
Qed.

Lemma round_transcript_witness :
  map text (segments (currentRound (orch
    (fst (run (map TranscribeFinal
                 [js "find"; js " files"; js "bigger "; js "than"; js "a"; js "gig"])
              (fst (run (removelast recordingSession) (initialWorld allDeps))))))))
  = map text exampleSegments
  /\ buildTranscript (currentRound (orch recordingWorld)) = js "find files"
  /\ saved (snd (resume (KStop ASSave) Resolved
                   (fst (run (removelast recordingSession) (initialWorld allDeps)))))
     = [].
Proof.
  destruct round_transcript as (_ & H2 & H3 & _ & _ & _ & _ & H8 & _).
  split; [|split].
  - apply (H2 (fst (run (removelast recordingSession) (initialWorld allDeps))));
      reflexivity.
  - apply (H3 allDeps recordingSession). vm_compute. discriminate.
  - apply (H8 (fst (run (removelast recordingSession) (initialWorld allDeps)))
              Resolved).
    reflexivity.
Defined.

(** ** C8: cancel *)

(** C8. A cancel signal received while the state is not IDLE sets the state
    to CANCELLED, hides the preview and stops the transcription; once the
    stop settled, the cancel event is sent to the overlay and a timer of
    300ms is set; the timer's callback, which runs once 300ms have passed,
    hides the overlay and resets the orchestrator to IDLE without saving.  A
    cancel or a close received in state IDLE changes nothing and makes no
    call.  But a cancelled session can still be written to the history: in
    the run [cancelDuringFinalize] the cancel arrives while the finalize of
    the second round awaits the transcription stop; the state is CANCELLED
    and nothing was saved so far; when the awaited stop settles the finalize
    goes on (the round number is unchanged), finds no transcript, calls
    [saveAndReset], and the session of the first round is saved. *)
Theorem cancel_paths :
  (forall w : World,
      state (orch w) <> IDLE ->
      step CancelSignal w
      = (MkWorld (withState (orch w) CANCELLED) (listeners w)
           (pool w ++ [stopCont (deps (orch w)) ASCancel]) (now w),
         (if screenshotPreview (deps (orch w)) then [PreviewHide] else [])
         ++ (if transcribeService (deps (orch w)) then [TranscribeStop] else [])))
  /\ (forall (w : World) (r : Result),
      resume (stopCont (deps (orch w)) ASCancel) r w
      = (MkWorld (orch w)
           (if transcribeService (deps (orch w)) then 0 else listeners w)
           (pool w ++ [KCancelTimer (now w + 300)]) (now w),
         (if transcribeService (deps (orch w)) then [TranscribeRemoveListeners] else [])
         ++ (if overlay (deps (orch w)) then [OverlaySend "overlay:cancel" PNone] else [])
         ++ [SetTimeout 300]))
  /\ (forall (w : World) (due : N) (r : Result),
      ready (KCancelTimer due) w = (due <=? now w)%N
      /\ state (orch (fst (resume (KCancelTimer due) r w))) = IDLE
      /\ saved (snd (resume (KCancelTimer due) r w)) = [])
  /\ (forall w : World,
      state (orch w) = IDLE ->
      step CancelSignal w = (w, []) /\ step CloseAction w = (w, []))
  /\ (let cancelled := run cancelDuringFinalize (initialWorld allDeps) in
      let finished := run (cancelDuringFinalize ++ afterCancel) (initialWorld allDeps) in
      state (orch (fst cancelled)) = CANCELLED
      /\ saved (snd cancelled) = []
      /\ map hMessages (saved (snd finished))
         = [[(User, js "find files"); (Assistant, js "ok")]]
      /\ state (orch (fst finished)) = IDLE).
Proof.
  split; [exact cancel_signal|].
  split; [exact cancel_after_stop|].
  split.
  { intros w due r. split; [reflexivity|].
    destruct (cancel_timer w due r) as (H1 & _ & _ & _ & _ & H6 & _).
    split; assumption. }
  split; [exact idle_noop|].
  vm_compute. repeat split.
Qed.

(** ** C7: bare trailing lines, amended *)

(** If the continuation fails on every state that satisfies a property kept
    by the suffixes of the input, the match fails. *)
Section MatchFails.

Variable P : jsstring -> Prop.
Hypothesis P_tail : forall c t, P (c :: t) -> P t.

Lemma repeatMatcher_none m greedy k :
  (forall x k', P (rest x) -> (forall y, P (rest y) -> k' y = None) -> m x k' = None) ->
  (forall y, P (rest y) -> k y = None) ->
  forall fuel min max x, P (rest x) -> repeatMatcher m greedy k fuel min max x = None.
Proof.
  intros Hm Hk. induction fuel as [|fuel IH]; intros min max x HP; [reflexivity|].
  simpl.
  assert (Hd : m x (fun y =>
                 if (min =? 0)%nat && (pos y =? pos x)%nat then None
                 else repeatMatcher m greedy k fuel (Nat.pred min)
                        (option_map Nat.pred max) y) = None).
  { apply Hm; [exact HP|]. intros y Hy.
    destruct ((min =? 0)%nat && (pos y =? pos x)%nat); [reflexivity|].
    apply IH. exact Hy. }
  destruct max as [[|n]|]; [apply Hk; exact HP | |];
    rewrite Hd, (Hk x HP); destruct (negb (min =? 0)%nat), greedy; reflexivity.
Qed.

Lemma rmatch_none (r : regex) :
  forall (x : mstate) (k : mstate -> option mstate),
    P (rest x) ->
    (forall y, P (rest y) -> k y = None) ->
    rmatch r x k = None.
Proof.
  induction r as [|p| | |a IHa b IHb|a IHa b IHb|min0 max0 greedy a IHa|n a IHa];
    intros x k HP Hk.
  - apply Hk. exact HP.
  - simpl. destruct (rest x) as [|c t] eqn:E; [reflexivity|].
    destruct (p c); [|reflexivity]. apply Hk. simpl. apply (P_tail c t HP).
  - simpl. destruct (pos x =? 0)%nat; [apply Hk; exact HP | reflexivity].
  - simpl. destruct (rest x) eqn:E; [apply Hk; rewrite E; exact HP | reflexivity].
  - simpl. apply IHa; [exact HP|]. intros y Hy. apply IHb; assumption.
  - simpl. rewrite (IHa x k HP Hk). apply IHb; assumption.
  - apply repeatMatcher_none; assumption.
  - simpl. apply IHa; [exact HP|]. intros y Hy. apply Hk. exact Hy.
Qed.

End MatchFails.

Lemma upper_bracket c : upper c = 91%N -> c = 91%N.
Proof.
  unfold upper. destruct ((97 <=? c)%N && (c <=? 122)%N) eqn:E; [|tauto].
  apply andb_true_iff in E. destruct E as [E1 E2].
  apply N.leb_le in E1. apply N.leb_le in E2. lia.
Qed.

(** A pattern that needs a code unit matches nowhere in an input without it. *)
Lemma rmatch_needs (c : N) (r : regex) :
  needs c r ->
  forall x k, ~ In c (rest x) -> rmatch r x k = None.
Proof.
  induction r as [|p| | |a IHa b IHb|a IHa b IHb|min0 max0 greedy a IHa|n a IHa];
    simpl; intros Hn x k Hx; try contradiction.
  - destruct (rest x) as [|d t] eqn:E; [reflexivity|].
    destruct (p d) eqn:Ep; [|reflexivity]. apply Hn in Ep. subst d.
    exfalso. apply Hx. left. reflexivity.
  - destruct Hn as [Hn|Hn]; [apply IHa; assumption|].
    apply (rmatch_none (fun s => ~ In c s)); [simpl; tauto | exact Hx |].
    intros y Hy. apply IHb; assumption.
  - destruct Hn as [Ha Hb]. rewrite (IHa Ha x k Hx). apply IHb; assumption.
  - destruct Hn as (Hmin & Hmax & Ha).
    destruct max0 as [[|m]|]; [congruence | |];
      (destruct min0 as [|min0]; [lia|]); simpl; apply IHa; assumption.
  - apply IHa; assumption.
Qed.

Lemma execFrom_needs (c : N) (r : regex) :
  needs c r -> forall s i, ~ In c s -> execFrom r i s = None.
Proof.
  intros Hn. induction s as [|d t IH]; intros i Hs; simpl;
    unfold matchAt; rewrite (rmatch_needs c r Hn); try exact Hs; [reflexivity|].
  apply IH. simpl in Hs. tauto.
Qed.

Lemma exec_needs (c : N) (r : regex) (s : jsstring) :
  needs c r -> ~ In c s -> exec r s = None.
Proof. intros Hn Hs. apply execFrom_needs with (c := c); assumption. Qed.

Lemma chri_bracket : forall d, (upper d =? upper (ch "["))%N = true -> d = 91%N.
Proof. intros d H. apply N.eqb_eq in H. apply upper_bracket. exact H. Qed.

Lemma chr_bracket : forall d, (ch "[" =? d)%N = true -> d = 91%N.
Proof. intros d H. apply N.eqb_eq in H. symmetry. exact H. Qed.

Lemma reButtonsTag_needs : needs 91 AI.reButtonsTag.
Proof. simpl. left. left. exact chri_bracket. Qed.

Lemma reIncompleteTag_needs : needs 91 AI.reIncompleteTag.
Proof. simpl. left. left. exact chri_bracket. Qed.

Lemma reTrailingLines_needs : needs 91 AI.reTrailingLines.
Proof.
  simpl. left. split; [lia|]. split; [discriminate|].
  right. right. left. exact chr_bracket.
Qed.

Lemma reTrailingInline_needs : needs 91 AI.reTrailingInline.
Proof.
  simpl. right. right. left. split; [lia|]. split; [discriminate|].
  left. exact chr_bracket.
Qed.

(** *** The scan for bare lines *)

Lemma bareLoop_cons (l : jsstring) (before : list jsstring) (c : nat) :
  AI.bareLoop (l :: before) c
  = if (c <? 4)%nat then
      if AI.isBareLine l then AI.bareLoop before (S c) else c
    else c.
Proof.
  unfold AI.isBareLine. simpl.
  destruct (c <? 4)%nat; [|reflexivity].
  destruct (isEmpty (AI.stripMarker l)); [reflexivity|]. simpl.
  destruct ((length (splitRe AI.reSpaces (AI.stripMarker l)) <=? 5)%nat
            && negb (test AI.reTerminal (AI.stripMarker l))); reflexivity.
Qed.

Lemma bareLoop_stops (before : list jsstring) (c : nat) :
  c = 4%nat \/ before = []
  \/ (exists l b, before = l :: b /\ AI.isBareLine l = false) ->
  AI.bareLoop before c = c.
Proof.
  intros [H|[H|(l & b & H & Hl)]]; subst.
  - destruct before; [reflexivity|]. rewrite bareLoop_cons. reflexivity.
  - reflexivity.
  - rewrite bareLoop_cons, Hl. destruct (c <? 4)%nat; reflexivity.
Qed.

Lemma bareLoop_run (taken before : list jsstring) :
  forall c : nat,
    forallb AI.isBareLine taken = true ->
    (c + length taken <= 4)%nat ->
    (c + length taken = 4%nat \/ before = []
     \/ (exists l b, before = l :: b /\ AI.isBareLine l = false)) ->
    AI.bareLoop (taken ++ before) c = (c + length taken)%nat.
Proof.
  induction taken as [|l t IH]; intros c Hall Hle Hstop.
  - simpl in *. rewrite Nat.add_0_r in *. apply bareLoop_stops. exact Hstop.
  - simpl in Hall. apply andb_true_iff in Hall. destruct Hall as [Hl Ht].
    simpl in Hle, Hstop. simpl app. rewrite bareLoop_cons, Hl.
    assert (Hc : (c <? 4)%nat = true) by (apply Nat.ltb_lt; lia).
    rewrite Hc. rewrite (IH (S c) Ht); simpl; [lia | lia |].
    destruct Hstop as [H|H]; [left; lia | right; exact H].
Qed.

Lemma sliceLast_app {A} (pre labels : list A) :
  sliceLast (length labels) (pre ++ labels) = labels.
Proof.
  unfold sliceLast. rewrite length_app.
  replace (length pre + length labels - length labels)%nat with (length pre) by lia.
  rewrite skipn_app, skipn_all, Nat.sub_diag. reflexivity.
Qed.

Lemma sliceButLast_app {A} (pre labels : list A) :
  sliceButLast (length labels) (pre ++ labels) = pre.
Proof.
  unfold sliceButLast. rewrite length_app.
  replace (length pre + length labels - length labels)%nat with (length pre) by lia.
  rewrite firstn_app, firstn_all, Nat.sub_diag. simpl. apply app_nil_r.
Qed.

Lemma filterBoolean_bare (labels : list jsstring) :
  forallb AI.isBareLine labels = true ->
  filterBoolean (map AI.stripMarker labels) = map AI.stripMarker labels.
Proof.
  induction labels as [|l t IH]; intros H; [reflexivity|].
  simpl in H. apply andb_true_iff in H. destruct H as [Hl Ht].
  unfold AI.isBareLine in Hl. apply andb_true_iff in Hl. destruct Hl as [Hl _].
  simpl. unfold filterBoolean in *. simpl.
  destruct (isEmpty (AI.stripMarker l)); [discriminate|]. simpl.
  rewrite (IH Ht). reflexivity.
Qed.

(** The rule of the scan, for a text without an opening bracket whose lines
    are [pre] followed by two to four bare lines [labels]: when the scan
    stops there (four labels, or a line before them that is not bare) and
    [pre] is not blank, the labels are the buttons and [pre] the content. *)
Lemma parseButtons_bare (text : jsstring) (pre labels : list jsstring) :
  ~ In (ch "[") text ->
  splitOn NL (trimEnd text) = pre ++ labels ->
  (2 <= length labels <= 4)%nat ->
  forallb AI.isBareLine labels = true ->
  (length labels = 4%nat
   \/ exists before l, pre = before ++ [l] /\ AI.isBareLine l = false) ->
  trim (join [NL] pre) <> [] ->
  AI.parseButtons text
  = AI.MkParsed (trim (join [NL] pre)) (map AI.stripMarker labels).
Proof.
  intros Hb Hsplit Hlen Hall Hstop Hrem.
  unfold AI.parseButtons.
  destruct (isEmpty text) eqn:Ee.
  { apply isEmpty_true in Ee. subst text. exfalso.
    apply (f_equal (@length _)) in Hsplit. rewrite length_app in Hsplit.
    simpl in Hsplit. lia. }
  rewrite (exec_needs _ _ _ reButtonsTag_needs Hb),
          (exec_needs _ _ _ reTrailingLines_needs Hb),
          (exec_needs _ _ _ reTrailingInline_needs Hb).
  cbv zeta. rewrite Hsplit, rev_app_distr.
  assert (Hcount : AI.bareLoop (rev labels ++ rev pre) 0 = length labels).
  { rewrite bareLoop_run; rewrite ?length_rev; simpl; try lia.
    - rewrite forallb_forall in *. intros l Hl. apply Hall. apply in_rev. exact Hl.
    - destruct Hstop as [H|(before & l & -> & Hl)]; [left; exact H|].
      right. right. exists l, (rev before). rewrite rev_app_distr. split; [reflexivity|exact Hl]. }
  rewrite Hcount, sliceLast_app, sliceButLast_app, (filterBoolean_bare _ Hall).
  assert (H2 : (2 <=? length labels)%nat = true) by (apply Nat.leb_le; lia).
  rewrite H2.
  destruct (trim (join [NL] pre)) as [|c t] eqn:Et; [contradiction|].
  reflexivity.
Qed.

(** C7, amended.  The last two to four bare lines of a response without
    brackets are its buttons, provided the scan stops at them and text
    remains before them.  On the three-line input every line is a bare short
    line, so [parseButtons] returns the whole input as content and no
    buttons; with a first line that ends in a full stop the two lines after
    it are the buttons and the first line is the content. *)
Theorem parseButtons_bare_lines :
  (forall (text : jsstring) (pre labels : list jsstring),
      ~ In (ch "[") text ->
      splitOn NL (trimEnd text) = pre ++ labels ->
      (2 <= length labels <= 4)%nat ->
      forallb AI.isBareLine labels = true ->
      (length labels = 4%nat
       \/ exists before l, pre = before ++ [l] /\ AI.isBareLine l = false) ->
      trim (join [NL] pre) <> [] ->
      AI.parseButtons text
      = AI.MkParsed (trim (join [NL] pre)) (map AI.stripMarker labels))
  /\ AI.parseButtons bareExample = AI.MkParsed bareExample []
  /\ AI.parseButtons bareExamplePunctuated
     = AI.MkParsed (js "Explanation text.") [js "More detail"; js "Simpler version"].
Proof.
  split; [exact parseButtons_bare|]. split; vm_compute; reflexivity.
Qed.

Lemma parseButtons_bare_lines_witness :
  AI.parseButtons (js "Summary of the change:" ++ [NL] ++ js "- Explain more"
                   ++ [NL] ++ js "- Make it shorter" ++ [NL])
  = AI.MkParsed (js "Summary of the change:") [js "Explain more"; js "Make it shorter"].
Proof.
  destruct parseButtons_bare_lines as [H _].
  apply (H _ [js "Summary of the change:"] [js "- Explain more"; js "- Make it shorter"]).
  - vm_compute. intuition discriminate.
  - vm_compute. reflexivity.
  - simpl. lia.
  - vm_compute. reflexivity.
  - right. exists [], (js "Summary of the change:"). split; vm_compute; reflexivity.
  - vm_compute. discriminate.
Defined.

(* ===================================================================== *)
(** * Further properties of the orchestrator *)
(* ===================================================================== *)

(** *** The AI is called once per request at most *)

Lemma Spends_andThen (a b : nat) (f g : Proc) :
  Spends a f -> Spends b g -> Spends (a + b) (f ;; g).
Proof.
  intros Hf Hg w. unfold andThen. specialize (Hf w).
  destruct (f w) as [w1 e1]. specialize (Hg w1). destruct (g w1) as [w2 e2].
  cbn [fst snd] in *. rewrite countConverse_app. lia.
Qed.

Lemma Spends_more (a b : nat) (f : Proc) : a <= b -> Spends a f -> Spends b f.
Proof. intros Hab Hf w. specialize (Hf w). lia. Qed.

Lemma Free_andThen (f g : Proc) : Spends 0 f -> Spends 0 g -> Spends 0 (f ;; g).
Proof. apply (Spends_andThen 0 0). Qed.

Lemma Spends_when (n : nat) (b : World -> bool) (f : Proc) :
  Spends n f -> Spends n (when b f).
Proof.
  intros Hf w. unfold when. destruct (b w); [apply Hf|].
  cbn [fst snd]. rewrite countConverse_nil. lia.
Qed.

Lemma Spends_ifElse (n : nat) (b : World -> bool) (f g : Proc) :
  Spends n f -> Spends n g -> Spends n (ifElse b f g).
Proof. intros Hf Hg w. unfold ifElse. destruct (b w); [apply Hf | apply Hg]. Qed.

Lemma Free_skip : Spends 0 skip.
Proof. intros w. cbn. rewrite countConverse_nil. lia. Qed.

Lemma Free_modify (f : Orchestrator -> Orchestrator) : Spends 0 (modify f).
Proof. intros w. cbn. rewrite countConverse_nil. unfold pendingFinalizes. cbn. lia. Qed.

Lemma Free_setListeners (n : nat) : Spends 0 (setListeners n).
Proof. intros w. cbn. rewrite countConverse_nil. unfold pendingFinalizes. cbn. lia. Qed.

Lemma Free_call (e : Effect) : isConverse e = false -> Spends 0 (call e).
Proof.
  intros H w. unfold call. cbn [fst snd]. rewrite countConverse_cons, H, countConverse_nil.
  cbn. lia.
Qed.

Lemma Spends_suspend (k : Cont) :
  Spends (if isFinalizeCont k then 1 else 0) (suspend k).
Proof.
  intros w. unfold suspend, pendingFinalizes. cbn [fst snd pool].
  rewrite countConverse_nil, filter_app, length_app. cbn [filter].
  destruct (isFinalizeCont k); cbn; lia.
Qed.

Lemma Free_suspend (k : Cont) : isFinalizeCont k = false -> Spends 0 (suspend k).
Proof. intros H. pose proof (Spends_suspend k) as Hs. rewrite H in Hs. exact Hs. Qed.

Lemma Free_times (n : nat) (f : Proc) : Spends 0 f -> Spends 0 (times n f).
Proof.
  intros Hf. induction n as [|n IH]; cbn [times];
    [apply Free_skip | apply Free_andThen; assumption].
Qed.

Lemma Free_autoCopy (c : jsstring) : Spends 0 (autoCopyIfClean c).
Proof.
  intros w. destruct (autoCopyIfClean_quiet c w) as (E & C & _).
  rewrite E, C. lia.
Qed.

Create HintDb spends.
#[local] Hint Resolve Free_andThen Spends_when Spends_ifElse Free_skip Free_modify
  Free_setListeners Free_times Free_autoCopy : spends.
#[local] Hint Extern 1 (Spends 0 (call _)) => (apply Free_call; reflexivity) : spends.
#[local] Hint Extern 1 (Spends 0 (suspend _)) => (apply Free_suspend; reflexivity) : spends.
#[local] Hint Extern 1 (Spends 0 (setState _)) => apply Free_modify : spends.
#[local] Hint Extern 1 (Spends 0 (setConversation _)) => apply Free_modify : spends.
#[local] Hint Extern 1 (Spends 0 (setCurrentRound _)) => apply Free_modify : spends.
#[local] Hint Extern 1 (Spends 0 (setRoundNumber _)) => apply Free_modify : spends.
#[local] Hint Extern 1 (Spends 0 (setSessionStartTime _)) => apply Free_modify : spends.
#[local] Hint Extern 1 (Spends 0 (setContextReady _)) => apply Free_modify : spends.
#[local] Hint Extern 1 (Spends 0 (setAiInFlight _)) => apply Free_modify : spends.
#[local] Hint Extern 1 (Spends 0 (setFinalizing _)) => apply Free_modify : spends.

Ltac free :=
  repeat first
    [ progress auto with spends
    | match goal with
      | |- Spends 0 (_ ;; _) => apply Free_andThen
      | |- Spends _ (when _ _) => apply Spends_when
      | |- Spends _ (ifElse _ _ _) => apply Spends_ifElse
      | |- Spends _ (if ?c then _ else _) => destruct c
      | |- Spends _ (fun _ => _) => let w := fresh "w" in intros w
      | |- Spends _ (match ?x with _ => _ end) => destruct x
      | |- _ + pendingFinalizes (fst (if ?c then _ else _)) <= _ => destruct c
      | |- _ + pendingFinalizes (fst (match ?c with _ => _ end)) <= _ => destruct c
      | |- countConverse (snd (?w, [])) + pendingFinalizes (fst (?w, [])) <= _ =>
          cbn [fst snd]; rewrite countConverse_nil; lia
      | |- countConverse (snd (?f ?w)) + pendingFinalizes (fst (?f ?w))
           <= pendingFinalizes ?w + ?n => refine ((_ : Spends n f) w)
      end ].

Ltac cheaper :=
  match goal with
  | |- ?a + ?b <= ?c + 1 => cut (a + b <= c + 0); [lia | free]
  end.

Lemma Free_send c p : Spends 0 (send c p).
Proof. unfold send. free. Qed.
#[local] Hint Resolve Free_send : spends.

Lemma Free_pushMessage m : Spends 0 (pushMessage m).
Proof. intros w. apply Free_modify. Qed.
Lemma Free_newConversation : Spends 0 newConversation.
Proof. intros w. apply Free_modify. Qed.
Lemma Free_setWindowInfo i : Spends 0 (setWindowInfo i).
Proof. intros w. apply Free_modify. Qed.
Lemma Free_setScreenshot s : Spends 0 (setScreenshot s).
Proof. intros w. apply Free_modify. Qed.
Lemma Free_addUsage u : Spends 0 (addUsage u).
Proof. destruct u; [intros w; apply Free_modify | apply Free_skip]. Qed.
#[local] Hint Resolve Free_pushMessage Free_newConversation Free_setWindowInfo
  Free_setScreenshot Free_addUsage : spends.

Lemma Free_sendTranscript : Spends 0 sendTranscriptToOverlay.
Proof. unfold sendTranscriptToOverlay. free. Qed.
#[local] Hint Resolve Free_sendTranscript : spends.
Lemma Free_onPartial t : Spends 0 (onPartial t).
Proof. unfold onPartial. free. Qed.
Lemma Free_onFinal t : Spends 0 (onFinal t).
Proof. unfold onFinal. free. Qed.
Lemma Free_refresh : Spends 0 refreshAwsCredentials.
Proof. unfold refreshAwsCredentials. free. Qed.
#[local] Hint Resolve Free_onPartial Free_onFinal Free_refresh : spends.
Lemma Free_onServiceError t m : Spends 0 (onServiceError t m).
Proof. unfold onServiceError. free. Qed.
Lemma Free_startTranscription : Spends 0 startTranscription.
Proof. unfold startTranscription. free. Qed.
Lemma Free_captureFinish : Spends 0 captureFinish.
Proof. unfold captureFinish. free. Qed.
#[local] Hint Resolve Free_onServiceError Free_startTranscription Free_captureFinish : spends.
Lemma Free_captureShot : Spends 0 captureShot.
Proof. unfold captureShot. free. Qed.
#[local] Hint Resolve Free_captureShot : spends.
Lemma Free_captureContext : Spends 0 captureContext.
Proof. unfold captureContext. free. Qed.
Lemma Free_reset : Spends 0 reset.
Proof. unfold reset. free. Qed.
#[local] Hint Resolve Free_captureContext Free_reset : spends.
Lemma Free_hideAndReset : Spends 0 hideAndReset.
Proof. unfold hideAndReset. free. Qed.
#[local] Hint Resolve Free_hideAndReset : spends.

(** [stopTranscription] suspends its caller: a finalize stays a finalize. *)
Lemma Spends_stopTranscription k :
  Spends (match k with ASFinalize _ => 1 | _ => 0 end) (stopTranscription k).
Proof.
  unfold stopTranscription. apply Spends_ifElse.
  - apply (Spends_more (0 + (if isFinalizeCont (KStop k) then 1 else 0)));
      [destruct k; cbn; lia|].
    apply Spends_andThen; [free | apply Spends_suspend].
  - apply (Spends_more (if isFinalizeCont (KStopped k) then 1 else 0));
      [destruct k; cbn; lia | apply Spends_suspend].
Qed.

Lemma Free_saveAndReset : Spends 0 saveAndReset.
Proof. exact (Spends_stopTranscription ASSave). Qed.
#[local] Hint Resolve Free_saveAndReset : spends.
Lemma Free_saveAndResetEnd : Spends 0 saveAndResetEnd.
Proof. unfold saveAndResetEnd. free. Qed.
#[local] Hint Resolve Free_saveAndResetEnd : spends.

(** The one call of the AI. *)
Lemma Spends_call (e : Effect) : Spends 1 (call e).
Proof.
  intros w. unfold call. cbn [fst snd]. rewrite countConverse_cons, countConverse_nil.
  destruct (isConverse e); cbn; lia.
Qed.

Lemma Spends_respondToUser m ff : Spends 1 (respondToUser m ff).
Proof.
  unfold respondToUser.
  apply (Spends_andThen 0 1); [free|]. apply (Spends_andThen 0 1); [free|].
  apply (Spends_andThen 0 1); [free|]. apply (Spends_andThen 1 0); [|free].
  intros w. apply Spends_call.
Qed.

Lemma Free_respondResolved t u : Spends 0 (respondResolved t u).
Proof. unfold respondResolved. free. Qed.
Lemma Free_respondRejected m : Spends 0 (respondRejected m).
Proof. unfold respondRejected. free. Qed.
#[local] Hint Resolve Free_respondResolved Free_respondRejected : spends.
Lemma Free_respondEnd ff r : Spends 0 (respondEnd ff r).
Proof. unfold respondEnd. free. Qed.
#[local] Hint Resolve Free_respondEnd : spends.

Lemma Spends_finalizeAfterStop n : Spends 1 (finalizeAfterStop n).
Proof.
  intros w. unfold finalizeAfterStop.
  destruct (negb (roundNumber (orch w) =? n)); [cheaper|].
  destruct (isEmpty (trim (buildTranscript (currentRound (orch w)))));
    [cheaper | apply Spends_respondToUser].
Qed.

Lemma Spends_finalizeAfterContext n : Spends 1 (finalizeAfterContext n).
Proof.
  intros w. unfold finalizeAfterContext.
  destruct (negb (roundNumber (orch w) =? n)); [cheaper|].
  refine ((_ : Spends 1 _) w).
  apply (Spends_andThen 0 1); [free | apply (Spends_stopTranscription (ASFinalize n))].
Qed.

Lemma Spends_finalizeRound : Spends 1 finalizeRound.
Proof.
  unfold finalizeRound. apply (Spends_andThen 0 1); [free|].
  apply (Spends_andThen 0 1); [free|]. intros w.
  apply (Spends_andThen 0 1); [free|]. apply Spends_ifElse.
  - apply (Spends_suspend (KFinalizeContext _)).
  - apply Spends_finalizeAfterContext.
Qed.

Lemma Free_cancelAfterStop : Spends 0 cancelAfterStop.
Proof. unfold cancelAfterStop. free. Qed.
#[local] Hint Resolve Free_cancelAfterStop : spends.

Lemma Spends_afterStop k :
  Spends (match k with ASFinalize _ => 1 | _ => 0 end) (afterStop k).
Proof. destruct k; cbn [afterStop]; [apply Spends_finalizeAfterStop | free | free]. Qed.

Lemma Free_onClose : Spends 0 onClose.
Proof. unfold onClose. free. Qed.
Lemma Free_onCancel : Spends 0 onCancel.
Proof.
  unfold onCancel. intros w. destruct (inState IDLE w); [free|].
  refine ((_ : Spends 0 _) w). apply Free_andThen; [free|].
  apply Free_andThen; [free | exact (Spends_stopTranscription ASCancel)].
Qed.
#[local] Hint Resolve Free_onClose Free_onCancel : spends.
Lemma Free_onCopyAction : Spends 0 onCopyAction.
Proof. unfold onCopyAction. free. Qed.
Lemma Free_onBreakoutAction : Spends 0 onBreakoutAction.
Proof. unfold onBreakoutAction. free. Qed.
#[local] Hint Resolve Free_onCopyAction Free_onBreakoutAction : spends.

Lemma Spends_onTriggerDown b : Spends 1 (onTriggerDown b).
Proof.
  unfold onTriggerDown. apply (Spends_andThen 0 1); [free|]. intros w.
  destruct (state (orch w)); [cheaper | apply Spends_finalizeRound | cheaper | cheaper].
Qed.

Lemma Spends_onButtonClick l : Spends 1 (onButtonClick l).
Proof.
  unfold onButtonClick.
  destruct (jseq l (js "Settings")); [apply (Spends_more 0 1); [lia | free]|].
  destruct (jseq l (js "Dismiss")); [apply (Spends_more 0 1); [lia | free]|].
  intros w. destruct (negb (inState CONVERSING w)); [cheaper | apply Spends_respondToUser].
Qed.

Lemma Spends_resume k r :
  Spends (if isFinalizeCont k then 1 else 0) (resume k r).
Proof.
  destruct k as [| | | | |a|a| | | |]; cbn [resume isFinalizeCont]; try solve [free].
  - apply Spends_finalizeAfterContext.
  - destruct a; cbn.
    + apply (Spends_andThen 0 1); [free|]. apply (Spends_andThen 0 1); [free|].
      apply Spends_finalizeAfterStop.
    + free.
    + free.
  - destruct a; cbn; [apply Spends_finalizeAfterStop | free | free].
Qed.

Lemma filter_removeAt {A} (p : A -> bool) (l : list A) :
  forall (i : nat) (k : A),
    nth_error l i = Some k ->
    length (filter p (removeAt i l)) + (if p k then 1 else 0) = length (filter p l).
Proof.
  induction l as [|x l IH]; intros [|i] k H; cbn in H; try discriminate.
  - injection H as ->. cbn. destruct (p k); cbn; lia.
  - cbn [removeAt filter]. specialize (IH i k H).
    destruct (p x); cbn [length]; lia.
Qed.

Lemma Spends_step e : Spends (if isRequest e then 1 else 0) (step e).
Proof.
  destruct e; cbn [step isRequest];
    try solve [free | apply Spends_onTriggerDown | apply Spends_onButtonClick].
  - intros w. destruct (nth_error (pool w) i) as [k|] eqn:E; [|free].
    destruct (ready k w); [|free].
    pose proof (Spends_resume k r
                  (MkWorld (orch w) (listeners w) (removeAt i (pool w)) (now w))) as H.
    pose proof (filter_removeAt isFinalizeCont (pool w) i k E) as Hp.
    unfold pendingFinalizes in *. cbn [pool] in H.
    destruct (isFinalizeCont k); lia.
Qed.

Lemma Spends_run evs : Spends (requests evs) (run evs).
Proof.
  induction evs as [|e evs IH]; cbn [run]; [apply Free_skip|].
  unfold requests. cbn [filter].
  apply (Spends_more ((if isRequest e then 1 else 0) + requests evs)).
  - unfold requests. destruct (isRequest e); cbn; lia.
  - apply Spends_andThen; [apply Spends_step | exact IH].
Qed.

(** The AI is called at most once for each trigger and each click on a
    button: in every run the number of calls of [aiService.converse] is at
    most the number of these events plus the number of finalizes that were
    suspended when the run began; from the state the constructor leaves it
    is at most the number of these events. *)
Theorem ai_calls_bounded :
  (forall (w : World) (evs : list Event),
      countConverse (snd (run evs w)) <= pendingFinalizes w + requests evs)
  /\ (forall (d : Deps) (evs : list Event),
      countConverse (snd (run evs (initialWorld d))) <= requests evs).
Proof.
  split.
  - intros w evs. pose proof (Spends_run evs w) as H. lia.
  - intros d evs. pose proof (Spends_run evs (initialWorld d)) as H.
    unfold pendingFinalizes in H at 2. cbn [initialWorld pool filter length] in H. lia.
Qed.

(** *** What every call of the AI and every write to the clipboard carries *)

Lemma filterBoolean_not_empty (l : list jsstring) :
  Forall (fun s => s <> []) (filterBoolean l).
Proof.
  unfold filterBoolean. apply Forall_forall. intros s Hs.
  apply filter_In in Hs. destruct Hs as [_ Hs].
  apply negb_true_iff, isEmpty_false in Hs. exact Hs.
Qed.

Lemma join_not_empty (sep b : jsstring) (l : list jsstring) :
  b <> [] -> join sep (b :: l) <> [].
Proof.
  intros Hb. destruct b as [|c b]; [contradiction|].
  destruct l; cbn; discriminate.
Qed.

Lemma extractPasteable_not_empty (t : jsstring) :
  t <> [] -> extractPasteable t <> [].
Proof.
  intros Ht. unfold extractPasteable. destruct t as [|c t]; [contradiction|].
  cbn [isEmpty]. pose proof (filterBoolean_not_empty
    (map (fun m => trim (group (c :: t) 1 m)) (matchAll reCodeBlock (c :: t)))) as H.
  fold (codeBlocks (c :: t)) in H.
  destruct (codeBlocks (c :: t)) as [|b l]; [discriminate|].
  apply join_not_empty. inversion H. assumption.
Qed.

Create HintDb emits.

Section EffectsOfRuns.

Variable Q : Effect -> Prop.
Hypothesis Q_plain :
  forall e, isConverse e = false -> isClipboardWrite e = false -> Q e.
Hypothesis Q_converse :
  forall before m shot win, role m = User -> Q (AIConverse (before ++ [m]) shot win).
Hypothesis Q_clipboard : forall s, s <> [] -> Q (ClipboardWrite s).

Lemma Emits_andThen (f g : Proc) : Emits Q f -> Emits Q g -> Emits Q (f ;; g).
Proof.
  intros Hf Hg w. unfold andThen. specialize (Hf w).
  destruct (f w) as [w1 e1]. specialize (Hg w1). destruct (g w1) as [w2 e2].
  cbn [snd] in *. apply Forall_app. split; assumption.
Qed.

Lemma Emits_when (b : World -> bool) (f : Proc) : Emits Q f -> Emits Q (when b f).
Proof. intros Hf w. unfold when. destruct (b w); [apply Hf | constructor]. Qed.

Lemma Emits_ifElse (b : World -> bool) (f g : Proc) :
  Emits Q f -> Emits Q g -> Emits Q (ifElse b f g).
Proof. intros Hf Hg w. unfold ifElse. destruct (b w); [apply Hf | apply Hg]. Qed.

Lemma Emits_skip : Emits Q skip.
Proof. intros w. constructor. Qed.

Lemma Emits_modify (f : Orchestrator -> Orchestrator) : Emits Q (modify f).
Proof. intros w. constructor. Qed.

Lemma Emits_suspend (k : Cont) : Emits Q (suspend k).
Proof. intros w. constructor. Qed.

Lemma Emits_setListeners (n : nat) : Emits Q (setListeners n).
Proof. intros w. constructor. Qed.

Lemma Emits_call (e : Effect) : Q e -> Emits Q (call e).
Proof. intros H w. constructor; [exact H | constructor]. Qed.

Lemma Emits_times (n : nat) (f : Proc) : Emits Q f -> Emits Q (times n f).
Proof.
  intros Hf. induction n as [|n IH]; cbn [times];
    [apply Emits_skip | apply Emits_andThen; assumption].
Qed.

#[local] Hint Resolve Emits_andThen Emits_when Emits_ifElse Emits_skip
  Emits_modify Emits_suspend Emits_setListeners Emits_times : emits.
#[local] Hint Extern 1 (Emits _ (call _)) =>
  (apply Emits_call; apply Q_plain; reflexivity) : emits.
#[local] Hint Extern 1 (Emits _ (setState _)) => apply Emits_modify : emits.
#[local] Hint Extern 1 (Emits _ (setConversation _)) => apply Emits_modify : emits.
#[local] Hint Extern 1 (Emits _ (setCurrentRound _)) => apply Emits_modify : emits.
#[local] Hint Extern 1 (Emits _ (setRoundNumber _)) => apply Emits_modify : emits.
#[local] Hint Extern 1 (Emits _ (setSessionStartTime _)) => apply Emits_modify : emits.
#[local] Hint Extern 1 (Emits _ (setContextReady _)) => apply Emits_modify : emits.
#[local] Hint Extern 1 (Emits _ (setAiInFlight _)) => apply Emits_modify : emits.
#[local] Hint Extern 1 (Emits _ (setFinalizing _)) => apply Emits_modify : emits.

Ltac emits :=
  repeat first
    [ progress auto with emits
    | match goal with
      | |- Emits _ (_ ;; _) => apply Emits_andThen
      | |- Emits _ (when _ _) => apply Emits_when
      | |- Emits _ (ifElse _ _ _) => apply Emits_ifElse
      | |- Emits _ (if ?c then _ else _) => destruct c
      | |- Emits _ (fun _ => _) => intro
      | |- Emits _ (match ?x with _ => _ end) => destruct x
      | |- Forall _ (snd (if ?c then _ else _)) => destruct c
      | |- Forall _ (snd (match ?c with _ => _ end)) => destruct c
      | |- Forall _ (snd (_, [])) => constructor
      | |- Forall ?P (snd (?f ?w)) => refine ((_ : Emits P f) w)
      end ].

Lemma Emits_send c p : Emits Q (send c p).
Proof. unfold send. emits. Qed.
#[local] Hint Resolve Emits_send : emits.

Lemma Emits_pushMessage m : Emits Q (pushMessage m).
Proof. intros w. constructor. Qed.
Lemma Emits_newConversation : Emits Q newConversation.
Proof. intros w. constructor. Qed.
Lemma Emits_setWindowInfo i : Emits Q (setWindowInfo i).
Proof. intros w. constructor. Qed.
Lemma Emits_setScreenshot s : Emits Q (setScreenshot s).
Proof. intros w. constructor. Qed.
Lemma Emits_addUsage u : Emits Q (addUsage u).
Proof. destruct u; intros w; constructor. Qed.
#[local] Hint Resolve Emits_pushMessage Emits_newConversation Emits_setWindowInfo
  Emits_setScreenshot Emits_addUsage : emits.

(** [autoCopyIfClean] copies a code block that passed [if (code)]. *)
Lemma Emits_autoCopy (c : jsstring) : Emits Q (autoCopyIfClean c).
Proof.
  unfold autoCopyIfClean. destruct (isEmpty c); [emits|].
  pose proof (filterBoolean_not_empty
    (map (fun m => trim (group c 1 m)) (matchAll reCodeBlock c))) as H.
  fold (codeBlocks c) in H.
  destruct (codeBlocks c) as [|b [|b' l]]; [emits | | emits].
  destruct (120 <? _)%nat; [emits|].
  apply Emits_andThen; [|emits].
  apply Emits_call, Q_clipboard. inversion H. assumption.
Qed.
#[local] Hint Resolve Emits_autoCopy : emits.

(** [onCopyAction] copies under [if (lastAssistant?.content)]. *)
Lemma Emits_onCopyAction : Emits Q onCopyAction.
Proof.
  intros w. unfold onCopyAction.
  destruct (lastAssistant (messages (conversation (orch w)))) as [m|]; [|constructor].
  destruct (isEmpty (content m)) eqn:E; [constructor|].
  apply Emits_call, Q_clipboard, extractPasteable_not_empty.
  apply isEmpty_false. exact E.
Qed.

(** [respondToUser] pushes the user's message, then hands the messages to
    the AI. *)
Lemma Emits_respondToUser m ff : Emits Q (respondToUser (m : jsstring) ff).
Proof.
  intros w. unfold respondToUser, andThen, pushMessage, send, when, has, call,
    setAiInFlight, setConversation, modify, suspend.
  cbn [fst snd app orch conversation messages screenshot windowInfo deps].
  destruct (overlay (deps (orch w)));
    cbn [fst snd app orch conversation messages screenshot windowInfo deps];
    repeat constructor;
    first [ apply Q_converse; reflexivity | apply Q_plain; reflexivity ].
Qed.
#[local] Hint Resolve Emits_onCopyAction Emits_respondToUser : emits.

Lemma Emits_sendTranscript : Emits Q sendTranscriptToOverlay.
Proof. unfold sendTranscriptToOverlay. emits. Qed.
#[local] Hint Resolve Emits_sendTranscript : emits.
Lemma Emits_onPartial t : Emits Q (onPartial t).
Proof. unfold onPartial. emits. Qed.
Lemma Emits_onFinal t : Emits Q (onFinal t).
Proof. unfold onFinal. emits. Qed.
Lemma Emits_refresh : Emits Q refreshAwsCredentials.
Proof. unfold refreshAwsCredentials. emits. Qed.
#[local] Hint Resolve Emits_onPartial Emits_onFinal Emits_refresh : emits.
Lemma Emits_onServiceError t m : Emits Q (onServiceError t m).
Proof. unfold onServiceError. emits. Qed.
Lemma Emits_startTranscription : Emits Q startTranscription.
Proof. unfold startTranscription. emits. Qed.
Lemma Emits_stopTranscription k : Emits Q (stopTranscription k).
Proof. unfold stopTranscription. emits. Qed.
Lemma Emits_captureFinish : Emits Q captureFinish.
Proof. unfold captureFinish. emits. Qed.
#[local] Hint Resolve Emits_onServiceError Emits_startTranscription
  Emits_stopTranscription Emits_captureFinish : emits.
Lemma Emits_captureShot : Emits Q captureShot.
Proof. unfold captureShot. emits. Qed.
#[local] Hint Resolve Emits_captureShot : emits.
Lemma Emits_captureContext : Emits Q captureContext.
Proof. unfold captureContext. emits. Qed.
Lemma Emits_reset : Emits Q reset.
Proof. unfold reset. emits. Qed.
#[local] Hint Resolve Emits_captureContext Emits_reset : emits.
Lemma Emits_hideAndReset : Emits Q hideAndReset.
Proof. unfold hideAndReset. emits. Qed.
Lemma Emits_saveAndReset : Emits Q saveAndReset.
Proof. unfold saveAndReset. emits. Qed.
#[local] Hint Resolve Emits_hideAndReset Emits_saveAndReset : emits.
Lemma Emits_saveAndResetEnd : Emits Q saveAndResetEnd.
Proof. unfold saveAndResetEnd. emits. Qed.
#[local] Hint Resolve Emits_saveAndResetEnd : emits.
Lemma Emits_respondResolved t u : Emits Q (respondResolved t u).
Proof. unfold respondResolved. emits. Qed.
Lemma Emits_respondRejected m : Emits Q (respondRejected m).
Proof. unfold respondRejected. emits. Qed.
#[local] Hint Resolve Emits_respondResolved Emits_respondRejected : emits.
Lemma Emits_respondEnd ff r : Emits Q (respondEnd ff r).
Proof. unfold respondEnd. emits. Qed.
Lemma Emits_finalizeAfterStop n : Emits Q (finalizeAfterStop n).
Proof. unfold finalizeAfterStop. emits. Qed.
Lemma Emits_finalizeAfterContext n : Emits Q (finalizeAfterContext n).
Proof. unfold finalizeAfterContext. emits. Qed.
#[local] Hint Resolve Emits_respondEnd Emits_finalizeAfterStop
  Emits_finalizeAfterContext : emits.
Lemma Emits_finalizeRound : Emits Q finalizeRound.
Proof. unfold finalizeRound. emits. Qed.
Lemma Emits_cancelAfterStop : Emits Q cancelAfterStop.
Proof. unfold cancelAfterStop. emits. Qed.
#[local] Hint Resolve Emits_finalizeRound Emits_cancelAfterStop : emits.
Lemma Emits_afterStop k : Emits Q (afterStop k).
Proof. unfold afterStop. emits. Qed.
Lemma Emits_onTriggerDown b : Emits Q (onTriggerDown b).
Proof. unfold onTriggerDown. emits. Qed.
Lemma Emits_onClose : Emits Q onClose.
Proof. unfold onClose. emits. Qed.
Lemma Emits_onCancel : Emits Q onCancel.
Proof. unfold onCancel. emits. Qed.
#[local] Hint Resolve Emits_afterStop Emits_onTriggerDown Emits_onClose
  Emits_onCancel : emits.
Lemma Emits_onButtonClick l : Emits Q (onButtonClick l).
Proof. unfold onButtonClick. emits. Qed.
Lemma Emits_onBreakoutAction : Emits Q onBreakoutAction.
Proof. unfold onBreakoutAction. emits. Qed.
#[local] Hint Resolve Emits_onButtonClick Emits_onBreakoutAction : emits.
Lemma Emits_resume k r : Emits Q (resume k r).
Proof. unfold resume. emits. Qed.
#[local] Hint Resolve Emits_resume : emits.

Lemma Emits_step e : Emits Q (step e).
Proof. unfold step. emits. Qed.

Lemma Emits_run evs : Emits Q (run evs).
Proof.
  induction evs as [|e evs IH]; cbn [run];
    [apply Emits_skip | apply Emits_andThen; [apply Emits_step | exact IH]].
Qed.

End EffectsOfRuns.

(** In every run, each call of the AI carries the conversation's messages
    with a message of the user last. *)
Theorem ai_asked_with_user_message (w : World) (evs : list Event) :
  Forall AsksUser (snd (run evs w)).
Proof.
  apply Emits_run.
  - intros e H _. destruct e; try exact I. discriminate H.
  - intros before m shot win Hm. exists before, m. split; [reflexivity | exact Hm].
  - intros s _. exact I.
Qed.

(** In every run, the text written to the clipboard is not empty. *)
Theorem clipboard_never_emptied (w : World) (evs : list Event) :
  Forall CopiesText (snd (run evs w)).
Proof.
  apply Emits_run.
  - intros e _ H. destruct e; try exact I. discriminate H.
  - intros before m shot win _. exact I.
  - intros s Hs. exact Hs.
Qed.

(** *** Properties of the current round kept by every run *)

Create HintDb rounds.

Section RoundsOfRuns.

Variable P : Round -> Prop.
Hypothesis P_fresh : P freshRound.
Hypothesis P_partial :
  forall r t, P r -> P (MkRound (segments r) (segmentCounter r) t).
Hypothesis P_final :
  forall r t n, emitted t = true -> P r ->
    P (MkRound (segments r ++ [MkSegment (S (segmentCounter r)) (trim t) n])
               (S (segmentCounter r)) []).

Lemma Round_andThen (f g : Proc) :
  KeepsRound P f -> KeepsRound P g -> KeepsRound P (f ;; g).
Proof.
  intros Hf Hg w H. unfold andThen. specialize (Hf w H).
  destruct (f w) as [w1 e1]. specialize (Hg w1 Hf). destruct (g w1) as [w2 e2].
  exact Hg.
Qed.

Lemma Round_when (b : World -> bool) (f : Proc) :
  KeepsRound P f -> KeepsRound P (when b f).
Proof. intros Hf w H. unfold when. destruct (b w); [apply Hf; exact H | exact H]. Qed.

Lemma Round_ifElse (b : World -> bool) (f g : Proc) :
  KeepsRound P f -> KeepsRound P g -> KeepsRound P (ifElse b f g).
Proof. intros Hf Hg w H. unfold ifElse. destruct (b w); [apply Hf | apply Hg]; exact H. Qed.

Lemma Round_skip : KeepsRound P skip.
Proof. intros w H. exact H. Qed.

Lemma Round_modify (f : Orchestrator -> Orchestrator) :
  (forall o, currentRound (f o) = currentRound o) -> KeepsRound P (modify f).
Proof.
  intros Hf w H. unfold modify. cbn [fst orch]. rewrite Hf. exact H.
Qed.

Lemma Round_setCurrentRound (r : Round) : P r -> KeepsRound P (setCurrentRound r).
Proof. intros Hr w _. exact Hr. Qed.

Lemma Round_suspend (k : Cont) : KeepsRound P (suspend k).
Proof. intros w H. exact H. Qed.

Lemma Round_setListeners (n : nat) : KeepsRound P (setListeners n).
Proof. intros w H. exact H. Qed.

Lemma Round_call (e : Effect) : KeepsRound P (call e).
Proof. intros w H. exact H. Qed.

Lemma Round_times (n : nat) (f : Proc) : KeepsRound P f -> KeepsRound P (times n f).
Proof.
  intros Hf. induction n as [|n IH]; cbn [times];
    [apply Round_skip | apply Round_andThen; assumption].
Qed.

Lemma Round_autoCopy (c : jsstring) : KeepsRound P (autoCopyIfClean c).
Proof.
  intros w H. destruct (autoCopyIfClean_quiet c w) as (E & _).
  rewrite E. exact H.
Qed.


#[local] Hint Resolve Round_andThen Round_when Round_ifElse Round_skip
  Round_suspend Round_setListeners Round_call Round_times Round_autoCopy : rounds.
#[local] Hint Extern 1 (KeepsRound P (modify _)) =>
  (apply Round_modify; intros; reflexivity) : rounds.
#[local] Hint Extern 1 (KeepsRound P (setCurrentRound freshRound)) =>
  (apply Round_setCurrentRound; exact P_fresh) : rounds.

Ltac rounds :=
  repeat first
    [ progress auto with rounds
    | match goal with
      | |- KeepsRound P (_ ;; _) => apply Round_andThen
      | |- KeepsRound P (when _ _) => apply Round_when
      | |- KeepsRound P (ifElse _ _ _) => apply Round_ifElse
      | |- KeepsRound P (if ?c then _ else _) => destruct c
      | |- KeepsRound P (fun _ => _) => let w := fresh "w" in let H := fresh "H" in intros w H
      | |- KeepsRound P (match ?x with _ => _ end) => destruct x
      | |- P (currentRound (orch (fst (if ?c then _ else _)))) => destruct c
      | |- P (currentRound (orch (fst (match ?c with _ => _ end)))) => destruct c
      | H : P (currentRound (orch ?w)) |- P (currentRound (orch (fst (?w, _)))) => exact H
      | H : P (currentRound (orch ?w)) |- P (currentRound (orch (fst (?f ?w)))) =>
          refine ((_ : KeepsRound P f) w H)
      end ].

Lemma Round_send c p : KeepsRound P (send c p).
Proof. unfold send. rounds. Qed.
#[local] Hint Resolve Round_send : rounds.

#[local] Hint Extern 1 (KeepsRound P (setState _)) =>
  (apply Round_modify; intros; reflexivity) : rounds.
#[local] Hint Extern 1 (KeepsRound P (setConversation _)) =>
  (apply Round_modify; intros; reflexivity) : rounds.
#[local] Hint Extern 1 (KeepsRound P (setRoundNumber _)) =>
  (apply Round_modify; intros; reflexivity) : rounds.
#[local] Hint Extern 1 (KeepsRound P (setSessionStartTime _)) =>
  (apply Round_modify; intros; reflexivity) : rounds.
#[local] Hint Extern 1 (KeepsRound P (setContextReady _)) =>
  (apply Round_modify; intros; reflexivity) : rounds.
#[local] Hint Extern 1 (KeepsRound P (setAiInFlight _)) =>
  (apply Round_modify; intros; reflexivity) : rounds.
#[local] Hint Extern 1 (KeepsRound P (setFinalizing _)) =>
  (apply Round_modify; intros; reflexivity) : rounds.

(** Writes to the conversation leave the round alone. *)
Lemma Round_conversation (f : World -> Conversation) :
  KeepsRound P (fun w => setConversation (f w) w).
Proof. intros w H. exact H. Qed.

Lemma Round_pushMessage m : KeepsRound P (pushMessage m).
Proof. intros w H. exact H. Qed.
Lemma Round_newConversation : KeepsRound P newConversation.
Proof. intros w H. exact H. Qed.
Lemma Round_setWindowInfo i : KeepsRound P (setWindowInfo i).
Proof. intros w H. exact H. Qed.
Lemma Round_setScreenshot s : KeepsRound P (setScreenshot s).
Proof. intros w H. exact H. Qed.
Lemma Round_addUsage u : KeepsRound P (addUsage u).
Proof. intros w H. unfold addUsage. destruct u; exact H. Qed.
#[local] Hint Resolve Round_pushMessage Round_newConversation Round_setWindowInfo
  Round_setScreenshot Round_addUsage : rounds.

Lemma Round_sendTranscript : KeepsRound P sendTranscriptToOverlay.
Proof. unfold sendTranscriptToOverlay. rounds. Qed.
#[local] Hint Resolve Round_sendTranscript : rounds.

Lemma Round_onPartial t : KeepsRound P (onPartial t).
Proof.
  unfold onPartial. apply Round_when, Round_andThen; [|rounds].
  intros w H. apply P_partial. exact H.
Qed.

Lemma Round_onFinal t : emitted t = true -> KeepsRound P (onFinal t).
Proof.
  intros Ht. unfold onFinal. apply Round_when, Round_andThen; [|rounds].
  intros w H. apply P_final; assumption.
Qed.
#[local] Hint Resolve Round_onPartial : rounds.

Lemma Round_refresh : KeepsRound P refreshAwsCredentials.
Proof. unfold refreshAwsCredentials. rounds. Qed.
#[local] Hint Resolve Round_refresh : rounds.
Lemma Round_onServiceError t m : KeepsRound P (onServiceError t m).
Proof. unfold onServiceError. rounds. Qed.
Lemma Round_startTranscription : KeepsRound P startTranscription.
Proof. unfold startTranscription. rounds. Qed.
Lemma Round_stopTranscription k : KeepsRound P (stopTranscription k).
Proof. unfold stopTranscription. rounds. Qed.
Lemma Round_captureFinish : KeepsRound P captureFinish.
Proof. unfold captureFinish. rounds. Qed.
#[local] Hint Resolve Round_onServiceError Round_startTranscription
  Round_stopTranscription Round_captureFinish : rounds.
Lemma Round_captureShot : KeepsRound P captureShot.
Proof. unfold captureShot. rounds. Qed.
#[local] Hint Resolve Round_captureShot : rounds.
Lemma Round_captureContext : KeepsRound P captureContext.
Proof. unfold captureContext. rounds. Qed.
Lemma Round_reset : KeepsRound P reset.
Proof. unfold reset. rounds. Qed.
#[local] Hint Resolve Round_captureContext Round_reset : rounds.
Lemma Round_hideAndReset : KeepsRound P hideAndReset.
Proof. unfold hideAndReset. rounds. Qed.
Lemma Round_saveAndReset : KeepsRound P saveAndReset.
Proof. unfold saveAndReset. rounds. Qed.
#[local] Hint Resolve Round_hideAndReset Round_saveAndReset : rounds.
Lemma Round_saveAndResetEnd : KeepsRound P saveAndResetEnd.
Proof. unfold saveAndResetEnd. rounds. Qed.
#[local] Hint Resolve Round_saveAndResetEnd : rounds.
Lemma Round_respondToUser m ff : KeepsRound P (respondToUser m ff).
Proof. unfold respondToUser. rounds. Qed.
Lemma Round_respondResolved t u : KeepsRound P (respondResolved t u).
Proof. unfold respondResolved. rounds. Qed.
Lemma Round_respondRejected m : KeepsRound P (respondRejected m).
Proof. unfold respondRejected. rounds. Qed.
#[local] Hint Resolve Round_respondToUser Round_respondResolved
  Round_respondRejected : rounds.
Lemma Round_respondEnd ff r : KeepsRound P (respondEnd ff r).
Proof. unfold respondEnd. rounds. Qed.
Lemma Round_finalizeAfterStop n : KeepsRound P (finalizeAfterStop n).
Proof. unfold finalizeAfterStop. rounds. Qed.
Lemma Round_finalizeAfterContext n : KeepsRound P (finalizeAfterContext n).
Proof. unfold finalizeAfterContext. rounds. Qed.
#[local] Hint Resolve Round_respondEnd Round_finalizeAfterStop
  Round_finalizeAfterContext : rounds.
Lemma Round_finalizeRound : KeepsRound P finalizeRound.
Proof. unfold finalizeRound. rounds. Qed.
Lemma Round_cancelAfterStop : KeepsRound P cancelAfterStop.
Proof. unfold cancelAfterStop. rounds. Qed.
#[local] Hint Resolve Round_finalizeRound Round_cancelAfterStop : rounds.
Lemma Round_afterStop k : KeepsRound P (afterStop k).
Proof. unfold afterStop. rounds. Qed.
Lemma Round_onTriggerDown b : KeepsRound P (onTriggerDown b).
Proof. unfold onTriggerDown. rounds. Qed.
Lemma Round_onClose : KeepsRound P onClose.
Proof. unfold onClose. rounds. Qed.
Lemma Round_onCancel : KeepsRound P onCancel.
Proof. unfold onCancel. rounds. Qed.
#[local] Hint Resolve Round_afterStop Round_onTriggerDown Round_onClose
  Round_onCancel : rounds.
Lemma Round_onButtonClick l : KeepsRound P (onButtonClick l).
Proof. unfold onButtonClick. rounds. Qed.
Lemma Round_onCopyAction : KeepsRound P onCopyAction.
Proof. unfold onCopyAction. rounds. Qed.
Lemma Round_onBreakoutAction : KeepsRound P onBreakoutAction.
Proof. unfold onBreakoutAction. rounds. Qed.
#[local] Hint Resolve Round_onButtonClick Round_onCopyAction
  Round_onBreakoutAction : rounds.
Lemma Round_resume k r : KeepsRound P (resume k r).
Proof. unfold resume. rounds. Qed.
#[local] Hint Resolve Round_resume : rounds.


Lemma Round_step e : KeepsRound P (step e).
Proof.
  destruct e; cbn [step]; try solve [rounds].
  - intros w H. unfold when. destruct (emitted t) eqn:E; [|exact H].
    apply Round_times; [apply Round_onFinal; exact E | exact H].
  - intros w H. destruct (nth_error (pool w) i) as [k|]; [|exact H].
    destruct (ready k w); [|exact H]. apply (Round_resume k r). exact H.
Qed.

Lemma Round_run evs : KeepsRound P (run evs).
Proof.
  induction evs as [|e evs IH]; cbn [run];
    [apply Round_skip | apply Round_andThen; [apply Round_step | exact IH]].
Qed.


Lemma Round_reachable (d : Deps) (evs : list Event) :
  P (currentRound (orch (fst (run evs (initialWorld d))))).
Proof. apply Round_run. exact P_fresh. Qed.

End RoundsOfRuns.

(** In every world the orchestrator reaches, the segments of the current
    round carry the ids 1, 2, ... in the order they arrived, and the
    segment counter is their number. *)
Theorem segments_numbered (d : Deps) (evs : list Event) :
  Numbered (currentRound (orch (fst (run evs (initialWorld d))))).
Proof.
  apply Round_reachable.
  - split; reflexivity.
  - intros r t H. exact H.
  - intros r t n _ [Hc Hs]. unfold Numbered.
    cbn [segments segmentCounter]. rewrite length_app, map_app, Hs, Hc. cbn [length map id].
    split; [lia|]. rewrite Nat.add_1_r, seq_S. reflexivity.
Qed.

(* ===================================================================== *)
(** * Further properties of the local transcription provider *)
(* ===================================================================== *)

Lemma samplesOf_snoc (chunks : list Whisper.Chunk) (c : Whisper.Chunk) :
  Whisper.samplesOf (chunks ++ [c])
  = (Whisper.samplesOf chunks + N.of_nat (length c))%N.
Proof.
  unfold Whisper.samplesOf. rewrite concat_app, length_app. cbn [concat].
  rewrite app_nil_r. lia.
Qed.

Lemma accounted_start (p : Whisper.Provider) : Whisper.Accounted p -> Whisper.Accounted (Whisper.start p).
Proof.
  intros H. unfold Whisper.start. destruct (Whisper.running p); [exact H|].
  split; cbn; [reflexivity | unfold Whisper.SPEECH_TAIL_CHUNKS; lia].
Qed.

Lemma accounted_send (loud : Whisper.Chunk -> bool) (p : Whisper.Provider)
  (c : Whisper.Chunk) :
  Whisper.Accounted p -> Whisper.Accounted (Whisper.sendAudioChunk loud p c).
Proof.
  intros [Hs Hc]. unfold Whisper.sendAudioChunk.
  destruct (negb (Whisper.running p)); [split; assumption|].
  destruct (loud c).
  - split; cbn; [rewrite samplesOf_snoc, Hs; reflexivity | lia].
  - destruct (0 <? Whisper.speechCountdown p)%nat; [|split; assumption].
    split; cbn; [rewrite samplesOf_snoc, Hs; reflexivity | lia].
Qed.

Lemma accounted_begin (isFinal : bool) (p : Whisper.Provider) :
  Whisper.Accounted p -> Whisper.Accounted (fst (Whisper.runInferenceBegin isFinal p)).
Proof.
  intros [Hs Hc]. unfold Whisper.runInferenceBegin.
  destruct (Whisper.processing p || _); [split; assumption|].
  destruct (negb isFinal && negb (Whisper.hasSpeechContent p));
    [split; [reflexivity | exact Hc]|].
  destruct (negb isFinal && _); split; assumption.
Qed.

Lemma accounted_end (result : option (list jsstring)) (p : Whisper.Provider) :
  Whisper.Accounted p -> Whisper.Accounted (fst (Whisper.runInferenceEnd result p)).
Proof.
  intros [Hs Hc]. unfold Whisper.runInferenceEnd. destruct result as [segs|].
  - destruct (negb _ && negb _); split; solve [reflexivity | exact Hc].
  - split; assumption.
Qed.

Lemma accounted_stopEnd (p : Whisper.Provider) :
  Whisper.Accounted p -> Whisper.Accounted (Whisper.stopEnd p).
Proof. intros [Hs Hc]. split; [reflexivity | exact Hc]. Qed.

Lemma runInference_accounted (isFinal : bool) (m : Whisper.Machine) :
  Whisper.Accounted (Whisper.provider m) ->
  Whisper.Accounted (Whisper.provider (fst (Whisper.runInference isFinal m)))
  /\ Forall Whisper.CallSized (snd (Whisper.runInference isFinal m)).
Proof.
  intros H. unfold Whisper.runInference.
  pose proof (accounted_begin isFinal _ H) as Hb.
  destruct (Whisper.runInferenceBegin isFinal (Whisper.provider m)) as [p' called].
  destruct called; cbn [fst snd Whisper.provider] in *; split; try exact Hb.
  - constructor; [|constructor]. destruct H as [Hs _]. exact Hs.
  - constructor.
Qed.

Lemma stopAfterWait_accounted (m : Whisper.Machine) :
  Whisper.Accounted (Whisper.provider m) ->
  Whisper.Accounted (Whisper.provider (fst (Whisper.stopAfterWait m)))
  /\ Forall Whisper.CallSized (snd (Whisper.stopAfterWait m)).
Proof.
  intros H. unfold Whisper.stopAfterWait.
  destruct (negb _ && negb _); [apply runInference_accounted; exact H|].
  split; [apply accounted_stopEnd; exact H | constructor].
Qed.

Lemma step_accounted (loud : Whisper.Chunk -> bool) (e : Whisper.Event)
  (m : Whisper.Machine) :
  Whisper.Accounted (Whisper.provider m) ->
  Whisper.Accounted (Whisper.provider (fst (Whisper.step loud e m)))
  /\ Forall Whisper.CallSized (snd (Whisper.step loud e m)).
Proof.
  intros H. destruct e; cbn [Whisper.step].
  - split; [apply accounted_start; exact H | constructor].
  - unfold Whisper.stop. destruct (negb (Whisper.running (Whisper.provider m)));
      [split; [exact H | constructor]|].
    cbn [Whisper.processing].
    destruct (Whisper.processing (Whisper.provider m));
      [split; [exact H | constructor]|].
    apply stopAfterWait_accounted. exact H.
  - split; [apply accounted_send; exact H | constructor].
  - destruct (Whisper.inferenceTimer (Whisper.provider m));
      [apply runInference_accounted; exact H | split; [exact H | constructor]].
  - destruct (Whisper.stopsWaiting m); [split; [exact H | constructor]|].
    apply stopAfterWait_accounted. exact H.
  - destruct (nth_error (Whisper.inFlight m) i) as [byStop|];
      [|split; [exact H | constructor]].
    pose proof (accounted_end result _ H) as He.
    destruct (Whisper.runInferenceEnd result (Whisper.provider m)) as [p' em].
    cbn [fst snd Whisper.provider] in *. split.
    + destruct byStop; [apply accounted_stopEnd|]; exact He.
    + apply Forall_forall. intros o Ho. apply in_map_iff in Ho.
      destruct Ho as (x & <- & _). exact I.
Qed.

Lemma run_accounted (loud : Whisper.Chunk -> bool) (evs : list Whisper.Event) :
  forall m : Whisper.Machine,
    Whisper.Accounted (Whisper.provider m) ->
    Whisper.Accounted (Whisper.provider (fst (Whisper.run loud evs m)))
    /\ Forall Whisper.CallSized (snd (Whisper.run loud evs m)).
Proof.
  induction evs as [|e evs IH]; intros m H; cbn [Whisper.run].
  - split; [exact H | constructor].
  - destruct (step_accounted loud e m H) as [H1 H2].
    destruct (Whisper.step loud e m) as [m1 o1]. cbn [fst snd] in *.
    destruct (IH m1 H1) as [H3 H4].
    destruct (Whisper.run loud evs m1) as [m2 o2]. cbn [fst snd] in *.
    split; [exact H3 | apply Forall_app; split; assumption].
Qed.

(** Whatever the events and the outcome of the energy comparison, the count
    of pending samples is the number of samples of the pending chunks, the
    trailing countdown is at most ten, and the array handed to the addon
    has as many elements as the chunks copied into it. *)
Theorem whisper_buffer_accounted (loud : Whisper.Chunk -> bool)
  (evs : list Whisper.Event) :
  let r := Whisper.run loud evs Whisper.boot in
  Whisper.pendingSamples (Whisper.provider (fst r))
    = Whisper.samplesOf (Whisper.pendingAudio (Whisper.provider (fst r)))
  /\ (Whisper.speechCountdown (Whisper.provider (fst r)) <= 10)%nat
  /\ (forall size audio, In (Whisper.CallAddon size audio) (snd r) ->
      size = N.of_nat (length audio)).
Proof.
  intros r. subst r.
  destruct (run_accounted loud evs Whisper.boot) as [[H1 H2] H3].
  { split; cbn; [reflexivity | unfold Whisper.SPEECH_TAIL_CHUNKS; lia]. }
  split; [exact H1|]. split; [exact H2|].
  intros size audio Hin. rewrite Forall_forall in H3. exact (H3 _ Hin).
Qed.

(** *** Silence never reaches the addon *)

Lemma runInference_silent (isFinal : bool) (m : Whisper.Machine) :
  Whisper.Silent m -> Whisper.runInference isFinal m = (m, []).
Proof.
  intros (Hp & _ & _). unfold Whisper.runInference, Whisper.runInferenceBegin.
  rewrite Hp. cbn [length Nat.eqb]. rewrite orb_true_r. destruct m; reflexivity.
Qed.

Lemma stopAfterWait_silent (m : Whisper.Machine) :
  Whisper.Silent m -> Whisper.Silent (fst (Whisper.stopAfterWait m)) /\ snd (Whisper.stopAfterWait m) = [].
Proof.
  intros H. pose proof H as (Hp & Hc & Hf). unfold Whisper.stopAfterWait.
  rewrite Hp. cbn [length Nat.eqb negb andb fst snd].
  split; [|reflexivity]. repeat split; assumption.
Qed.

Lemma step_silent (loud : Whisper.Chunk -> bool) (e : Whisper.Event)
  (m : Whisper.Machine) :
  (forall c, e = Whisper.Audio c -> loud c = false) ->
  Whisper.Silent m ->
  Whisper.Silent (fst (Whisper.step loud e m)) /\ snd (Whisper.step loud e m) = [].
Proof.
  intros He H. pose proof H as (Hp & Hc & Hf). destruct e; cbn [Whisper.step].
  - split; [|reflexivity]. unfold Whisper.start.
    destruct (Whisper.running (Whisper.provider m)); repeat split; assumption.
  - unfold Whisper.stop. destruct (negb (Whisper.running (Whisper.provider m)));
      [split; [exact H | reflexivity]|].
    cbn [Whisper.processing].
    destruct (Whisper.processing (Whisper.provider m));
      [split; [repeat split; assumption | reflexivity]|].
    apply stopAfterWait_silent. repeat split; assumption.
  - split; [|reflexivity]. unfold Whisper.sendAudioChunk.
    rewrite (He c eq_refl), Hc. cbn [Nat.ltb Nat.leb].
    destruct (negb (Whisper.running (Whisper.provider m))); repeat split; assumption.
  - destruct (Whisper.inferenceTimer (Whisper.provider m));
      [rewrite (runInference_silent false m H)|]; split; solve [exact H | reflexivity].
  - destruct (Whisper.stopsWaiting m); [split; [exact H | reflexivity]|].
    apply stopAfterWait_silent. repeat split; assumption.
  - rewrite Hf. destruct i; cbn [nth_error]; split; solve [exact H | reflexivity].
Qed.

Lemma run_silent (loud : Whisper.Chunk -> bool) (evs : list Whisper.Event) :
  forall m : Whisper.Machine,
    (forall c, In (Whisper.Audio c) evs -> loud c = false) ->
    Whisper.Silent m ->
    Whisper.Silent (fst (Whisper.run loud evs m)) /\ snd (Whisper.run loud evs m) = [].
Proof.
  induction evs as [|e evs IH]; intros m He H; cbn [Whisper.run].
  - split; [exact H | reflexivity].
  - destruct (step_silent loud e m) as [H1 H2];
      [intros c ->; apply He; left; reflexivity | exact H |].
    destruct (Whisper.step loud e m) as [m1 o1]. cbn [fst snd] in *.
    destruct (IH m1) as [H3 H4]; [intros c Hc; apply He; right; exact Hc | exact H1 |].
    destruct (Whisper.run loud evs m1) as [m2 o2]. cbn [fst snd] in *.
    subst. split; [exact H3 | reflexivity].
Qed.

(** When every chunk is below the threshold, the addon is never called and
    nothing is emitted, whatever the order of starts, stops, timer ticks
    and chunks. *)
Theorem whisper_silence_never_transcribed (loud : Whisper.Chunk -> bool)
  (evs : list Whisper.Event)
  (quiet : forall c, In (Whisper.Audio c) evs -> loud c = false) :
  snd (Whisper.run loud evs Whisper.boot) = []
  /\ Whisper.pendingAudio (Whisper.provider (fst (Whisper.run loud evs Whisper.boot))) = [].
Proof.
  destruct (run_silent loud evs Whisper.boot quiet) as [(H1 & _) H2];
    [repeat split | split; assumption].
Qed.

Lemma whisper_silence_never_transcribed_witness :
  snd (Whisper.run Whisper.rmsExact
         [Whisper.Start; Whisper.Audio Examples.silentChunk; Whisper.Interval;
          Whisper.Audio Examples.silentChunk; Whisper.Stop; Whisper.WaitOver]
         Whisper.boot) = [].
Proof.
  apply (whisper_silence_never_transcribed Whisper.rmsExact).
  intros c [H|[H|[H|[H|[H|[H|[]]]]]]]; try discriminate H;
    injection H as <-; vm_compute; reflexivity.
Defined.

(** *** Short utterances and failed passes *)

(** A periodic pass leaves a buffer with speech of less than 1.5 seconds
    as it is; [stop()] hands it to the addon whatever its length, and once
    that call settled the provider is stopped with an empty buffer. *)
Theorem whisper_short_utterance (loud : Whisper.Chunk -> bool) (m : Whisper.Machine) :
  let p := Whisper.provider m in
  Whisper.running p = true ->
  Whisper.processing p = false ->
  Whisper.inferenceTimer p = true ->
  Whisper.hasSpeechContent p = true ->
  Whisper.pendingAudio p <> [] ->
  (Whisper.pendingSamples p < Whisper.MIN_SAMPLES)%N ->
  Whisper.step loud Whisper.Interval m = (m, [])
  /\ snd (Whisper.step loud Whisper.Stop m)
     = [Whisper.CallAddon (Whisper.pendingSamples p) (concat (Whisper.pendingAudio p))]
  /\ (forall result,
        let r := Whisper.run loud
                   [Whisper.Stop; Whisper.Settled (length (Whisper.inFlight m)) result] m in
        let q := Whisper.provider (fst r) in
        Whisper.running q = false /\ Whisper.processing q = false
        /\ Whisper.pendingAudio q = [] /\ Whisper.pendingSamples q = 0%N
        /\ Whisper.inFlight (fst r) = Whisper.inFlight m).
Proof.
  intros p Hrun Hproc Htimer Hspeech Hpend Hshort. subst p.
  destruct m as [p w f]. cbn [Whisper.provider Whisper.inFlight] in *.
  destruct p as [rn pa ps ls pr tm sc hs]. cbn in Hrun, Hproc, Htimer, Hspeech, Hpend, Hshort.
  subst rn pr tm hs. apply N.ltb_lt in Hshort.
  destruct pa as [|c pa]; [congruence|].
  split; [|split].
  - cbn [Whisper.step Whisper.provider Whisper.inferenceTimer].
    unfold Whisper.runInference, Whisper.runInferenceBegin. cbn. rewrite Hshort. reflexivity.
  - cbn [Whisper.step]. unfold Whisper.stop, Whisper.stopAfterWait, Whisper.runInference,
      Whisper.runInferenceBegin. cbn. reflexivity.
  - intros result. cbn [Whisper.run Whisper.step].
    unfold Whisper.stop, Whisper.stopAfterWait, Whisper.runInference,
      Whisper.runInferenceBegin.
    cbn [Whisper.provider Whisper.running Whisper.processing Whisper.pendingAudio
         negb andb orb length Nat.eqb Whisper.hasSpeechContent fst snd
         Whisper.inFlight Whisper.stopsWaiting Whisper.pendingSamples
         Whisper.lastSegmentText Whisper.speechCountdown Whisper.inferenceTimer].
    rewrite nth_error_app2, Nat.sub_diag by lia. cbn [nth_error].
    destruct (Whisper.runInferenceEnd result _) as [p' em] eqn:E.
    cbn [fst snd Whisper.provider Whisper.inFlight].
    assert (Hd : forall l : list bool, Whisper.dropNth (length l) (l ++ [true]) = l).
    { induction l as [|x l IH]; cbn; [reflexivity | rewrite IH; reflexivity]. }
    rewrite Hd. unfold Whisper.runInferenceEnd in E.
    destruct result as [segs|].
    + destruct (negb _ && negb _); injection E as <- _; repeat split.
    + injection E as <- _. repeat split.
Qed.

Lemma whisper_short_utterance_witness :
  let m := fst (Whisper.run Whisper.rmsExact
                  [Whisper.Start; Whisper.Audio Examples.loudChunk] Whisper.boot) in
  Whisper.step Whisper.rmsExact Whisper.Interval m = (m, [])
  /\ snd (Whisper.step Whisper.rmsExact Whisper.Stop m)
     = [Whisper.CallAddon 3 Examples.loudChunk].
Proof.
  intros m.
  destruct (whisper_short_utterance Whisper.rmsExact m) as (H1 & H2 & _);
    try (vm_compute; reflexivity).
  - vm_compute. discriminate.
  - split; [exact H1 | exact H2].
Defined.

(** After a periodic pass whose addon call failed, the next pass hands the
    addon the same audio again; after one that returned, the buffer is gone
    and the next pass calls nothing. *)
Theorem whisper_failed_pass_retried (loud : Whisper.Chunk -> bool)
  (m : Whisper.Machine) (i : nat) :
  let p := Whisper.provider m in
  nth_error (Whisper.inFlight m) i = Some false ->
  Whisper.inferenceTimer p = true ->
  Whisper.hasSpeechContent p = true ->
  Whisper.pendingAudio p <> [] ->
  (Whisper.MIN_SAMPLES <= Whisper.pendingSamples p)%N ->
  snd (Whisper.run loud [Whisper.Settled i None; Whisper.Interval] m)
  = [Whisper.CallAddon (Whisper.pendingSamples p) (concat (Whisper.pendingAudio p))]
  /\ (forall segs,
        snd (Whisper.run loud [Whisper.Settled i (Some segs); Whisper.Interval] m)
        = map Whisper.Emits (snd (Whisper.runInferenceEnd (Some segs) p))).
Proof.
  intros p Hi Htimer Hspeech Hpend Hlong. subst p.
  destruct m as [p w f]. cbn [Whisper.provider Whisper.inFlight] in *.
  destruct p as [rn pa ps ls pr tm sc hs]. cbn in Htimer, Hspeech, Hpend, Hlong.
  subst tm hs. destruct pa as [|c pa]; [congruence|].
  assert (Hl : (ps <? Whisper.MIN_SAMPLES)%N = false) by (apply N.ltb_ge; exact Hlong).
  split.
  - cbn [Whisper.run Whisper.step Whisper.provider Whisper.inFlight]. rewrite Hi.
    cbn [Whisper.runInferenceEnd fst snd Whisper.provider Whisper.inferenceTimer map].
    unfold Whisper.runInference, Whisper.runInferenceBegin.
    cbn [Whisper.provider Whisper.processing Whisper.pendingAudio length Nat.eqb orb
         negb andb Whisper.hasSpeechContent Whisper.pendingSamples].
    rewrite Hl. reflexivity.
  - intros segs. cbn [Whisper.run Whisper.step Whisper.provider Whisper.inFlight].
    rewrite Hi. unfold Whisper.runInferenceEnd.
    destruct (negb _ && negb _);
      cbn [fst snd Whisper.provider Whisper.inferenceTimer Whisper.clearPending];
      unfold Whisper.runInference, Whisper.runInferenceBegin;
      cbn [Whisper.provider Whisper.processing Whisper.pendingAudio length Nat.eqb orb
           fst snd map app]; reflexivity.
Qed.

Lemma whisper_failed_pass_retried_witness :
  let p := Whisper.MkProvider true [repeat 1000%Z (N.to_nat 24000)] 24000 [] true true 10
                              true in
  snd (Whisper.run Whisper.rmsExact [Whisper.Settled 0 None; Whisper.Interval]
         (Whisper.MkMachine p 0 [false]))
  = [Whisper.CallAddon 24000 (concat [repeat 1000%Z (N.to_nat 24000)])].
Proof.
  intros p.
  refine (proj1 (whisper_failed_pass_retried Whisper.rmsExact
                   (Whisper.MkMachine p 0 [false]) 0 _ _ _ _ _)).
  - reflexivity.
  - reflexivity.
  - reflexivity.
  - discriminate.
  - vm_compute. discriminate.
Defined.

(* ===================================================================== *)
(** * Properties of the history service *)
(* ===================================================================== *)

Lemma saveScreenshot_entry (io : History.Io) (r : Session.HistoryRecord)
  (s : History.Service) :
  fst (History.saveScreenshot io r s) = History.entryOf io r
  /\ History.cache (snd (History.saveScreenshot io r s)) = History.cache s
  /\ History.file (snd (History.saveScreenshot io r s)) = History.file s.
Proof.
  unfold History.saveScreenshot, History.entryOf.
  destruct (Session.hScreenshot r) as [img|]; [|repeat split].
  destruct (isEmpty img); [repeat split|].
  destruct (History.writesScreenshot io); repeat split.
Qed.

Lemma load_list (s : History.Service) :
  History.cache s <> None \/ History.file s <> History.NotAnArray ->
  exists l, fst (History.load s) = Some l
            /\ History.cache (snd (History.load s)) = Some l
            /\ History.file (snd (History.load s)) = History.file s.
Proof.
  destruct s as [f sh c a b d]. unfold History.load, History.loadFromDisk. cbn.
  intros H. destruct c as [l|].
  - exists l. repeat split.
  - destruct H as [H|H]; [congruence|].
    destruct f as [| | |l]; try congruence; eexists; repeat split.
Qed.

(** What [save] does to the cache, whatever the file system does. *)
Lemma save_cache (io : History.Io) (r : Session.HistoryRecord) (s : History.Service)
  (l : list History.Entry) :
  fst (History.load s) = Some l ->
  History.cache (fst (History.save io r s)) = Some (l ++ [History.entryOf io r]).
Proof.
  intros Hl. unfold History.save.
  destruct (saveScreenshot_entry io r s) as (He & Hc & Hf).
  destruct (History.saveScreenshot io r s) as [entry s1]. cbn [fst snd] in *. subst entry.
  assert (Hl1 : fst (History.load s1) = Some l).
  { unfold History.load, History.loadFromDisk in *. rewrite Hc, Hf.
    destruct (History.cache s); exact Hl. }
  destruct (History.load s1) as [[entries|] s2]; cbn [fst] in Hl1; [|discriminate].
  injection Hl1 as ->. destruct (History.writesHistory io); reflexivity.
Qed.

Lemma getAll_cached (s : History.Service) (l : list History.Entry) :
  History.cache s = Some l -> fst (History.getAll s) = Some (rev l).
Proof. intros H. unfold History.getAll, History.load. rewrite H. reflexivity. Qed.

Lemma load_cached (s : History.Service) (l : list History.Entry) :
  History.cache s = Some l -> fst (History.load s) = Some l.
Proof. intros H. unfold History.load. rewrite H. reflexivity. Qed.

Lemma saveAll_cache (io : History.Io) (rs : list Session.HistoryRecord) :
  forall (s : History.Service) (l : list History.Entry),
    fst (History.load s) = Some l ->
    History.cache (History.saveAll io rs s)
    = Some (l ++ map (History.entryOf io) rs) \/ rs = [].
Proof.
  induction rs as [|r rs IH]; intros s l Hl; [right; reflexivity|]. left.
  unfold History.saveAll. cbn [fold_left]. fold (History.saveAll io rs (fst (History.save io r s))).
  pose proof (save_cache io r s l Hl) as Hc.
  destruct (IH (fst (History.save io r s)) (l ++ [History.entryOf io r])
               (load_cached _ _ Hc)) as [H| ->].
  - rewrite H, <- app_assoc. reflexivity.
  - cbn [History.saveAll fold_left map]. unfold History.saveAll. cbn [fold_left]. exact Hc.
Qed.

(** The sessions handed to [save] are listed by [getAll] newest first, in
    front of what was listed before, whether or not the writes succeed; an
    entry made of a session with a screenshot holds no screenshot text. *)
Theorem history_lists_saved_sessions (io : History.Io)
  (rs : list Session.HistoryRecord) (s : History.Service) (before : list History.Entry) :
  fst (History.getAll s) = Some before ->
  fst (History.getAll (History.saveAll io rs s))
  = Some (rev (map (History.entryOf io) rs) ++ before)
  /\ Forall (fun r => Session.hScreenshot r <> Some [] ->
                      Session.hScreenshot (History.session (History.entryOf io r)) = None)
            rs.
Proof.
  intros Hb. split.
  - unfold History.getAll in Hb.
    destruct (History.load s) as [[l|] s1] eqn:E; cbn [fst option_map] in Hb; [|discriminate].
    injection Hb as <-.
    destruct rs as [|r rs].
    + cbn [History.saveAll fold_left map rev app]. unfold History.saveAll. cbn [fold_left].
      unfold History.getAll. rewrite E. reflexivity.
    + destruct (saveAll_cache io (r :: rs) s l) as [H|H]; [rewrite E; reflexivity | | discriminate].
      rewrite (getAll_cached _ _ H), rev_app_distr. reflexivity.
  - apply Forall_forall. intros r _ Hne. unfold History.entryOf.
    destruct (Session.hScreenshot r) as [img|] eqn:E; [|exact E].
    destruct img; [exfalso; apply Hne; reflexivity | reflexivity].
Qed.

Lemma history_lists_saved_sessions_witness :
  fst (History.getAll
         (History.saveAll (History.MkIo true true true true)
            (Session.saved (snd (Session.run (Examples.cancelDuringFinalize ++ Examples.afterCancel)
                                   (Session.initialWorld Session.allDeps))))
            (History.MkService History.Missing [] None true true true)))
  = Some (rev (map (History.entryOf (History.MkIo true true true true))
                 (Session.saved (snd (Session.run
                    (Examples.cancelDuringFinalize ++ Examples.afterCancel)
                    (Session.initialWorld Session.allDeps))))) ++ []).
Proof.
  apply (history_lists_saved_sessions (History.MkIo true true true true)). reflexivity.
Defined.

(** *** The cache and the file *)

Lemma apply_synced (o : History.Op) (s : History.Service) :
  History.writesOf o = true -> History.Synced s ->
  History.Synced (fst (History.apply o s)).
Proof.
  intros Hw Hs. destruct s as [f sh c a b d]. unfold History.Synced in *.
  destruct o as [io r|io id|io|]; cbn [History.apply History.writesOf] in *.
  - unfold History.save, History.saveScreenshot.
    destruct (Session.hScreenshot r) as [img|];
      [destruct (isEmpty img); [|destruct (History.writesScreenshot io)]|];
      unfold History.load, History.loadFromDisk; cbn;
      (destruct c as [l|]; [|destruct f]); cbn; rewrite ?Hw; cbn; try reflexivity.
  - unfold History.delete, History.load, History.loadFromDisk. cbn.
    (destruct c as [l|]; [|destruct f as [| | |l]]); cbn; rewrite ?Hw; try reflexivity;
      try (destruct (find _ l) as [e|];
           [destruct (History.hasScreenshot e && History.unlinks io)|]); reflexivity.
  - unfold History.clear. rewrite Hw. destruct (History.removesDir io); reflexivity.
  - unfold History.getAll, History.load, History.loadFromDisk. cbn in *.
    destruct c as [l|]; cbn; [exact Hs|]. destruct f; reflexivity.
Qed.

Lemma applyAll_synced (ops : list History.Op) :
  forall s : History.Service,
    Forall (fun o => History.writesOf o = true) ops -> History.Synced s ->
    History.Synced (fst (History.applyAll ops s)).
Proof.
  induction ops as [|o ops IH]; intros s Hw Hs; [exact Hs|].
  inversion Hw as [|? ? Ho Hops]; subst. cbn [History.applyAll].
  pose proof (apply_synced o s Ho Hs) as H1.
  destruct (History.apply o s) as [s1 n1]. cbn [fst] in H1.
  specialize (IH s1 Hops H1). destruct (History.applyAll ops s1) as [s2 n2]. exact IH.
Qed.

(** When every write to the history file succeeds, the cache agrees with the
    file after any sequence of operations: a new service on the same
    directory lists what the old one listed. *)
Theorem history_survives_restart (ops : list History.Op) (s : History.Service) :
  Forall (fun o => History.writesOf o = true) ops ->
  History.Synced s ->
  let s' := fst (History.applyAll ops s) in
  fst (History.getAll (History.restart s')) = fst (History.getAll s').
Proof.
  intros Hw Hs s'. pose proof (applyAll_synced ops s Hw Hs) as H. fold s' in H.
  unfold History.Synced in H. destruct (History.cache s') as [l|] eqn:E.
  - rewrite (getAll_cached s' l E).
    unfold History.getAll, History.restart, History.load.
    cbn [History.cache History.withCache].
    unfold History.loadFromDisk in *. cbn [History.file History.withCache fst].
    rewrite H. reflexivity.
  - destruct s' as [f sh c a b d]. cbn in E. subst c. reflexivity.
Qed.

Lemma history_survives_restart_witness :
  let io := History.MkIo true true true true in
  let r := Session.MkHistoryRecord 7 7 (js "find files") (js "ok") (js "Terminal") 1200 1
             [(Session.User, js "find files"); (Session.Assistant, js "ok")]
             (Some (js "data:image/png;base64,AAAA")) None in
  let s := fst (History.applyAll [History.Save io r; History.GetAll; History.Delete io 9]
                  (History.MkService History.Unreadable [] None false false false)) in
  fst (History.getAll (History.restart s)) = fst (History.getAll s).
Proof.
  intros io r s.
  apply (history_survives_restart
           [History.Save io r; History.GetAll; History.Delete io 9]
           (History.MkService History.Unreadable [] None false false false)).
  - repeat constructor.
  - exact I.
Defined.

(** A session whose write to the history file failed is listed until the
    application restarts: the file is as before, nothing is notified. *)
Theorem history_failed_write_forgotten (io : History.Io) (r : Session.HistoryRecord)
  (s : History.Service) (before : list History.Entry) :
  History.writesHistory io = false ->
  fst (History.getAll s) = Some before ->
  let s' := fst (History.save io r s) in
  fst (History.getAll s') = Some (History.entryOf io r :: before)
  /\ History.file s' = History.file s
  /\ snd (History.save io r s) = []
  /\ fst (History.getAll (History.restart s')) = fst (History.getAll (History.restart s)).
Proof.
  intros Hw Hb s'. subst s'. destruct s as [f sh c a b d].
  unfold History.getAll, History.load, History.loadFromDisk in Hb. cbn in Hb.
  unfold History.save, History.saveScreenshot.
  destruct (Session.hScreenshot r) as [img|] eqn:E;
    [destruct (isEmpty img) eqn:Ei; [|destruct (History.writesScreenshot io) eqn:Es]|];
    unfold History.getAll, History.restart, History.load, History.loadFromDisk,
      History.entryOf; rewrite ?E, ?Ei, ?Es; cbn;
    (destruct c as [l|]; [|destruct f as [| | |l]]); cbn in *; rewrite ?Hw; cbn;
    try discriminate; injection Hb as <-;
    rewrite ?rev_app_distr; repeat split.
Qed.

Lemma history_failed_write_forgotten_witness :
  let io := History.MkIo false true true true in
  let r := Session.MkHistoryRecord 7 7 (js "find files") (js "ok") (js "Terminal") 1200 1
             [(Session.User, js "find files"); (Session.Assistant, js "ok")] None None in
  let s := History.MkService (History.Stored []) [] None true true true in
  fst (History.getAll (fst (History.save io r s))) = Some [History.MkEntry r false]
  /\ fst (History.getAll (History.restart (fst (History.save io r s)))) = Some [].
Proof.
  intros io r s.
  destruct (history_failed_write_forgotten io r s [] eq_refl eq_refl) as (H1 & _ & _ & H4).
  split; [exact H1 | exact H4].
Defined.

(** *** Deleting *)

(** [delete] removes the entries with the given id from the list and keeps
    the others in order; with no such entry the list is unchanged; deleting
    a session just saved under an unused id gives the list back. *)
Theorem history_delete (io : History.Io) (id : N) (s : History.Service)
  (before : list History.Entry) :
  fst (History.getAll s) = Some before ->
  fst (History.getAll (fst (History.delete io id s)))
  = Some (filter (fun e => negb (History.entryId e =? id)%N) before)
  /\ (Forall (fun e => History.entryId e <> id) before ->
      fst (History.getAll (fst (History.delete io id s))) = Some before)
  /\ (forall (io' : History.Io) (r : Session.HistoryRecord),
      Session.hId r = id ->
      Forall (fun e => History.entryId e <> id) before ->
      fst (History.getAll (fst (History.delete io id (fst (History.save io' r s)))))
      = Some before).
Proof.
  intros Hb.
  assert (Hdel : forall s' l, fst (History.getAll s') = Some l ->
            fst (History.getAll (fst (History.delete io id s')))
            = Some (filter (fun e => negb (History.entryId e =? id)%N) l)).
  { intros s' l Hl. destruct s' as [f sh c a b d].
    unfold History.getAll, History.load, History.loadFromDisk in Hl. cbn in Hl.
    unfold History.delete, History.load, History.loadFromDisk. cbn.
    (destruct c as [l0|]; [|destruct f as [| | |l0]]); cbn in *; try discriminate;
      injection Hl as <-;
      try (destruct (find _ l0) as [e|];
           [destruct (History.hasScreenshot e && History.unlinks io)|]);
      destruct (History.writesHistory io); unfold History.getAll, History.load; cbn;
      rewrite ?filter_rev; reflexivity. }
  assert (Hkeep : forall l : list History.Entry,
            Forall (fun e => History.entryId e <> id) l ->
            filter (fun e => negb (History.entryId e =? id)%N) l = l).
  { intros l Hall. induction Hall as [|e l He _ IH]; [reflexivity|].
    cbn. apply N.eqb_neq in He. rewrite He. cbn. rewrite IH. reflexivity. }
  split; [apply Hdel; exact Hb|]. split.
  - intros Hall. rewrite (Hdel s before Hb), (Hkeep before Hall). reflexivity.
  - intros io' r Hr Hall.
    assert (Hs : fst (History.getAll (fst (History.save io' r s)))
                 = Some (History.entryOf io' r :: before)).
    { unfold History.getAll in Hb.
      destruct (History.load s) as [[l|] s1] eqn:E; cbn in Hb; [|discriminate].
      injection Hb as <-.
      rewrite (getAll_cached _ _ (save_cache io' r s l ltac:(rewrite E; reflexivity))).
      rewrite rev_app_distr. reflexivity. }
    rewrite (Hdel _ _ Hs). cbn [filter].
    assert (He : History.entryId (History.entryOf io' r) = id).
    { unfold History.entryOf, History.entryId.
      destruct (Session.hScreenshot r) as [img|]; [destruct (isEmpty img)|]; exact Hr. }
    rewrite He, N.eqb_refl. cbn. rewrite (Hkeep before Hall). reflexivity.
Qed.

Lemma history_delete_witness :
  let io := History.MkIo true true true true in
  let r := Session.MkHistoryRecord 7 7 (js "find files") (js "ok") (js "Terminal") 1200 1
             [(Session.User, js "find files"); (Session.Assistant, js "ok")] None None in
  let s := History.MkService History.Missing [] None true true true in
  fst (History.getAll (fst (History.delete io 7 (fst (History.save io r s))))) = Some [].
Proof.
  intros io r s.
  destruct (history_delete io 7 s [] eq_refl) as (_ & _ & H).
  apply (H io r); [reflexivity | constructor].
Defined.

(** *** A history file that cannot be used *)

Lemma saveScreenshot_keeps (io : History.Io) (r : Session.HistoryRecord)
  (s : History.Service) :
  let s1 := snd (History.saveScreenshot io r s) in
  History.file s1 = History.file s /\ History.cache s1 = History.cache s
  /\ History.onSave s1 = History.onSave s /\ History.onDelete s1 = History.onDelete s
  /\ History.onClear s1 = History.onClear s.
Proof.
  unfold History.saveScreenshot.
  destruct (Session.hScreenshot r) as [img|];
    [destruct (isEmpty img); [|destruct (History.writesScreenshot io)]|];
    repeat split.
Qed.

Lemma withCache_same (s : History.Service) :
  History.withCache s (History.cache s) = s.
Proof. destruct s. reflexivity. Qed.

(** On a history file whose JSON is not an array, [save] does what its
    screenshot part does and nothing more. *)
Lemma save_notAnArray (io : History.Io) (r : Session.HistoryRecord) (s : History.Service) :
  History.file s = History.NotAnArray -> History.cache s = None ->
  History.save io r s = (snd (History.saveScreenshot io r s), []).
Proof.
  intros Hf Hc. unfold History.save.
  destruct (saveScreenshot_keeps io r s) as (H1 & H2 & _).
  destruct (History.saveScreenshot io r s) as [entry s1]. cbn [snd] in *.
  unfold History.load, History.loadFromDisk. rewrite H2, Hc, H1, Hf.
  rewrite <- Hc, <- H2, withCache_same. reflexivity.
Qed.

Lemma delete_notAnArray (io : History.Io) (id : N) (s : History.Service) :
  History.file s = History.NotAnArray -> History.cache s = None ->
  History.delete io id s = (s, []).
Proof.
  intros Hf Hc. unfold History.delete, History.load, History.loadFromDisk.
  rewrite Hc, Hf. rewrite <- Hc, withCache_same. reflexivity.
Qed.

Lemma applyAll_notAnArray (ops : list History.Op) :
  Forall (fun o => match o with
                   | History.Save _ _ | History.Delete _ _ => True
                   | _ => False
                   end) ops ->
  forall s : History.Service,
    History.file s = History.NotAnArray -> History.cache s = None ->
    let s' := fst (History.applyAll ops s) in
    History.file s' = History.NotAnArray /\ History.cache s' = None
    /\ snd (History.applyAll ops s) = [].
Proof.
  induction 1 as [|o ops Ho _ IH]; intros s Hf Hc; [repeat split; assumption|].
  cbn [History.applyAll].
  assert (H1 : exists s1, History.apply o s = (s1, [])
                          /\ History.file s1 = History.NotAnArray
                          /\ History.cache s1 = None).
  { destruct o as [io r|io id|io|]; try contradiction; cbn [History.apply].
    - rewrite (save_notAnArray io r s Hf Hc). eexists. split; [reflexivity|].
      destruct (saveScreenshot_keeps io r s) as (H1 & H2 & _). cbv zeta in H1, H2.
      rewrite H1, H2. split; assumption.
    - rewrite (delete_notAnArray io id s Hf Hc). exists s. repeat split; assumption. }
  destruct H1 as (s1 & -> & Hf1 & Hc1).
  specialize (IH s1 Hf1 Hc1). cbv zeta in IH.
  destruct (History.applyAll ops s1) as [s2 n2]. cbn [fst snd] in *. exact IH.
Qed.

(** With no history file, or one that cannot be read or parsed, a save
    writes a file that holds the new entry alone.  With a file whose JSON is
    not an array: after any saves and deletes the file is as it was, nothing
    was notified and [getAll] throws; a delete changes nothing; a save
    changes nothing but the screenshot files, where it still writes the
    screenshot of a session that has one, since that is done before the
    entries are loaded; [clear] writes an empty array, and [getAll] then
    returns the empty list. *)
Theorem history_unusable_file (io : History.Io) (r : Session.HistoryRecord)
  (shots : list (N * jsstring)) (a b c : bool) :
  History.writesHistory io = true ->
  (forall f, f = History.Missing \/ f = History.Unreadable ->
     History.file (fst (History.save io r (History.MkService f shots None a b c)))
     = History.Stored [History.entryOf io r])
  /\ (let s := History.MkService History.NotAnArray shots None a b c in
      (forall (ops : list History.Op),
          Forall (fun o => match o with
                           | History.Save _ _ | History.Delete _ _ => True
                           | _ => False
                           end) ops ->
          History.file (fst (History.applyAll ops s)) = History.NotAnArray
          /\ snd (History.applyAll ops s) = []
          /\ fst (History.getAll (fst (History.applyAll ops s))) = None)
      /\ (forall (io' : History.Io) (id : N), History.delete io' id s = (s, []))
      /\ (forall (io' : History.Io) (r' : Session.HistoryRecord),
             History.save io' r' s
             = (History.MkService History.NotAnArray
                  (match Session.hScreenshot r' with
                   | Some img =>
                       if negb (isEmpty img) && History.writesScreenshot io'
                       then History.writeFile (Session.hId r')
                              (replace History.reDataUrl [] img) shots
                       else shots
                   | None => shots
                   end) None a b c, []))
      /\ History.file (fst (History.clear io s)) = History.Stored []
      /\ fst (History.getAll (fst (History.clear io s))) = Some []).
Proof.
  intros Hw. split.
  - intros f [-> | ->]; unfold History.save, History.saveScreenshot, History.entryOf;
      (destruct (Session.hScreenshot r) as [img|];
       [destruct (isEmpty img); [|destruct (History.writesScreenshot io)]|]);
      unfold History.load, History.loadFromDisk; cbn; rewrite Hw; reflexivity.
  - intros s. split; [|split; [|split]].
    + intros ops Hops.
      destruct (applyAll_notAnArray ops Hops s eq_refl eq_refl) as (Hf & Hc & Hn).
      cbv zeta in Hf, Hc. split; [exact Hf|]. split; [exact Hn|].
      unfold History.getAll, History.load, History.loadFromDisk. rewrite Hc, Hf.
      reflexivity.
    + intros io' id. apply delete_notAnArray; reflexivity.
    + intros io' r'. rewrite save_notAnArray by reflexivity.
      unfold History.saveScreenshot, s.
      destruct (Session.hScreenshot r') as [img|];
        [destruct (isEmpty img); [|destruct (History.writesScreenshot io')]|];
        reflexivity.
    + unfold History.clear, History.getAll, s. rewrite Hw.
      destruct (History.removesDir io); split; reflexivity.
Qed.

Lemma history_unusable_file_witness :
  let io := History.MkIo true true true true in
  let r := Session.MkHistoryRecord 7 7 (js "find files") (js "ok") (js "Terminal") 1200 1
             [(Session.User, js "find files"); (Session.Assistant, js "ok")]
             (Some (js "data:image/png;base64,aGVsbG8=")) None in
  History.file (fst (History.save io r
                       (History.MkService History.Unreadable [] None false false false)))
  = History.Stored [History.MkEntry (History.stripScreenshot r) true]
  /\ History.save io r (History.MkService History.NotAnArray [] None false false false)
     = (History.MkService History.NotAnArray [(7%N, js "aGVsbG8=")] None false false false,
        []).
Proof.
  intros io r.
  destruct (history_unusable_file io r [] false false false eq_refl) as [H1 (_ & _ & H2 & _)].
  split.
  - apply (H1 History.Unreadable). right. reflexivity.
  - rewrite (H2 io r). vm_compute. reflexivity.
Defined.

(* ===================================================================== *)
(** * Properties of the input monitor *)
(* ===================================================================== *)

Lemma Forall_unregister {P : string * InputMonitor.Handler -> Prop} (a : string)
  (l : list (string * InputMonitor.Handler)) :
  Forall P l -> Forall P (InputMonitor.unregister a l).
Proof.
  intros H. apply Forall_forall. intros p Hp. apply filter_In in Hp.
  rewrite Forall_forall in H. apply H, Hp.
Qed.

Lemma unregister_gone (a : string) (l : list (string * InputMonitor.Handler)) :
  Forall (fun p => fst p <> a) (InputMonitor.unregister a l).
Proof.
  apply Forall_forall. intros p Hp. apply filter_In in Hp. destruct Hp as [_ Hp].
  apply negb_true_iff, String.eqb_neq in Hp. exact Hp.
Qed.

Lemma unregisterEscape_remembered (m : InputMonitor.Monitor) :
  Forall (fun p =>
            match snd p with
            | InputMonitor.EmitTrigger =>
                InputMonitor.registeredAccelerator m = Some (fst p)
            | InputMonitor.EmitCancel =>
                fst p = "Escape"%string /\ InputMonitor.escapeRegistered m = true
            end) (InputMonitor.shortcuts m) ->
  (InputMonitor.started m = false -> InputMonitor.registeredAccelerator m = None) ->
  InputMonitor.Remembered (InputMonitor.unregisterEscape m).
Proof.
  intros H1 H2. unfold InputMonitor.unregisterEscape.
  destruct (InputMonitor.escapeRegistered m) eqn:E.
  - split; [|split; [exact H2 | discriminate]].
    cbn. apply Forall_forall. intros p Hp.
    pose proof (unregister_gone "Escape" (InputMonitor.shortcuts m)) as Hg.
    rewrite Forall_forall in Hg, H1. specialize (Hg p Hp).
    apply filter_In in Hp. destruct Hp as [Hp _]. specialize (H1 p Hp).
    destruct (snd p); [exact H1|]. destruct H1 as [H1 _]. contradiction.
  - split; [|split; [exact H2 | congruence]].
    apply Forall_forall. intros p Hp. rewrite Forall_forall in H1. specialize (H1 p Hp).
    destruct (snd p); [exact H1|]. destruct H1 as [_ H1]. congruence.
Qed.

Lemma unregisterAll_remembered (m : InputMonitor.Monitor) :
  InputMonitor.Remembered m ->
  InputMonitor.Remembered (InputMonitor.unregisterAll m)
  /\ InputMonitor.registeredAccelerator (InputMonitor.unregisterAll m) = None
  /\ InputMonitor.escapeRegistered (InputMonitor.unregisterAll m) = false
  /\ InputMonitor.started (InputMonitor.unregisterAll m) = InputMonitor.started m
  /\ InputMonitor.sessionActive (InputMonitor.unregisterAll m)
     = InputMonitor.sessionActive m.
Proof.
  intros H. pose proof H as (H1 & H2 & H3). unfold InputMonitor.unregisterAll.
  set (m1 := match InputMonitor.registeredAccelerator m with
             | Some a => _ | None => m end).
  assert (Hm1 : InputMonitor.Remembered m1
                /\ InputMonitor.registeredAccelerator m1 = None
                /\ InputMonitor.started m1 = InputMonitor.started m
                /\ InputMonitor.sessionActive m1 = InputMonitor.sessionActive m).
  { subst m1. destruct (InputMonitor.registeredAccelerator m) as [a|] eqn:E.
    - cbn. split; [|repeat split].
      split; [|split; [reflexivity | exact H3]].
      cbn. apply Forall_forall. intros p Hp.
      pose proof (unregister_gone a (InputMonitor.shortcuts m)) as Hg.
      rewrite Forall_forall in Hg, H1. specialize (Hg p Hp).
      apply filter_In in Hp. destruct Hp as [Hp _]. specialize (H1 p Hp).
      destruct (snd p); [|exact H1]. congruence.
    - split; [exact H | repeat split; exact E]. }
  destruct Hm1 as (R & A & S & T).
  split; [apply unregisterEscape_remembered; apply R|].
  unfold InputMonitor.unregisterEscape.
  destruct (InputMonitor.escapeRegistered m1) eqn:E; cbn; repeat split; assumption.
Qed.

Lemma no_trigger_held (m : InputMonitor.Monitor) :
  InputMonitor.Remembered m -> InputMonitor.registeredAccelerator m = None ->
  Forall (fun p => snd p = InputMonitor.EmitCancel) (InputMonitor.shortcuts m).
Proof.
  intros (H1 & _) Hn. apply Forall_forall. intros p Hp.
  rewrite Forall_forall in H1. specialize (H1 p Hp).
  destruct (snd p); [congruence | reflexivity].
Qed.

Lemma registerHotkey_remembered hotkey os (m : InputMonitor.Monitor) :
  InputMonitor.Remembered m ->
  InputMonitor.registeredAccelerator m = None ->
  InputMonitor.started m = true ->
  InputMonitor.Remembered (fst (InputMonitor.registerHotkey hotkey os m)).
Proof.
  intros H Hn Hs. pose proof (no_trigger_held m H Hn) as Hc.
  pose proof H as (H1 & H2 & H3). unfold InputMonitor.registerHotkey.
  destruct (InputMonitor.accelerator hotkey) as [a|]; [|exact H].
  destruct (os a); cbn [fst]; [|exact H | exact H].
  split; [|split; [cbn; intros Hf; congruence | exact H3]].
  cbn. constructor; [reflexivity|]. apply Forall_forall. intros p Hp.
  rewrite Forall_forall in H1, Hc. specialize (H1 p Hp). specialize (Hc p Hp).
  rewrite Hc in *. exact H1.
Qed.

Lemma apply_remembered (o : InputMonitor.Op) (m : InputMonitor.Monitor) :
  InputMonitor.Remembered m -> InputMonitor.Remembered (InputMonitor.apply o m).
Proof.
  intros H. pose proof H as (H1 & H2 & H3).
  destruct o as [hotkey os| |hotkey os|active hotkey os]; cbn [InputMonitor.apply].
  - unfold InputMonitor.start. destruct (InputMonitor.started m) eqn:E; [exact H|].
    apply registerHotkey_remembered; [|first [exact (H2 E) | exact (H2 eq_refl)] | reflexivity].
    split; [exact H1|]. split; [discriminate | exact H3].
  - destruct (unregisterAll_remembered m H) as ((U1 & U2 & U3) & A & B & _).
    unfold InputMonitor.stop. split; [exact U1|]. split; [intros _; exact A | exact U3].
  - unfold InputMonitor.updateHotkey. destruct (InputMonitor.started m) eqn:E; [|exact H].
    destruct (unregisterAll_remembered m H) as (U & A & _ & S & _).
    apply registerHotkey_remembered; [exact U | exact A | congruence].
  - unfold InputMonitor.setSessionActive. destruct active.
    + unfold InputMonitor.registerEscape. cbn.
      destruct (InputMonitor.escapeRegistered m) eqn:E.
      * split; [|split; [exact H2 | reflexivity]].
        apply Forall_forall. intros p Hp. rewrite Forall_forall in H1.
        specialize (H1 p Hp). cbn. destruct (snd p); [exact H1|].
        destruct H1 as [H1 _]. split; [exact H1 | reflexivity].
      * assert (Hsame : InputMonitor.Remembered
                  (InputMonitor.MkMonitor true (InputMonitor.started m)
                     (InputMonitor.registeredAccelerator m) false
                     (InputMonitor.hotkeyFailed m) (InputMonitor.shortcuts m))).
        { split; [|split; [exact H2 | discriminate]].
          apply Forall_forall. intros p Hp. rewrite Forall_forall in H1.
          specialize (H1 p Hp). destruct (snd p); [exact H1|].
          destruct H1 as [_ H1]. congruence. }
        assert (Hreg : InputMonitor.Remembered
                  (InputMonitor.MkMonitor true (InputMonitor.started m)
                     (InputMonitor.registeredAccelerator m) true
                     (InputMonitor.hotkeyFailed m)
                     (("Escape"%string, InputMonitor.EmitCancel)
                        :: InputMonitor.shortcuts m))).
        { split; [|split; [exact H2 | reflexivity]].
          constructor; [split; reflexivity|].
          apply Forall_forall. intros p Hp. rewrite Forall_forall in H1.
          specialize (H1 p Hp). destruct (snd p); [exact H1|].
          destruct H1 as [H1 _]. split; [exact H1 | reflexivity]. }
        destruct (InputMonitor.isEscape hotkey); [exact Hsame|].
        destruct (os "Escape"%string); assumption.
    + apply unregisterEscape_remembered; assumption.
Qed.

Lemma applyAll_remembered (ops : list InputMonitor.Op) :
  forall m, InputMonitor.Remembered m ->
            InputMonitor.Remembered (InputMonitor.applyAll ops m).
Proof.
  induction ops as [|o ops IH]; intros m H; [exact H|].
  unfold InputMonitor.applyAll. cbn [fold_left]. apply IH, apply_remembered, H.
Qed.

Lemma reachable_remembered (ops : list InputMonitor.Op) :
  InputMonitor.Remembered (InputMonitor.applyAll ops InputMonitor.initial).
Proof.
  apply applyAll_remembered. split; [constructor|]. split; [reflexivity | discriminate].
Qed.

(** Whatever calls were made on the monitor and whatever the system
    answered, every global shortcut the application holds is one the monitor
    remembers; the cancel shortcut is held only while a session is active;
    and [stop()] releases every shortcut. *)
Theorem monitor_releases_shortcuts (ops : list InputMonitor.Op) :
  let m := InputMonitor.applyAll ops InputMonitor.initial in
  InputMonitor.Remembered m
  /\ InputMonitor.shortcuts (InputMonitor.stop m) = []
  /\ (InputMonitor.sessionActive m = false ->
      forall a, In (a, InputMonitor.EmitCancel) (InputMonitor.shortcuts m) -> False).
Proof.
  intros m.
  pose proof (reachable_remembered ops) as H. fold m in H.
  split; [exact H|]. split.
  - destruct (unregisterAll_remembered m H) as (U & A & B & _).
    unfold InputMonitor.stop. cbn.
    pose proof (no_trigger_held _ U A) as Hc. destruct U as (U1 & _).
    destruct (InputMonitor.shortcuts (InputMonitor.unregisterAll m)) as [|p l];
      [reflexivity|].
    exfalso. inversion Hc as [|? ? Hp _]; subst. inversion U1 as [|? ? Hq _]; subst.
    rewrite Hp in Hq. destruct Hq as [_ Hq]. congruence.
  - intros Hs a Hin. destruct H as (H1 & _ & H3). rewrite Forall_forall in H1.
    specialize (H1 _ Hin). cbn in H1. destruct H1 as [_ H1].
    specialize (H3 H1). congruence.
Qed.

Lemma remembered_nothing (m : InputMonitor.Monitor) :
  InputMonitor.Remembered m ->
  InputMonitor.registeredAccelerator m = None ->
  InputMonitor.escapeRegistered m = false ->
  InputMonitor.shortcuts m = [].
Proof.
  intros H Hn He. pose proof (no_trigger_held m H Hn) as Hc. destruct H as (H1 & _).
  destruct (InputMonitor.shortcuts m) as [|p l]; [reflexivity|].
  exfalso. inversion Hc as [|? ? Hp _]; subst. inversion H1 as [|? ? Hq _]; subst.
  rewrite Hp in Hq. destruct Hq as [_ Hq]. congruence.
Qed.

(** A change of hotkey while a session is active releases the cancel
    shortcut and does not register it again: until the next session starts,
    no key press makes the monitor emit [cancel]. *)
Theorem monitor_update_drops_escape (m : InputMonitor.Monitor)
  (hotkey : option string) (os : string -> InputMonitor.Registration) :
  InputMonitor.Remembered m ->
  InputMonitor.started m = true ->
  let m' := fst (InputMonitor.updateHotkey hotkey os m) in
  InputMonitor.sessionActive m' = InputMonitor.sessionActive m
  /\ InputMonitor.escapeRegistered m' = false
  /\ (forall a, ~ In InputMonitor.Cancel (InputMonitor.press a m')).
Proof.
  intros H Hs m'. subst m'. unfold InputMonitor.updateHotkey. rewrite Hs.
  destruct (unregisterAll_remembered m H) as (U & A & B & _ & T).
  pose proof (remembered_nothing _ U A B) as Hnil.
  unfold InputMonitor.registerHotkey.
  destruct (InputMonitor.accelerator hotkey) as [a|];
    [destruct (os a)|]; cbn [fst InputMonitor.sessionActive InputMonitor.escapeRegistered];
    (split; [exact T|]; split; [exact B|]); intros x; unfold InputMonitor.press;
    cbn [InputMonitor.shortcuts]; rewrite Hnil; cbn [find fst];
    try (destruct (String.eqb a x)); cbn; intuition discriminate.
Qed.

Lemma monitor_update_drops_escape_witness :
  let ok := fun _ : string => InputMonitor.Registered in
  let m := InputMonitor.applyAll
             [InputMonitor.Start (Some "F10"%string) ok;
              InputMonitor.SetSessionActive true (Some "F10"%string) ok]
             InputMonitor.initial in
  InputMonitor.press "Escape" m = [InputMonitor.Cancel]
  /\ ~ In InputMonitor.Cancel
       (InputMonitor.press "Escape"
          (fst (InputMonitor.updateHotkey (Some "F9"%string) ok m))).
Proof.
  intros ok m. split; [reflexivity|].
  destruct (monitor_update_drops_escape m (Some "F9"%string) ok) as (_ & _ & H).
  - apply (reachable_remembered
             [InputMonitor.Start (Some "F10"%string) ok;
              InputMonitor.SetSessionActive true (Some "F10"%string) ok]).
  - reflexivity.
  - apply H.
Defined.

(** A failed registration of the hotkey: [start()] sets [hotkeyFailed],
    emits [hotkey-failed] and holds no shortcut, yet leaves the monitor
    started, so that [start()] does nothing from then on; [updateHotkey()]
    is what registers the hotkey once the system accepts it.  With no
    accelerator configured, [start()] registers nothing and reports no
    failure. *)
Theorem monitor_failed_start :
  (forall (hotkey : option string) (os : string -> InputMonitor.Registration) (a : string),
      InputMonitor.accelerator hotkey = Some a ->
      os a <> InputMonitor.Registered ->
      let m1 := fst (InputMonitor.start hotkey os InputMonitor.initial) in
      snd (InputMonitor.start hotkey os InputMonitor.initial)
        = [InputMonitor.HotkeyFailed a]
      /\ InputMonitor.hotkeyFailed m1 = true
      /\ InputMonitor.shortcuts m1 = []
      /\ (forall hotkey' os', InputMonitor.start hotkey' os' m1 = (m1, []))
      /\ (forall os', os' a = InputMonitor.Registered ->
            let m2 := fst (InputMonitor.updateHotkey hotkey os' m1) in
            InputMonitor.hotkeyFailed m2 = false
            /\ InputMonitor.press a m2 = [InputMonitor.TriggerDown]))
  /\ (forall (hotkey : option string) (os : string -> InputMonitor.Registration),
      InputMonitor.accelerator hotkey = None ->
      InputMonitor.start hotkey os InputMonitor.initial
      = (InputMonitor.MkMonitor false true None false false [], [])).
Proof.
  split.
  - intros hotkey os a Ha Hos m1. subst m1.
    unfold InputMonitor.start, InputMonitor.registerHotkey. cbn. rewrite Ha.
    assert (Hfail : forall X Y : InputMonitor.Monitor * list InputMonitor.Emitted,
              match os a with
              | InputMonitor.Registered => X
              | InputMonitor.Refused | InputMonitor.Thrown => Y
              end = Y) by (intros X Y; destruct (os a); congruence).
    rewrite Hfail. cbn.
    split; [reflexivity|]. split; [reflexivity|]. split; [reflexivity|].
    split; [reflexivity|].
    intros os' Hos'. unfold InputMonitor.updateHotkey, InputMonitor.registerHotkey. cbn.
    rewrite Ha, Hos'. cbn. unfold InputMonitor.press. cbn.
    rewrite String.eqb_refl. split; reflexivity.
  - intros hotkey os Ha. unfold InputMonitor.start, InputMonitor.registerHotkey. cbn.
    rewrite Ha. reflexivity.
Qed.

Lemma monitor_failed_start_witness :
  let refuse := fun _ : string => InputMonitor.Refused in
  snd (InputMonitor.start (Some "F10"%string) refuse InputMonitor.initial)
  = [InputMonitor.HotkeyFailed "F10"].
Proof.
  intros refuse.
  destruct monitor_failed_start as [H _].
  apply (H (Some "F10"%string) refuse "F10"%string); [reflexivity | discriminate].
Defined.

(** * Further properties of [parseButtons] *)

(** ** Strings again *)

Lemma dropWhile_head (p : N -> bool) (s : jsstring) (c : N) (r : jsstring) :
  dropWhile p s = c :: r -> p c = false.
Proof.
  induction s as [|x s IH]; simpl; [discriminate|].
  destruct (p x) eqn:E; [exact IH|]. intros H. injection H as <- _. exact E.
Qed.

Lemma dropWhile_suffix (p : N -> bool) (s : jsstring) :
  exists pre, s = pre ++ dropWhile p s.
Proof.
  induction s as [|x s [pre IH]]; simpl; [exists []; reflexivity|].
  destruct (p x); [exists (x :: pre); simpl; f_equal; exact IH | exists []; reflexivity].
Qed.

Lemma dropWhile_fixed (p : N -> bool) (s : jsstring) :
  p (hd 0%N s) = false -> dropWhile p s = s.
Proof. destruct s as [|x s]; simpl; [reflexivity|]. intros ->. reflexivity. Qed.

Lemma trimEnd_fixed (s : jsstring) :
  s = [] \/ isWhiteSpace (last s 0%N) = false -> trimEnd s = s.
Proof.
  intros [->|H]; [reflexivity|].
  destruct s as [|x s] using rev_ind; [reflexivity|].
  rewrite trimEnd_snoc. rewrite last_last in H. rewrite H. reflexivity.
Qed.

Lemma trimEnd_last (s : jsstring) :
  trimEnd s = [] \/ isWhiteSpace (last (trimEnd s) 0%N) = false.
Proof.
  induction s as [|x s IH] using rev_ind; [left; reflexivity|].
  rewrite trimEnd_snoc. destruct (isWhiteSpace x) eqn:E; [exact IH|].
  right. rewrite last_last. exact E.
Qed.

Lemma last_suffix (pre s : jsstring) (d : N) : s <> [] -> last (pre ++ s) d = last s d.
Proof.
  intros Hs. induction pre as [|x pre IH]; [reflexivity|].
  simpl. destruct (pre ++ s) eqn:E; [|exact IH].
  apply app_eq_nil in E. destruct E. contradiction.
Qed.

(** A trimmed string is empty, or starts and ends with a code unit that is
    not white space; trimming it again changes nothing. *)
Lemma trim_ends (s : jsstring) :
  trim s = []
  \/ (isWhiteSpace (hd 0%N (trim s)) = false /\ isWhiteSpace (last (trim s) 0%N) = false).
Proof.
  unfold trim, trimStart.
  destruct (dropWhile isWhiteSpace (trimEnd s)) as [|c r] eqn:E; [left; reflexivity|].
  right. split; [exact (dropWhile_head _ _ _ _ E)|].
  destruct (dropWhile_suffix isWhiteSpace (trimEnd s)) as [pre Hpre].
  rewrite E in Hpre.
  destruct (trimEnd_last s) as [H|H]; [rewrite H in Hpre; destruct pre; discriminate|].
  rewrite Hpre in H. rewrite last_suffix in H by discriminate. exact H.
Qed.

Lemma trim_fixed (s : jsstring) :
  s = [] \/ (isWhiteSpace (hd 0%N s) = false /\ isWhiteSpace (last s 0%N) = false) ->
  trim s = s.
Proof.
  intros [->|[Hh Hl]]; [reflexivity|].
  unfold trim, trimStart. rewrite trimEnd_fixed by (right; exact Hl).
  apply dropWhile_fixed. exact Hh.
Qed.

Lemma trim_idempotent (s : jsstring) : trim (trim s) = trim s.
Proof. apply trim_fixed. destruct (trim_ends s) as [H|H]; [left | right]; exact H. Qed.

(** ** Further properties of [parseButtons] *)

Lemma bareLoop_counts (l : list jsstring) :
  forall c : nat,
    (c <= 4)%nat ->
    exists k : nat,
      AI.bareLoop l c = (c + k)%nat /\ (k <= length l)%nat /\ (c + k <= 4)%nat
      /\ forallb AI.isBareLine (firstn k l) = true.
Proof.
  induction l as [|x l IH]; intros c Hc.
  - exists 0%nat. cbn. repeat split; lia.
  - rewrite bareLoop_cons. destruct (c <? 4)%nat eqn:E.
    + destruct (AI.isBareLine x) eqn:Ex.
      * apply Nat.ltb_lt in E. destruct (IH (S c)) as (k & H1 & H2 & H3 & H4); [lia|].
        exists (S k). cbn [firstn forallb length]. rewrite Ex, H4, H1.
        repeat split; lia.
      * exists 0%nat. cbn. repeat split; lia.
    + exists 0%nat. cbn. repeat split; lia.
Qed.

Lemma sliceLast_rev {A} (k : nat) (l : list A) :
  (k <= length l)%nat -> sliceLast k l = rev (firstn k (rev l)).
Proof.
  intros Hk. unfold sliceLast. rewrite firstn_rev, rev_involutive. reflexivity.
Qed.

Lemma forallb_rev {A} (p : A -> bool) (l : list A) :
  forallb p (rev l) = forallb p l.
Proof.
  induction l as [|x l IH]; [reflexivity|].
  cbn. rewrite forallb_app, IH. cbn. rewrite andb_true_r. apply andb_comm.
Qed.

(** What the scan for bare lines hands back, when it hands back anything. *)
Lemma bare_labels (lines : list jsstring) :
  let count := AI.bareLoop (rev lines) 0 in
  (count <= 4)%nat
  /\ length (filterBoolean (map AI.stripMarker (sliceLast count lines))) = count.
Proof.
  intros count. subst count.
  destruct (bareLoop_counts (rev lines) 0) as (k & H1 & H2 & H3 & H4); [lia|].
  rewrite H1. cbn [Nat.add] in *. split; [exact H3|].
  rewrite length_rev in H2. rewrite (sliceLast_rev k lines H2).
  rewrite filterBoolean_bare by (rewrite forallb_rev; exact H4).
  rewrite length_map, length_rev, length_firstn, length_rev. lia.
Qed.

Ltac bare_or_plain text :=
  pose proof (bare_labels (splitOn NL (trimEnd text))) as [Hle Hlen];
  cbv zeta in Hle, Hlen;
  destruct (2 <=? AI.bareLoop (rev (splitOn NL (trimEnd text))) 0)%nat eqn:E4;
  [ match goal with
    | |- context [(0 <? length ?r)%nat] => destruct (0 <? length r)%nat eqn:E5
    end;
    [ cbn [AI.buttons AI.content];
      split; [apply filterBoolean_not_empty|];
      split; [intros _; apply trim_idempotent|];
      intros _; right; rewrite Hlen; apply Nat.leb_le in E4; lia
    | ]
  | ];
  match goal with
  | |- context [negb (jseq ?a ?b)] => destruct (negb (jseq a b))
  end;
  cbn [AI.buttons AI.content];
  (split; [constructor|]; split; [congruence | intros _; left; reflexivity]).

(** [parseButtons] never hands back an empty label; when it hands back
    buttons the content is trimmed; on a text without an opening bracket it
    hands back no button, or two to four. *)
Theorem parseButtons_buttons (text : jsstring) :
  let p := AI.parseButtons text in
  Forall (fun b => b <> []) (AI.buttons p)
  /\ (AI.buttons p <> [] -> trim (AI.content p) = AI.content p)
  /\ (~ In (ch "[") text ->
      AI.buttons p = [] \/ (2 <= length (AI.buttons p) <= 4)%nat).
Proof.
  intros p. subst p. unfold AI.parseButtons.
  destruct (isEmpty text);
    [cbn; split; [constructor|]; split; [congruence | intros _; left; reflexivity]|].
  destruct (exec AI.reButtonsTag text) as [m|] eqn:E1.
  { cbn [AI.buttons AI.content]. split; [apply filterBoolean_not_empty|].
    split; [intros _; apply trim_idempotent|].
    intros Hb. rewrite (exec_needs _ _ _ reButtonsTag_needs Hb) in E1. discriminate. }
  cbv zeta.
  match goal with
  | |- context [match ?t with Some t0 => _ | None => None end] =>
      destruct t as [t0|] eqn:E2
  end.
  { match goal with
    | |- context [(2 <=? length ?l)%nat] => destruct (2 <=? length l)%nat eqn:E3
    end.
    - cbn [AI.buttons AI.content]. split; [apply filterBoolean_not_empty|].
      split; [intros _; apply trim_idempotent|].
      intros Hb. rewrite (exec_needs _ _ _ reTrailingLines_needs Hb),
        (exec_needs _ _ _ reTrailingInline_needs Hb) in E2. discriminate.
    - bare_or_plain text. }
  bare_or_plain text.
Qed.

(** ** Prose is left alone *)

Lemma dropWhile_snoc (p : N -> bool) (c : N) (l : jsstring) :
  p c = false -> exists l1, dropWhile p (l ++ [c]) = l1 ++ [c].
Proof.
  intros Hc. induction l as [|x l [l1 IH]]; simpl.
  - rewrite Hc. exists []. reflexivity.
  - destruct (p x); [exists l1; exact IH | exists (x :: l); reflexivity].
Qed.

(** A greedy star over a character class, followed by nothing, consumes
    the longest prefix in the class. *)
Lemma greedy_star_set (p : N -> bool) (c : list (nat * (nat * nat))) :
  forall (fuel : nat) (s : jsstring) (i : nat),
    (length s < fuel)%nat ->
    exists j,
      repeatMatcher (rmatch (Set_ p)) true (fun y => Some y) fuel 0 None (MState i s c)
      = Some (MState j (dropWhile p s) c).
Proof.
  induction fuel as [|fuel IH]; intros s i Hf; [lia|].
  destruct s as [|x s].
  - exists i. reflexivity.
  - assert (Hne : (S i =? i)%nat = false) by (apply Nat.eqb_neq; lia).
    cbn [repeatMatcher rmatch rest pos caps dropWhile].
    change (0 =? 0)%nat with true. cbn [negb andb].
    destruct (p x) eqn:E.
    + rewrite Hne. cbn [Nat.pred option_map].
      destruct (IH s (S i)) as [j Hj]; [simpl in Hf; lia|].
      exists j. cbn [rmatch] in Hj. rewrite Hj. reflexivity.
    + exists i. reflexivity.
Qed.

Lemma execFrom_bol (r : regex) (s : jsstring) :
  forall i : nat, execFrom (Cat Bol r) (S i) s = None.
Proof.
  induction s as [|x s IH]; intros i; [reflexivity|].
  simpl. apply IH.
Qed.

Lemma stripMarker_snoc (l : jsstring) (c : N) :
  isWhiteSpace c = false ->
  existsb (N.eqb c) [ch "-"; BULLET; ch "*"] = false ->
  exists l2, AI.stripMarker (l ++ [c]) = l2 ++ [c].
Proof.
  intros Hw Hm. unfold AI.stripMarker.
  assert (Ht : exists l1, trim (l ++ [c]) = l1 ++ [c]).
  { unfold trim, trimStart. rewrite trimEnd_snoc, Hw. apply dropWhile_snoc. exact Hw. }
  destruct Ht as [l1 ->].
  unfold replace, exec.
  destruct (l1 ++ [c]) as [|x t] eqn:E; [destruct l1; discriminate|].
  change AI.reListMarker
    with (Cat Bol (seq [oneOf [ch "-"; BULLET; ch "*"]; star ws])).
  cbn [execFrom]. rewrite execFrom_bol.
  unfold matchAt, seq, oneOf, star, ws.
  cbn [rmatch pos rest caps Nat.eqb].
  destruct (existsb (N.eqb x) [ch "-"; BULLET; ch "*"]) eqn:Ex.
  - destruct l1 as [|y l1].
    + injection E as <- <-. rewrite Hm in Ex. discriminate.
    + injection E as <- <-.
      destruct (greedy_star_set isWhiteSpace [] (S (0 + length (l1 ++ [c]))) (l1 ++ [c]) 1)
        as [j Hj]; [lia|].
      cbn [rmatch] in Hj. rewrite Hj. cbn [index final rest firstn app].
      apply dropWhile_snoc. exact Hw.
  - exists l1. rewrite <- E. destruct l1; reflexivity.
Qed.

Lemma splitOn_snoc (sep c : N) (s : jsstring) :
  c <> sep -> exists init l, splitOn sep (s ++ [c]) = init ++ [l ++ [c]].
Proof.
  intros Hc. induction s as [|x s (init & l & IH)].
  - exists [], []. simpl. destruct (N.eqb_spec c sep); [contradiction | reflexivity].
  - simpl. rewrite IH. destruct (x =? sep)%N.
    + exists ([] :: init), l. reflexivity.
    + destruct init as [|h init]; simpl.
      * exists [], (x :: l). reflexivity.
      * exists ((x :: h) :: init), l. reflexivity.
Qed.

Lemma splitOn_single (sep : N) (s : jsstring) : ~ In sep s -> splitOn sep s = [s].
Proof.
  induction s as [|x s IH]; intros H; [reflexivity|].
  simpl. destruct (N.eqb_spec x sep) as [->|Hx]; [exfalso; apply H; left; reflexivity|].
  rewrite IH by (intros Hi; apply H; right; exact Hi). reflexivity.
Qed.

(** A line that ends in closing punctuation is not a bare line. *)
Lemma punctuated_not_bare (l : jsstring) (c : N) :
  In c [ch "."; ch "!"; ch "?"; ch ":"; ch ";"] -> AI.isBareLine (l ++ [c]) = false.
Proof.
  intros Hc.
  assert (Hw : isWhiteSpace c = false /\ existsb (N.eqb c) [ch "-"; BULLET; ch "*"] = false
               /\ existsb (N.eqb c) [ch "."; ch "!"; ch "?"; ch ":"; ch ";"] = true).
  { simpl in Hc. decompose [or] Hc; subst; try contradiction; repeat split; reflexivity. }
  destruct Hw as (Hw & Hm & Hp).
  destruct (stripMarker_snoc l c Hw Hm) as [l2 Hl2].
  unfold AI.isBareLine. rewrite Hl2.
  assert (Ht : test AI.reTerminal (l2 ++ [c] ++ []) = true).
  { apply test_found. intros i. unfold matchAt, AI.reTerminal, seq, oneOf.
    cbn [rmatch app rest pos caps]. rewrite Hp. discriminate. }
  rewrite app_nil_r in Ht. rewrite Ht. cbn. rewrite !andb_false_r. reflexivity.
Qed.

(** The result on a text without an opening bracket in which the scan
    finds fewer than two bare lines. *)
Lemma parseButtons_plain (text : jsstring) :
  ~ In (ch "[") text ->
  (AI.bareLoop (rev (splitOn NL (trimEnd text))) 0 < 2)%nat ->
  AI.parseButtons text = AI.MkParsed text [].
Proof.
  intros Hb Hc. unfold AI.parseButtons.
  destruct (isEmpty text) eqn:Ee; [apply isEmpty_true in Ee; subst; reflexivity|].
  rewrite (exec_needs _ _ _ reButtonsTag_needs Hb),
          (exec_needs _ _ _ reTrailingLines_needs Hb),
          (exec_needs _ _ _ reTrailingInline_needs Hb).
  cbv zeta.
  replace (2 <=? AI.bareLoop (rev (splitOn NL (trimEnd text))) 0)%nat with false
    by (symmetry; apply Nat.leb_gt; exact Hc).
  unfold replace. rewrite (exec_needs _ _ _ reIncompleteTag_needs Hb).
  rewrite jseq_refl. reflexivity.
Qed.

(** A response without an opening bracket that is one line, or whose last
    character other than white space is closing punctuation, comes back
    unchanged and without buttons. *)
Theorem parseButtons_prose (text : jsstring) :
  ~ In (ch "[") text ->
  (~ In NL (trimEnd text)
   \/ exists body c,
        trimEnd text = body ++ [c]
        /\ In c [ch "."; ch "!"; ch "?"; ch ":"; ch ";"]) ->
  AI.parseButtons text = AI.MkParsed text [].
Proof.
  intros Hb H. apply parseButtons_plain; [exact Hb|].
  destruct H as [H|(body & c & H & Hc)].
  - rewrite (splitOn_single _ _ H). cbn [rev app]. rewrite bareLoop_cons.
    cbn [Nat.ltb Nat.leb]. destruct (AI.isBareLine (trimEnd text)); cbn; lia.
  - rewrite H.
    destruct (splitOn_snoc NL c body) as (init & l & ->).
    { simpl in Hc. decompose [or] Hc; subst; try contradiction; discriminate. }
    rewrite rev_app_distr. cbn [rev app]. rewrite bareLoop_cons.
    rewrite (punctuated_not_bare l c Hc). cbn. lia.
Qed.

Lemma parseButtons_prose_witness :
  AI.parseButtons (js "Restart the service." ++ [NL] ++ js "Then try again." ++ [NL])
  = AI.MkParsed (js "Restart the service." ++ [NL] ++ js "Then try again." ++ [NL]) [].
Proof.
  apply parseButtons_prose.
  - vm_compute. intuition discriminate.
  - right. exists (js "Restart the service." ++ [NL] ++ js "Then try again"), (ch ".").
    split; [vm_compute; reflexivity | left; reflexivity].
Defined.

(** ** The complete tag *)

Lemma repeatMatcher_S (m : mstate -> (mstate -> option mstate) -> option mstate)
  (greedy : bool) (k : mstate -> option mstate) (fuel min : nat) (x : mstate) :
  repeatMatcher m greedy k (S fuel) min None x
  = let d := fun y =>
      if (min =? 0)%nat && (pos y =? pos x)%nat then None
      else repeatMatcher m greedy k fuel (Nat.pred min) None y in
    if negb (min =? 0)%nat then m x d
    else if greedy then match m x d with Some z => Some z | None => k x end
         else match k x with Some z => Some z | None => m x d end.
Proof. reflexivity. Qed.

(** A greedy star over a character class takes the whole run [pre] of the
    class when the class does not go on after it. *)
Lemma greedy_star (p : N -> bool) (k : mstate -> option mstate)
  (post : jsstring) (c : list (nat * (nat * nat))) (z : mstate) :
  post = [] \/ p (hd 0%N post) = false ->
  forall (pre : jsstring) (i fuel : nat),
    forallb p pre = true ->
    (length pre < fuel)%nat ->
    k (MState (i + length pre) post c) = Some z ->
    repeatMatcher (rmatch (Set_ p)) true k fuel 0 None (MState i (pre ++ post) c) = Some z.
Proof.
  intros Hpost. induction pre as [|x pre IH]; intros i fuel Hall Hf Hk.
  - destruct fuel as [|fuel]; [simpl in Hf; lia|].
    simpl length in Hk. rewrite Nat.add_0_r in Hk.
    cbn [repeatMatcher rmatch rest pos caps app].
    change (0 =? 0)%nat with true. cbn [negb andb].
    destruct Hpost as [->|Hp]; [exact Hk|].
    destruct post as [|y post]; [exact Hk|]. simpl in Hp. rewrite Hp. exact Hk.
  - destruct fuel as [|fuel]; [simpl in Hf; lia|].
    simpl in Hall. apply andb_true_iff in Hall. destruct Hall as [Hx Hall].
    assert (Hne : (S i =? i)%nat = false) by (apply Nat.eqb_neq; lia).
    cbn [repeatMatcher rmatch rest pos caps app].
    change (0 =? 0)%nat with true. cbn [negb andb].
    rewrite Hx, Hne. cbn [Nat.pred option_map].
    pose proof (IH (S i) fuel Hall) as H. cbn [rmatch] in H. rewrite H; [reflexivity | | ].
    + simpl in Hf. lia.
    + simpl length in Hk. rewrite Nat.add_succ_r in Hk. exact Hk.
Qed.

(** A lazy star over any character stops at the first place where what
    follows it matches. *)
Lemma lazy_star_any (k : mstate -> option mstate)
  (post : jsstring) (c : list (nat * (nat * nat))) (z : mstate) :
  forall (mid : jsstring) (i fuel : nat),
    (length mid < fuel)%nat ->
    (forall pre x suf,
        mid = pre ++ x :: suf ->
        k (MState (i + length pre) (x :: suf ++ post) c) = None) ->
    k (MState (i + length mid) post c) = Some z ->
    repeatMatcher (rmatch anyChar) false k fuel 0 None (MState i (mid ++ post) c) = Some z.
Proof.
  induction mid as [|x mid IH]; intros i fuel Hf Hnone Hk.
  - destruct fuel as [|fuel]; [simpl in Hf; lia|].
    simpl length in Hk. rewrite Nat.add_0_r in Hk.
    cbn [repeatMatcher app]. change (0 =? 0)%nat with true. cbn [negb].
    rewrite Hk. reflexivity.
  - destruct fuel as [|fuel]; [simpl in Hf; lia|].
    assert (Hne : (S i =? i)%nat = false) by (apply Nat.eqb_neq; lia).
    pose proof (Hnone [] x mid eq_refl) as H0. simpl in H0. rewrite Nat.add_0_r in H0.
    cbn [repeatMatcher app]. change (0 =? 0)%nat with true. cbn [negb andb].
    rewrite H0. unfold anyChar at 1. cbn [rmatch rest pos caps]. rewrite Hne.
    cbn [Nat.pred option_map].
    apply IH.
    + simpl in Hf. lia.
    + intros pre y suf E.
      specialize (Hnone (x :: pre) y suf). simpl in Hnone.
      rewrite Nat.add_succ_r in Hnone. apply Hnone. rewrite E. reflexivity.
    + simpl length in Hk. rewrite Nat.add_succ_r in Hk. exact Hk.
Qed.

Lemma lazy_plus_any (k : mstate -> option mstate)
  (post : jsstring) (c : list (nat * (nat * nat))) (z : mstate)
  (x : N) (mid : jsstring) (i : nat) :
  (forall pre y suf,
      mid = pre ++ y :: suf ->
      k (MState (S i + length pre) (y :: suf ++ post) c) = None) ->
  k (MState (S i + length mid) post c) = Some z ->
  rmatch (lazyPlus anyChar) (MState i (x :: mid ++ post) c) k = Some z.
Proof.
  intros Hnone Hk. unfold lazyPlus.
  assert (Hne : (S i =? i)%nat = false) by (apply Nat.eqb_neq; lia).
  cbn [rmatch rest]. rewrite repeatMatcher_S. cbv zeta.
  change (1 =? 0)%nat with false.
  cbn [negb andb]. unfold anyChar at 1. cbn [rmatch rest pos caps Nat.pred].
  apply lazy_star_any; [simpl; rewrite length_app; lia | exact Hnone | exact Hk].
Qed.

Lemma rmatch_cat (a b : regex) (x : mstate) (k : mstate -> option mstate) :
  rmatch (Cat a b) x k = rmatch a x (fun y => rmatch b y k).
Proof. reflexivity. Qed.

Lemma rmatch_star_set (p : N -> bool) (x : mstate) (k : mstate -> option mstate) :
  rmatch (star (Set_ p)) x k
  = repeatMatcher (rmatch (Set_ p)) true k (S (length (rest x))) 0 None x.
Proof. reflexivity. Qed.

Lemma upper_closing (c : N) : (upper c =? upper (ch "]"))%N = true -> c = ch "]".
Proof.
  intros H. apply N.eqb_eq in H. change (upper (ch "]")) with 93%N in H.
  change (ch "]") with 93%N. unfold upper in H.
  destruct ((97 <=? c)%N && (c <=? 122)%N) eqn:E; [|exact H].
  apply andb_true_iff in E. destruct E as [E1 E2].
  apply N.leb_le in E1. apply N.leb_le in E2. lia.
Qed.

(** The complete tag is matched where it stands: the group is what lies
    between the white space after the colon and the closing bracket. *)
Lemma reButtonsTag_matchAt (sp tail : jsstring) (x : N) (mid : jsstring) (i : nat) :
  forallb isWhiteSpace sp = true ->
  forallb isWhiteSpace tail = true ->
  isWhiteSpace x = false ->
  ~ In (ch "]") (x :: mid) ->
  exists e,
    matchAt AI.reButtonsTag i (js "[BUTTONS:" ++ sp ++ (x :: mid) ++ [ch "]"] ++ tail)
    = Some (MState e []
              [(1%nat, ((i + 9 + length sp)%nat,
                        (i + 9 + length sp + length (x :: mid))%nat))]).
Proof.
  intros Hsp Htail Hx Hno. eexists. unfold matchAt.
  change AI.reButtonsTag
    with (Cat (liti (js "[BUTTONS:"))
            (Cat (star (Set_ isWhiteSpace))
               (Cat (Grp 1 (lazyPlus anyChar))
                  (Cat (chri (ch "]")) (Cat (star (Set_ isWhiteSpace)) (Cat Eol Eps)))))).
  rewrite rmatch_cat, rmatch_liti by reflexivity.
  rewrite rmatch_cat, rmatch_star_set. cbn [rest].
  apply greedy_star; [right; exact Hx | exact Hsp | rewrite length_app; lia |].
  rewrite rmatch_cat. cbn [rmatch pos] . 
  change (rmatch (lazyPlus anyChar) ?s ?k) with (rmatch (lazyPlus anyChar) s k).
  cbn [app].
  apply lazy_plus_any.
  - intros pre y suf E. unfold setCap, chri. cbn [rmatch rest pos caps].
    destruct (upper y =? upper (ch "]"))%N eqn:Ey; [|reflexivity].
    apply upper_closing in Ey. subst y. exfalso. apply Hno. right. rewrite E.
    apply in_or_app. right. left. reflexivity.
  - unfold setCap, chri. cbn [rmatch rest pos caps app].
    rewrite N.eqb_refl.
    change (repeatMatcher _ true ?k ?f 0 None ?s)
      with (rmatch (star (Set_ isWhiteSpace)) s k).
    rewrite rmatch_star_set. cbn [rest pos caps].
    rewrite <- (app_nil_r tail) at 2.
    apply greedy_star; [left; reflexivity | exact Htail | lia |].
    cbn [rmatch rest]. change (length (js "[BUTTONS:")) with 9%nat. simpl length.
    replace (i + 9 + length sp + S (length mid))%nat
      with (S (i + 9 + length sp) + length mid)%nat by lia.
    reflexivity.
Qed.

Lemma execFrom_skip (r : regex) (pre s : jsstring) :
  (forall i x t, In x pre -> matchAt r i (x :: t) = None) ->
  forall i : nat, execFrom r i (pre ++ s) = execFrom r (i + length pre) s.
Proof.
  intros H. induction pre as [|x pre IH]; intros i.
  - simpl. rewrite Nat.add_0_r. reflexivity.
  - simpl. rewrite (H i x (pre ++ s)) by (left; reflexivity).
    rewrite IH by (intros j y t Hy; apply H; right; exact Hy).
    rewrite Nat.add_succ_r. reflexivity.
Qed.

Lemma execFrom_here (r : regex) (i : nat) (s : jsstring) (y : mstate) :
  matchAt r i s = Some y -> execFrom r i s = Some (MkMatch i y).
Proof. intros H. destruct s; simpl; rewrite H; reflexivity. Qed.

Lemma reButtonsTag_starts (i : nat) (x : N) (t : jsstring) :
  x <> ch "[" -> matchAt AI.reButtonsTag i (x :: t) = None.
Proof.
  intros Hx. unfold matchAt.
  change AI.reButtonsTag
    with (Cat (Cat (chri (ch "[")) (liti (js "BUTTONS:")))
            (JS.seq [star ws; Grp 1 (lazyPlus anyChar); chri (ch "]"); star ws; Eol])).
  rewrite !rmatch_cat. unfold chri at 1. cbn [rmatch rest].
  destruct (upper x =? upper (ch "["))%N eqn:E; [|reflexivity].
  apply chri_bracket in E. contradiction.
Qed.

Lemma substring_mid {A} (pre mid post : list A) :
  firstn (length pre + length mid - length pre) (skipn (length pre) (pre ++ mid ++ post))
  = mid.
Proof.
  rewrite skipn_app, skipn_all, Nat.sub_diag. simpl.
  replace (length pre + length mid - length pre)%nat with (length mid) by lia.
  rewrite firstn_app, firstn_all, Nat.sub_diag. simpl. apply app_nil_r.
Qed.

Lemma splitOn_app_sep (sep : N) (l rest : jsstring) :
  ~ In sep l -> splitOn sep (l ++ sep :: rest) = l :: splitOn sep rest.
Proof.
  induction l as [|x l IH]; intros H.
  - simpl. rewrite N.eqb_refl. reflexivity.
  - simpl. destruct (N.eqb_spec x sep) as [->|Hx]; [exfalso; apply H; left; reflexivity|].
    rewrite IH by (intros Hi; apply H; right; exact Hi). reflexivity.
Qed.

Lemma splitOn_join (l : jsstring) (ls : list jsstring) :
  Forall (fun s => ~ In (ch ",") s) (l :: ls) ->
  splitOn (ch ",") (join (js ", ") (l :: ls)) = l :: map (cons (ch " ")) ls.
Proof.
  revert l. induction ls as [|l' ls IH]; intros l H.
  - simpl. apply splitOn_single. inversion H; assumption.
  - inversion H as [|? ? Hl Hls]; subst.
    change (join (js ", ") (l :: l' :: ls))
      with (l ++ ch "," :: ch " " :: join (js ", ") (l' :: ls)).
    rewrite splitOn_app_sep by exact Hl.
    change (splitOn (ch ",") (ch " " :: ?s))
      with (match splitOn (ch ",") s with h :: r => (ch " " :: h) :: r | [] => [[ch " "]] end).
    rewrite (IH l' Hls). reflexivity.
Qed.

Lemma in_join (c : N) (sep : jsstring) (ls : list jsstring) :
  In c (join sep ls) -> In c sep \/ exists l, In l ls /\ In c l.
Proof.
  induction ls as [|l ls IH]; [contradiction|].
  destruct ls as [|l' ls].
  - simpl. intros H. right. exists l. split; [left; reflexivity | exact H].
  - change (join sep (l :: l' :: ls)) with (l ++ sep ++ join sep (l' :: ls)).
    intros H. apply in_app_or in H. destruct H as [H|H].
    + right. exists l. split; [left; reflexivity | exact H].
    + apply in_app_or in H. destruct H as [H|H]; [left; exact H|].
      destruct (IH H) as [H'|(m & Hm & Hc)]; [left; exact H'|].
      right. exists m. split; [right; exact Hm | exact Hc].
Qed.

Lemma trim_after_space (l : jsstring) : l <> [] -> trim l = l -> trim (ch " " :: l) = l.
Proof.
  intros Hne Ht. destruct (trim_ends l) as [H|[Hh Hl]]; [congruence|].
  rewrite Ht in Hh, Hl. unfold trim, trimStart.
  rewrite trimEnd_fixed.
  - simpl. apply dropWhile_fixed. exact Hh.
  - right. destruct l as [|x l]; [congruence|]. exact Hl.
Qed.

(** The pattern for a quote at either end matches nowhere in a string that
    neither starts nor ends with a quote. *)
Lemma scan_quotes (s : jsstring) :
  forall (i fuel : nat),
    (i = 0%nat -> existsb (N.eqb (hd 0%N s)) [QUOTE; APOS] = false) ->
    existsb (N.eqb (last s 0%N)) [QUOTE; APOS] = false ->
    scan fuel AI.reQuotes i s = [].
Proof.
  induction s as [|x s IH]; intros i fuel Hh Hl.
  - destruct fuel; [reflexivity|]. unfold AI.reQuotes, oneOf. cbn.
    destruct (i =? 0)%nat; reflexivity.
  - destruct fuel as [|fuel]; [reflexivity|].
    assert (Hm : matchAt AI.reQuotes i (x :: s) = None).
    { unfold matchAt, AI.reQuotes, oneOf. cbn [rmatch rest pos caps].
      destruct (i =? 0)%nat eqn:Ei.
      - apply Nat.eqb_eq in Ei. pose proof (Hh Ei) as Hx. cbn [hd] in Hx.
        rewrite Hx. reflexivity.
      - destruct (existsb (N.eqb x) [QUOTE; APOS]) eqn:Ex; [|reflexivity].
        destruct s; [|reflexivity]. simpl in Hl. simpl in Ex. congruence. }
    cbn [scan]. rewrite Hm. apply IH; [intros; lia|].
    destruct s as [|y s]; [reflexivity | exact Hl].
Qed.

Lemma replaceAll_quotes (l : jsstring) :
  existsb (N.eqb (hd 0%N l)) [QUOTE; APOS] = false ->
  existsb (N.eqb (last l 0%N)) [QUOTE; APOS] = false ->
  replaceAll AI.reQuotes [] l = l.
Proof.
  intros Hh Hl. unfold replaceAll, matchAll.
  rewrite scan_quotes; [reflexivity | intros _; exact Hh | exact Hl].
Qed.

Lemma plainLabel_spec (l : jsstring) :
  AI.plainLabel l = true ->
  l <> [] /\ trim l = l /\ ~ In (ch ",") l /\ ~ In (ch "]") l
  /\ replaceAll AI.reQuotes [] l = l.
Proof.
  unfold AI.plainLabel. intros H.
  repeat (apply andb_true_iff in H; let H' := fresh "H" in destruct H as [H H']).
  apply negb_true_iff in H, H0, H1. apply isEmpty_false in H. apply jseq_eq in H3.
  rewrite forallb_forall in H2.
  repeat split; try assumption.
  - intros Hi. specialize (H2 _ Hi). discriminate.
  - intros Hi. specialize (H2 _ Hi). discriminate.
  - apply replaceAll_quotes; assumption.
Qed.

Lemma labels_recovered (ls : list jsstring) :
  forallb AI.plainLabel ls = true ->
  filterBoolean (map (fun s => replaceAll AI.reQuotes [] (trim s)) (map (cons (ch " ")) ls))
  = ls.
Proof.
  induction ls as [|l ls IH]; intros H; [reflexivity|].
  simpl in H. apply andb_true_iff in H. destruct H as [Hl Hls].
  destruct (plainLabel_spec l Hl) as (Hne & Ht & _ & _ & Hq).
  cbn [map]. rewrite (trim_after_space l Hne Ht), Hq.
  unfold filterBoolean in *. cbn [filter].
  destruct l; [congruence|]. cbn [isEmpty negb]. rewrite (IH Hls). reflexivity.
Qed.

(** A response that ends in a complete tag: the content before the tag,
    trimmed, and the labels of the tag. *)
Theorem parseButtons_complete_tag (content sp tail : jsstring) (labels : list jsstring) :
  ~ In (ch "[") content ->
  forallb isWhiteSpace sp = true ->
  forallb isWhiteSpace tail = true ->
  labels <> [] ->
  forallb AI.plainLabel labels = true ->
  AI.parseButtons
    (content ++ js "[BUTTONS:" ++ sp ++ join (js ", ") labels ++ [ch "]"] ++ tail)
  = AI.MkParsed (trim content) labels.
Proof.
  intros Hc Hsp Htail Hne Hall.
  destruct labels as [|l ls]; [congruence|]. clear Hne.
  pose proof Hall as Hall'. cbn [forallb] in Hall'.
  apply andb_true_iff in Hall'. destruct Hall' as [Hl Hls].
  destruct (plainLabel_spec l Hl) as (Hne & Ht & Hcomma & Hclose & Hq).
  assert (Hcommas : Forall (fun s => ~ In (ch ",") s) (l :: ls)).
  { apply Forall_forall. intros s Hs. rewrite forallb_forall in Hall.
    apply (plainLabel_spec s (Hall s Hs)). }
  assert (Hcloses : ~ In (ch "]") (join (js ", ") (l :: ls))).
  { intros Hi. apply in_join in Hi. destruct Hi as [Hi|(s & Hs & Hi)].
    - simpl in Hi. intuition discriminate.
    - rewrite forallb_forall in Hall. apply (plainLabel_spec s (Hall s Hs)). exact Hi. }
  destruct (join (js ", ") (l :: ls)) as [|x mid] eqn:EJ.
  { exfalso. destruct l; [congruence|]. destruct ls; discriminate. }
  assert (Hx : isWhiteSpace x = false).
  { destruct (trim_ends l) as [H|[Hh _]]; [congruence|]. rewrite Ht in Hh.
    destruct l as [|y l]; [congruence|].
    destruct ls; simpl in EJ; injection EJ as <- _; exact Hh. }
  destruct (reButtonsTag_matchAt sp tail x mid (length content) Hsp Htail Hx Hcloses)
    as [e He].
  unfold AI.parseButtons.
  destruct (isEmpty _) eqn:Ee.
  { apply isEmpty_true in Ee. apply app_eq_nil in Ee. destruct Ee as [_ Ee]. discriminate. }
  unfold exec. rewrite execFrom_skip.
  2:{ intros i y t Hy. apply reButtonsTag_starts. intros ->. contradiction. }
  cbn [Nat.add].
  rewrite (execFrom_here _ _ _ _ He).
  unfold group, substring. cbn [index final caps lookupCap Nat.eqb].
  rewrite firstn_app, firstn_all, Nat.sub_diag, firstn_O, app_nil_r. f_equal.
  replace (content ++ js "[BUTTONS:" ++ sp ++ (x :: mid) ++ [ch "]"] ++ tail)
    with ((content ++ js "[BUTTONS:" ++ sp) ++ (x :: mid) ++ ([ch "]"] ++ tail))
    by (rewrite <- !app_assoc; reflexivity).
  replace (length content + 9 + length sp)%nat
    with (length (content ++ js "[BUTTONS:" ++ sp))
    by (rewrite !length_app; change (length (js "[BUTTONS:")) with 9%nat; lia).
  rewrite substring_mid, <- EJ, (splitOn_join l ls Hcommas).
  cbn [map]. rewrite Ht, Hq.
  unfold filterBoolean at 1. cbn [filter].
  destruct l as [|y l]; [congruence|]. cbn [isEmpty negb]. f_equal.
  apply labels_recovered. exact Hls.
Qed.

Lemma parseButtons_complete_tag_witness :
  AI.parseButtons
    (js "Reply drafted." ++ js "[BUTTONS:" ++ js " "
     ++ join (js ", ") [js "More formal"; js "More casual"; js "Copy"]
     ++ [ch "]"] ++ [NL])
  = AI.MkParsed (trim (js "Reply drafted.")) [js "More formal"; js "More casual"; js "Copy"].
Proof.
  apply parseButtons_complete_tag.
  - vm_compute. intuition discriminate.
  - reflexivity.
  - reflexivity.
  - discriminate.
  - vm_compute. reflexivity.
Defined.

(** * Further properties of the session *)

(** ** Handlers registered more than once *)

Lemma times_onFinal (t : jsstring) :
  forall (n : nat) (w : World),
    recordingOrConversing w = true ->
    let w' := fst (times n (onFinal t) w) in
    map text (segments (currentRound (orch w')))
    = map text (segments (currentRound (orch w))) ++ repeat (trim t) n
    /\ state (orch w') = state (orch w) /\ listeners w' = listeners w.
Proof.
  induction n as [|n IH]; intros w H.
  - cbn. rewrite app_nil_r. repeat split.
  - cbn [times]. unfold andThen.
    destruct (onFinal_segment t w H) as (Hseg & Hst & Hlis & _).
    destruct (onFinal t w) as [w1 e1] eqn:E1. cbn [fst] in Hseg, Hst, Hlis.
    assert (H1 : recordingOrConversing w1 = true).
    { unfold recordingOrConversing, inState in *. rewrite Hst. exact H. }
    destruct (IH w1 H1) as (Hseg' & Hst' & Hlis').
    destruct (times n (onFinal t) w1) as [w2 e2]. cbn [fst] in *.
    rewrite Hseg', Hseg, <- app_assoc. cbn [repeat app].
    repeat split; congruence.
Qed.

Lemma finals_per_listener (texts : list jsstring) :
  forall w : World,
    recordingOrConversing w = true ->
    map text (segments (currentRound (orch (fst (run (map TranscribeFinal texts) w)))))
    = map text (segments (currentRound (orch w)))
      ++ flat_map (fun t => repeat (trim t) (listeners w)) (filter emitted texts).
Proof.
  induction texts as [|t texts IH]; intros w Hs.
  - simpl. rewrite app_nil_r. reflexivity.
  - cbn [map filter]. rewrite run_cons. cbn [fst snd step]. unfold when.
    destruct (emitted t); [|apply IH; assumption].
    destruct (times_onFinal t (listeners w) w Hs) as (Hseg & Hst & Hlis).
    cbv zeta in Hseg, Hst, Hlis.
    rewrite IH.
    + rewrite Hseg, Hlis, <- app_assoc. reflexivity.
    + unfold recordingOrConversing, inState in *. rewrite Hst. exact Hs.
Qed.

Lemma onServiceError_keeps (title message : jsstring) (w : World) :
  let w' := fst (onServiceError title message w) in
  state (orch w') = CONVERSING /\ listeners w' = listeners w
  /\ aiInFlight (orch w') = aiInFlight (orch w)
  /\ finalizing (orch w') = finalizing (orch w)
  /\ deps (orch w') = deps (orch w).
Proof.
  destruct w as [o l p n]. destruct o as [d st c rd rn s0 cr ai fin].
  destruct d as [ov wsv cs ts hs bs hl hf sp cm lc].
  unfold onServiceError, when, andThen.
  destruct (test reSignature message), ov, ts, lc; crunch; repeat split.
Qed.

Lemma first_trigger (d : Deps) (b : bool) :
  transcribeService d = true ->
  let w := fst (step (TriggerDown b) (initialWorld d)) in
  state (orch w) = RECORDING /\ listeners w = 1
  /\ hd_error (pool w) = Some KStartTranscription
  /\ aiInFlight (orch w) = false /\ finalizing (orch w) = false
  /\ deps (orch w) = d.
Proof.
  destruct d as [ov wsv cs ts hs bs hl hf sp cm lc]. cbn [transcribeService].
  intros ->. destruct b, ov, wsv, cs, hl, cm; crunch; repeat split.
Qed.

Lemma trigger_new_round (w : World) (b : bool) :
  state (orch w) = CONVERSING ->
  aiInFlight (orch w) = false -> finalizing (orch w) = false ->
  transcribeService (deps (orch w)) = true ->
  let w' := fst (step (TriggerDown b) w) in
  state (orch w') = RECORDING /\ listeners w' = S (listeners w)
  /\ segments (currentRound (orch w')) = []
  /\ roundNumber (orch w') = S (roundNumber (orch w)).
Proof.
  destruct w as [o l p n]. destruct o as [d st c rd rn s0 cr ai fin].
  destruct d as [ov wsv cs ts hs bs hl hf sp cm lc].
  cbn [orch state aiInFlight finalizing deps transcribeService].
  intros -> -> -> ->. destruct b, ov; crunch; repeat split.
Qed.

(** The handlers registered by [startTranscription] stay registered after
    a transcription error, which only moves the orchestrator to CONVERSING;
    the next press of the hotkey starts a round and registers them a second
    time.  Every final text is then stored once per registered set. *)
Theorem finals_stored_per_listener :
  (forall (texts : list jsstring) (w : World),
      recordingOrConversing w = true ->
      map text (segments (currentRound (orch (fst (run (map TranscribeFinal texts) w)))))
      = map text (segments (currentRound (orch w)))
        ++ flat_map (fun t => repeat (trim t) (listeners w)) (filter emitted texts))
  /\ (forall (d : Deps) (message : jsstring) (b1 b2 : bool) (failure : Event),
         transcribeService d = true ->
         failure = TranscribeError message \/ failure = Settle 0 (Rejected message) ->
         let w := fst (run [TriggerDown b1; failure; TriggerDown b2] (initialWorld d)) in
         state (orch w) = RECORDING /\ listeners w = 2
         /\ segments (currentRound (orch w)) = []).
Proof.
  split; [exact finals_per_listener|].
  intros d message b1 b2 failure Hd Hf w. subst w.
  rewrite !run_cons. cbn [run]. unfold skip. cbn [fst snd].
  destruct (first_trigger d b1 Hd) as (Hs1 & Hl1 & Hp1 & Ha1 & Hf1 & Hd1).
  cbv zeta in Hs1, Hl1, Hp1, Ha1, Hf1, Hd1.
  set (w1 := fst (step (TriggerDown b1) (initialWorld d))) in *.
  assert (H2 : let w2 := fst (step failure w1) in
               state (orch w2) = CONVERSING /\ listeners w2 = 1
               /\ aiInFlight (orch w2) = false /\ finalizing (orch w2) = false
               /\ deps (orch w2) = d).
  { destruct Hf as [-> | ->]; cbn [step].
    - rewrite Hl1. cbn [times]. unfold andThen, skip.
      pose proof (onServiceError_keeps (js "Transcription error") message w1) as H.
      cbv zeta in H. destruct (onServiceError _ message w1) as [w2 e2].
      cbn [fst] in *. intuition congruence.
    - destruct (pool w1) as [|k p] eqn:Ep; [discriminate|].
      cbn [hd_error] in Hp1. injection Hp1 as ->.
      cbn [nth_error ready removeAt resume].
      pose proof (onServiceError_keeps (js "Transcription failed") message
                    (MkWorld (orch w1) (listeners w1) p (now w1))) as H.
      cbv zeta in H. destruct (onServiceError _ message _) as [w2 e2].
      cbn [fst orch listeners] in *. intuition congruence. }
  cbv zeta in H2. destruct H2 as (Hs2 & Hl2 & Ha2 & Hf2 & Hd2).
  set (w2 := fst (step failure w1)) in *.
  assert (Ht2 : transcribeService (deps (orch w2)) = true) by (rewrite Hd2; exact Hd).
  destruct (trigger_new_round w2 b2 Hs2 Ha2 Hf2 Ht2) as (Hs3 & Hl3 & Hg3 & _).
  cbv zeta in Hs3, Hl3, Hg3. rewrite Hl2 in Hl3.
  repeat split; assumption.
Qed.

Lemma finals_stored_per_listener_witness :
  let w := fst (run [TriggerDown false; TranscribeError (js "socket closed");
                     TriggerDown false] (initialWorld allDeps)) in
  map text (segments (currentRound (orch (fst (run [TranscribeFinal (js "hello ")] w)))))
  = [js "hello"; js "hello"].
Proof.
  intros w. destruct finals_stored_per_listener as [H1 H2].
  destruct (H2 allDeps (js "socket closed") false false
              (TranscribeError (js "socket closed")) eq_refl (or_introl eq_refl))
    as (Hs & Hl & Hg).
  fold w in Hs, Hl, Hg.
  change [TranscribeFinal (js "hello ")] with (map TranscribeFinal [js "hello "]).
  rewrite (H1 [js "hello "] w).
  - rewrite Hg, Hl. reflexivity.
  - unfold recordingOrConversing, inState. rewrite Hs. reflexivity.
Defined.

(** ** Fenced code blocks *)

Lemma rmatch_lit (w : jsstring) :
  forall (post : jsstring) (i : nat) (c : list (nat * (nat * nat)))
         (k : mstate -> option mstate),
    rmatch (lit w) (MState i (w ++ post) c) k = k (MState (i + length w) post c).
Proof.
  induction w as [|a w IH]; intros post i c k.
  - simpl. rewrite Nat.add_0_r. reflexivity.
  - change (lit (a :: w)) with (Cat (chr a) (lit w)).
    cbn [rmatch chr rest pos caps app]. rewrite N.eqb_refl, IH.
    simpl length. rewrite Nat.add_succ_r. reflexivity.
Qed.

Lemma rmatch_lit_other (a : N) (w : jsstring) (x : N) (t : jsstring) (i : nat)
  (c : list (nat * (nat * nat))) (k : mstate -> option mstate) :
  x <> a -> rmatch (lit (a :: w)) (MState i (x :: t) c) k = None.
Proof.
  intros H. change (lit (a :: w)) with (Cat (chr a) (lit w)).
  cbn [rmatch chr rest]. destruct (N.eqb_spec a x); [congruence | reflexivity].
Qed.

Lemma rmatch_lazyStar (x : mstate) (k : mstate -> option mstate) :
  rmatch (lazyStar anyChar) x k
  = repeatMatcher (rmatch anyChar) false k (S (length (rest x))) 0 None x.
Proof. reflexivity. Qed.

Lemma scan_needs (c : N) (r : regex) :
  needs c r ->
  forall (fuel : nat) (s : jsstring) (i : nat), ~ In c s -> scan fuel r i s = [].
Proof.
  intros Hn. induction fuel as [|fuel IH]; intros s i Hs; [reflexivity|].
  cbn [scan]. unfold matchAt. rewrite (rmatch_needs c r Hn) by exact Hs.
  destruct s as [|x s]; [reflexivity|]. apply IH. intros H. apply Hs. right. exact H.
Qed.

Lemma scan_skip (r : regex) (pre s : jsstring) :
  (forall i x t, In x pre -> matchAt r i (x :: t) = None) ->
  forall (fuel i : nat),
    scan (length pre + fuel) r i (pre ++ s) = scan fuel r (i + length pre) s.
Proof.
  intros H. induction pre as [|x pre IH]; intros fuel i.
  - simpl. rewrite Nat.add_0_r. reflexivity.
  - cbn [length Nat.add app scan]. rewrite (H i x (pre ++ s)) by (left; reflexivity).
    rewrite IH by (intros j y t Hy; apply H; right; exact Hy).
    rewrite Nat.add_succ_r. reflexivity.
Qed.

Lemma chr_needs (c : N) : needs c (chr c).
Proof. intros d H. apply N.eqb_eq in H. symmetry. exact H. Qed.

Lemma reCodeBlock_needs : needs TICK reCodeBlock.
Proof.
  change reCodeBlock
    with (Cat (Cat (chr TICK) (lit (js "``")))
            (JS.seq [lazyStar anyChar; chr NL; Grp 1 (lazyStar anyChar); lit FENCE])).
  left. left. apply chr_needs.
Qed.

Lemma reFence_needs : needs TICK reFence.
Proof.
  change reFence
    with (Cat (Cat (chr TICK) (lit (js "``"))) (JS.seq [lazyStar anyChar; lit FENCE])).
  left. left. apply chr_needs.
Qed.

Lemma rmatch_chr (c : N) (t : jsstring) (i : nat) (cs : list (nat * (nat * nat)))
  (k : mstate -> option mstate) :
  rmatch (chr c) (MState i (c :: t) cs) k = k (MState (S i) t cs).
Proof. cbn [rmatch chr rest pos caps]. rewrite N.eqb_refl. reflexivity. Qed.

Lemma rmatch_chr_other (c x : N) (t : jsstring) (i : nat) (cs : list (nat * (nat * nat)))
  (k : mstate -> option mstate) :
  x <> c -> rmatch (chr c) (MState i (x :: t) cs) k = None.
Proof.
  intros H. cbn [rmatch chr rest]. destruct (N.eqb_spec c x); [congruence | reflexivity].
Qed.

Lemma rmatch_grp (n : nat) (a : regex) (x : mstate) (k : mstate -> option mstate) :
  rmatch (Grp n a) x k = rmatch a x (fun y => k (setCap n (pos x) (pos y) y)).
Proof. reflexivity. Qed.

(** One fenced block is matched where it stands; the group is its code. *)
Lemma reCodeBlock_matchAt (lang code post : jsstring) (i : nat) :
  ~ In NL lang -> ~ In TICK code ->
  matchAt reCodeBlock i (FENCE ++ lang ++ [NL] ++ code ++ FENCE ++ post)
  = Some (MState (i + 3 + length lang + 1 + length code + 3) post
            [(1%nat, ((i + 3 + length lang + 1)%nat,
                      (i + 3 + length lang + 1 + length code)%nat))]).
Proof.
  intros Hl Hc. unfold matchAt.
  change reCodeBlock
    with (Cat (lit FENCE)
            (Cat (lazyStar anyChar)
               (Cat (chr NL) (Cat (Grp 1 (lazyStar anyChar)) (Cat (lit FENCE) Eps))))).
  rewrite rmatch_cat, rmatch_lit. change (length FENCE) with 3%nat.
  rewrite rmatch_cat, rmatch_lazyStar. cbn [rest].
  apply lazy_star_any.
  - rewrite length_app. lia.
  - intros pre x suf E. cbv beta. rewrite rmatch_cat. apply rmatch_chr_other.
    intros ->. apply Hl. rewrite E. apply in_or_app. right. left. reflexivity.
  - cbv beta. rewrite rmatch_cat. cbn [app]. rewrite rmatch_chr.
    rewrite rmatch_cat, rmatch_grp, rmatch_lazyStar. cbn [rest pos].
    apply lazy_star_any.
    + rewrite length_app. lia.
    + intros pre x suf E. cbv beta. unfold setCap. cbn [pos rest caps].
      rewrite rmatch_cat. apply rmatch_lit_other. intros ->.
      apply Hc. rewrite E. apply in_or_app. right. left. reflexivity.
    + cbv beta. unfold setCap. cbn [pos rest caps]. rewrite rmatch_cat, rmatch_lit.
      cbn [rmatch]. change (length FENCE) with 3%nat.
      f_equal. f_equal; [lia|]. f_equal. f_equal. f_equal; lia.
Qed.

Lemma reFence_matchAt (body post : jsstring) (i : nat) :
  ~ In TICK body ->
  matchAt reFence i (FENCE ++ body ++ FENCE ++ post)
  = Some (MState (i + 3 + length body + 3) post []).
Proof.
  intros Hb. unfold matchAt.
  change reFence with (Cat (lit FENCE) (Cat (lazyStar anyChar) (Cat (lit FENCE) Eps))).
  rewrite rmatch_cat, rmatch_lit. change (length FENCE) with 3%nat.
  rewrite rmatch_cat, rmatch_lazyStar. cbn [rest].
  apply lazy_star_any.
  - rewrite length_app. lia.
  - intros pre x suf E. cbv beta. rewrite rmatch_cat. apply rmatch_lit_other.
    intros ->. apply Hb. rewrite E. apply in_or_app. right. left. reflexivity.
  - cbv beta. rewrite rmatch_cat, rmatch_lit. reflexivity.
Qed.

(** The matches of a pattern that occurs once: nowhere before [mid], at
    [mid], and nowhere in what follows it. *)
Lemma matchAll_one (c : N) (r : regex) (pre mid post : jsstring) (y : mstate) :
  needs c r ->
  (forall i x t, In x pre -> matchAt r i (x :: t) = None) ->
  matchAt r (length pre) (mid ++ post) = Some y ->
  (length pre < pos y)%nat -> rest y = post -> ~ In c post ->
  matchAll r (pre ++ mid ++ post) = [MkMatch (length pre) y].
Proof.
  intros Hn Hskip Hm Hpos Hrest Hpost. unfold matchAll.
  replace (S (length (pre ++ mid ++ post)))
    with (length pre + S (length (mid ++ post)))%nat by (rewrite !length_app; lia).
  rewrite scan_skip by exact Hskip. cbn [Nat.add scan]. rewrite Hm.
  replace (pos y =? length pre)%nat with false by (symmetry; apply Nat.eqb_neq; lia).
  rewrite Hrest, (scan_needs c r Hn) by exact Hpost. reflexivity.
Qed.

Lemma skipn_exact {A} (n : nat) (a b : list A) : n = length a -> skipn n (a ++ b) = b.
Proof. intros ->. rewrite skipn_app, skipn_all, Nat.sub_diag. reflexivity. Qed.

Lemma fence_starts (r : regex) (i : nat) (x : N) (t : jsstring) :
  x <> TICK -> matchAt (Cat (lit FENCE) r) i (x :: t) = None.
Proof. intros H. unfold matchAt. rewrite rmatch_cat. apply rmatch_lit_other. exact H. Qed.

Section OneBlock.

Variables pre lang code post : jsstring.
Hypothesis Hpre : ~ In TICK pre.
Hypothesis Hlang : ~ In TICK lang /\ ~ In NL lang.
Hypothesis Hcode : ~ In TICK code.
Hypothesis Hpost : ~ In TICK post.

Let content : jsstring := pre ++ FENCE ++ lang ++ [NL] ++ code ++ FENCE ++ post.

Lemma codeBlocks_one : codeBlocks content = filterBoolean [trim code].
Proof.
  unfold codeBlocks.
  pose proof (reCodeBlock_matchAt lang code post (length pre) (proj2 Hlang) Hcode) as Hm.
  match type of Hm with
  | _ = Some ?y =>
      assert (Hall : matchAll reCodeBlock content = [MkMatch (length pre) y])
  end.
  { unfold content.
    replace (pre ++ FENCE ++ lang ++ [NL] ++ code ++ FENCE ++ post)
      with (pre ++ (FENCE ++ lang ++ [NL] ++ code ++ FENCE) ++ post)
      by (rewrite <- !app_assoc; reflexivity).
    apply (matchAll_one TICK).
    - exact reCodeBlock_needs.
    - intros i x t Hx. apply (fence_starts _ i x t). intros ->. contradiction.
    - rewrite <- Hm. f_equal. rewrite <- !app_assoc. reflexivity.
    - cbn [pos]. lia.
    - reflexivity.
    - exact Hpost. }
  rewrite Hall. cbn [map]. f_equal. f_equal. f_equal.
  unfold group, substring. cbn [final caps lookupCap Nat.eqb].
  unfold content.
  replace (pre ++ FENCE ++ lang ++ [NL] ++ code ++ FENCE ++ post)
    with ((pre ++ FENCE ++ lang ++ [NL]) ++ code ++ (FENCE ++ post))
    by (rewrite <- !app_assoc; reflexivity).
  replace (length pre + 3 + length lang + 1)%nat
    with (length (pre ++ FENCE ++ lang ++ [NL]))
    by (rewrite !length_app; change (length FENCE) with 3%nat; simpl; lia).
  apply substring_mid.
Qed.

Lemma outside_one : replaceAll reFence [] content = pre ++ post.
Proof.
  unfold replaceAll.
  assert (Hb : ~ In TICK (lang ++ [NL] ++ code)).
  { intros H. apply in_app_or in H. destruct H as [H|H]; [apply (proj1 Hlang); exact H|].
    apply in_app_or in H. destruct H as [H|H]; [|contradiction].
    simpl in H. destruct H as [H|[]]. discriminate. }
  pose proof (reFence_matchAt (lang ++ [NL] ++ code) post (length pre) Hb) as Hm.
  match type of Hm with
  | _ = Some ?y =>
      assert (Hall : matchAll reFence content = [MkMatch (length pre) y])
  end.
  { unfold content.
    replace (pre ++ FENCE ++ lang ++ [NL] ++ code ++ FENCE ++ post)
      with (pre ++ (FENCE ++ (lang ++ [NL] ++ code) ++ FENCE) ++ post)
      by (rewrite <- !app_assoc; reflexivity).
    apply (matchAll_one TICK).
    - exact reFence_needs.
    - intros i x t Hx. apply (fence_starts _ i x t). intros ->. contradiction.
    - rewrite <- Hm. f_equal. rewrite <- !app_assoc. reflexivity.
    - cbn [pos]. lia.
    - reflexivity.
    - exact Hpost. }
  rewrite Hall. cbn [replaceMatches index final pos app]. unfold substring.
  rewrite Nat.sub_0_r. cbn [skipn]. unfold content.
  rewrite firstn_app, firstn_all, Nat.sub_diag, firstn_O, app_nil_r. f_equal.
  replace (pre ++ FENCE ++ lang ++ [NL] ++ code ++ FENCE ++ post)
    with ((pre ++ FENCE ++ (lang ++ [NL] ++ code) ++ FENCE) ++ post)
    by (rewrite <- !app_assoc; reflexivity).
  apply skipn_exact.
  repeat (rewrite ?length_app; cbn [length]). change (length FENCE) with 3%nat. lia.
Qed.

End OneBlock.

(** A reply with one fenced block: the copy action takes the code of the
    block, trimmed; the automatic copy takes it when the text around the
    block has at most 120 code units once trimmed.  A reply without a
    backtick is taken whole by the copy action and never copied
    automatically. *)
Theorem fenced_block_copied :
  (forall pre lang code post : jsstring,
      ~ In TICK pre -> ~ In TICK lang /\ ~ In NL lang -> ~ In TICK code ->
      ~ In TICK post -> trim code <> [] ->
      let content := pre ++ FENCE ++ lang ++ [NL] ++ code ++ FENCE ++ post in
      extractPasteable content = trim code
      /\ autoCopyIfClean content
         = if (120 <? length (trim (pre ++ post)))%nat then skip
           else call (ClipboardWrite (trim code)) ;; send "overlay:auto-copied" PNone)
  /\ (forall t : jsstring,
         ~ In TICK t -> extractPasteable t = t /\ autoCopyIfClean t = skip).
Proof.
  split.
  - intros pre lang code post Hpre Hlang Hcode Hpost Hne content.
    unfold extractPasteable, autoCopyIfClean.
    assert (He : isEmpty content = false).
    { apply isEmpty_false. unfold content. intros H. apply app_eq_nil in H.
      destruct H as [_ H]. discriminate. }
    rewrite He. unfold content.
    rewrite (codeBlocks_one pre lang code post Hpre Hlang Hcode Hpost),
            (outside_one pre lang code post Hpre Hlang Hcode Hpost).
    unfold filterBoolean. cbn [filter].
    destruct (trim code) as [|c t] eqn:E; [congruence|]. cbn [isEmpty negb join].
    split; reflexivity.
  - intros t Ht. unfold extractPasteable, autoCopyIfClean, codeBlocks, matchAll.
    rewrite (scan_needs TICK reCodeBlock reCodeBlock_needs) by exact Ht.
    cbn [map filterBoolean filter]. destruct (isEmpty t) eqn:E; [|split; reflexivity].
    apply isEmpty_true in E. subst. split; reflexivity.
Qed.

Lemma fenced_block_copied_witness :
  extractPasteable
    ((js "Run this:" ++ [NL]) ++ FENCE ++ js "bash" ++ [NL] ++ (js "ls -la" ++ [NL])
     ++ FENCE ++ [])
  = js "ls -la".
Proof.
  destruct fenced_block_copied as [H _].
  refine (proj1 (H (js "Run this:" ++ [NL]) (js "bash") (js "ls -la" ++ [NL]) []
                   _ _ _ _ _)).
  - vm_compute. intuition discriminate.
  - split; vm_compute; intuition discriminate.
  - vm_compute. intuition discriminate.
  - intros [].
  - vm_compute. discriminate.
Defined.

(** ** The error line shown in the overlay *)

Lemma splitOn_pieces (c : N) (s : jsstring) :
  Forall (fun l => ~ In c l) (splitOn c s).
Proof.
  induction s as [|x s IH]; simpl.
  - constructor; [intros [] | constructor].
  - destruct (N.eqb_spec x c) as [->|Hx].
    + constructor; [intros [] | exact IH].
    + destruct (splitOn c s) as [|h r]; [constructor; [|constructor]|].
      * intros [H|[]]. congruence.
      * inversion IH as [|? ? Hh Hr]; subst. constructor; [|exact Hr].
        intros [H|H]; [congruence | exact (Hh H)].
Qed.

Lemma in_dropWhile (p : N -> bool) (x : N) (s : jsstring) :
  In x (dropWhile p s) -> In x s.
Proof.
  induction s as [|y s IH]; simpl; [tauto|].
  destruct (p y); [intros H; right; exact (IH H) | tauto].
Qed.

Lemma in_trim (x : N) (s : jsstring) : In x (trim s) -> In x s.
Proof.
  unfold trim, trimStart, trimEnd. intros H.
  apply in_dropWhile, in_rev, in_dropWhile, in_rev in H. exact H.
Qed.

(** A greedy star over a character class matches when what follows it
    matches after some run of the class. *)
Lemma greedy_star_found (p : N -> bool) (k : mstate -> option mstate)
  (post : jsstring) (c : list (nat * (nat * nat))) :
  forall (pre : jsstring) (i fuel : nat),
    forallb p pre = true ->
    (length pre < fuel)%nat ->
    k (MState (i + length pre) post c) <> None ->
    repeatMatcher (rmatch (Set_ p)) true k fuel 0 None (MState i (pre ++ post) c) <> None.
Proof.
  induction pre as [|a pre IH]; intros i fuel Hall Hf Hk.
  - destruct fuel as [|fuel]; [simpl in Hf; lia|].
    simpl length in Hk. rewrite Nat.add_0_r in Hk.
    rewrite repeatMatcher_S. cbv zeta. change (0 =? 0)%nat with true. cbn [negb app].
    match goal with |- match ?m with _ => _ end <> None => destruct m end;
      [discriminate | exact Hk].
  - destruct fuel as [|fuel]; [simpl in Hf; lia|].
    simpl in Hall. apply andb_true_iff in Hall. destruct Hall as [Ha Hall].
    assert (Hne : (S i =? i)%nat = false) by (apply Nat.eqb_neq; lia).
    rewrite repeatMatcher_S. cbv zeta. change (0 =? 0)%nat with true. cbn [negb app].
    cbn [rmatch rest pos caps]. rewrite Ha, Hne, andb_false_r.
    pose proof (IH (S i) fuel Hall) as H. cbn [rmatch] in H.
    cbn [Nat.pred].
    match goal with
    | |- match ?m with _ => _ end <> None =>
        assert (Hm : m <> None);
        [apply H; [simpl in Hf; lia | simpl length in Hk; rewrite Nat.add_succ_r in Hk; exact Hk]
        | destruct m; [discriminate | congruence]]
    end.
Qed.

(** The messages that [friendlyError] takes for expired credentials. *)
Lemma reSignature_found (pre post : jsstring) :
  (forall mid, map upper mid = map upper (js "signing method") ->
               test reSignature (pre ++ mid ++ post) = true)
  /\ (forall m1 gap m2,
         map upper m1 = map upper (js "signature") ->
         forallb (fun x => negb (isLineTerminator x)) gap = true ->
         map upper m2 = map upper (js "does not match") ->
         test reSignature (pre ++ (m1 ++ gap ++ m2) ++ post) = true).
Proof.
  split.
  - intros mid H. apply test_found. intros i. unfold matchAt, reSignature.
    apply rmatch_alt_right. rewrite (rmatch_liti _ mid post i [] _ H). discriminate.
  - intros m1 gap m2 H1 Hg H2. apply test_found. intros i. unfold matchAt, reSignature.
    apply rmatch_alt_left.
    change (JS.seq [liti (js "signature"); star dot; liti (js "does not match")])
      with (Cat (liti (js "signature"))
              (Cat (star (Set_ (fun x => negb (isLineTerminator x))))
                 (Cat (liti (js "does not match")) Eps))).
    rewrite <- !app_assoc.
    rewrite rmatch_cat, (rmatch_liti _ m1 _ i [] _ H1).
    rewrite rmatch_cat, rmatch_star_set. cbn [rest].
    apply greedy_star_found; [exact Hg | rewrite length_app; lia |].
    rewrite rmatch_cat, (rmatch_liti _ m2 post _ [] _ H2). discriminate.
Qed.

(** The detail shown for an error is one line of at most 203 code units.
    When the message matches the pattern for expired credentials, as every
    message does that holds [signing method], or [signature] followed on
    the same line by [does not match], in any letter case, it is the fixed
    sentence.  Otherwise it is the trimmed first line of the message, as it
    is when that has at most 200 code units, and else its first 200 code
    units followed by three dots, 203 code units in all. *)
Theorem friendlyError_one_line (message : jsstring) :
  let sentence :=
    js "AWS credentials expired " ++ [8212%N] ++ js " refresh your credentials and try again." in
  let firstLine := trim (hd [] (splitOn NL (errorText message))) in
  (length (friendlyError message) <= 203)%nat
  /\ ~ In NL (friendlyError message)
  /\ (test reSignature (errorText message) = true -> friendlyError message = sentence)
  /\ (test reSignature (errorText message) = false ->
      (length firstLine <= 200)%nat -> friendlyError message = firstLine)
  /\ (test reSignature (errorText message) = false ->
      (200 < length firstLine)%nat ->
      friendlyError message = firstn 200 firstLine ++ js "..."
      /\ length (friendlyError message) = 203%nat)
  /\ (forall pre mid post,
         message = pre ++ mid ++ post ->
         map upper mid = map upper (js "signing method") ->
         friendlyError message = sentence)
  /\ (forall pre m1 gap m2 post,
         message = pre ++ (m1 ++ gap ++ m2) ++ post ->
         map upper m1 = map upper (js "signature") ->
         forallb (fun x => negb (isLineTerminator x)) gap = true ->
         map upper m2 = map upper (js "does not match") ->
         friendlyError message = sentence).
Proof.
  intros sentence firstLine.
  assert (Hsig : test reSignature (errorText message) = true -> friendlyError message = sentence).
  { intros H. unfold friendlyError. cbv zeta. rewrite H. reflexivity. }
  assert (Htext : forall mid, mid <> [] -> forall pre post,
             message = pre ++ mid ++ post -> errorText message = message).
  { intros mid Hm pre post ->. unfold errorText.
    destruct (pre ++ mid ++ post) eqn:E; [|reflexivity].
    apply app_eq_nil in E. destruct E as [_ E]. apply app_eq_nil in E.
    destruct E as [E _]. contradiction. }
  assert (Hbound : (length (friendlyError message) <= 203)%nat
                   /\ ~ In NL (friendlyError message)
                   /\ (test reSignature (errorText message) = false ->
                       (length firstLine <= 200)%nat -> friendlyError message = firstLine)
                   /\ (test reSignature (errorText message) = false ->
                       (200 < length firstLine)%nat ->
                       friendlyError message = firstn 200 firstLine ++ js "..."
                       /\ length (friendlyError message) = 203%nat)).
  { unfold friendlyError. cbv zeta. fold firstLine.
    destruct (test reSignature (errorText message)).
    - split; [apply Nat.leb_le; vm_compute; reflexivity|].
      split; [vm_compute; intuition discriminate|]. split; discriminate.
    - assert (Hnl : ~ In NL firstLine).
      { intros H. apply in_trim in H.
        pose proof (splitOn_pieces NL (errorText message)) as Hp.
        destruct (splitOn NL (errorText message)) as [|l r]; [exact H|].
        inversion Hp; subst. contradiction. }
      destruct (200 <? length firstLine)%nat eqn:E.
      + apply Nat.ltb_lt in E.
        assert (Hlen : length (firstn 200 firstLine ++ js "...") = 203%nat).
        { rewrite length_app, length_firstn. change (length (js "...")) with 3%nat. lia. }
        split; [rewrite Hlen; lia|].
        split.
        * intros H. apply in_app_or in H. destruct H as [H|H].
          -- apply Hnl. rewrite <- (firstn_skipn 200 firstLine).
             apply in_or_app. left. exact H.
          -- vm_compute in H. intuition discriminate.
        * split; [intros _ Hle; lia | intros _ _; split; [reflexivity | exact Hlen]].
      + apply Nat.ltb_ge in E. split; [lia|]. split; [exact Hnl|].
        split; [reflexivity | intros _ Hgt; lia]. }
  destruct Hbound as (H1 & H2 & H3 & H4).
  split; [exact H1|]. split; [exact H2|]. split; [exact Hsig|].
  split; [exact H3|]. split; [exact H4|]. split.
  - intros pre mid post E Hm. apply Hsig.
    rewrite (Htext mid) with (pre := pre) (post := post); [| |exact E].
    + rewrite E. apply (proj1 (reSignature_found pre post)). exact Hm.
    + intros ->. discriminate Hm.
  - intros pre m1 gap m2 post E Hm1 Hg Hm2. apply Hsig.
    rewrite (Htext (m1 ++ gap ++ m2)) with (pre := pre) (post := post); [| |exact E].
    + rewrite E. apply (proj2 (reSignature_found pre post)); assumption.
    + intros Hnil. apply app_eq_nil in Hnil. destruct Hnil as [-> _]. discriminate Hm1.
Qed.

Lemma friendlyError_one_line_witness :
  friendlyError (js "connect ECONNREFUSED 127.0.0.1:443 " ++ [NL] ++ js "    at TCP.connect")
  = js "connect ECONNREFUSED 127.0.0.1:443"
  /\ friendlyError (js "The request signature we calculated does not match")
     = js "AWS credentials expired " ++ [8212%N]
       ++ js " refresh your credentials and try again.".
Proof.
  split.
  - refine (proj1 (proj2 (proj2 (proj2
              (friendlyError_one_line
                 (js "connect ECONNREFUSED 127.0.0.1:443 " ++ [NL]
                  ++ js "    at TCP.connect"))))) _ _).
    + vm_compute. reflexivity.
    + vm_compute. lia.
  - destruct (friendlyError_one_line
                (js "The request signature we calculated does not match"))
      as (_ & _ & _ & _ & _ & _ & H).
    apply (H (js "The request ") (js "signature") (js " we calculated ")
             (js "does not match") []); reflexivity.
Defined.

(** ** A capture that outlives its session *)

(** The screenshot awaited by [captureContext] is assigned to the
    conversation object that was current when the capture was requested.
    When it arrives after that conversation was replaced, the conversation
    of the orchestrator is left as it is; with no screenshot there, the
    call still shows the overlay and clears [contextReady]. *)
Theorem stale_capture_dropped (w : World) (i c : nat) (r : Result) :
  nth_error (pool w) i = Some (KCaptureShot c) ->
  c <> convId (conversation (orch w)) ->
  let out := step (Settle i r) w in
  conversation (orch (fst out)) = conversation (orch w)
  /\ state (orch (fst out)) = state (orch w)
  /\ (screenshot (conversation (orch w)) = None ->
      contextReady (orch (fst out)) = false /\ snd out = [ShowOverlay]
      /\ pool (fst out) = removeAt i (pool w)).
Proof.
  intros Hk Hc out. subst out. cbn [step]. rewrite Hk. cbn [ready resume].
  destruct w as [o l p n]. destruct o as [d st cv rd rn s0 cr ai fin].
  destruct d as [ov wsv cs ts hs bs hl hf sp cm lc].
  cbn [orch conversation pool state] in *.
  assert (Hne : (convId cv =? c)%nat = false) by (apply Nat.eqb_neq; congruence).
  destruct cv as [cid ms sh wi tu]. cbn [convId screenshot] in *.
  destruct r, sh as [shot|], ov, hl, hf; crunch; rewrite ?Hne; crunch;
    repeat split; intros; try discriminate; repeat split.
Qed.

Lemma stale_capture_dropped_witness :
  let w := fst (run staleCapture (initialWorld captureOnly)) in
  let shot := MkScreenshot (js "aGVsbG8=") (js "image/png") in
  let w' := fst (step (Settle 0 (ResolvedShot (Some shot))) w) in
  pool w = [KCaptureShot 1; KCaptureShot 3]
  /\ screenshot (conversation (orch w')) = None
  /\ contextReady (orch w') = false
  /\ pool w' = [KCaptureShot 3].
Proof.
  intros w shot w'.
  assert (Hp : pool w = [KCaptureShot 1; KCaptureShot 3]) by (vm_compute; reflexivity).
  assert (Hs : screenshot (conversation (orch w)) = None) by (vm_compute; reflexivity).
  destruct (stale_capture_dropped w 0 1 (ResolvedShot (Some shot))) as (H1 & _ & H3).
  - rewrite Hp. reflexivity.
  - vm_compute. discriminate.
  - destruct (H3 Hs) as (H4 & _ & H6).
    split; [exact Hp|]. split; [|split; [exact H4|]].
    + unfold w'. rewrite H1. exact Hs.
    + unfold w'. rewrite H6, Hp. reflexivity.
Defined.

(** ** The provider cache of the AI service *)

Lemma sameType_eq (a : option string) (t : string) :
  AIService.sameType a t = true -> a = Some t.
Proof.
  destruct a as [x|]; simpl; [|discriminate].
  intros H. apply String.eqb_eq in H. congruence.
Qed.

Lemma apply_coherent (op : AIService.Op) (s : AIService.Service) :
  AIService.Coherent s -> AIService.Coherent (fst (AIService.apply op s)).
Proof.
  intros H. destruct op as [cfg|]; cbn [AIService.apply].
  - unfold AIService.getProvider.
    destruct (AIService.sameType (AIService.providerType s) (AIService.activeType cfg));
      cbn [negb].
    + exact H.
    + destruct (AIService.lookup (AIService.activeType cfg) AIService.PROVIDERS)
        as [cls|] eqn:E; cbn [fst].
      * unfold AIService.Coherent. cbn. split; [exact E | lia].
      * exact H.
  - exact I.
Qed.

Lemma applyAll_coherent (ops : list AIService.Op) :
  forall s, AIService.Coherent s -> AIService.Coherent (fst (AIService.applyAll ops s)).
Proof.
  induction ops as [|op ops IH]; intros s H; [exact H|].
  cbn [AIService.applyAll]. pose proof (apply_coherent op s H) as H1.
  destruct (AIService.apply op s) as [s1 e1]. cbn [fst] in H1.
  specialize (IH s1 H1). destruct (AIService.applyAll ops s1) as [s2 e2]. exact IH.
Qed.

(** After any calls of [getProvider] and [invalidateClient], under any
    configuration: [getProvider] returns an object of the class registered
    for the configured id, the cached one when the cached id is the
    configured one and otherwise a new one, which it caches; for an id that
    is not registered it throws and leaves the service as it was. *)
Theorem ai_provider_of_configured_class (ops : list AIService.Op) (cfg : option string) :
  let s := fst (AIService.applyAll ops AIService.initial) in
  match AIService.getProvider cfg s with
  | (AIService.Returned (Some p), s', effects) =>
      AIService.lookup (AIService.activeType cfg) AIService.PROVIDERS
      = Some (AIService.className p)
      /\ AIService.provider s' = Some p
      /\ AIService.providerType s' = Some (AIService.activeType cfg)
      /\ (if AIService.sameType (AIService.providerType s) (AIService.activeType cfg)
          then effects = [] /\ s' = s
          else effects = [AIService.Construct p]
               /\ AIService.serial p = AIService.constructed s
               /\ AIService.provider s <> Some p)
  | (AIService.Returned None, _, _) => False
  | (AIService.Threw _, s', effects) =>
      AIService.lookup (AIService.activeType cfg) AIService.PROVIDERS = None
      /\ s' = s /\ effects = []
  end.
Proof.
  intros s.
  assert (H : AIService.Coherent s) by (apply applyAll_coherent; exact I).
  unfold AIService.getProvider.
  destruct (AIService.sameType (AIService.providerType s) (AIService.activeType cfg))
    eqn:E; cbn [negb].
  - apply sameType_eq in E. unfold AIService.Coherent in H. rewrite E in H |- *.
    destruct (AIService.provider s) as [p|] eqn:Ep; [|contradiction].
    destruct H as [H _]. repeat split; try assumption; reflexivity.
  - destruct (AIService.lookup (AIService.activeType cfg) AIService.PROVIDERS)
      as [cls|] eqn:El.
    + cbn. repeat split.
      intros Hp. unfold AIService.Coherent in H. rewrite Hp in H.
      destruct (AIService.providerType s); [|contradiction]. cbn in H. lia.
    + repeat split.
Qed.

(** ** Labels in brackets, one per line *)

(** A greedy quantifier over a character class, when what follows cannot
    start inside the class: it takes the whole run, or the match fails. *)
Lemma greedy_exact (p : N -> bool) (k : mstate -> option mstate)
  (post : jsstring) (c : list (nat * (nat * nat))) :
  post = [] \/ p (hd 0%N post) = false ->
  (forall y a t, rest y = a :: t -> p a = true -> k y = None) ->
  forall (pre : jsstring) (i fuel min : nat),
    forallb p pre = true ->
    (length pre < fuel)%nat ->
    (min <= length pre)%nat ->
    repeatMatcher (rmatch (Set_ p)) true k fuel min None (MState i (pre ++ post) c)
    = k (MState (i + length pre) post c).
Proof.
  intros Hpost Hk. induction pre as [|a pre IH]; intros i fuel min Hall Hf Hmin.
  - destruct fuel as [|fuel]; [simpl in Hf; lia|].
    assert (min = 0%nat) by (simpl in Hmin; lia). subst min.
    rewrite repeatMatcher_S. cbv zeta. change (0 =? 0)%nat with true. cbn [negb andb app].
    simpl length. rewrite Nat.add_0_r.
    assert (Hm : forall d, rmatch (Set_ p) (MState i post c) d = None).
    { intros d. cbn [rmatch rest]. destruct Hpost as [->|Hp]; [reflexivity|].
      destruct post as [|y post]; [reflexivity|]. simpl in Hp. rewrite Hp. reflexivity. }
    rewrite Hm. reflexivity.
  - destruct fuel as [|fuel]; [simpl in Hf; lia|].
    simpl in Hall. apply andb_true_iff in Hall. destruct Hall as [Ha Hall].
    assert (Hne : (S i =? i)%nat = false) by (apply Nat.eqb_neq; lia).
    rewrite repeatMatcher_S. cbv zeta. cbn [app].
    assert (Hd : rmatch (Set_ p) (MState i (a :: pre ++ post) c)
                   (fun y => if (min =? 0)%nat && (pos y =? pos (MState i (a :: pre ++ post) c))%nat
                             then None
                             else repeatMatcher (rmatch (Set_ p)) true k fuel (Nat.pred min) None y)
                 = k (MState (i + length (a :: pre)) post c)).
    { cbn [rmatch rest pos caps]. rewrite Ha, Hne, andb_false_r.
      pose proof (IH (S i) fuel (Nat.pred min) Hall) as H. cbn [rmatch] in H.
      rewrite H; [|simpl in Hf; lia | simpl in Hmin; lia].
      simpl length. rewrite Nat.add_succ_r. reflexivity. }
    rewrite Hd. destruct (negb (min =? 0)%nat); [reflexivity|].
    destruct (k (MState (i + length (a :: pre)) post c)) eqn:E; [reflexivity|].
    apply (Hk _ a (pre ++ post)); [reflexivity | exact Ha].
Qed.

Lemma rmatch_plus_set (p : N -> bool) (x : mstate) (k : mstate -> option mstate) :
  rmatch (plus (Set_ p)) x k
  = repeatMatcher (rmatch (Set_ p)) true k (S (1 + length (rest x))) 1 None x.
Proof. reflexivity. Qed.

Lemma lineLabel_spec (l : jsstring) :
  AI.lineLabel l = true ->
  l <> [] /\ trim l = l /\ forallb AI.inLabel l = true
  /\ ~ In (ch "[") l /\ ~ In (ch ":") l.
Proof.
  unfold AI.lineLabel. intros H.
  repeat (apply andb_true_iff in H; let H' := fresh "H" in destruct H as [H H']).
  apply negb_true_iff in H. apply isEmpty_false in H. apply jseq_eq in H1.
  rewrite forallb_forall in H0.
  repeat split; try assumption.
  - apply forallb_forall. intros x Hx. specialize (H0 x Hx).
    unfold AI.inLabel. cbn [existsb] in *. apply negb_true_iff in H0.
    apply orb_false_iff in H0. destruct H0 as [_ H0].
    apply orb_false_iff in H0. destruct H0 as [H2 H0].
    apply orb_false_iff in H0. destruct H0 as [H3 _].
    rewrite H2, H3. reflexivity.
  - intros Hi. specialize (H0 _ Hi). discriminate.
  - intros Hi. specialize (H0 _ Hi). discriminate.
Qed.

(** One bracketed line is one iteration of the group, whatever follows. *)
Lemma bracketGroup_line (l rest0 : jsstring) (i : nat) (c : list (nat * (nat * nat)))
  (d : mstate -> option mstate) :
  l <> [] -> forallb AI.inLabel l = true ->
  rmatch AI.bracketGroup (MState i (AI.bracketLine l ++ rest0) c) d
  = d (MState (i + 3 + length l) rest0 ((1%nat, (i, (i + 3 + length l)%nat)) :: c)).
Proof.
  intros Hne Hl. unfold AI.bracketGroup, AI.bracketLine.
  rewrite rmatch_grp. cbn [pos app]. rewrite rmatch_cat, rmatch_chr.
  rewrite rmatch_cat, rmatch_star_set. cbn [rest].
  rewrite (greedy_exact isWhiteSpace _ (ch "[" :: (l ++ [ch "]"]) ++ rest0) c
             (or_intror eq_refl)) with (pre := []); [| |reflexivity|simpl; lia|simpl; lia].
  2:{ intros y a t Hy Ha. rewrite rmatch_cat. destruct y as [py ry cy]. cbn [rest] in Hy.
      subst ry. apply rmatch_chr_other. intros ->. discriminate Ha. }
  rewrite rmatch_cat, rmatch_chr. rewrite rmatch_cat, rmatch_plus_set. cbn [rest].
  rewrite <- app_assoc. cbn [app].
  rewrite (greedy_exact AI.inLabel _ (ch "]" :: rest0) c (or_intror eq_refl));
    [| | exact Hl | rewrite length_app; simpl; lia | destruct l; [congruence | simpl; lia]].
  2:{ intros y a t Hy Ha. rewrite rmatch_cat. destruct y as [py ry cy]. cbn [rest] in Hy.
      subst ry. apply rmatch_chr_other. intros ->. discriminate Ha. }
  rewrite rmatch_cat, rmatch_chr. cbn [rmatch]. unfold setCap. cbn [pos rest caps].
  replace (S (S (S i + length (@nil N)) + length l)) with (i + 3 + length l)%nat
    by (simpl; lia).
  reflexivity.
Qed.

Lemma bracketGroup_needs : needs (ch "[") AI.bracketGroup.
Proof. unfold AI.bracketGroup. cbn [needs]. right. right. left. apply chr_needs. Qed.

Lemma length_bracketLines (ls : list jsstring) :
  (length ls <= length (concat (map AI.bracketLine ls)))%nat.
Proof.
  induction ls as [|l ls IH]; [simpl; lia|].
  cbn [map concat]. rewrite length_app. unfold AI.bracketLine at 1. simpl. lia.
Qed.

(** The bracketed lines are as many iterations of the group, and what
    follows the quantifier is tried after the last of them. *)
Lemma bracketLines_repeat (tail : jsstring) (K : mstate -> option mstate) :
  ~ In (ch "[") tail ->
  (forall e c, exists z, K (MState e tail c) = Some z /\ pos z = (e + length tail)%nat) ->
  forall (ls : list jsstring) (i : nat) (c : list (nat * (nat * nat))) (fuel min : nat),
    Forall (fun l => l <> [] /\ forallb AI.inLabel l = true) ls ->
    (length ls < fuel)%nat ->
    (min <= length ls)%nat ->
    exists z,
      repeatMatcher (rmatch AI.bracketGroup) true K fuel min None
        (MState i (concat (map AI.bracketLine ls) ++ tail) c) = Some z
      /\ pos z = (i + length (concat (map AI.bracketLine ls)) + length tail)%nat.
Proof.
  intros Htail HK. induction ls as [|l ls IH]; intros i c fuel min Hall Hf Hmin.
  - destruct fuel as [|fuel]; [simpl in Hf; lia|].
    assert (min = 0%nat) by (simpl in Hmin; lia). subst min.
    rewrite repeatMatcher_S. cbv zeta. change (0 =? 0)%nat with true. cbn [negb map concat app].
    rewrite (rmatch_needs _ _ bracketGroup_needs) by exact Htail.
    destruct (HK i c) as (z & Hz & Hp). exists z. split; [exact Hz|].
    rewrite Hp. simpl. lia.
  - destruct fuel as [|fuel]; [simpl in Hf; lia|].
    inversion Hall as [|? ? [Hne Hl] Hls]; subst.
    rewrite repeatMatcher_S. cbv zeta. cbn [map concat]. rewrite <- app_assoc.
    rewrite bracketGroup_line by assumption. cbn [pos].
    replace (i + 3 + length l =? i)%nat with false by (symmetry; apply Nat.eqb_neq; lia).
    rewrite andb_false_r.
    destruct (IH (i + 3 + length l)%nat ((1%nat, (i, (i + 3 + length l)%nat)) :: c)
                 fuel (Nat.pred min) Hls) as (z & Hz & Hp);
      [simpl in Hf; lia | simpl in Hmin; lia |].
    rewrite Hz. exists z. split; [destruct (negb (min =? 0)%nat); reflexivity|].
    rewrite Hp, length_app. unfold AI.bracketLine at 2. simpl. rewrite length_app.
    simpl. lia.
Qed.

Lemma reTrailingLines_matchAt (tail : jsstring) (ls : list jsstring) (i : nat) :
  forallb isWhiteSpace tail = true ->
  Forall (fun l => l <> [] /\ forallb AI.inLabel l = true) ls ->
  (2 <= length ls)%nat ->
  exists z,
    matchAt AI.reTrailingLines i (concat (map AI.bracketLine ls) ++ tail) = Some z
    /\ pos z = (i + length (concat (map AI.bracketLine ls)) + length tail)%nat.
Proof.
  intros Htail Hls Hlen. unfold matchAt.
  change AI.reTrailingLines
    with (Cat (Rep 2 None true AI.bracketGroup)
            (Cat (star (Set_ isWhiteSpace)) (Cat Eol Eps))).
  rewrite rmatch_cat.
  change (rmatch (Rep 2 None true AI.bracketGroup) ?x ?k)
    with (repeatMatcher (rmatch AI.bracketGroup) true k (S (2 + length (rest x))) 2 None x).
  apply bracketLines_repeat; try assumption.
  - intros H. rewrite forallb_forall in Htail. specialize (Htail _ H). discriminate.
  - intros e c. eexists. split.
    + rewrite rmatch_cat, rmatch_star_set. cbn [rest].
      rewrite <- (app_nil_r tail) at 2.
      apply greedy_star; [left; reflexivity | exact Htail | lia |].
      cbn [rmatch rest]. reflexivity.
    + reflexivity.
  - cbn [rest]. rewrite length_app. pose proof (length_bracketLines ls). lia.
Qed.

Lemma rmatch_atLeast2 (g : regex) (x : mstate) (k : mstate -> option mstate) :
  rmatch (Rep 2 None true g) x k
  = rmatch g x (fun y => repeatMatcher (rmatch g) true k (2 + length (rest x)) 1 None y).
Proof. reflexivity. Qed.

Lemma first_not_blank (suf : jsstring) :
  suf <> [] -> isWhiteSpace (last suf 0%N) = false ->
  exists w y t, suf = w ++ y :: t /\ forallb isWhiteSpace w = true /\ isWhiteSpace y = false.
Proof.
  induction suf as [|a suf IH]; intros Hne Hl; [congruence|].
  destruct (isWhiteSpace a) eqn:Ea.
  - destruct suf as [|b suf]; [simpl in Hl; congruence|].
    destruct IH as (w & y & t & E & Hw & Hy); [discriminate | exact Hl |].
    exists (a :: w), y, t. rewrite E. cbn [forallb]. rewrite Ea, Hw. repeat split. exact Hy.
  - exists [], a, suf. repeat split. exact Ea.
Qed.

(** The pattern for bracketed lines does not match inside a text without
    an opening bracket that ends in a character other than white space. *)
Lemma reTrailingLines_content (content s : jsstring) :
  ~ In (ch "[") content ->
  content = [] \/ isWhiteSpace (last content 0%N) = false ->
  forall pre x suf (j : nat),
    content = pre ++ x :: suf ->
    matchAt AI.reTrailingLines j (x :: suf ++ s) = None.
Proof.
  intros Hb Hl pre x suf j E. unfold matchAt.
  change AI.reTrailingLines
    with (Cat (Rep 2 None true AI.bracketGroup)
            (Cat (star (Set_ isWhiteSpace)) (Cat Eol Eps))).
  rewrite rmatch_cat, rmatch_atLeast2. unfold AI.bracketGroup at 1.
  rewrite rmatch_grp, rmatch_cat.
  destruct (N.eqb_spec x NL) as [->|Hx]; [|apply rmatch_chr_other; exact Hx].
  rewrite rmatch_chr.
  destruct Hl as [->|Hl]; [destruct pre; discriminate|].
  assert (Hsuf : suf <> [] /\ isWhiteSpace (last suf 0%N) = false).
  { rewrite E in Hl. destruct suf as [|a suf].
    - rewrite last_last in Hl. discriminate Hl.
    - split; [discriminate|].
      replace (pre ++ NL :: a :: suf) with ((pre ++ [NL]) ++ a :: suf) in Hl
        by (rewrite <- app_assoc; reflexivity).
      rewrite last_suffix in Hl by discriminate. exact Hl. }
  destruct (first_not_blank suf (proj1 Hsuf) (proj2 Hsuf)) as (w & y & t & Es & Hw & Hy).
  rewrite rmatch_cat, rmatch_star_set. cbn [rest]. rewrite Es, <- app_assoc. cbn [app].
  rewrite (greedy_exact isWhiteSpace _ (y :: t ++ s) _ (or_intror Hy));
    [| | exact Hw | rewrite length_app; simpl; lia | lia].
  - rewrite rmatch_cat. apply rmatch_chr_other. intros ->.
    apply Hb. rewrite E, Es. apply in_or_app. right. right.
    apply in_or_app. right. left. reflexivity.
  - intros z a u Hz Ha. rewrite rmatch_cat. destruct z as [pz rz cz]. cbn [rest] in Hz.
    subst rz. apply rmatch_chr_other. intros ->. discriminate Ha.
Qed.

Lemma execFrom_skip_ctx (r : regex) (s : jsstring) :
  forall (body : jsstring) (i : nat),
    (forall pre x suf (j : nat),
        body = pre ++ x :: suf -> matchAt r j (x :: suf ++ s) = None) ->
    execFrom r i (body ++ s) = execFrom r (i + length body) s.
Proof.
  induction body as [|x body IH]; intros i H.
  - simpl. rewrite Nat.add_0_r. reflexivity.
  - cbn [app execFrom]. rewrite (H [] x body i eq_refl).
    rewrite IH.
    + simpl length. rewrite Nat.add_succ_r. reflexivity.
    + intros pre y suf j E. apply (H (x :: pre) y suf j). rewrite E. reflexivity.
Qed.

Lemma needs_liti (c : N) (w : jsstring) :
  (forall d, upper d = upper c -> d = c) -> In c w -> needs c (liti w).
Proof.
  intros Hc. induction w as [|a w IH]; [contradiction|].
  intros [->|H]; change (liti (?a :: w)) with (Cat (chri a) (liti w)); cbn [needs].
  - left. intros d Hd. apply N.eqb_eq in Hd. apply Hc. exact Hd.
  - right. apply IH. exact H.
Qed.

Lemma reButtonsTag_needs_colon : needs (ch ":") AI.reButtonsTag.
Proof.
  change AI.reButtonsTag
    with (Cat (liti (js "[BUTTONS:"))
            (JS.seq [star ws; Grp 1 (lazyPlus anyChar); chri (ch "]"); star ws; Eol])).
  left. apply needs_liti.
  - intros d Hd. change (upper (ch ":")) with 58%N in Hd. change (ch ":") with 58%N.
    unfold upper in Hd. destruct ((97 <=? d)%N && (d <=? 122)%N) eqn:E; [|exact Hd].
    apply andb_true_iff in E. destruct E as [E1 E2].
    apply N.leb_le in E1. apply N.leb_le in E2. lia.
  - vm_compute. tauto.
Qed.

Lemma reLabel_needs : needs (ch "[") AI.reLabel.
Proof.
  change AI.reLabel
    with (Cat (chr (ch "[")) (Cat (Grp 1 (plus (Set_ AI.inLabel))) (Cat (chr (ch "]")) Eps))).
  left. apply chr_needs.
Qed.

Lemma reLabel_matchAt (l rest0 : jsstring) (i : nat) :
  l <> [] -> forallb AI.inLabel l = true ->
  matchAt AI.reLabel i (ch "[" :: l ++ ch "]" :: rest0)
  = Some (MState (i + 2 + length l) rest0 [(1%nat, (S i, (S i + length l)%nat))]).
Proof.
  intros Hne Hl. unfold matchAt.
  change AI.reLabel
    with (Cat (chr (ch "[")) (Cat (Grp 1 (plus (Set_ AI.inLabel))) (Cat (chr (ch "]")) Eps))).
  rewrite rmatch_cat, rmatch_chr, rmatch_cat, rmatch_grp, rmatch_plus_set. cbn [rest pos].
  rewrite (greedy_exact AI.inLabel _ (ch "]" :: rest0) _ (or_intror eq_refl));
    [| | exact Hl | rewrite length_app; simpl; lia | destruct l; [congruence | simpl; lia]].
  - unfold setCap. cbn [pos rest caps]. rewrite rmatch_cat, rmatch_chr. cbn [rmatch].
    f_equal. f_equal. lia.
  - intros z a u Hz Ha. unfold setCap. cbn [pos caps]. rewrite Hz.
    rewrite rmatch_cat. apply rmatch_chr_other. intros ->. discriminate Ha.
Qed.

Lemma scan_S (fuel : nat) (r : regex) (i : nat) (s : jsstring) :
  scan (S fuel) r i s
  = match matchAt r i s with
    | Some y =>
        MkMatch i y ::
        (if (pos y =? i)%nat then
           match s with [] => [] | _ :: t => scan fuel r (S i) t end
         else scan fuel r (pos y) (rest y))
    | None => match s with [] => [] | _ :: t => scan fuel r (S i) t end
    end.
Proof. reflexivity. Qed.

Lemma bracketLines_cons (l : jsstring) (ls : list jsstring) (tail : jsstring) :
  concat (map AI.bracketLine (l :: ls)) ++ tail
  = NL :: ch "[" :: l ++ ch "]" :: concat (map AI.bracketLine ls) ++ tail.
Proof.
  cbn [map concat]. unfold AI.bracketLine at 1. rewrite <- app_assoc. cbn [app].
  rewrite <- app_assoc. reflexivity.
Qed.

(** The labels found in the matched text are those of the lines. *)
Lemma scan_bracketLines (tail : jsstring) :
  ~ In (ch "[") tail ->
  forall (ls : list jsstring) (done : jsstring) (fuel : nat),
    Forall (fun l => l <> [] /\ forallb AI.inLabel l = true) ls ->
    (length (concat (map AI.bracketLine ls) ++ tail) < fuel)%nat ->
    map (fun m => trim (group (done ++ concat (map AI.bracketLine ls) ++ tail) 1 m))
        (scan fuel AI.reLabel (length done) (concat (map AI.bracketLine ls) ++ tail))
    = map trim ls.
Proof.
  intros Htail. induction ls as [|l ls IH]; intros done fuel Hall Hf.
  - cbn [map concat app]. rewrite (scan_needs _ _ reLabel_needs) by exact Htail.
    reflexivity.
  - inversion Hall as [|? ? [Hne Hl] Hls]; subst.
    rewrite bracketLines_cons in *.
    set (R := concat (map AI.bracketLine ls) ++ tail) in *.
    destruct fuel as [|[|fuel]];
      [simpl in Hf; lia | simpl in Hf; rewrite length_app in Hf; simpl in Hf; lia|].
    rewrite scan_S.
    replace (matchAt AI.reLabel (length done) (NL :: ch "[" :: l ++ ch "]" :: R))
      with (@None mstate).
    2:{ symmetry. unfold matchAt.
        change AI.reLabel
          with (Cat (chr (ch "["))
                  (Cat (Grp 1 (plus (Set_ AI.inLabel))) (Cat (chr (ch "]")) Eps))).
        rewrite rmatch_cat. apply rmatch_chr_other. discriminate. }
    rewrite scan_S.
    rewrite (reLabel_matchAt l R (S (length done)) Hne Hl). cbn [pos rest].
    replace (S (length done) + 2 + length l =? S (length done))%nat with false
      by (symmetry; apply Nat.eqb_neq; lia).
    cbn [map]. f_equal.
    + f_equal. unfold group, substring. cbn [final caps lookupCap Nat.eqb].
      replace (done ++ NL :: ch "[" :: l ++ ch "]" :: R)
        with ((done ++ [NL; ch "["]) ++ l ++ (ch "]" :: R))
        by (rewrite <- app_assoc; reflexivity).
      replace (S (length done)) with (length (done ++ [NL; ch "["]) - 1)%nat
        by (rewrite length_app; simpl; lia).
      replace (S (length (done ++ [NL; ch "["]) - 1)) with (length (done ++ [NL; ch "["]))
        by (rewrite length_app; simpl; lia).
      apply substring_mid.
    + specialize (IH (done ++ AI.bracketLine l) fuel Hls).
      replace (length (done ++ AI.bracketLine l)) with (S (length done) + 2 + length l)%nat
        in IH
        by (rewrite length_app; unfold AI.bracketLine; simpl; rewrite length_app; simpl; lia).
      fold R in IH.
      replace ((done ++ AI.bracketLine l) ++ R) with (done ++ NL :: ch "[" :: l ++ ch "]" :: R)
        in IH
        by (unfold AI.bracketLine; rewrite <- app_assoc; cbn [app];
            rewrite <- app_assoc; reflexivity).
      apply IH. simpl in Hf. rewrite length_app in Hf. simpl in Hf. lia.
Qed.

Lemma lineLabels_good (labels : list jsstring) :
  forallb AI.lineLabel labels = true ->
  Forall (fun l => l <> [] /\ forallb AI.inLabel l = true) labels
  /\ filterBoolean (map trim labels) = labels
  /\ ~ In (ch ":") (concat (map AI.bracketLine labels)).
Proof.
  induction labels as [|l ls IH]; intros H.
  - repeat split; [constructor | intros []].
  - cbn [forallb] in H. apply andb_true_iff in H. destruct H as [Hl Hls].
    destruct (lineLabel_spec l Hl) as (Hne & Ht & Hin & _ & Hcolon).
    destruct (IH Hls) as (H1 & H2 & H3).
    split; [constructor; [split; assumption | exact H1]|].
    split.
    + cbn [map]. rewrite Ht. unfold filterBoolean in *. cbn [filter].
      destruct l; [congruence|]. cbn [isEmpty negb]. rewrite H2. reflexivity.
    + cbn [map concat]. intros Hi. apply in_app_or in Hi. destruct Hi as [Hi|Hi]; [|exact (H3 Hi)].
      unfold AI.bracketLine in Hi. cbn [In] in Hi.
      destruct Hi as [Hi|[Hi|Hi]]; [discriminate Hi | discriminate Hi |].
      apply in_app_or in Hi. destruct Hi as [Hi|[Hi|[]]]; [exact (Hcolon Hi) | discriminate Hi].
Qed.

(** A response that ends in two or more labels in brackets, one per line:
    the text before them, trimmed, and the labels. *)
Theorem parseButtons_bracket_lines (body tail : jsstring) (labels : list jsstring) :
  ~ In (ch "[") body ->
  body = [] \/ isWhiteSpace (last body 0%N) = false ->
  forallb isWhiteSpace tail = true ->
  (2 <= length labels)%nat ->
  forallb AI.lineLabel labels = true ->
  AI.parseButtons (body ++ concat (map AI.bracketLine labels) ++ tail)
  = AI.MkParsed (trim body) labels.
Proof.
  intros Hb Hend Htail Hlen Hall.
  destruct (lineLabels_good labels Hall) as (Hgood & Hfilter & Hcolon).
  set (L := concat (map AI.bracketLine labels)) in *.
  assert (HtailB : ~ In (ch "[") tail).
  { intros H. rewrite forallb_forall in Htail. specialize (Htail _ H). discriminate. }
  assert (HtailC : ~ In (ch ":") tail).
  { intros H. rewrite forallb_forall in Htail. specialize (Htail _ H). discriminate. }
  assert (HL : (2 <= length L)%nat).
  { pose proof (length_bracketLines labels). unfold L. lia. }
  unfold AI.parseButtons.
  destruct (isEmpty _) eqn:Ee.
  { apply isEmpty_true in Ee. apply app_eq_nil in Ee. destruct Ee as [_ Ee].
    apply app_eq_nil in Ee. destruct Ee as [Ee _]. rewrite Ee in HL. simpl in HL. lia. }
  assert (E1 : exec AI.reButtonsTag (body ++ L ++ tail) = None).
  { unfold exec. rewrite execFrom_skip.
    - apply (execFrom_needs _ _ reButtonsTag_needs_colon).
      intros H. apply in_app_or in H. tauto.
    - intros i y t Hy. apply reButtonsTag_starts. intros ->. contradiction. }
  rewrite E1. cbv zeta.
  destruct (reTrailingLines_matchAt tail labels (0 + length body) Htail Hgood Hlen)
    as (z & Hz & Hpos).
  fold L in Hz, Hpos.
  assert (E2 : exec AI.reTrailingLines (body ++ L ++ tail)
               = Some (MkMatch (0 + length body) z)).
  { unfold exec. rewrite execFrom_skip_ctx.
    - apply execFrom_here. exact Hz.
    - intros pre x suf j E. apply (reTrailingLines_content body _ Hb Hend pre x suf j E). }
  rewrite E2.
  assert (Et0 : matched (body ++ L ++ tail) (MkMatch (0 + length body) z) = L ++ tail).
  { unfold matched, substring. cbn [index final]. rewrite Hpos. cbn [Nat.add].
    rewrite skipn_app, skipn_all, Nat.sub_diag. cbn [skipn app].
    replace (length body + length L + length tail - length body)%nat
      with (length (L ++ tail)) by (rewrite length_app; lia).
    apply firstn_all. }
  rewrite Et0.
  assert (Elabels : filterBoolean (map (fun m => trim (group (L ++ tail) 1 m))
                                       (matchAll AI.reLabel (L ++ tail))) = labels).
  { unfold matchAll.
    pose proof (scan_bracketLines tail HtailB labels [] (S (length (L ++ tail))) Hgood) as H.
    cbn [app length] in H. fold L in H. rewrite H by lia. exact Hfilter. }
  rewrite Elabels.
  replace (2 <=? length labels)%nat with true by (symmetry; apply Nat.leb_le; exact Hlen).
  f_equal. f_equal.
  replace (length (body ++ L ++ tail) - length (L ++ tail))%nat with (length body)
    by (rewrite !length_app; lia).
  rewrite firstn_app, firstn_all, Nat.sub_diag, firstn_O, app_nil_r. reflexivity.
Qed.

Lemma parseButtons_bracket_lines_witness :
  AI.parseButtons
    (js "Draft ready." ++ concat (map AI.bracketLine [js "More formal"; js "More casual"])
     ++ [NL])
  = AI.MkParsed (trim (js "Draft ready.")) [js "More formal"; js "More casual"].
Proof.
  apply parseButtons_bracket_lines.
  - vm_compute. intuition discriminate.
  - right. reflexivity.
  - reflexivity.
  - simpl. lia.
  - vm_compute. reflexivity.
Defined.
